(** * Milo832 shader toolchain: assembler, virtual machine and code generator

    A shallow embedding of [tools/shader/milo_asm.c], [milo_vm.c] and the
    code generator of [milo_glsl.c], with the properties the toolchain's
    specification states about them.

    Conventions.
    - A [uintN_t] is a [Z] in [0, 2^N); wrap-around is written out with
      [u8], [u32], [u64].  An [int32_t] view of a register is [s32] of its
      32-bit pattern.  Signed arithmetic wraps in two's complement.
    - A C array is a [list] read with [!!] and written with [<[i:=x]>]; an
      access outside the array is undefined in C and is [None] here, so the
      stateful functions return an [option].
    - A C string is a [string] (without the terminating NUL); where the
      source truncates into a fixed buffer the truncation is written out.
    - A [float] is a binary32 value: [spec_float] with [prec = 24] and
      [emax = 128], stored in a register as its 32-bit pattern.  The sign and
      payload of a NaN result are left to the platform by C; a NaN is stored
      as the quiet NaN [0x7FC00000]. *)

From Stdlib Require Import ZArith Lia String Ascii List Bool.
From Stdlib Require Import Floats.SpecFloat.
From Stdlib Require Import Numbers.DecimalString.
From Stdlib Require Import Numbers.DecimalPos.
From stdpp Require Import base option list.
From coqutil Require Import Z.bitblast.

Open Scope Z_scope.

(** ** Machine integers *)

Definition u8 (x : Z) : Z := x mod 2 ^ 8.
Definition u32 (x : Z) : Z := x mod 2 ^ 32.
Definition u64 (x : Z) : Z := x mod 2 ^ 64.

(** The [int32_t] read of a 32-bit pattern. *)
Definition s32 (x : Z) : Z := (x + 2 ^ 31) mod 2 ^ 32 - 2 ^ 31.

(** ** milo_asm.h: opcodes *)

Definition OP_NOP : Z := 0x00.
Definition OP_MOV : Z := 0x07.
Definition OP_EXIT : Z := 0xFF.
Definition OP_ADD : Z := 0x01.
Definition OP_SUB : Z := 0x02.
Definition OP_MUL : Z := 0x03.
Definition OP_IMAD : Z := 0x05.
Definition OP_NEG : Z := 0x06.
Definition OP_IDIV : Z := 0x36.
Definition OP_IREM : Z := 0x37.
Definition OP_IABS : Z := 0x38.
Definition OP_IMIN : Z := 0x39.
Definition OP_IMAX : Z := 0x3A.
Definition OP_SLT : Z := 0x04.
Definition OP_SLE : Z := 0x70.
Definition OP_SEQ : Z := 0x71.
Definition OP_AND : Z := 0x50.
Definition OP_OR : Z := 0x51.
Definition OP_XOR : Z := 0x52.
Definition OP_NOT : Z := 0x53.
Definition OP_SHL : Z := 0x60.
Definition OP_SHR : Z := 0x61.
Definition OP_SHA : Z := 0x62.
Definition OP_LDR : Z := 0x10.
Definition OP_STR : Z := 0x11.
Definition OP_LDS : Z := 0x12.
Definition OP_STS : Z := 0x13.
Definition OP_BEQ : Z := 0x20.
Definition OP_BNE : Z := 0x21.
Definition OP_BRA : Z := 0x22.
Definition OP_SSY : Z := 0x23.
Definition OP_JOIN : Z := 0x24.
Definition OP_BAR : Z := 0x25.
Definition OP_TID : Z := 0x26.
Definition OP_CALL : Z := 0x27.
Definition OP_RET : Z := 0x28.
Definition OP_FADD : Z := 0x30.
Definition OP_FSUB : Z := 0x31.
Definition OP_FMUL : Z := 0x32.
Definition OP_FDIV : Z := 0x33.
Definition OP_FTOI : Z := 0x34.
Definition OP_FFMA : Z := 0x35.
Definition OP_FMIN : Z := 0x3B.
Definition OP_FMAX : Z := 0x3C.
Definition OP_FABS : Z := 0x3D.
Definition OP_ITOF : Z := 0x3E.
Definition OP_FNEG : Z := 0x54.
Definition OP_FSLT : Z := 0x72.
Definition OP_FSLE : Z := 0x73.
Definition OP_FSEQ : Z := 0x74.
Definition OP_POPC : Z := 0x68.
Definition OP_CLZ : Z := 0x69.
Definition OP_BREV : Z := 0x6A.
Definition OP_CNOT : Z := 0x6B.
Definition OP_ISETP : Z := 0x80.
Definition OP_FSETP : Z := 0x81.
Definition OP_SELP : Z := 0x82.
Definition OP_SFU_SIN : Z := 0x40.
Definition OP_SFU_COS : Z := 0x41.
Definition OP_SFU_EX2 : Z := 0x42.
Definition OP_SFU_LG2 : Z := 0x43.
Definition OP_SFU_RCP : Z := 0x44.
Definition OP_SFU_RSQ : Z := 0x45.
Definition OP_SFU_SQRT : Z := 0x46.
Definition OP_SFU_TANH : Z := 0x47.
Definition OP_TEX : Z := 0x90.
Definition OP_TXL : Z := 0x91.
Definition OP_TXB : Z := 0x92.

(** ** milo_asm.h: the decoded instruction *)

Record milo_inst_t := {
  opcode : Z;      (* uint8_t *)
  rd : Z;          (* uint8_t *)
  rs1 : Z;         (* uint8_t *)
  rs2 : Z;         (* uint8_t *)
  rs3 : Z;         (* uint8_t *)
  pred : Z;        (* uint8_t *)
  imm : Z;         (* uint32_t *)
  has_imm : bool;
  has_rs3 : bool
}.

(** The value ranges the C field types give. *)
Definition inst_in_range (inst : milo_inst_t) : Prop :=
  0 <= opcode inst < 256 /\ 0 <= rd inst < 256 /\ 0 <= rs1 inst < 256 /\
  0 <= rs2 inst < 256 /\ 0 <= rs3 inst < 256 /\ 0 <= pred inst < 256 /\
  0 <= imm inst < 2 ^ 32.

(** [milo_inst_t inst = {0}] *)
Definition inst_zero : milo_inst_t :=
  {| opcode := 0; rd := 0; rs1 := 0; rs2 := 0; rs3 := 0; pred := 0; imm := 0;
     has_imm := false; has_rs3 := false |}.

(** ** milo_asm.c: instruction encoding *)

Definition milo_encode_inst (inst : milo_inst_t) : Z :=
  let word := 0 in
  let word := Z.lor word (Z.shiftl (opcode inst) 56) in
  let word := Z.lor word (Z.shiftl (rd inst) 48) in
  let word := Z.lor word (Z.shiftl (rs1 inst) 40) in
  let word := Z.lor word (Z.shiftl (rs2 inst) 32) in
  let pred := if pred inst =? 0 then 0x7 else pred inst in
  if has_rs3 inst then
    let word := Z.lor word (Z.shiftl (Z.land pred 0x0F) 28) in
    let word := Z.lor word (Z.shiftl (rs3 inst) 20) in
    Z.lor word (Z.land (imm inst) 0xFFFFF)
  else
    let word := Z.lor word (Z.shiftl (Z.land pred 0x0F) 28) in
    Z.lor word (Z.land (imm inst) 0xFFFFF).

Definition milo_decode_inst (word : Z) : milo_inst_t :=
  {| opcode := Z.land (Z.shiftr word 56) 0xFF;
     rd := Z.land (Z.shiftr word 48) 0xFF;
     rs1 := Z.land (Z.shiftr word 40) 0xFF;
     rs2 := Z.land (Z.shiftr word 32) 0xFF;
     imm := Z.land word 0xFFFFFFFF;
     pred := 0;
     rs3 := 0;
     has_imm := false;
     has_rs3 := false |}.

(** The predicate guard of an instruction word, bits 31..28. *)
Definition word_pred (word : Z) : Z := Z.land (Z.shiftr word 28) 0xF.

(** ** milo_vm.c: field extraction of the interpreter *)

Definition inst_opcode (inst : Z) : Z := Z.land (Z.shiftr inst 56) 0xFF.
Definition inst_rd (inst : Z) : Z := Z.land (Z.shiftr inst 48) 0xFF.
Definition inst_rs1 (inst : Z) : Z := Z.land (Z.shiftr inst 40) 0xFF.
Definition inst_rs2 (inst : Z) : Z := Z.land (Z.shiftr inst 32) 0xFF.

(** 20-bit immediate, sign-extended to an [int32_t]. *)
Definition inst_imm (inst : Z) : Z :=
  let imm20 := Z.land inst 0xFFFFF in
  if Z.land imm20 0x80000 =? 0 then imm20
  else s32 (Z.lor imm20 0xFFF00000).

Definition inst_rs3 (inst : Z) : Z := Z.land (Z.shiftr inst 20) 0xFF.

(** ** C strings *)

Open Scope string_scope.
Open Scope Z_scope.

Infix "+++" := String.append (right associativity, at level 60).

Definition char_code (c : ascii) : Z := Z.of_N (N_of_ascii c).

(** [isspace] in the C locale: space, and \t \n \v \f \r. *)
Definition isspace (c : ascii) : bool :=
  let n := char_code c in (n =? 32) || ((9 <=? n) && (n <=? 13)).

Definition tolower (c : ascii) : ascii :=
  let n := char_code c in
  if (65 <=? n) && (n <=? 90) then ascii_of_N (Z.to_N (n + 32)) else c.

Fixpoint str_map (f : ascii -> ascii) (s : string) : string :=
  match s with
  | EmptyString => EmptyString
  | String c s' => String (f c) (str_map f s')
  end.

(** The first [n] characters: what [strncpy], [snprintf] keep of a string
    written into a zeroed buffer of [n + 1] bytes. *)
Fixpoint str_take (n : nat) (s : string) : string :=
  match n, s with
  | S n', String c s' => String c (str_take n' s')
  | _, _ => EmptyString
  end.

(** [strchr s c]: the text before the first [c] and the text after it. *)
Fixpoint strchr (s : string) (c : ascii) : option (string * string) :=
  match s with
  | EmptyString => None
  | String a s' =>
      if Ascii.eqb a c then Some (EmptyString, s')
      else match strchr s' c with
           | Some (before, after) => Some (String a before, after)
           | None => None
           end
  end.

(** [p = strchr (buf, c); if (p) *p = '\0';] *)
Definition cut_at (c : ascii) (s : string) : string :=
  match strchr s c with
  | Some (before, _) => before
  | None => s
  end.

Fixpoint skip_space (s : string) : string :=
  match s with
  | String c s' => if isspace c then skip_space s' else s
  | EmptyString => EmptyString
  end.

(** Drop the white space at the end of a string. *)
Fixpoint drop_trailing_space (s : string) : string :=
  match s with
  | EmptyString => EmptyString
  | String c s' =>
      match drop_trailing_space s' with
      | EmptyString => if isspace c then EmptyString else String c EmptyString
      | r => String c r
      end
  end.

(** [trim]: leading white space is skipped; the scan from the end stops at
    the first character ([end > str]), which is kept. *)
Definition trim (s : string) : string :=
  match skip_space s with
  | EmptyString => EmptyString
  | String c s' => String c (drop_trailing_space s')
  end.

(** *** strtol *)

Definition LONG_MAX : Z := 2 ^ 63 - 1.
Definition LONG_MIN : Z := - 2 ^ 63.

Definition digit_val (c : ascii) : option Z :=
  let n := char_code c in
  if (48 <=? n) && (n <=? 57) then Some (n - 48)
  else if (97 <=? n) && (n <=? 122) then Some (n - 97 + 10)
  else if (65 <=? n) && (n <=? 90) then Some (n - 65 + 10)
  else None.

Definition is_digit_in (base : Z) (c : ascii) : bool :=
  match digit_val c with
  | Some d => d <? base
  | None => false
  end.

(** Consume the digits of [base]; the flag says whether there was one. *)
Fixpoint scan_digits (base : Z) (s : string) (acc : Z) (any : bool)
  : Z * bool * string :=
  match s with
  | String c s' =>
      match digit_val c with
      | Some d =>
          if d <? base then scan_digits base s' (acc * base + d) true
          else (acc, any, s)
      | None => (acc, any, s)
      end
  | EmptyString => (acc, any, s)
  end.

(** [strtol (nptr, &endp, base)] for base 10 and 16: white space, an optional
    sign, for base 16 an optional [0x] in front of a hex digit, then digits.
    Without a digit the result is 0 and [endp = nptr]; a value outside
    [long] saturates. *)
Definition strtol (nptr : string) (base : Z) : Z * string :=
  let s := skip_space nptr in
  let '(neg, s) :=
    match s with
    | String "-"%char s' => (true, s')
    | String "+"%char s' => (false, s')
    | _ => (false, s)
    end in
  let s :=
    if base =? 16 then
      match s with
      | String "0"%char (String x (String h rest)) =>
          if (Ascii.eqb x "x" || Ascii.eqb x "X") && is_digit_in 16 h
          then String h rest else s
      | _ => s
      end
    else s in
  let '(acc, any, rest) := scan_digits base s 0 false in
  if any then
    let v := if neg then - acc else acc in
    (Z.max LONG_MIN (Z.min LONG_MAX v), rest)
  else (0, nptr).

(** *** printf conversions *)

(** [%d] *)
Definition fmt_d (z : Z) : string := NilZero.string_of_int (Z.to_int z).

Definition hex_digit (d : Z) : ascii :=
  if d <? 10 then ascii_of_N (Z.to_N (48 + d)) else ascii_of_N (Z.to_N (55 + d)).

Fixpoint hex_digits (fuel : nat) (z : Z) (acc : string) : string :=
  match fuel with
  | O => acc
  | S fuel' =>
      let acc := String (hex_digit (z mod 16)) acc in
      if z / 16 =? 0 then acc else hex_digits fuel' (z / 16) acc
  end.

Fixpoint pad_zero (n : nat) (s : string) : string :=
  match n with
  | O => s
  | S n' => String "0" (pad_zero n' s)
  end.

(** [%0wX] of an unsigned value below [2^64]. *)
Definition fmt_X (width : nat) (z : Z) : string :=
  let digits := hex_digits 16 z EmptyString in
  pad_zero (width - String.length digits) digits.

(** ** milo_asm.c: the opcode table *)

Record opcode_entry_t := {
  op_name : string;
  op_opcode : Z;
  op_num_args : Z;
  op_format : string     (* r = reg, i = imm, l = label *)
}.

Definition mk_op (n : string) (o : Z) (a : Z) (f : string) : opcode_entry_t :=
  {| op_name := n; op_opcode := o; op_num_args := a; op_format := f |}.

Definition opcode_table : list opcode_entry_t :=
  [ mk_op "nop" OP_NOP 0 ""; mk_op "exit" OP_EXIT 0 ""; mk_op "mov" OP_MOV 2 "rr";
    mk_op "add" OP_ADD 3 "rrr"; mk_op "sub" OP_SUB 3 "rrr"; mk_op "mul" OP_MUL 3 "rrr";
    mk_op "imad" OP_IMAD 4 "rrrr"; mk_op "neg" OP_NEG 2 "rr";
    mk_op "idiv" OP_IDIV 3 "rrr"; mk_op "irem" OP_IREM 3 "rrr";
    mk_op "iabs" OP_IABS 2 "rr"; mk_op "imin" OP_IMIN 3 "rrr"; mk_op "imax" OP_IMAX 3 "rrr";
    mk_op "slt" OP_SLT 3 "rrr"; mk_op "sle" OP_SLE 3 "rrr"; mk_op "seq" OP_SEQ 3 "rrr";
    mk_op "and" OP_AND 3 "rrr"; mk_op "or" OP_OR 3 "rrr"; mk_op "xor" OP_XOR 3 "rrr";
    mk_op "not" OP_NOT 2 "rr";
    mk_op "shl" OP_SHL 3 "rrr"; mk_op "shr" OP_SHR 3 "rrr"; mk_op "sha" OP_SHA 3 "rrr";
    mk_op "ldr" OP_LDR 2 "rr"; mk_op "str" OP_STR 2 "rr";
    mk_op "lds" OP_LDS 2 "rr"; mk_op "sts" OP_STS 2 "rr";
    mk_op "beq" OP_BEQ 3 "rrl"; mk_op "bne" OP_BNE 3 "rrl"; mk_op "bra" OP_BRA 1 "l";
    mk_op "ssy" OP_SSY 1 "l"; mk_op "join" OP_JOIN 0 ""; mk_op "bar" OP_BAR 1 "i";
    mk_op "tid" OP_TID 1 "r"; mk_op "call" OP_CALL 1 "l"; mk_op "ret" OP_RET 0 "";
    mk_op "fadd" OP_FADD 3 "rrr"; mk_op "fsub" OP_FSUB 3 "rrr";
    mk_op "fmul" OP_FMUL 3 "rrr"; mk_op "fdiv" OP_FDIV 3 "rrr";
    mk_op "ffma" OP_FFMA 4 "rrrr"; mk_op "ftoi" OP_FTOI 2 "rr"; mk_op "itof" OP_ITOF 2 "rr";
    mk_op "fmin" OP_FMIN 3 "rrr"; mk_op "fmax" OP_FMAX 3 "rrr";
    mk_op "fabs" OP_FABS 2 "rr"; mk_op "fneg" OP_FNEG 2 "rr";
    mk_op "fslt" OP_FSLT 3 "rrr"; mk_op "fsle" OP_FSLE 3 "rrr"; mk_op "fseq" OP_FSEQ 3 "rrr";
    mk_op "popc" OP_POPC 2 "rr"; mk_op "clz" OP_CLZ 2 "rr";
    mk_op "brev" OP_BREV 2 "rr"; mk_op "cnot" OP_CNOT 2 "rr";
    mk_op "isetp" OP_ISETP 3 "rrr"; mk_op "fsetp" OP_FSETP 3 "rrr";
    mk_op "selp" OP_SELP 4 "rrrr";
    mk_op "sin" OP_SFU_SIN 2 "rr"; mk_op "cos" OP_SFU_COS 2 "rr";
    mk_op "ex2" OP_SFU_EX2 2 "rr"; mk_op "lg2" OP_SFU_LG2 2 "rr";
    mk_op "rcp" OP_SFU_RCP 2 "rr"; mk_op "rsq" OP_SFU_RSQ 2 "rr";
    mk_op "sqrt" OP_SFU_SQRT 2 "rr"; mk_op "tanh" OP_SFU_TANH 2 "rr";
    mk_op "tex" OP_TEX 3 "rrr"; mk_op "txl" OP_TXL 4 "rrrr"; mk_op "txb" OP_TXB 4 "rrrr";
    mk_op "addi" OP_ADD 3 "rri"; mk_op "subi" OP_SUB 3 "rri"; mk_op "muli" OP_MUL 3 "rri";
    mk_op "andi" OP_AND 3 "rri"; mk_op "ori" OP_OR 3 "rri"; mk_op "xori" OP_XOR 3 "rri";
    mk_op "shli" OP_SHL 3 "rri"; mk_op "shri" OP_SHR 3 "rri"; mk_op "shai" OP_SHA 3 "rri" ].

(** [strcasecmp (a, b) == 0] *)
Definition strcaseeq (a b : string) : bool :=
  String.eqb (str_map tolower a) (str_map tolower b).

Fixpoint find_in_table (table : list opcode_entry_t) (name : string)
  : option opcode_entry_t :=
  match table with
  | [] => None
  | e :: table' =>
      if strcaseeq (op_name e) name then Some e else find_in_table table' name
  end.

Definition find_opcode (name : string) : option opcode_entry_t :=
  find_in_table opcode_table name.

(** ** milo_asm.c: operand parsers *)

Definition parse_register (str : string) : option Z :=
  match str with
  | String c rest =>
      if Ascii.eqb c "r" || Ascii.eqb c "R" then
        let '(val, endp) := strtol rest 10 in
        if negb (String.eqb endp "") || (val <? 0) || (63 <? val) then None
        else Some (u8 val)
      else None
  | EmptyString => None
  end.

Definition parse_immediate (str : string) : option Z :=
  let '(val, endp) :=
    match str with
    | String "0"%char (String x _) =>
        if Ascii.eqb x "x" || Ascii.eqb x "X" then strtol str 16 else strtol str 10
    | _ => strtol str 10
    end in
  if negb (String.eqb endp "") then None else Some (u32 val).

(** ** binary32 *)

Definition prec32 : Z := 24.
Definition emax32 : Z := 128.

(** [u2f]: the [float] a 32-bit pattern stands for. *)
Definition u2f (u : Z) : spec_float :=
  let s := Z.testbit u 31 in
  let e := Z.land (Z.shiftr u 23) 0xFF in
  let m := Z.land u 0x7FFFFF in
  if e =? 0 then
    match m with
    | Zpos p => S754_finite s p (-149)
    | _ => S754_zero s
    end
  else if e =? 255 then
    if m =? 0 then S754_infinity s else S754_nan
  else
    match m + 2 ^ 23 with
    | Zpos p => S754_finite s p (e - 150)
    | _ => S754_nan
    end.

(** [f2u]: the 32-bit pattern of a [float] (of a canonical [spec_float]). *)
Definition f2u (f : spec_float) : Z :=
  match f with
  | S754_zero s => if s then 0x80000000 else 0
  | S754_infinity s => if s then 0xFF800000 else 0x7F800000
  | S754_nan => 0x7FC00000
  | S754_finite s m e =>
      let sign := if s then 0x80000000 else 0 in
      if Zpos m <? 2 ^ 23 then sign + Zpos m
      else sign + (e + 150) * 2 ^ 23 + (Zpos m - 2 ^ 23)
  end.

Definition f_add : spec_float -> spec_float -> spec_float := SFadd prec32 emax32.
Definition f_sub : spec_float -> spec_float -> spec_float := SFsub prec32 emax32.
Definition f_mul : spec_float -> spec_float -> spec_float := SFmul prec32 emax32.
Definition f_div : spec_float -> spec_float -> spec_float := SFdiv prec32 emax32.
Definition f_sqrt : spec_float -> spec_float := SFsqrt prec32 emax32.

(** [(float) z] of an integer. *)
Definition f_of_int (z : Z) : spec_float := binary_normalize prec32 emax32 z 0 false.

Definition f_is_nan (f : spec_float) : bool :=
  match f with
  | S754_nan => true
  | _ => false
  end.

(** [(int) f]: truncation toward zero; a NaN, an infinity or a value outside
    [int] has no defined result. *)
Definition f_to_int (f : spec_float) : option Z :=
  match f with
  | S754_zero _ => Some 0
  | S754_finite s m e =>
      let mag := if 0 <=? e then Zpos m * 2 ^ e else Zpos m / 2 ^ (- e) in
      let v := if s then - mag else mag in
      if (- 2 ^ 31 <=? v) && (v <? 2 ^ 31) then Some v else None
  | _ => None
  end.

(** [floorf] *)
Definition floorf (f : spec_float) : spec_float :=
  match f with
  | S754_finite s m e =>
      if 0 <=? e then f
      else
        let q := Zpos m / 2 ^ (- e) in
        let exact := Zpos m mod 2 ^ (- e) =? 0 in
        let n := if s then (if exact then - q else - q - 1) else q in
        binary_normalize prec32 emax32 n 0 s
  | _ => f
  end.

(** [fminf], [fmaxf]: a NaN argument yields the other argument. *)
Definition fminf (x y : spec_float) : spec_float :=
  if f_is_nan x then y
  else if f_is_nan y then x
  else if SFleb x y then x else y.

Definition fmaxf (x y : spec_float) : spec_float :=
  if f_is_nan x then y
  else if f_is_nan y then x
  else if SFleb y x then x else y.

Definition f_zero : spec_float := S754_zero false.
Definition f_one : spec_float := f_of_int 1.
Definition f_half : spec_float := S754_finite false 8388608 (-24).
Definition f_inf : spec_float := S754_infinity false.

(** ** The C library

    [strtof] and the transcendental functions of libm are not part of the
    repository; they are parameters of the model. *)

Record libc_t := {
  strtof : string -> spec_float * string;   (* value and end pointer *)
  sinf : spec_float -> spec_float;
  cosf : spec_float -> spec_float;
  exp2f : spec_float -> spec_float;
  log2f : spec_float -> spec_float;
  tanhf : spec_float -> spec_float
}.

(** ** milo_asm.c: the assembler *)

Definition MILO_MAX_LABELS : Z := 256.
Definition MILO_MAX_CODE_SIZE : Z := 4096.
Definition MILO_MAX_LINE_LEN : nat := 256.

Record milo_label_t := {
  l_name : string;       (* char name[64] *)
  l_address : Z
}.

(** [as_code] holds [code[0 .. code_size)], [as_labels] holds
    [labels[0 .. label_count)]. *)
Record milo_asm_t := {
  as_code : list Z;
  as_labels : list milo_label_t;
  as_error : string;
  as_error_line : Z
}.

Definition as_code_size (a : milo_asm_t) : Z := Z.of_nat (length (as_code a)).
Definition as_label_count (a : milo_asm_t) : Z := Z.of_nat (length (as_labels a)).

(** The file-level array [unresolved[0 .. unresolved_count)], shared by all
    assembler instances; it is passed in and out of the functions using it. *)
Record unresolved_t := {
  u_address : Z;
  u_label : string;      (* char label[64] *)
  u_line : Z
}.

Definition milo_asm_init : milo_asm_t :=
  {| as_code := []; as_labels := []; as_error := ""; as_error_line := 0 |}.

(** [snprintf (as->error, sizeof (as->error), ...); as->error_line = line_num;] *)
Definition asm_set_error (a : milo_asm_t) (msg : string) (line_num : Z) : milo_asm_t :=
  {| as_code := as_code a; as_labels := as_labels a;
     as_error := str_take 255 msg; as_error_line := line_num |}.

(** The mnemonic: up to 31 characters before white space, in lower case;
    and the rest of the line. *)
Fixpoint scan_mnemonic (n : nat) (p : string) : string * string :=
  match n, p with
  | S n', String c p' =>
      if isspace c then (EmptyString, p)
      else let '(m, rest) := scan_mnemonic n' p' in (String (tolower c) m, rest)
  | _, _ => (EmptyString, p)
  end.

(** The pieces between the commas of the operand text. *)
Fixpoint split_commas (p : string) : list string :=
  match p with
  | EmptyString => [EmptyString]
  | String c p' =>
      if Ascii.eqb c "," then EmptyString :: split_commas p'
      else match split_commas p' with
           | x :: xs => String c x :: xs
           | [] => [String c EmptyString]
           end
  end.

(** At most four operands are kept; each ends at the next comma and is
    trimmed. *)
Definition parse_operands (p : string) : list string :=
  match p with
  | EmptyString => []
  | _ => map trim (take 4 (split_commas p))
  end.

Definition set_reg_field (inst : milo_inst_t) (j : nat) (reg : Z) : milo_inst_t :=
  match j with
  | 0%nat =>
      {| opcode := opcode inst; rd := reg; rs1 := rs1 inst; rs2 := rs2 inst;
         rs3 := rs3 inst; pred := pred inst; imm := imm inst;
         has_imm := has_imm inst; has_rs3 := has_rs3 inst |}
  | 1%nat =>
      {| opcode := opcode inst; rd := rd inst; rs1 := reg; rs2 := rs2 inst;
         rs3 := rs3 inst; pred := pred inst; imm := imm inst;
         has_imm := has_imm inst; has_rs3 := has_rs3 inst |}
  | 2%nat =>
      {| opcode := opcode inst; rd := rd inst; rs1 := rs1 inst; rs2 := reg;
         rs3 := rs3 inst; pred := pred inst; imm := imm inst;
         has_imm := has_imm inst; has_rs3 := has_rs3 inst |}
  | _ =>
      {| opcode := opcode inst; rd := rd inst; rs1 := rs1 inst; rs2 := rs2 inst;
         rs3 := reg; pred := pred inst; imm := imm inst;
         has_imm := has_imm inst; has_rs3 := true |}
  end.

Definition set_imm_field (inst : milo_inst_t) (v : Z) : milo_inst_t :=
  {| opcode := opcode inst; rd := rd inst; rs1 := rs1 inst; rs2 := rs2 inst;
     rs3 := rs3 inst; pred := pred inst; imm := v;
     has_imm := true; has_rs3 := has_rs3 inst |}.

Section Assembler.

Variable L : libc_t.

Definition parse_float (str : string) : option Z :=
  let '(val, endp) := strtof L str in
  match endp with
  | EmptyString => Some (f2u val)
  | String c _ =>
      if Ascii.eqb c "f" || Ascii.eqb c "F" then Some (f2u val) else None
  end.

(** The operand loop of [milo_asm_line]: format character [j] takes the next
    operand.  The result is the instruction and the unresolved list, or the
    error message together with the unresolved list at that point. *)
Fixpoint build_inst (fmt : string) (j : nat) (operands : list string)
    (code_size line_num : Z) (inst : milo_inst_t) (unres : list unresolved_t)
  : (milo_inst_t + string) * list unresolved_t :=
  match fmt, operands with
  | String f fmt', arg :: operands' =>
      if Ascii.eqb f "r" then
        match parse_register arg with
        | None => (inr ("Invalid register: " +++ arg), unres)
        | Some reg =>
            build_inst fmt' (S j) operands' code_size line_num
                       (set_reg_field inst j reg) unres
        end
      else if Ascii.eqb f "i" then
        match strchr arg "." with
        | Some _ =>
            match parse_float arg with
            | None => (inr ("Invalid float: " +++ arg), unres)
            | Some v =>
                build_inst fmt' (S j) operands' code_size line_num
                           (set_imm_field inst v) unres
            end
        | None =>
            match parse_immediate arg with
            | None => (inr ("Invalid immediate: " +++ arg), unres)
            | Some v =>
                build_inst fmt' (S j) operands' code_size line_num
                           (set_imm_field inst v) unres
            end
        end
      else if Ascii.eqb f "l" then
        if MILO_MAX_LABELS <=? Z.of_nat (length unres) then
          (inr "Too many unresolved labels", unres)
        else
          build_inst fmt' (S j) operands' code_size line_num
                     (set_imm_field inst 0)
                     (unres ++ [ {| u_address := code_size;
                                    u_label := str_take 63 arg;
                                    u_line := line_num |} ])
      else build_inst fmt' (S j) operands' code_size line_num inst unres
  | _, _ => (inl inst, unres)
  end.

(** [milo_asm_line] from "Parse mnemonic" on; [p] is the trimmed text after
    the label, not empty. *)
Definition asm_instruction (a : milo_asm_t) (unres : list unresolved_t)
    (p : string) (line_num : Z)
  : bool * milo_asm_t * list unresolved_t :=
  let '(mnemonic, p) := scan_mnemonic 31 p in
  match find_opcode mnemonic with
  | None =>
      (false, asm_set_error a ("Unknown instruction: " +++ mnemonic) line_num, unres)
  | Some op =>
      (* Skip whitespace *)
      let p := skip_space p in
      (* Parse operands *)
      let operands := parse_operands p in
      (* Build instruction *)
      let inst :=
        {| opcode := op_opcode op; rd := 0; rs1 := 0; rs2 := 0; rs3 := 0;
           pred := 0; imm := 0; has_imm := false; has_rs3 := false |} in
      match build_inst (op_format op) 0 operands (as_code_size a) line_num
                       inst unres with
      | (inr msg, unres) => (false, asm_set_error a msg line_num, unres)
      | (inl inst, unres) =>
          (* Emit instruction *)
          if MILO_MAX_CODE_SIZE <=? as_code_size a then
            (false, asm_set_error a "Code too large" line_num, unres)
          else
            (true,
             {| as_code := as_code a ++ [milo_encode_inst inst];
                as_labels := as_labels a;
                as_error := as_error a; as_error_line := as_error_line a |},
             unres)
      end
  end.

Definition milo_asm_line (a : milo_asm_t) (unres : list unresolved_t)
    (line : string) (line_num : Z)
  : bool * milo_asm_t * list unresolved_t :=
  let buf := str_take (MILO_MAX_LINE_LEN - 1) line in
  (* Remove comments *)
  let buf := cut_at ";" buf in
  let buf := cut_at "#" buf in
  match trim buf with
  | EmptyString => (true, a, unres)                  (* Empty line *)
  | p =>
      (* Check for label *)
      match strchr p ":" with
      | Some (before, after) =>
          let label := trim before in
          if MILO_MAX_LABELS <=? as_label_count a then
            (false, asm_set_error a "Too many labels" line_num, unres)
          else
            let a :=
              {| as_code := as_code a;
                 as_labels := as_labels a ++
                   [ {| l_name := str_take 63 label; l_address := as_code_size a |} ];
                 as_error := as_error a; as_error_line := as_error_line a |} in
            match trim after with
            | EmptyString => (true, a, unres)        (* Label only line *)
            | p => asm_instruction a unres p line_num
            end
      | None => asm_instruction a unres p line_num
      end
  end.

(** Patch the instruction at [addr]: the high half is kept, the low 32 bits
    become the label address. *)
Definition patch_word (word : Z) (label_address : Z) : Z :=
  Z.lor (Z.land word 0xFFFFFFFF00000000) label_address.

Fixpoint find_label (labels : list milo_label_t) (name : string) : option milo_label_t :=
  match labels with
  | [] => None
  | l :: labels' =>
      if String.eqb name (l_name l) then Some l else find_label labels' name
  end.

(** The loop of [milo_asm_resolve] over the unresolved entries.  An entry
    whose address is not below [code_size] (possible only for an entry left
    by another assembler instance) lands in the unused part of [code]. *)
Fixpoint resolve_loop (a : milo_asm_t) (unres : list unresolved_t) : bool * milo_asm_t :=
  match unres with
  | [] => (true, a)
  | u :: unres' =>
      match find_label (as_labels a) (u_label u) with
      | Some l =>
          let addr := Z.to_nat (u_address u) in
          let code' :=
            match as_code a !! addr with
            | Some word => <[addr := patch_word word (l_address l)]> (as_code a)
            | None => as_code a
            end in
          resolve_loop
            {| as_code := code'; as_labels := as_labels a;
               as_error := as_error a; as_error_line := as_error_line a |}
            unres'
      | None =>
          (false, asm_set_error a ("Undefined label: " +++ u_label u) (u_line u))
      end
  end.

(** [milo_asm_resolve]: on success [unresolved_count] is reset; on failure the
    list is left as it is. *)
Definition milo_asm_resolve (a : milo_asm_t) (unres : list unresolved_t)
  : bool * milo_asm_t * list unresolved_t :=
  match resolve_loop a unres with
  | (true, a') => (true, a', [])
  | (false, a') => (false, a', unres)
  end.

(** The lines [milo_asm_source] cuts out of the source: up to a newline, the
    end of the text, or [MILO_MAX_LINE_LEN - 1] characters.  [cur] is the
    line being filled (reversed), [i] its length, [started] says whether the
    outer loop has been entered for it. *)
Fixpoint extract_lines (p : string) (cur : list ascii) (i : nat) (started : bool)
  : list string :=
  match p with
  | EmptyString =>
      if started then [string_of_list_ascii (rev cur)] else []
  | String c p' =>
      if Ascii.eqb c "010" then
        string_of_list_ascii (rev cur) :: extract_lines p' [] 0 false
      else if (i <? MILO_MAX_LINE_LEN - 1)%nat then
        extract_lines p' (c :: cur) (S i) true
      else
        string_of_list_ascii (rev cur) :: extract_lines p' [c] 1 true
  end.

Fixpoint asm_lines (a : milo_asm_t) (unres : list unresolved_t)
    (lines : list string) (line_num : Z)
  : bool * milo_asm_t * list unresolved_t :=
  match lines with
  | [] => (true, a, unres)
  | line :: lines' =>
      match milo_asm_line a unres line line_num with
      | (false, a, unres) => (false, a, unres)
      | (true, a, unres) => asm_lines a unres lines' (line_num + 1)
      end
  end.

(** [milo_asm_source]: [unresolved_count = 0] first, whatever was there. *)
Definition milo_asm_source (a : milo_asm_t) (unres : list unresolved_t)
    (source : string)
  : bool * milo_asm_t * list unresolved_t :=
  match asm_lines a [] (extract_lines source [] 0 false) 1 with
  | (false, a, unres) => (false, a, unres)
  | (true, a, unres) => milo_asm_resolve a unres
  end.

End Assembler.

Definition milo_asm_get_code (a : milo_asm_t) : list Z * Z := (as_code a, as_code_size a).

Definition milo_asm_get_error (a : milo_asm_t) : option string :=
  match as_error a with
  | EmptyString => None
  | e => Some (str_take 511 ("Line " +++ fmt_d (as_error_line a) +++ ": " +++ e))
  end.

(** ** C arrays *)

(** [a[i]] and [a[i] = x]; [None] outside the array. *)
Definition arr_get {A : Type} (a : list A) (i : Z) : option A :=
  if 0 <=? i then a !! Z.to_nat i else None.

Definition arr_set {A : Type} (a : list A) (i : Z) (x : A) : option (list A) :=
  if (0 <=? i) && (i <? Z.of_nat (length a)) then Some (<[Z.to_nat i := x]> a)
  else None.

(** ** milo_vm.h: textures *)

(** [pixels] is the caller's buffer of [width * height] cells, read through
    its index; a NULL pointer is [None]. *)
Record milo_texture_t := {
  pixels : option (Z -> Z);
  width : Z;
  height : Z;
  wrap_s : bool;
  wrap_t : bool;
  filter : bool
}.

Definition read_pixel (tex : milo_texture_t) (px : Z -> Z) (idx : Z) : option Z :=
  if (0 <=? idx) && (idx <? width tex * height tex) then Some (px idx) else None.

(** ** milo_vm.c: texture sampling *)

(** One channel of the bilinear filter. *)
Definition bilinear_channel (p00 p10 p01 p11 : Z) (dx dy : spec_float) (shift : Z)
  : option Z :=
  let c00 := f_of_int (Z.land (Z.shiftr p00 shift) 0xFF) in
  let c10 := f_of_int (Z.land (Z.shiftr p10 shift) 0xFF) in
  let c01 := f_of_int (Z.land (Z.shiftr p01 shift) 0xFF) in
  let c11 := f_of_int (Z.land (Z.shiftr p11 shift) 0xFF) in
  let c0 := f_add c00 (f_mul dx (f_sub c10 c00)) in
  let c1 := f_add c01 (f_mul dx (f_sub c11 c01)) in
  let cf := f_add c0 (f_mul dy (f_sub c1 c0)) in
  ci ← f_to_int (f_add cf f_half);
  let ci := if ci <? 0 then 0 else ci in
  let ci := if 255 <? ci then 255 else ci in
  Some (u32 (Z.shiftl ci shift)).

Definition milo_texture_sample (tex : option milo_texture_t) (u v : spec_float)
  : option Z :=
  match tex with
  | None => Some 0xFFFF00FF
  | Some tex =>
      match pixels tex with
      | None => Some 0xFFFF00FF                     (* Magenta = missing texture *)
      | Some px =>
          (* Wrap coordinates *)
          let u := if wrap_s tex then f_sub u (floorf u)
                   else fmaxf f_zero (fminf f_one u) in
          let v := if wrap_t tex then f_sub v (floorf v)
                   else fmaxf f_zero (fminf f_one v) in
          (* Convert to pixel coordinates *)
          let fx := f_mul u (f_of_int (width tex - 1)) in
          let fy := f_mul v (f_of_int (height tex - 1)) in
          if filter tex then
            (* Bilinear filtering *)
            x0 ← f_to_int (floorf fx);
            y0 ← f_to_int (floorf fy);
            let x1 := x0 + 1 in
            let y1 := y0 + 1 in
            let x1 := if width tex <=? x1 then width tex - 1 else x1 in
            let y1 := if height tex <=? y1 then height tex - 1 else y1 in
            let dx := f_sub fx (f_of_int x0) in
            let dy := f_sub fy (f_of_int y0) in
            p00 ← read_pixel tex px (y0 * width tex + x0);
            p10 ← read_pixel tex px (y0 * width tex + x1);
            p01 ← read_pixel tex px (y1 * width tex + x0);
            p11 ← read_pixel tex px (y1 * width tex + x1);
            (* Interpolate each channel *)
            r0 ← bilinear_channel p00 p10 p01 p11 dx dy 0;
            r1 ← bilinear_channel p00 p10 p01 p11 dx dy 8;
            r2 ← bilinear_channel p00 p10 p01 p11 dx dy 16;
            r3 ← bilinear_channel p00 p10 p01 p11 dx dy 24;
            Some (Z.lor (Z.lor (Z.lor (Z.lor 0 r0) r1) r2) r3)
          else
            (* Nearest neighbor *)
            x ← f_to_int (f_add fx f_half);
            y ← f_to_int (f_add fy f_half);
            let x := if width tex <=? x then width tex - 1 else x in
            let y := if height tex <=? y then height tex - 1 else y in
            read_pixel tex px (y * width tex + x)
      end
  end.

(** ** milo_vm.h: the machine state *)

Definition VM_MAX_REGS : Z := 64.
Definition VM_MAX_CODE : Z := 4096.
Definition VM_MAX_UNIFORMS : Z := 32.
Definition VM_MAX_TEXTURES : Z := 8.
Definition VM_STACK_SIZE : Z := 256.
Definition VM_MEM_SIZE : Z := 8192.

Record milo_vm_t := {
  regs : list Z;                 (* 64 cells, each viewed as .u, .i or .f *)
  code : list Z;                 (* uint64_t code[VM_MAX_CODE] *)
  code_size : Z;
  pc : Z;
  div_stack : list Z;
  div_sp : Z;
  ret_stack : list Z;
  ret_sp : Z;
  uniforms : list (list Z);      (* 32 slots of 16 words *)
  uniform_count : Z;
  textures : list (option milo_texture_t);
  mem : list Z;                  (* uint32_t mem[VM_MEM_SIZE / 4] *)
  running : bool;
  discarded : bool;
  cycle_count : Z;
  max_cycles : Z;
  error : string
}.

Definition set_regs (vm : milo_vm_t) (x : list Z) : milo_vm_t :=
  {| regs := x; code := code vm; code_size := code_size vm; pc := pc vm;
     div_stack := div_stack vm; div_sp := div_sp vm;
     ret_stack := ret_stack vm; ret_sp := ret_sp vm;
     uniforms := uniforms vm; uniform_count := uniform_count vm;
     textures := textures vm; mem := mem vm; running := running vm;
     discarded := discarded vm; cycle_count := cycle_count vm;
     max_cycles := max_cycles vm; error := error vm |}.

Definition set_code (vm : milo_vm_t) (x : list Z) (n : Z) : milo_vm_t :=
  {| regs := regs vm; code := x; code_size := n; pc := pc vm;
     div_stack := div_stack vm; div_sp := div_sp vm;
     ret_stack := ret_stack vm; ret_sp := ret_sp vm;
     uniforms := uniforms vm; uniform_count := uniform_count vm;
     textures := textures vm; mem := mem vm; running := running vm;
     discarded := discarded vm; cycle_count := cycle_count vm;
     max_cycles := max_cycles vm; error := error vm |}.

Definition set_pc (vm : milo_vm_t) (x : Z) : milo_vm_t :=
  {| regs := regs vm; code := code vm; code_size := code_size vm; pc := x;
     div_stack := div_stack vm; div_sp := div_sp vm;
     ret_stack := ret_stack vm; ret_sp := ret_sp vm;
     uniforms := uniforms vm; uniform_count := uniform_count vm;
     textures := textures vm; mem := mem vm; running := running vm;
     discarded := discarded vm; cycle_count := cycle_count vm;
     max_cycles := max_cycles vm; error := error vm |}.

Definition set_div (vm : milo_vm_t) (x : list Z) (sp : Z) : milo_vm_t :=
  {| regs := regs vm; code := code vm; code_size := code_size vm; pc := pc vm;
     div_stack := x; div_sp := sp;
     ret_stack := ret_stack vm; ret_sp := ret_sp vm;
     uniforms := uniforms vm; uniform_count := uniform_count vm;
     textures := textures vm; mem := mem vm; running := running vm;
     discarded := discarded vm; cycle_count := cycle_count vm;
     max_cycles := max_cycles vm; error := error vm |}.

Definition set_ret (vm : milo_vm_t) (x : list Z) (sp : Z) : milo_vm_t :=
  {| regs := regs vm; code := code vm; code_size := code_size vm; pc := pc vm;
     div_stack := div_stack vm; div_sp := div_sp vm;
     ret_stack := x; ret_sp := sp;
     uniforms := uniforms vm; uniform_count := uniform_count vm;
     textures := textures vm; mem := mem vm; running := running vm;
     discarded := discarded vm; cycle_count := cycle_count vm;
     max_cycles := max_cycles vm; error := error vm |}.

Definition set_mem (vm : milo_vm_t) (x : list Z) : milo_vm_t :=
  {| regs := regs vm; code := code vm; code_size := code_size vm; pc := pc vm;
     div_stack := div_stack vm; div_sp := div_sp vm;
     ret_stack := ret_stack vm; ret_sp := ret_sp vm;
     uniforms := uniforms vm; uniform_count := uniform_count vm;
     textures := textures vm; mem := x; running := running vm;
     discarded := discarded vm; cycle_count := cycle_count vm;
     max_cycles := max_cycles vm; error := error vm |}.

Definition set_running (vm : milo_vm_t) (x : bool) : milo_vm_t :=
  {| regs := regs vm; code := code vm; code_size := code_size vm; pc := pc vm;
     div_stack := div_stack vm; div_sp := div_sp vm;
     ret_stack := ret_stack vm; ret_sp := ret_sp vm;
     uniforms := uniforms vm; uniform_count := uniform_count vm;
     textures := textures vm; mem := mem vm; running := x;
     discarded := discarded vm; cycle_count := cycle_count vm;
     max_cycles := max_cycles vm; error := error vm |}.

Definition set_discarded (vm : milo_vm_t) (x : bool) : milo_vm_t :=
  {| regs := regs vm; code := code vm; code_size := code_size vm; pc := pc vm;
     div_stack := div_stack vm; div_sp := div_sp vm;
     ret_stack := ret_stack vm; ret_sp := ret_sp vm;
     uniforms := uniforms vm; uniform_count := uniform_count vm;
     textures := textures vm; mem := mem vm; running := running vm;
     discarded := x; cycle_count := cycle_count vm;
     max_cycles := max_cycles vm; error := error vm |}.

Definition set_cycle_count (vm : milo_vm_t) (x : Z) : milo_vm_t :=
  {| regs := regs vm; code := code vm; code_size := code_size vm; pc := pc vm;
     div_stack := div_stack vm; div_sp := div_sp vm;
     ret_stack := ret_stack vm; ret_sp := ret_sp vm;
     uniforms := uniforms vm; uniform_count := uniform_count vm;
     textures := textures vm; mem := mem vm; running := running vm;
     discarded := discarded vm; cycle_count := x;
     max_cycles := max_cycles vm; error := error vm |}.

Definition set_error (vm : milo_vm_t) (x : string) : milo_vm_t :=
  {| regs := regs vm; code := code vm; code_size := code_size vm; pc := pc vm;
     div_stack := div_stack vm; div_sp := div_sp vm;
     ret_stack := ret_stack vm; ret_sp := ret_sp vm;
     uniforms := uniforms vm; uniform_count := uniform_count vm;
     textures := textures vm; mem := mem vm; running := running vm;
     discarded := discarded vm; cycle_count := cycle_count vm;
     max_cycles := max_cycles vm; error := str_take 255 x |}.

Definition set_uniforms (vm : milo_vm_t) (x : list (list Z)) : milo_vm_t :=
  {| regs := regs vm; code := code vm; code_size := code_size vm; pc := pc vm;
     div_stack := div_stack vm; div_sp := div_sp vm;
     ret_stack := ret_stack vm; ret_sp := ret_sp vm;
     uniforms := x; uniform_count := uniform_count vm;
     textures := textures vm; mem := mem vm; running := running vm;
     discarded := discarded vm; cycle_count := cycle_count vm;
     max_cycles := max_cycles vm; error := error vm |}.

Definition set_textures (vm : milo_vm_t) (x : list (option milo_texture_t)) : milo_vm_t :=
  {| regs := regs vm; code := code vm; code_size := code_size vm; pc := pc vm;
     div_stack := div_stack vm; div_sp := div_sp vm;
     ret_stack := ret_stack vm; ret_sp := ret_sp vm;
     uniforms := uniforms vm; uniform_count := uniform_count vm;
     textures := x; mem := mem vm; running := running vm;
     discarded := discarded vm; cycle_count := cycle_count vm;
     max_cycles := max_cycles vm; error := error vm |}.

(** [milo_vm_init]: everything zero, [max_cycles = 100000]. *)
Definition milo_vm_init : milo_vm_t :=
  {| regs := replicate 64 0; code := replicate 4096 0; code_size := 0; pc := 0;
     div_stack := replicate 256 0; div_sp := 0;
     ret_stack := replicate 256 0; ret_sp := 0;
     uniforms := replicate 32 (replicate 16 0); uniform_count := 0;
     textures := replicate 8 None; mem := replicate 2048 0;
     running := false; discarded := false; cycle_count := 0;
     max_cycles := 100000; error := "" |}.

(** The array sizes of the C struct. *)
Definition vm_wf (vm : milo_vm_t) : Prop :=
  length (regs vm) = 64%nat /\ length (code vm) = 4096%nat /\
  length (div_stack vm) = 256%nat /\ length (ret_stack vm) = 256%nat /\
  length (textures vm) = 8%nat /\ length (mem vm) = 2048%nat.

Definition milo_vm_load_binary (vm : milo_vm_t) (words : list Z) : bool * milo_vm_t :=
  let size := Z.of_nat (length words) in
  if VM_MAX_CODE <? size then
    (false, set_error vm ("Code too large (" +++ fmt_d size +++ " > "
                          +++ fmt_d VM_MAX_CODE +++ ")"))
  else
    (true, set_code vm (words ++ drop (length words) (code vm)) size).

(** ** milo_vm.c: loading assembly text *)

Fixpoint str_prefix (pre s : string) : option string :=
  match pre, s with
  | EmptyString, _ => Some s
  | String a pre', String b s' => if Ascii.eqb a b then str_prefix pre' s' else None
  | _, EmptyString => None
  end.

(** [strstr (p, needle)], then [p += strlen (needle)]. *)
Fixpoint strstr_skip (p needle : string) : option string :=
  match str_prefix needle p with
  | Some rest => Some rest
  | None =>
      match p with
      | String _ p' => strstr_skip p' needle
      | EmptyString => None
      end
  end.

Fixpoint skip_chars (f : ascii -> bool) (p : string) : string :=
  match p with
  | String c p' => if f c then skip_chars f p' else p
  | EmptyString => EmptyString
  end.

Definition is_blank (c : ascii) : bool := Ascii.eqb c " " || Ascii.eqb c "009".
Definition is_comma_blank (c : ascii) : bool := Ascii.eqb c "," || is_blank c.

(** The digit loop of the [.data] scanner: [addr = addr * 16 + digit] in
    [uint32_t]. *)
Fixpoint scan_hex32 (p : string) (acc : Z) : Z * string :=
  match p with
  | String c p' =>
      let n := char_code c in
      if (48 <=? n) && (n <=? 57) then scan_hex32 p' (u32 (u32 (acc * 16) + (n - 48)))
      else if (97 <=? n) && (n <=? 102) then scan_hex32 p' (u32 (u32 (acc * 16) + (n - 97 + 10)))
      else if (65 <=? n) && (n <=? 70) then scan_hex32 p' (u32 (u32 (acc * 16) + (n - 65 + 10)))
      else (acc, p)
  | EmptyString => (acc, p)
  end.

(** A number is read only behind [0x]; otherwise it is 0 and nothing is
    consumed. *)
Definition parse_hex32 (p : string) : Z * string :=
  match p with
  | String "0"%char (String x p') =>
      if Ascii.eqb x "x" || Ascii.eqb x "X" then scan_hex32 p' 0 else (0, p)
  | _ => (0, p)
  end.

(** The [while ((p = strstr (p, ".data ")) != NULL)] loop; every round
    consumes at least the six characters of the directive, so
    [String.length p] rounds are enough. *)
Fixpoint data_scan (fuel : nat) (p : string) (m : list Z) : list Z :=
  match fuel with
  | O => m
  | S fuel' =>
      match strstr_skip p ".data " with
      | None => m
      | Some p =>
          let p := skip_chars is_blank p in
          let '(addr, p) := parse_hex32 p in
          let p := skip_chars is_comma_blank p in
          let '(value, p) := parse_hex32 p in
          let m := if addr <? VM_MEM_SIZE then <[Z.to_nat (addr / 4) := value]> m else m in
          data_scan fuel' p m
      end
  end.

Section VM.

Variable L : libc_t.

Definition milo_vm_load_asm (vm : milo_vm_t) (unres : list unresolved_t)
    (asm_text : string)
  : bool * milo_vm_t * list unresolved_t :=
  match milo_asm_source L milo_asm_init unres asm_text with
  | (false, a, unres) =>
      let msg := match milo_asm_get_error a with
                 | Some e => e
                 | None => "(null)"
                 end in
      (false, set_error vm ("Assembly error: " +++ msg), unres)
  | (true, a, unres) =>
      let '(words, _) := milo_asm_get_code a in
      match milo_vm_load_binary vm words with
      | (false, vm) => (false, vm, unres)
      | (true, vm) =>
          (* Parse .data directives to load constant table into memory *)
          (true, set_mem vm (data_scan (String.length asm_text) asm_text (mem vm)), unres)
      end
  end.

(** ** milo_vm.c: uniforms and textures *)

Definition milo_vm_set_uniform_float (vm : milo_vm_t) (index : Z) (value : Z) : milo_vm_t :=
  if (0 <=? index) && (index <? VM_MAX_UNIFORMS) then
    match uniforms vm !! Z.to_nat index with
    | Some slot => set_uniforms vm (<[Z.to_nat index := <[0%nat := value]> slot]> (uniforms vm))
    | None => vm
    end
  else vm.

Definition milo_vm_bind_texture (vm : milo_vm_t) (unit : Z) (tex : option milo_texture_t)
  : milo_vm_t :=
  if (0 <=? unit) && (unit <? VM_MAX_TEXTURES) then
    set_textures vm (<[Z.to_nat unit := tex]> (textures vm))
  else vm.

(** ** milo_vm.c: the special function unit *)

Definition sfu_sin (x : spec_float) : spec_float := sinf L x.
Definition sfu_cos (x : spec_float) : spec_float := cosf L x.
Definition sfu_exp2 (x : spec_float) : spec_float := exp2f L x.

Definition sfu_log2 (x : spec_float) : spec_float :=
  if SFleb x f_zero then S754_infinity true else log2f L x.

Definition sfu_rcp (x : spec_float) : spec_float :=
  if SFeqb x f_zero then f_inf else f_div f_one x.

Definition sfu_rsqrt (x : spec_float) : spec_float :=
  if SFleb x f_zero then f_inf else f_div f_one (f_sqrt x).

Definition sfu_sqrt (x : spec_float) : spec_float :=
  if SFltb x f_zero then f_zero else f_sqrt x.

Definition sfu_tanh (x : spec_float) : spec_float := tanhf L x.

(** ** milo_vm.c: bit manipulation loops *)

(** [while (v) { count += (v & 1); v >>= 1; }] *)
Fixpoint popc_loop (fuel : nat) (v count : Z) : Z :=
  match fuel with
  | O => count
  | S fuel' =>
      if v =? 0 then count
      else popc_loop fuel' (Z.shiftr v 1) (count + Z.land v 1)
  end.

(** [for (i = 31; i >= 0; i--) { if (v & (1u << i)) break; count++; }];
    [n] is [i + 1]. *)
Fixpoint clz_loop (n : nat) (v count : Z) : Z :=
  match n with
  | O => count
  | S i =>
      if Z.land v (Z.shiftl 1 (Z.of_nat i)) =? 0 then clz_loop i v (count + 1)
      else count
  end.

(** [for (i = 0; i < 32; i++) r |= ((v >> i) & 1) << (31 - i);] with [n]
    rounds to go. *)
Fixpoint brev_loop (n : nat) (i : Z) (v r : Z) : Z :=
  match n with
  | O => r
  | S n' =>
      brev_loop n' (i + 1) v
        (Z.lor r (Z.shiftl (Z.land (Z.shiftr v i) 1) (31 - i)))
  end.

(** ** milo_vm.c: one instruction *)

(** [vm->regs[rd] = v; break;] *)
Definition wr (vm : milo_vm_t) (rd : Z) (v : Z) : option (bool * milo_vm_t) :=
  r ← arr_set (regs vm) rd v;
  Some (true, set_regs vm r).

Definition bool_to_Z (b : bool) : Z := if b then 1 else 0.

(** The [OP_TEX] case. *)
Definition exec_tex (vm : milo_vm_t) (rd rs2 : Z) (u1 : Z) (f2 : spec_float)
  : option (bool * milo_vm_t) :=
  let unit := s32 u1 in
  let u := f2 in
  v ← u2f <$> arr_get (regs vm) (rs2 + 1);
  let bound :=
    if (0 <=? unit) && (unit <? VM_MAX_TEXTURES) then
      match arr_get (textures vm) unit with
      | Some (Some tex) => Some tex
      | _ => None
      end
    else None in
  match bound with
  | Some tex =>
      rgba ← milo_texture_sample (Some tex) u v;
      let chan (shift : Z) :=
        f2u (f_div (f_of_int (Z.land (Z.shiftr rgba shift) 0xFF)) (f_of_int 255)) in
      r ← arr_set (regs vm) rd (chan 0);
      r ← arr_set r (rd + 1) (chan 8);
      r ← arr_set r (rd + 2) (chan 16);
      r ← arr_set r (rd + 3) (chan 24);
      Some (true, set_regs vm r)
  | None =>
      r ← arr_set (regs vm) rd (f2u f_one);
      r ← arr_set r (rd + 1) (f2u f_zero);
      r ← arr_set r (rd + 2) (f2u f_one);
      r ← arr_set r (rd + 3) (f2u f_one);
      Some (true, set_regs vm r)
  end.

(** The [switch (op)] of [vm_step]: [vm] has [r0] cleared and [pc],
    [cycle_count] advanced; [u1], [u2] are the source registers read before.
    The flag is [false] where the C code returns [false] from inside the
    switch. *)
Definition exec_op (vm : milo_vm_t) (op rd rs1 rs2 imm rs3 : Z) (u1 u2 : Z)
  : option (bool * milo_vm_t) :=
  let f1 := u2f u1 in
  let f2 := u2f u2 in
  let i1 := s32 u1 in
  let i2 := s32 u2 in
  if op =? OP_NOP then Some (true, vm)
  else if op =? OP_EXIT then Some (false, set_running vm false)
  else if op =? OP_MOV then wr vm rd u1
  (* Integer Arithmetic *)
  else if op =? OP_ADD then
    if negb (imm =? 0) then wr vm rd (u32 (i1 + s32 imm)) else wr vm rd (u32 (i1 + i2))
  else if op =? OP_SUB then wr vm rd (u32 (i1 - i2))
  else if op =? OP_MUL then wr vm rd (u32 (i1 * i2))
  else if op =? OP_NEG then wr vm rd (u32 (- i1))
  else if op =? OP_IDIV then
    if i2 =? 0 then wr vm rd 0
    else if (i1 =? - 2 ^ 31) && (i2 =? -1) then None
    else wr vm rd (u32 (Z.quot i1 i2))
  else if op =? OP_IREM then
    if i2 =? 0 then wr vm rd 0
    else if (i1 =? - 2 ^ 31) && (i2 =? -1) then None
    else wr vm rd (u32 (Z.rem i1 i2))
  else if op =? OP_IABS then wr vm rd (u32 (if i1 <? 0 then - i1 else i1))
  else if op =? OP_IMIN then wr vm rd (u32 (if i1 <? i2 then i1 else i2))
  else if op =? OP_IMAX then wr vm rd (u32 (if i2 <? i1 then i1 else i2))
  else if op =? OP_IMAD then
    u3 ← arr_get (regs vm) rs3;
    wr vm rd (u32 (i1 * i2 + s32 u3))
  (* Integer Comparison *)
  else if op =? OP_SLT then wr vm rd (bool_to_Z (i1 <? i2))
  else if op =? OP_SLE then wr vm rd (bool_to_Z (i1 <=? i2))
  else if op =? OP_SEQ then wr vm rd (bool_to_Z (i1 =? i2))
  (* Logic *)
  else if op =? OP_AND then wr vm rd (Z.land u1 u2)
  else if op =? OP_OR then wr vm rd (Z.lor u1 u2)
  else if op =? OP_XOR then wr vm rd (Z.lxor u1 u2)
  else if op =? OP_NOT then wr vm rd (u32 (Z.lnot u1))
  (* Shift *)
  else if op =? OP_SHL then wr vm rd (u32 (Z.shiftl u1 (Z.land u2 31)))
  else if op =? OP_SHR then wr vm rd (Z.shiftr u1 (Z.land u2 31))
  else if op =? OP_SHA then wr vm rd (u32 (Z.shiftr i1 (Z.land u2 31)))
  (* Floating Point *)
  else if op =? OP_FADD then wr vm rd (f2u (f_add f1 f2))
  else if op =? OP_FSUB then wr vm rd (f2u (f_sub f1 f2))
  else if op =? OP_FMUL then wr vm rd (f2u (f_mul f1 f2))
  else if op =? OP_FDIV then
    wr vm rd (f2u (if negb (SFeqb f2 f_zero) then f_div f1 f2 else f_zero))
  else if op =? OP_FFMA then
    u3 ← arr_get (regs vm) rs3;
    wr vm rd (f2u (f_add (f_mul f1 f2) (u2f u3)))
  else if op =? OP_FNEG then wr vm rd (f2u (SFopp f1))
  else if op =? OP_FABS then wr vm rd (f2u (SFabs f1))
  else if op =? OP_FMIN then wr vm rd (f2u (fminf f1 f2))
  else if op =? OP_FMAX then wr vm rd (f2u (fmaxf f1 f2))
  else if op =? OP_FTOI then
    i ← f_to_int f1;
    wr vm rd (u32 i)
  else if op =? OP_ITOF then wr vm rd (f2u (f_of_int i1))
  (* Float Comparison (extension) *)
  else if op =? 0x72 then wr vm rd (bool_to_Z (SFltb f1 f2))
  else if op =? 0x73 then wr vm rd (bool_to_Z (SFleb f1 f2))
  else if op =? 0x74 then wr vm rd (bool_to_Z (SFeqb f1 f2))
  (* SFU *)
  else if op =? OP_SFU_SIN then wr vm rd (f2u (sfu_sin f1))
  else if op =? OP_SFU_COS then wr vm rd (f2u (sfu_cos f1))
  else if op =? OP_SFU_EX2 then wr vm rd (f2u (sfu_exp2 f1))
  else if op =? OP_SFU_LG2 then wr vm rd (f2u (sfu_log2 f1))
  else if op =? OP_SFU_RCP then wr vm rd (f2u (sfu_rcp f1))
  else if op =? OP_SFU_RSQ then wr vm rd (f2u (sfu_rsqrt f1))
  else if op =? OP_SFU_SQRT then wr vm rd (f2u (sfu_sqrt f1))
  else if op =? OP_SFU_TANH then wr vm rd (f2u (sfu_tanh f1))
  (* Bit manipulation *)
  else if op =? OP_POPC then wr vm rd (popc_loop 32 u1 0)
  else if op =? OP_CLZ then wr vm rd (clz_loop 32 u1 0)
  else if op =? OP_BREV then wr vm rd (brev_loop 32 0 u1 0)
  else if op =? OP_CNOT then wr vm rd (if u1 =? 0 then 1 else 0)
  (* Predicates *)
  else if op =? OP_SELP then
    u3 ← arr_get (regs vm) rs3;
    wr vm rd (if negb (s32 u3 =? 0) then u1 else u2)
  (* Control Flow *)
  else if op =? OP_BRA then Some (true, set_pc vm imm)
  else if op =? OP_BEQ then
    if i1 =? i2 then Some (true, set_pc vm imm) else Some (true, vm)
  else if op =? OP_BNE then
    if negb (i1 =? i2) then Some (true, set_pc vm imm) else Some (true, vm)
  else if op =? OP_SSY then
    if div_sp vm <? VM_STACK_SIZE then
      s ← arr_set (div_stack vm) (div_sp vm) imm;
      Some (true, set_div vm s (div_sp vm + 1))
    else Some (true, vm)
  else if op =? OP_JOIN then
    if 0 <? div_sp vm then Some (true, set_div vm (div_stack vm) (div_sp vm - 1))
    else Some (true, vm)
  else if op =? OP_CALL then
    if ret_sp vm <? VM_STACK_SIZE then
      s ← arr_set (ret_stack vm) (ret_sp vm) (pc vm);
      Some (true, set_pc (set_ret vm s (ret_sp vm + 1)) imm)
    else Some (true, set_pc vm imm)
  else if op =? OP_RET then
    if 0 <? ret_sp vm then
      target ← arr_get (ret_stack vm) (ret_sp vm - 1);
      Some (true, set_pc (set_ret vm (ret_stack vm) (ret_sp vm - 1)) target)
    else Some (false, set_running vm false)
  else if op =? OP_TID then wr vm rd 0
  else if op =? OP_BAR then Some (true, vm)
  (* Texture *)
  else if op =? OP_TEX then exec_tex vm rd rs2 u1 f2
  (* Memory operations *)
  else if op =? OP_LDR then
    let addr := u32 (u1 + imm) in
    if addr <? VM_MEM_SIZE then
      word ← arr_get (mem vm) (addr / 4);
      wr vm rd word
    else wr vm rd 0
  else if op =? OP_STR then
    let addr := u32 (u1 + imm) in
    if addr <? VM_MEM_SIZE then
      m ← arr_set (mem vm) (addr / 4) u2;
      Some (true, set_mem vm m)
    else Some (true, vm)
  else if (op =? OP_LDS) || (op =? OP_STS) then Some (true, vm)
  else
    Some (false, set_error vm ("Unknown opcode: 0x" +++ fmt_X 2 op +++ " at PC "
                               +++ fmt_d (u32 (pc vm - 1)))).

(** Execute single instruction, returns false if execution should stop. *)
Definition vm_step (vm : milo_vm_t) : option (bool * milo_vm_t) :=
  if code_size vm <=? pc vm then
    Some (false, set_error vm ("PC out of bounds: " +++ fmt_d (pc vm)))
  else
    inst ← arr_get (code vm) (pc vm);
    let op := inst_opcode inst in
    let rd := inst_rd inst in
    let rs1 := inst_rs1 inst in
    let rs2 := inst_rs2 inst in
    let imm := u32 (inst_imm inst) in
    let rs3 := inst_rs3 inst in
    (* Register 0 is always 0 *)
    r ← arr_set (regs vm) 0 0;
    let vm := set_regs vm r in
    u1 ← arr_get (regs vm) rs1;
    u2 ← arr_get (regs vm) rs2;
    let vm := set_pc vm (u32 (pc vm + 1)) in
    let vm := set_cycle_count vm (cycle_count vm + 1) in
    res ← exec_op vm op rd rs1 rs2 imm rs3 u1 u2;
    match res with
    | (false, vm) => Some (false, vm)
    | (true, vm) =>
        (* Always keep r0 as zero *)
        r ← arr_set (regs vm) 0 0;
        Some (true, set_regs vm r)
    end.

(** ** milo_vm.c: running a fragment *)

Record milo_fragment_in_t := {
  in_x : spec_float; in_y : spec_float;
  in_z : spec_float;
  in_u : spec_float; in_v : spec_float;
  in_r : spec_float; in_g : spec_float; in_b : spec_float; in_a : spec_float;
  in_nx : spec_float; in_ny : spec_float; in_nz : spec_float
}.

Record milo_fragment_out_t := {
  out_r : spec_float; out_g : spec_float; out_b : spec_float; out_a : spec_float;
  out_depth : spec_float;
  out_discard : bool
}.

(** The "Reset state" and "Set up input registers" part of
    [milo_vm_exec_fragment]. *)
Definition fragment_reset (vm : milo_vm_t) (fin : milo_fragment_in_t) : option milo_vm_t :=
  let r := replicate (length (regs vm)) 0 in
  let vm := set_regs vm r in
  let vm := set_pc vm 0 in
  let vm := set_div vm (div_stack vm) 0 in
  let vm := set_ret vm (ret_stack vm) 0 in
  let vm := set_running vm true in
  let vm := set_discarded vm false in
  let vm := set_cycle_count vm 0 in
  let vm := set_error vm "" in
  r ← arr_set (regs vm) 2 (f2u (in_u fin));
  r ← arr_set r 3 (f2u (in_v fin));
  r ← arr_set r 4 (f2u (in_nx fin));
  r ← arr_set r 5 (f2u (in_ny fin));
  r ← arr_set r 6 (f2u (in_nz fin));
  r ← arr_set r 7 (f2u (in_r fin));
  r ← arr_set r 8 (f2u (in_g fin));
  r ← arr_set r 9 (f2u (in_b fin));
  r ← arr_set r 10 (f2u (in_a fin));
  Some (set_regs vm r).

(** [while (vm->running && vm->cycle_count < vm->max_cycles)
      if (!vm_step (vm)) break;]
    A step that does not stop the loop adds one to [cycle_count], so
    [max_cycles - cycle_count] rounds are enough. *)
Fixpoint run_loop (fuel : nat) (vm : milo_vm_t) : option milo_vm_t :=
  match fuel with
  | O => Some vm
  | S fuel' =>
      if running vm && (cycle_count vm <? max_cycles vm) then
        match vm_step vm with
        | None => None
        | Some (false, vm') => Some vm'
        | Some (true, vm') => run_loop fuel' vm'
        end
      else Some vm
  end.

Definition run (vm : milo_vm_t) : option milo_vm_t :=
  run_loop (Z.to_nat (max_cycles vm - cycle_count vm)) vm.

(** [out] is written only when the cycle limit was not reached. *)
Definition milo_vm_exec_fragment (vm : milo_vm_t) (fin : milo_fragment_in_t)
    (out : milo_fragment_out_t)
  : option (bool * milo_vm_t * milo_fragment_out_t) :=
  vm ← fragment_reset vm fin;
  vm ← run vm;
  if max_cycles vm <=? cycle_count vm then
    Some (false,
          set_error vm ("Exceeded max cycles (" +++ fmt_d (max_cycles vm) +++ ")"),
          out)
  else
    r4 ← arr_get (regs vm) 4;
    r5 ← arr_get (regs vm) 5;
    r6 ← arr_get (regs vm) 6;
    r7 ← arr_get (regs vm) 7;
    let out :=
      {| out_r := u2f r4; out_g := u2f r5; out_b := u2f r6; out_a := u2f r7;
         out_discard := discarded vm; out_depth := in_z fin |} in
    Some (String.eqb (error vm) "", vm, out).

(** ** milo_vm.c: running a vertex *)

Record milo_vertex_in_t := {
  vin_x : spec_float; vin_y : spec_float; vin_z : spec_float;
  vin_u : spec_float; vin_v : spec_float;
  vin_r : spec_float; vin_g : spec_float; vin_b : spec_float; vin_a : spec_float;
  vin_nx : spec_float; vin_ny : spec_float; vin_nz : spec_float
}.

(** The four members [milo_vm_exec_vertex] writes. *)
Record milo_vertex_out_t := {
  vout_x : spec_float; vout_y : spec_float; vout_z : spec_float; vout_w : spec_float
}.

Definition vertex_reset (vm : milo_vm_t) (vin : milo_vertex_in_t) : option milo_vm_t :=
  let r := replicate (length (regs vm)) 0 in
  let vm := set_regs vm r in
  let vm := set_pc vm 0 in
  let vm := set_div vm (div_stack vm) 0 in
  let vm := set_ret vm (ret_stack vm) 0 in
  let vm := set_running vm true in
  let vm := set_cycle_count vm 0 in
  let vm := set_error vm "" in
  r ← arr_set (regs vm) 2 (f2u (vin_x vin));
  r ← arr_set r 3 (f2u (vin_y vin));
  r ← arr_set r 4 (f2u (vin_z vin));
  r ← arr_set r 5 (f2u (vin_u vin));
  r ← arr_set r 6 (f2u (vin_v vin));
  r ← arr_set r 7 (f2u (vin_r vin));
  r ← arr_set r 8 (f2u (vin_g vin));
  r ← arr_set r 9 (f2u (vin_b vin));
  r ← arr_set r 10 (f2u (vin_a vin));
  r ← arr_set r 11 (f2u (vin_nx vin));
  r ← arr_set r 12 (f2u (vin_ny vin));
  r ← arr_set r 13 (f2u (vin_nz vin));
  Some (set_regs vm r).

Definition milo_vm_exec_vertex (vm : milo_vm_t) (vin : milo_vertex_in_t)
  : option (bool * milo_vm_t * milo_vertex_out_t) :=
  vm ← vertex_reset vm vin;
  vm ← run vm;
  r1 ← arr_get (regs vm) 1;
  r2 ← arr_get (regs vm) 2;
  r3 ← arr_get (regs vm) 3;
  r4 ← arr_get (regs vm) 4;
  Some (String.eqb (error vm) "", vm,
        {| vout_x := u2f r1; vout_y := u2f r2; vout_z := u2f r3; vout_w := u2f r4 |}).

Definition milo_vm_get_error (vm : milo_vm_t) : option string :=
  match error vm with
  | EmptyString => None
  | e => Some e
  end.

End VM.

(** ** milo_glsl.h: tokens, types and the syntax tree *)

Inductive milo_token_type_t :=
| TOK_EOF | TOK_ERROR
| TOK_INT_LIT | TOK_FLOAT_LIT | TOK_IDENT
| TOK_VOID | TOK_FLOAT | TOK_INT | TOK_VEC2 | TOK_VEC3 | TOK_VEC4
| TOK_MAT3 | TOK_MAT4 | TOK_SAMPLER2D
| TOK_IN | TOK_OUT | TOK_UNIFORM | TOK_CONST
| TOK_IF | TOK_ELSE | TOK_FOR | TOK_WHILE | TOK_RETURN
| TOK_BREAK | TOK_CONTINUE | TOK_DISCARD | TOK_TRUE | TOK_FALSE
| TOK_PRECISION | TOK_HIGHP | TOK_MEDIUMP | TOK_LOWP
| TOK_VERSION | TOK_LAYOUT | TOK_LOCATION
| TOK_PLUS | TOK_MINUS | TOK_STAR | TOK_SLASH | TOK_PERCENT
| TOK_EQ | TOK_NE | TOK_LT | TOK_GT | TOK_LE | TOK_GE
| TOK_AND | TOK_OR | TOK_NOT
| TOK_ASSIGN | TOK_PLUS_ASSIGN | TOK_MINUS_ASSIGN | TOK_STAR_ASSIGN | TOK_SLASH_ASSIGN
| TOK_INC | TOK_DEC
| TOK_LPAREN | TOK_RPAREN | TOK_LBRACE | TOK_RBRACE | TOK_LBRACKET | TOK_RBRACKET
| TOK_COMMA | TOK_SEMICOLON | TOK_DOT | TOK_QUESTION | TOK_COLON | TOK_HASH.

Inductive milo_type_t :=
| TYPE_VOID | TYPE_FLOAT | TYPE_INT | TYPE_VEC2 | TYPE_VEC3 | TYPE_VEC4
| TYPE_MAT3 | TYPE_MAT4 | TYPE_SAMPLER2D.

(** The tagged node, one constructor per [milo_node_type_t]; a [next] chain
    is a list, a child pointer that may be NULL is an [option]. *)
#[warnings="-register-all"]
Inductive milo_node_t :=
| NODE_PROGRAM (stmts : list milo_node_t)
| NODE_FUNCTION (name : string) (return_type : milo_type_t)
    (params : list milo_node_t) (body : option milo_node_t)
| NODE_VAR_DECL (name : string) (var_type : milo_type_t)
    (is_uniform is_in is_out : bool) (location : Z) (init : option milo_node_t)
| NODE_PARAM (name : string) (var_type : milo_type_t)
| NODE_BLOCK (stmts : list milo_node_t)
| NODE_IF (cond then_branch else_branch : option milo_node_t)
| NODE_FOR (init cond post body : option milo_node_t)
| NODE_WHILE (cond body : option milo_node_t)
| NODE_RETURN (value : option milo_node_t)
| NODE_DISCARD
| NODE_BREAK
| NODE_CONTINUE
| NODE_EXPR_STMT (value : option milo_node_t)
| NODE_BINARY (op : milo_token_type_t) (left right : option milo_node_t)
| NODE_UNARY (op : milo_token_type_t) (operand : option milo_node_t) (prefix : bool)
| NODE_CALL (name : string) (args : list milo_node_t)
| NODE_INDEX (object index : option milo_node_t)
| NODE_MEMBER (object : option milo_node_t) (member : string)
| NODE_IDENT (name : string)
| NODE_INT_LIT (int_val : Z)
| NODE_FLOAT_LIT (float_val : spec_float)
| NODE_ASSIGN (target : milo_node_t) (value : option milo_node_t) (op : milo_token_type_t)
| NODE_TERNARY (cond then_expr else_expr : option milo_node_t)
| NODE_CONSTRUCTOR (con_type : milo_type_t) (args : list milo_node_t).

Record milo_symbol_t := {
  sym_name : string;
  sym_type : milo_type_t;
  sym_reg : Z;
  sym_is_uniform : bool;
  sym_is_in : bool;
  sym_is_out : bool;
  sym_location : Z
}.

Definition MILO_MAX_SYMBOLS : Z := 256.
Definition MILO_MAX_CODE : Z := 4096.
Definition MILO_MAX_ERRORS : Z := 32.
Definition MILO_MAX_CONSTANTS : Z := 256.
Definition MILO_CONST_BASE_ADDR : Z := 0x1000.

(** The code generator's part of [milo_compiler_t]; the counts are the
    lengths of the lists. *)
Record milo_compiler_t := {
  c_line : Z;
  c_symtab : list milo_symbol_t;
  c_code : list string;          (* char code[MILO_MAX_CODE][128] *)
  c_next_reg : Z;
  c_next_label : Z;
  c_constants : list Z;
  c_errors : list string
}.

(** ** printf ("%.6f") *)

Definition fmt_f6 (f : spec_float) : string :=
  match f with
  | S754_zero s => (if s then "-" else "") +++ "0.000000"
  | S754_infinity s => (if s then "-" else "") +++ "inf"
  | S754_nan => "nan"
  | S754_finite s m e =>
      let num := if 0 <=? e then Zpos m * 2 ^ e * 1000000 else Zpos m * 1000000 in
      let den := if 0 <=? e then 1 else 2 ^ (- e) in
      let q := num / den in
      let r := num mod den in
      let q := if den <? 2 * r then q + 1
               else if (2 * r =? den) && Z.odd q then q + 1 else q in
      let frac := fmt_d (q mod 1000000) in
      (if s then "-" else "") +++ fmt_d (q / 1000000) +++ "."
        +++ pad_zero (6 - String.length frac) frac
  end.

(** ** milo_glsl.c: code generation *)

(** The generator threads the compiler state; [None] stands for a read of an
    uninitialised [arg_regs] slot. *)
Definition Gen (A : Type) : Type := milo_compiler_t -> option (A * milo_compiler_t).

#[global] Instance Gen_ret : MRet Gen := fun A a c => Some (a, c).

#[global] Instance Gen_bind : MBind Gen :=
  fun A B f m c =>
    match m c with
    | Some (a, c') => f a c'
    | None => None
    end.

Definition gen_undefined {A : Type} : Gen A := fun _ => None.

Definition error_ (msg : string) : Gen unit := fun c =>
  if MILO_MAX_ERRORS <=? Z.of_nat (length (c_errors c)) then Some (tt, c)
  else
    let buf := str_take 199 msg in
    Some (tt,
      {| c_line := c_line c; c_symtab := c_symtab c; c_code := c_code c;
         c_next_reg := c_next_reg c; c_next_label := c_next_label c;
         c_constants := c_constants c;
         c_errors := c_errors c ++ [str_take 255 ("Line " +++ fmt_d (c_line c) +++ ": " +++ buf)] |}).

Definition emit (text : string) : Gen unit := fun c =>
  if MILO_MAX_CODE <=? Z.of_nat (length (c_code c)) then error_ "Code too large" c
  else
    Some (tt,
      {| c_line := c_line c; c_symtab := c_symtab c;
         c_code := c_code c ++ [str_take 127 text];
         c_next_reg := c_next_reg c; c_next_label := c_next_label c;
         c_constants := c_constants c; c_errors := c_errors c |}).

Definition alloc_reg : Gen Z := fun c =>
  Some (c_next_reg c,
    {| c_line := c_line c; c_symtab := c_symtab c; c_code := c_code c;
       c_next_reg := c_next_reg c + 1; c_next_label := c_next_label c;
       c_constants := c_constants c; c_errors := c_errors c |}).

Definition alloc_label : Gen Z := fun c =>
  Some (c_next_label c,
    {| c_line := c_line c; c_symtab := c_symtab c; c_code := c_code c;
       c_next_reg := c_next_reg c; c_next_label := c_next_label c + 1;
       c_constants := c_constants c; c_errors := c_errors c |}).

Fixpoint alloc_regs (n : nat) : Gen unit :=
  match n with
  | O => mret tt
  | S n' => _ ← alloc_reg; alloc_regs n'
  end.

(** The index of the first constant equal to [value]. *)
Fixpoint find_constant (cs : list Z) (value : Z) (i : Z) : option Z :=
  match cs with
  | [] => None
  | x :: cs' => if x =? value then Some i else find_constant cs' value (i + 1)
  end.

(** Add a constant to the constant table and return its memory address. *)
Definition add_constant (value : Z) : Gen Z := fun c =>
  match find_constant (c_constants c) value 0 with
  | Some i => Some (MILO_CONST_BASE_ADDR + i * 4, c)
  | None =>
      if MILO_MAX_CONSTANTS <=? Z.of_nat (length (c_constants c)) then
        (_ ← error_ "Too many constants"; mret MILO_CONST_BASE_ADDR) c
      else
        Some (MILO_CONST_BASE_ADDR + Z.of_nat (length (c_constants c)) * 4,
          {| c_line := c_line c; c_symtab := c_symtab c; c_code := c_code c;
             c_next_reg := c_next_reg c; c_next_label := c_next_label c;
             c_constants := c_constants c ++ [value]; c_errors := c_errors c |})
  end.

Definition type_size (t : milo_type_t) : Z :=
  match t with
  | TYPE_FLOAT | TYPE_INT => 1
  | TYPE_VEC2 => 2
  | TYPE_VEC3 => 3
  | TYPE_VEC4 => 4
  | TYPE_MAT3 => 9
  | TYPE_MAT4 => 16
  | _ => 1
  end.

(** The first symbol with the name, as the lookup loops find it. *)
Fixpoint find_symbol (syms : list milo_symbol_t) (name : string) : option milo_symbol_t :=
  match syms with
  | [] => None
  | s :: syms' => if String.eqb (sym_name s) name then Some s else find_symbol syms' name
  end.

Definition lookup_symbol (name : string) : Gen (option milo_symbol_t) := fun c =>
  Some (find_symbol (c_symtab c) name, c).

(** [if (c->symtab.count < MILO_MAX_SYMBOLS) { ...; c->symtab.count++; }] *)
Definition add_symbol (s : milo_symbol_t) : Gen unit := fun c =>
  if Z.of_nat (length (c_symtab c)) <? MILO_MAX_SYMBOLS then
    Some (tt,
      {| c_line := c_line c; c_symtab := c_symtab c ++ [s]; c_code := c_code c;
         c_next_reg := c_next_reg c; c_next_label := c_next_label c;
         c_constants := c_constants c; c_errors := c_errors c |})
  else Some (tt, c).

Definition r_ (n : Z) : string := "r" +++ fmt_d n.

(** [arg_regs[i]] *)
Definition arg_reg (arg_regs : list Z) (i : nat) : Gen Z :=
  match arg_regs !! i with
  | Some r => mret r
  | None => gen_undefined
  end.

(** [for (j = 0; j < size; j++) emit (...)] *)
Fixpoint emit_components (n : nat) (j : Z) (line : Z -> string) : Gen unit :=
  match n with
  | O => mret tt
  | S n' => _ ← emit (line j); emit_components n' (j + 1) line
  end.

Definition swizzle_offset (m : string) : Z :=
  match m with
  | String c _ =>
      if Ascii.eqb c "x" || Ascii.eqb c "r" || Ascii.eqb c "s" then 0
      else if Ascii.eqb c "y" || Ascii.eqb c "g" || Ascii.eqb c "t" then 1
      else if Ascii.eqb c "z" || Ascii.eqb c "b" || Ascii.eqb c "p" then 2
      else if Ascii.eqb c "w" || Ascii.eqb c "a" || Ascii.eqb c "q" then 3
      else 0
  | EmptyString => 0
  end.

Definition assign_mnemonic (op : milo_token_type_t) : option string :=
  match op with
  | TOK_PLUS_ASSIGN => Some "fadd"
  | TOK_MINUS_ASSIGN => Some "fsub"
  | TOK_STAR_ASSIGN => Some "fmul"
  | TOK_SLASH_ASSIGN => Some "fdiv"
  | _ => None
  end.

(** The built-in dispatch of [NODE_CALL]; [r] is the result register. *)
Definition gen_call (name : string) (arg_regs : list Z) (r : Z) : Gen unit :=
  if String.eqb name "sin" then
    a0 ← arg_reg arg_regs 0; emit ("    sin " +++ r_ r +++ ", " +++ r_ a0)
  else if String.eqb name "cos" then
    a0 ← arg_reg arg_regs 0; emit ("    cos " +++ r_ r +++ ", " +++ r_ a0)
  else if String.eqb name "sqrt" then
    a0 ← arg_reg arg_regs 0; emit ("    sqrt " +++ r_ r +++ ", " +++ r_ a0)
  else if String.eqb name "abs" then
    a0 ← arg_reg arg_regs 0; emit ("    fabs " +++ r_ r +++ ", " +++ r_ a0)
  else if String.eqb name "min" then
    a0 ← arg_reg arg_regs 0; a1 ← arg_reg arg_regs 1;
    emit ("    fmin " +++ r_ r +++ ", " +++ r_ a0 +++ ", " +++ r_ a1)
  else if String.eqb name "max" then
    a0 ← arg_reg arg_regs 0; a1 ← arg_reg arg_regs 1;
    emit ("    fmax " +++ r_ r +++ ", " +++ r_ a0 +++ ", " +++ r_ a1)
  else if String.eqb name "clamp" then
    a0 ← arg_reg arg_regs 0; a1 ← arg_reg arg_regs 1;
    _ ← emit ("    fmax " +++ r_ r +++ ", " +++ r_ a0 +++ ", " +++ r_ a1);
    a2 ← arg_reg arg_regs 2;
    emit ("    fmin " +++ r_ r +++ ", " +++ r_ r +++ ", " +++ r_ a2)
  else if String.eqb name "dot" then
    (* Simplified 3-component dot product *)
    t1 ← alloc_reg; t2 ← alloc_reg;
    a0 ← arg_reg arg_regs 0; a1 ← arg_reg arg_regs 1;
    _ ← emit ("    fmul " +++ r_ r +++ ", " +++ r_ a0 +++ ", " +++ r_ a1);
    _ ← emit ("    fmul " +++ r_ t1 +++ ", " +++ r_ (a0 + 1) +++ ", " +++ r_ (a1 + 1));
    _ ← emit ("    fmul " +++ r_ t2 +++ ", " +++ r_ (a0 + 2) +++ ", " +++ r_ (a1 + 2));
    _ ← emit ("    fadd " +++ r_ r +++ ", " +++ r_ r +++ ", " +++ r_ t1);
    emit ("    fadd " +++ r_ r +++ ", " +++ r_ r +++ ", " +++ r_ t2)
  else if String.eqb name "normalize" then
    (* Simplified normalize *)
    len ← alloc_reg;
    _ ← emit "    ; normalize (simplified)";
    a0 ← arg_reg arg_regs 0;
    _ ← emit ("    fmul " +++ r_ len +++ ", " +++ r_ a0 +++ ", " +++ r_ a0);
    _ ← emit ("    rsq " +++ r_ len +++ ", " +++ r_ len);
    emit ("    fmul " +++ r_ r +++ ", " +++ r_ a0 +++ ", " +++ r_ len)
  else if String.eqb name "texture" then
    a0 ← arg_reg arg_regs 0; a1 ← arg_reg arg_regs 1;
    emit ("    tex " +++ r_ r +++ ", " +++ r_ a0 +++ ", " +++ r_ a1)
  else if String.eqb name "mix" then
    (* mix(a, b, t) = a + t * (b - a) *)
    t ← alloc_reg;
    a0 ← arg_reg arg_regs 0; a1 ← arg_reg arg_regs 1;
    _ ← emit ("    fsub " +++ r_ t +++ ", " +++ r_ a1 +++ ", " +++ r_ a0);
    a2 ← arg_reg arg_regs 2;
    _ ← emit ("    fmul " +++ r_ t +++ ", " +++ r_ t +++ ", " +++ r_ a2);
    emit ("    fadd " +++ r_ r +++ ", " +++ r_ a0 +++ ", " +++ r_ t)
  else error_ ("Unknown function: " +++ name).

Fixpoint gen_expr (node : milo_node_t) : Gen Z :=
  let gen_expr_opt (o : option milo_node_t) : Gen Z :=
    match o with
    | Some n => gen_expr n
    | None => mret (-1)
    end in
  match node with
  | NODE_INT_LIT val =>
      r ← alloc_reg;
      (* Check if value fits in 20-bit signed immediate (-524288 to 524287) *)
      if (-524288 <=? val) && (val <=? 524287) then
        _ ← emit ("    addi " +++ r_ r +++ ", r0, " +++ fmt_d val);
        mret r
      else
        (* Load from constant table *)
        addr ← add_constant (u32 val);
        _ ← emit ("    ldr " +++ r_ r +++ ", r0, " +++ fmt_d addr +++ "  ; int " +++ fmt_d val);
        mret r
  | NODE_FLOAT_LIT val =>
      r ← alloc_reg;
      (* Float constants must be loaded from constant table (32-bit values) *)
      addr ← add_constant (f2u val);
      _ ← emit ("    ldr " +++ r_ r +++ ", r0, " +++ fmt_d addr +++ "  ; " +++ fmt_f6 val);
      mret r
  | NODE_IDENT name =>
      (* Look up in symbol table *)
      s ← lookup_symbol name;
      match s with
      | Some s => mret (sym_reg s)
      | None => _ ← error_ ("Undefined variable: " +++ name); alloc_reg
      end
  | NODE_BINARY op lhs rhs =>
      left_r ← gen_expr_opt lhs;
      right_r ← gen_expr_opt rhs;
      r ← alloc_reg;
      let plain (mn : string) : Gen Z :=
        _ ← emit ("    " +++ mn +++ " " +++ r_ r +++ ", " +++ r_ left_r +++ ", " +++ r_ right_r);
        mret r in
      match op with
      | TOK_PLUS => plain "fadd"
      | TOK_MINUS => plain "fsub"
      | TOK_STAR => plain "fmul"
      | TOK_SLASH => plain "fdiv"
      | TOK_LT => plain "fslt"
      | TOK_LE => plain "fsle"
      | TOK_GT =>
          _ ← emit ("    fslt " +++ r_ r +++ ", " +++ r_ right_r +++ ", " +++ r_ left_r);
          mret r
      | TOK_GE =>
          _ ← emit ("    fsle " +++ r_ r +++ ", " +++ r_ right_r +++ ", " +++ r_ left_r);
          mret r
      | TOK_EQ => plain "fseq"
      | TOK_NE =>
          _ ← emit ("    fseq " +++ r_ r +++ ", " +++ r_ left_r +++ ", " +++ r_ right_r);
          _ ← emit ("    xori " +++ r_ r +++ ", " +++ r_ r +++ ", 1");
          mret r
      | _ => plain "add"
      end
  | NODE_UNARY op operand _ =>
      operand ← gen_expr_opt operand;
      r ← alloc_reg;
      _ ← match op with
          | TOK_MINUS => emit ("    fneg " +++ r_ r +++ ", " +++ r_ operand)
          | TOK_NOT => emit ("    xori " +++ r_ r +++ ", " +++ r_ operand +++ ", 1")
          | _ => emit ("    mov " +++ r_ r +++ ", " +++ r_ operand)
          end;
      mret r
  | NODE_CALL name args =>
      (* Built-in functions *)
      arg_regs ←
        (fix args_loop (args : list milo_node_t) (room : nat) : Gen (list Z) :=
           match args, room with
           | arg :: args', S room' =>
               a ← gen_expr arg;
               rest ← args_loop args' room';
               mret (a :: rest)
           | _, _ => mret []
           end) args 8%nat;
      r ← alloc_reg;
      _ ← gen_call name arg_regs r;
      mret r
  | NODE_CONSTRUCTOR con_type args =>
      r ← alloc_reg;
      let size := type_size con_type in
      (* Allocate consecutive registers *)
      _ ← alloc_regs (Z.to_nat (size - 1));
      _ ← (fix con_loop (args : list milo_node_t) (i : Z) (room : nat) : Gen unit :=
             match args, room with
             | arg :: args', S room' =>
                 a ← gen_expr arg;
                 _ ← emit ("    mov " +++ r_ (r + i) +++ ", " +++ r_ a);
                 con_loop args' (i + 1) room'
             | _, _ => mret tt
             end) args 0 (Z.to_nat size);
      mret r
  | NODE_MEMBER object m =>
      obj ← gen_expr_opt object;
      r ← alloc_reg;
      (* Simple swizzle *)
      let offset := swizzle_offset m in
      _ ← emit ("    mov " +++ r_ r +++ ", " +++ r_ (obj + offset) +++ "  ; ." +++ m);
      mret r
  | NODE_ASSIGN target value op =>
      val ← gen_expr_opt value;
      match target with
      | NODE_IDENT name =>
          s ← lookup_symbol name;
          match s with
          | Some s =>
              let r := sym_reg s in
              let size := Z.to_nat (type_size (sym_type s)) in
              _ ← match op with
                  | TOK_ASSIGN =>
                      (* Copy all components for vector types *)
                      emit_components size 0
                        (fun j => "    mov " +++ r_ (r + j) +++ ", " +++ r_ (val + j))
                  | _ =>
                      match assign_mnemonic op with
                      | Some mn =>
                          emit_components size 0
                            (fun j => "    " +++ mn +++ " " +++ r_ (r + j) +++ ", "
                                      +++ r_ (r + j) +++ ", " +++ r_ (val + j))
                      | None => mret tt
                      end
                  end;
              mret r
          | None => _ ← error_ ("Undefined variable: " +++ name); mret val
          end
      | _ => mret val
      end
  | NODE_TERNARY cond then_expr else_expr =>
      cond ← gen_expr_opt cond;
      then_val ← gen_expr_opt then_expr;
      else_val ← gen_expr_opt else_expr;
      r ← alloc_reg;
      _ ← emit ("    selp " +++ r_ r +++ ", " +++ r_ then_val +++ ", " +++ r_ else_val
                +++ ", " +++ r_ cond);
      mret r
  | _ =>
      _ ← error_ "Unsupported expression type";
      alloc_reg
  end.

(** [gen_expr] of a pointer that may be NULL. *)
Definition gen_expr_ptr (o : option milo_node_t) : Gen Z :=
  match o with
  | Some n => gen_expr n
  | None => mret (-1)
  end.

Definition plain_symbol (name : string) (t : milo_type_t) (r : Z) : milo_symbol_t :=
  {| sym_name := name; sym_type := t; sym_reg := r; sym_is_uniform := false;
     sym_is_in := false; sym_is_out := false; sym_location := 0 |}.

Definition L_ (n : Z) : string := "L" +++ fmt_d n.

Fixpoint gen_stmt (node : milo_node_t) : Gen unit :=
  let gen_stmt_opt (o : option milo_node_t) : Gen unit :=
    match o with
    | Some n => gen_stmt n
    | None => mret tt
    end in
  match node with
  | NODE_BLOCK stmts =>
      (fix block_loop (stmts : list milo_node_t) : Gen unit :=
         match stmts with
         | [] => mret tt
         | stmt :: stmts' => _ ← gen_stmt stmt; block_loop stmts'
         end) stmts
  | NODE_VAR_DECL name var_type _ _ _ _ init =>
      r ← alloc_reg;
      let size := type_size var_type in
      _ ← alloc_regs (Z.to_nat (size - 1));
      (* Add to symbol table *)
      _ ← add_symbol (plain_symbol name var_type r);
      match init with
      | Some e =>
          val ← gen_expr e;
          emit ("    mov " +++ r_ r +++ ", " +++ r_ val +++ "  ; " +++ name)
      | None => mret tt
      end
  | NODE_EXPR_STMT value => _ ← gen_expr_ptr value; mret tt
  | NODE_RETURN value =>
      _ ← match value with
          | Some e =>
              val ← gen_expr e;
              emit ("    mov r1, " +++ r_ val +++ "  ; return value")
          | None => mret tt
          end;
      emit "    ret"
  | NODE_DISCARD =>
      _ ← emit "    ; discard fragment";
      emit "    exit"
  | NODE_IF cond then_branch else_branch =>
      cond ← gen_expr_ptr cond;
      else_label ← alloc_label;
      end_label ← alloc_label;
      _ ← emit ("    ssy " +++ L_ else_label +++ "  ; if");
      _ ← emit ("    beq " +++ r_ cond +++ ", r0, " +++ L_ else_label);
      _ ← gen_stmt_opt then_branch;
      _ ← match else_branch with
          | Some e =>
              _ ← emit ("    bra " +++ L_ end_label);
              _ ← emit (L_ else_label +++ ":");
              _ ← gen_stmt e;
              emit (L_ end_label +++ ":")
          | None => emit (L_ else_label +++ ":")
          end;
      emit "    join"
  | NODE_FOR init cond post body =>
      loop_label ← alloc_label;
      end_label ← alloc_label;
      _ ← gen_stmt_opt init;
      _ ← emit (L_ loop_label +++ ":  ; for loop");
      _ ← emit ("    ssy " +++ L_ end_label);
      _ ← match cond with
          | Some e =>
              cond ← gen_expr e;
              emit ("    beq " +++ r_ cond +++ ", r0, " +++ L_ end_label)
          | None => mret tt
          end;
      _ ← gen_stmt_opt body;
      _ ← match post with
          | Some e => _ ← gen_expr e; mret tt
          | None => mret tt
          end;
      _ ← emit ("    bra " +++ L_ loop_label);
      _ ← emit (L_ end_label +++ ":");
      emit "    join"
  | NODE_WHILE cond body =>
      loop_label ← alloc_label;
      end_label ← alloc_label;
      _ ← emit (L_ loop_label +++ ":  ; while loop");
      _ ← emit ("    ssy " +++ L_ end_label);
      cond ← gen_expr_ptr cond;
      _ ← emit ("    beq " +++ r_ cond +++ ", r0, " +++ L_ end_label);
      _ ← gen_stmt_opt body;
      _ ← emit ("    bra " +++ L_ loop_label);
      _ ← emit (L_ end_label +++ ":");
      emit "    join"
  | NODE_BREAK => emit "    join  ; break"
  | NODE_CONTINUE => emit "    ; continue (TODO)"
  | _ => mret tt
  end.

Definition gen_stmt_ptr (o : option milo_node_t) : Gen unit :=
  match o with
  | Some n => gen_stmt n
  | None => mret tt
  end.

(** The [var_decl] fields of a parameter node. *)
Definition decl_name_type (p : milo_node_t) : option (string * milo_type_t) :=
  match p with
  | NODE_PARAM name t => Some (name, t)
  | NODE_VAR_DECL name t _ _ _ _ _ => Some (name, t)
  | _ => None
  end.

(** The parameter loop of [gen_function]; it returns [param_reg]. *)
Fixpoint gen_params (params : list milo_node_t) (param_reg : Z) : Gen Z :=
  match params with
  | [] => mret param_reg
  | p :: params' =>
      match decl_name_type p with
      | None => gen_undefined
      | Some (name, t) => fun c =>
          if Z.of_nat (length (c_symtab c)) <? MILO_MAX_SYMBOLS then
            (_ ← add_symbol (plain_symbol name t param_reg);
             gen_params params' (param_reg + type_size t)) c
          else gen_params params' param_reg c
      end
  end.

Definition set_next_reg (r : Z) : Gen unit := fun c =>
  Some (tt,
    {| c_line := c_line c; c_symtab := c_symtab c; c_code := c_code c;
       c_next_reg := r; c_next_label := c_next_label c;
       c_constants := c_constants c; c_errors := c_errors c |}).

Definition get_next_reg : Gen Z := fun c => Some (c_next_reg c, c).

Definition gen_function (node : milo_node_t) : Gen unit :=
  match node with
  | NODE_FUNCTION name _ params body =>
      _ ← emit ("; Function: " +++ name);
      _ ← emit (name +++ ":");
      (* Parameters - add to symbol table but don't reset next_reg *)
      next ← get_next_reg;
      param_reg ← gen_params params next;
      (* Keep next_reg at max of current value and param allocation *)
      _ ← (if next <? param_reg then set_next_reg param_reg else mret tt);
      _ ← gen_stmt_ptr body;
      _ ← (if String.eqb name "main" then emit "    exit" else emit "    ret");
      emit ""
  | _ => gen_undefined
  end.

(** First pass: declare uniforms and inputs/outputs. *)
Fixpoint gen_globals (decls : list milo_node_t) : Gen unit :=
  match decls with
  | [] => mret tt
  | decl :: decls' =>
      _ ← match decl with
          | NODE_VAR_DECL name var_type is_uniform is_in is_out location _ =>
              r ← alloc_reg;
              let size := type_size var_type in
              _ ← alloc_regs (Z.to_nat (size - 1));
              _ ← add_symbol
                    {| sym_name := name; sym_type := var_type; sym_reg := r;
                       sym_is_uniform := is_uniform; sym_is_in := is_in;
                       sym_is_out := is_out; sym_location := location |};
              let qual := if is_uniform then "uniform "
                          else if is_in then "in "
                          else if is_out then "out " else "" in
              emit ("; " +++ qual +++ name +++ " -> " +++ r_ r)
          | _ => mret tt
          end;
      gen_globals decls'
  end.

(** Second pass: generate function code. *)
Fixpoint gen_functions (decls : list milo_node_t) : Gen unit :=
  match decls with
  | [] => mret tt
  | decl :: decls' =>
      _ ← match decl with
          | NODE_FUNCTION _ _ _ _ => gen_function decl
          | _ => mret tt
          end;
      gen_functions decls'
  end.

Definition gen_program (ast : milo_node_t) : Gen unit :=
  match ast with
  | NODE_PROGRAM stmts =>
      _ ← emit "; Milo832 GPU Shader";
      _ ← emit "; Generated by milo_glsl compiler";
      _ ← emit "";
      _ ← gen_globals stmts;
      _ ← emit "";
      gen_functions stmts
  | _ => gen_undefined
  end.

(** [milo_glsl_init]; [line] is where the lexer stands. *)
Definition milo_glsl_init : milo_compiler_t :=
  {| c_line := 1; c_symtab := []; c_code := []; c_next_reg := 2; c_next_label := 0;
     c_constants := []; c_errors := [] |}.

(** [milo_glsl_compile] after [parse_program] has built [ast]. *)
Definition milo_glsl_compile_ast (c : milo_compiler_t) (ast : milo_node_t)
  : option (bool * milo_compiler_t) :=
  if (0 <? Z.of_nat (length (c_errors c))) then Some (false, c)
  else
    match gen_program ast c with
    | Some (_, c) => Some (Z.of_nat (length (c_errors c)) =? 0, c)
    | None => None
    end.

Definition NL : string := String "010" EmptyString.

Fixpoint concat_lines (lines : list string) : string :=
  match lines with
  | [] => ""
  | l :: lines' => l +++ NL +++ concat_lines lines'
  end.

Fixpoint data_lines (cs : list Z) (i : Z) : string :=
  match cs with
  | [] => ""
  | v :: cs' =>
      str_take 127 (".data 0x" +++ fmt_X 4 (MILO_CONST_BASE_ADDR + i * 4) +++ ", 0x"
                    +++ fmt_X 8 v +++ "  ; " +++ fmt_f6 (u2f v) +++ NL)
      +++ data_lines cs' (i + 1)
  end.

Definition milo_glsl_get_asm (c : milo_compiler_t) : string :=
  (* Output code *)
  let buf := concat_lines (c_code c) in
  (* Output constant table data section *)
  match c_constants c with
  | [] => buf
  | cs =>
      buf +++ NL +++ "; Constant data section" +++ NL
      +++ str_take 127 ("; Base address: 0x" +++ fmt_X 4 MILO_CONST_BASE_ADDR +++ " ("
                        +++ fmt_d (Z.of_nat (length cs)) +++ " constants)" +++ NL)
      +++ data_lines cs 0
  end.

(** * Properties *)

(** A C library for the closed examples: [strtof] converts nothing and the
    libm functions return NaN.  The general lemmas below hold for every
    library. *)
Definition example_libc : libc_t :=
  {| strtof := fun s => (S754_zero false, s);
     sinf := fun _ => S754_nan; cosf := fun _ => S754_nan;
     exp2f := fun _ => S754_nan; log2f := fun _ => S754_nan;
     tanhf := fun _ => S754_nan |}.

(** ** Bit-level reasoning *)

Lemma testbit_high (n w i : Z) :
  0 <= w < 2 ^ n -> 0 <= n <= i -> Z.testbit w i = false.
Proof.
  intros Hw Hi. rewrite <- (Z.mod_small w (2 ^ n)) by lia.
  apply Z.mod_pow2_bits_high. lia.
Qed.

Ltac bit_index :=
  repeat match goal with
  | |- context [Z.testbit ?a (?i - ?k + ?k)] =>
      replace (i - k + k) with i by lia
  | |- context [Z.testbit ?a (?i + ?k - ?k)] =>
      replace (i + k - k) with i by lia
  end.

Ltac bit_const :=
  repeat match goal with
  | |- context [Z.testbit (Z.ones ?n) ?j] =>
      first [ rewrite (Z.ones_spec_low n j) by lia
            | rewrite (Z.ones_spec_high n j) by lia
            | rewrite (Z.testbit_neg_r (Z.ones n) j) by lia ]
  | |- context [Z.testbit ?a ?j] =>
      rewrite (Z.testbit_neg_r a j) by lia
  | |- context [Z.testbit 0 ?j] => rewrite (Z.testbit_0_l j)
  end.

Ltac bit_spec :=
  repeat first
    [ rewrite Z.lor_spec | rewrite Z.land_spec
    | rewrite Z.shiftr_spec by lia
    | rewrite Z.shiftl_spec by lia ].

Ltac bit_bool :=
  rewrite ?andb_true_r, ?andb_false_r, ?orb_false_r, ?orb_true_r,
          ?orb_false_l, ?andb_true_l, ?andb_false_l, ?orb_true_l.

(** Compare two words bit by bit, splitting the index by [cases]. *)
Ltac bits_by_range i cases :=
  apply Z.bits_inj'; intros i ?Hi; bit_spec;
  let H := fresh "Hr" in
  assert (H : cases i) by (cbv beta; lia);
  cbv beta in H;
  repeat (destruct H as [H | H]);
  repeat (progress (bit_spec; bit_const; bit_index));
  bit_bool;
  try reflexivity.

(** ** Encoding and decoding *)

(** What [milo_encode_inst] makes of a decoded word: the four byte fields
    and the low 20 bits are kept, bits 27..20 are cleared and the predicate
    nibble is the default. *)
Lemma decode_encode_word (w : Z) :
  0 <= w < 2 ^ 64 ->
  milo_encode_inst (milo_decode_inst w) =
  Z.lor (Z.land w 0xFFFFFFFF000FFFFF) 0x70000000.
Proof.
  intros Hw. unfold milo_encode_inst, milo_decode_inst.
  cbn [opcode rd rs1 rs2 rs3 pred imm has_rs3 has_imm].
  change (0 =? 0) with true. cbv iota.
  change (Z.land 7 15) with 7.
  change 255 with (Z.ones 8). change 1048575 with (Z.ones 20).
  change 4294967295 with (Z.ones 32).
  change 18446744069415632895 with (Z.lor (Z.shiftl (Z.ones 32) 32) (Z.ones 20)).
  change 1879048192 with (Z.shiftl (Z.ones 3) 28).
  change (Z.shiftl 7 28) with (Z.shiftl (Z.ones 3) 28).
  assert (Hhi : forall i, 64 <= i -> Z.testbit w i = false).
  { intros i Hi. apply (testbit_high 64); lia. }
  bits_by_range i (fun i =>
    i < 20 \/ 20 <= i < 28 \/ 28 <= i < 31 \/ i = 31 \/ 32 <= i < 40 \/
    40 <= i < 48 \/ 48 <= i < 56 \/ 56 <= i < 64 \/ 64 <= i).
  all: try (rewrite Hhi by lia; reflexivity).
  all: try (destruct (Z.testbit w i); reflexivity).
Qed.

Lemma masked_fields (w : Z) :
  let w' := Z.lor (Z.land w 0xFFFFFFFF000FFFFF) 0x70000000 in
  inst_opcode w' = inst_opcode w /\ inst_rd w' = inst_rd w /\
  inst_rs1 w' = inst_rs1 w /\ inst_rs2 w' = inst_rs2 w /\
  Z.land w' 0xFFFFF = Z.land w 0xFFFFF /\
  word_pred w' = 0x7 /\ inst_rs3 w' = 0.
Proof.
  cbv zeta. unfold inst_opcode, inst_rd, inst_rs1, inst_rs2, word_pred, inst_rs3.
  change 255 with (Z.ones 8). change 1048575 with (Z.ones 20).
  change 15 with (Z.ones 4). change 7 with (Z.ones 3).
  change 18446744069415632895 with (Z.lor (Z.shiftl (Z.ones 32) 32) (Z.ones 20)).
  change 1879048192 with (Z.shiftl (Z.ones 3) 28).
  repeat split.
  - bits_by_range i (fun i => i < 8 \/ 8 <= i).
  - bits_by_range i (fun i => i < 8 \/ 8 <= i).
  - bits_by_range i (fun i => i < 8 \/ 8 <= i).
  - bits_by_range i (fun i => i < 8 \/ 8 <= i).
  - bits_by_range i (fun i => i < 20 \/ 20 <= i).
  - bits_by_range i (fun i => i < 3 \/ i = 3 \/ 4 <= i).
  - bits_by_range i (fun i => i < 8 \/ 8 <= i).
Qed.

(** C3 (as the code has it).  Decoding a word and encoding it again keeps
    the opcode, rd, rs1, rs2 and the low 20 bits of the immediate; the
    predicate nibble of the result is the default 0x7 whatever the nibble of
    the word was, and bits 27..20 are zero. *)
Theorem decode_encode_fields (w : Z) :
  0 <= w < 2 ^ 64 ->
  let w' := milo_encode_inst (milo_decode_inst w) in
  w' = Z.lor (Z.land w 0xFFFFFFFF000FFFFF) 0x70000000 /\
  inst_opcode w' = inst_opcode w /\ inst_rd w' = inst_rd w /\
  inst_rs1 w' = inst_rs1 w /\ inst_rs2 w' = inst_rs2 w /\
  Z.land w' 0xFFFFF = Z.land w 0xFFFFF /\
  word_pred w' = 0x7 /\ inst_rs3 w' = 0.
Proof.
  intros Hw w'. subst w'. rewrite (decode_encode_word w Hw).
  split; [reflexivity | apply masked_fields].
Qed.

Lemma decode_encode_fields_witness :
  0 <= 0x0102030435600007 < 2 ^ 64 /\
  word_pred (milo_encode_inst (milo_decode_inst 0x0102030435600007)) = 0x7.
Proof.
  split; [lia |].
  apply (decode_encode_fields 0x0102030435600007). lia.
Defined.

(** The word [L: bra L] assembles to has the nibble 0; after decoding and
    encoding the nibble is 7. *)
Lemma decode_encode_pred_changes :
  0 <= 0x2200000000000000 < 2 ^ 64 /\
  word_pred (milo_encode_inst (milo_decode_inst 0x2200000000000000))
  <> word_pred 0x2200000000000000.
Proof. split; [lia | vm_compute; discriminate]. Qed.

(** ** The predicate nibble of assembled words *)

(** The encoder sites the default guard in bits 31..28, with or without
    [rs3]. *)
Lemma encode_pred_default (inst : milo_inst_t) :
  pred inst = 0 -> 0 <= rs3 inst < 256 ->
  word_pred (milo_encode_inst inst) = 0x7.
Proof.
  intros Hp Hr. unfold milo_encode_inst, word_pred. rewrite Hp.
  change (0 =? 0) with true. cbv iota.
  change (Z.land 7 15) with (Z.ones 3).
  change 15 with (Z.ones 4). change 1048575 with (Z.ones 20).
  change 7 with (Z.ones 3).
  assert (H3 : forall i, 8 <= i -> Z.testbit (rs3 inst) i = false).
  { intros i Hi. apply (testbit_high 8); lia. }
  destruct (has_rs3 inst).
  - bits_by_range i (fun i => i < 3 \/ i = 3 \/ 4 <= i).
    all: rewrite H3 by lia; reflexivity.
  - bits_by_range i (fun i => i < 3 \/ i = 3 \/ 4 <= i).
Qed.

Lemma parse_register_range (s : string) (r : Z) :
  parse_register s = Some r -> 0 <= r < 256.
Proof.
  unfold parse_register. destruct s as [| c rest]; [discriminate |].
  destruct (Ascii.eqb c "r" || Ascii.eqb c "R"); [| discriminate].
  destruct (strtol rest 10) as [val endp].
  destruct (negb (String.eqb endp "") || (val <? 0) || (63 <? val)); [discriminate |].
  intros [= <-]. unfold u8. apply Z.mod_pos_bound. lia.
Qed.

Lemma set_reg_field_pred (inst : milo_inst_t) (j : nat) (r : Z) :
  pred (set_reg_field inst j r) = pred inst.
Proof. destruct j as [| [| [| j]]]; reflexivity. Qed.

Lemma set_reg_field_rs3 (inst : milo_inst_t) (j : nat) (r : Z) :
  0 <= r < 256 -> 0 <= rs3 inst < 256 ->
  0 <= rs3 (set_reg_field inst j r) < 256.
Proof. intros Hr Hi. destruct j as [| [| [| j]]]; cbn; lia. Qed.

Section AssemblerFacts.

Variable L : libc_t.

(** The operand loop leaves the predicate alone and keeps [rs3] a byte. *)
Lemma build_inst_pred (fmt : string) :
  forall j operands cs ln inst unres inst' unres',
    build_inst L fmt j operands cs ln inst unres = (inl inst', unres') ->
    pred inst' = pred inst /\
    (0 <= rs3 inst < 256 -> 0 <= rs3 inst' < 256).
Proof.
  induction fmt as [| f fmt IH]; intros j operands cs ln inst unres inst' unres' H.
  - cbn in H. injection H as <- <-. auto.
  - destruct operands as [| arg operands]; cbn in H.
    { injection H as <- <-. auto. }
    destruct (Ascii.eqb f "r").
    { destruct (parse_register arg) as [reg |] eqn:Hreg; [| discriminate].
      apply IH in H. rewrite set_reg_field_pred in H. destruct H as [H1 H2].
      split; [exact H1 |]. intros Hr. apply H2.
      apply set_reg_field_rs3; [eapply parse_register_range; eauto | exact Hr]. }
    destruct (Ascii.eqb f "i").
    { destruct (strchr arg ".").
      - destruct (parse_float L arg); [| discriminate]. apply IH in H. exact H.
      - destruct (parse_immediate arg); [| discriminate]. apply IH in H. exact H. }
    destruct (Ascii.eqb f "l").
    { destruct (MILO_MAX_LABELS <=? Z.of_nat (length unres)); [discriminate |].
      apply IH in H. exact H. }
    apply IH in H. exact H.
Qed.

Lemma asm_instruction_code (a : milo_asm_t) (unres : list unresolved_t)
    (p : string) (ln : Z) (a' : milo_asm_t) (unres' : list unresolved_t) :
  asm_instruction L a unres p ln = (true, a', unres') ->
  as_labels a' = as_labels a /\
  exists w, as_code a' = (as_code a ++ [w])%list /\ word_pred w = 0x7.
Proof.
  unfold asm_instruction. destruct (scan_mnemonic 31 p) as [mnemonic rest].
  destruct (find_opcode mnemonic) as [op |]; [| discriminate].
  destruct (build_inst L _ _ _ _ _ _ _) as [[inst | msg] unres1] eqn:Hb; [| discriminate].
  destruct (MILO_MAX_CODE_SIZE <=? as_code_size a); [discriminate |].
  intros [= <- <-]. cbn. split; [reflexivity |].
  eexists; split; [reflexivity |].
  apply build_inst_pred in Hb. cbn in Hb. destruct Hb as [Hp Hr].
  apply encode_pred_default; [exact Hp | apply Hr; lia].
Qed.

(** A line that assembles adds at most one word, and that word carries the
    guard 0x7. *)
Lemma asm_line_code (a : milo_asm_t) (unres : list unresolved_t)
    (line : string) (ln : Z) (a' : milo_asm_t) (unres' : list unresolved_t) :
  milo_asm_line L a unres line ln = (true, a', unres') ->
  as_code a' = as_code a \/
  exists w, as_code a' = (as_code a ++ [w])%list /\ word_pred w = 0x7.
Proof.
  unfold milo_asm_line.
  destruct (trim _) as [| c p] eqn:Hp; [intros [= <- <-]; auto |].
  destruct (strchr (String c p) ":") as [[before after] |].
  - destruct (MILO_MAX_LABELS <=? as_label_count a); [discriminate |].
    destruct (trim after) as [| c' p'].
    + intros [= <- <-]. auto.
    + intros H. apply asm_instruction_code in H. cbn in H. right. apply H.
  - intros H. apply asm_instruction_code in H. right. apply H.
Qed.

(** Before label resolution every word of the program carries the guard. *)
Lemma asm_lines_pred (lines : list string) :
  forall a unres ln a' unres',
    asm_lines L a unres lines ln = (true, a', unres') ->
    Forall (fun w => word_pred w = 0x7) (as_code a) ->
    Forall (fun w => word_pred w = 0x7) (as_code a').
Proof.
  induction lines as [| line lines IH]; intros a unres ln a' unres' H Ha.
  - cbn in H. injection H as <- <-. exact Ha.
  - cbn in H.
    destruct (milo_asm_line L a unres line ln) as [[[] a1] unres1] eqn:Hl; [| discriminate].
    apply IH in H; [exact H |].
    apply asm_line_code in Hl. destruct Hl as [-> | (w & -> & Hw)]; [exact Ha |].
    apply Forall_app. split; [exact Ha | repeat constructor; exact Hw].
Qed.

End AssemblerFacts.

(** Patching puts the label address into bits 31..0, guard included. *)
Lemma patch_word_pred (word addr : Z) :
  0 <= addr < 2 ^ 28 -> word_pred (patch_word word addr) = 0.
Proof.
  intros Ha. unfold patch_word, word_pred.
  change 0xFFFFFFFF00000000 with (Z.shiftl (Z.ones 32) 32).
  change 15 with (Z.ones 4).
  assert (Hhi : forall i, 28 <= i -> Z.testbit addr i = false).
  { intros i Hi. apply (testbit_high 28); lia. }
  bits_by_range i (fun i => i < 4 \/ 4 <= i).
  rewrite Hhi by lia. reflexivity.
Qed.

(** C4 at [L: bra L].  The line alone assembles to a word with the guard
    0x7; [milo_asm_source], which ends with [milo_asm_resolve], returns the
    one-word program 0x2200000000000000, whose guard nibble is 0. *)
Theorem bra_self_loses_pred (L : libc_t) :
  (let '(ok, a, _) := asm_lines L milo_asm_init [] ["L: bra L"] 1 in
   ok = true /\ as_code a = [0x2200000070000000] /\ map word_pred (as_code a) = [0x7]) /\
  (let '(ok, a, _) := milo_asm_source L milo_asm_init [] "L: bra L" in
   ok = true /\ as_code a = [0x2200000000000000] /\ map word_pred (as_code a) = [0]).
Proof. split; vm_compute; repeat split; reflexivity. Qed.

(** ** Label resolution *)

Definition low32 (w : Z) : Z := Z.land w 0xFFFFFFFF.

Lemma patch_word_low32 (word addr : Z) :
  0 <= addr < 2 ^ 32 -> low32 (patch_word word addr) = addr.
Proof.
  intros Ha. unfold patch_word, low32.
  change 0xFFFFFFFF00000000 with (Z.shiftl (Z.ones 32) 32).
  change 4294967295 with (Z.ones 32).
  assert (Hhi : forall i, 32 <= i -> Z.testbit addr i = false).
  { intros i Hi. apply (testbit_high 32); lia. }
  bits_by_range i (fun i => i < 32 \/ 32 <= i).
  rewrite Hhi by lia. reflexivity.
Qed.

(** A label is defined in the unit when [labels] has an entry of that name. *)
Definition label_defined (labels : list milo_label_t) (name : string) : Prop :=
  exists l, l ∈ labels /\ l_name l = name.

Lemma find_label_Some (labels : list milo_label_t) (name : string) (l : milo_label_t) :
  find_label labels name = Some l -> l ∈ labels /\ l_name l = name.
Proof.
  induction labels as [| l0 labels IH]; cbn; [discriminate |].
  destruct (String.eqb_spec name (l_name l0)) as [-> | Hne].
  - intros [= <-]. split; [left | reflexivity].
  - intros H. apply IH in H. destruct H as [H1 H2]. split; [right; exact H1 | exact H2].
Qed.

Lemma find_label_None (labels : list milo_label_t) (name : string) :
  find_label labels name = None <-> ~ label_defined labels name.
Proof.
  induction labels as [| l0 labels IH]; cbn.
  - split; [| reflexivity]. intros _ (l & Hl & _). inversion Hl.
  - destruct (String.eqb_spec name (l_name l0)) as [-> | Hne].
    + split; [discriminate |]. intros H. exfalso. apply H.
      exists l0. split; [left | reflexivity].
    + rewrite IH. split; intros H (l & Hl & Hn); apply H.
      * inversion Hl; subst; [congruence |]. exists l. auto.
      * exists l. split; [right; exact Hl | exact Hn].
Qed.

Lemma resolve_loop_labels (unres : list unresolved_t) :
  forall a b a', resolve_loop a unres = (b, a') -> as_labels a' = as_labels a.
Proof.
  induction unres as [| u unres IH]; intros a b a' H; cbn in H.
  - injection H as <- <-. reflexivity.
  - destruct (find_label (as_labels a) (u_label u)) as [l |].
    + apply IH in H. exact H.
    + injection H as <- <-. reflexivity.
Qed.

(** [milo_asm_resolve] fails exactly when an entry names no label, and then
    reports the first such entry. *)
Lemma resolve_loop_fails (unres : list unresolved_t) :
  forall a,
    (fst (resolve_loop a unres) = false <->
     Exists (fun u => ~ label_defined (as_labels a) (u_label u)) unres) /\
    (fst (resolve_loop a unres) = false ->
     exists u, u ∈ unres /\ ~ label_defined (as_labels a) (u_label u) /\
       as_error (snd (resolve_loop a unres))
         = str_take 255 ("Undefined label: " +++ u_label u) /\
       as_error_line (snd (resolve_loop a unres)) = u_line u).
Proof.
  induction unres as [| u unres IH]; intros a; cbn.
  - split; [split; [discriminate | intros H; inversion H] | discriminate].
  - destruct (find_label (as_labels a) (u_label u)) as [l |] eqn:Hf.
    + match goal with |- context [resolve_loop ?a1 unres] =>
        specialize (IH a1) end.
      cbn [as_labels] in IH. destruct IH as [IH1 IH2]. split.
      * rewrite IH1. split; intros H; [right; exact H |].
        inversion H as [? ? Hu | ? ? Hu]; subst; [| exact Hu].
        exfalso. apply find_label_Some in Hf. apply Hu. exists l. exact Hf.
      * intros H. destruct (IH2 H) as (u' & Hin & Hrest).
        exists u'. split; [right; exact Hin | exact Hrest].
    + cbn. apply find_label_None in Hf. split.
      * split; [intros _; left; exact Hf | reflexivity].
      * intros _. exists u. split; [left |]. auto.
Qed.

Lemma resolve_loop_length (unres : list unresolved_t) :
  forall a b a', resolve_loop a unres = (b, a') ->
    length (as_code a') = length (as_code a).
Proof.
  induction unres as [| u unres IH]; intros a b a' H; cbn in H.
  - injection H as <- <-. reflexivity.
  - destruct (find_label (as_labels a) (u_label u)) as [l |].
    + apply IH in H. rewrite H. cbn.
      destruct (as_code a !! Z.to_nat (u_address u)); [apply length_insert | reflexivity].
    + injection H as <- <-. reflexivity.
Qed.

(** A word no entry points at is left alone. *)
Lemma resolve_loop_other (unres : list unresolved_t) (i : nat) :
  forall a b a', resolve_loop a unres = (b, a') ->
    Forall (fun u => Z.to_nat (u_address u) <> i) unres ->
    as_code a' !! i = as_code a !! i.
Proof.
  induction unres as [| u unres IH]; intros a b a' H Hall; cbn in H.
  - injection H as <- <-. reflexivity.
  - inversion Hall as [| ? ? Hu Hrest]; subst.
    destruct (find_label (as_labels a) (u_label u)) as [l |].
    + apply IH in H; [| exact Hrest]. rewrite H. cbn.
      destruct (as_code a !! Z.to_nat (u_address u)); [| reflexivity].
      apply list_lookup_insert_ne. exact Hu.
    + injection H as <- <-. reflexivity.
Qed.

(** After a successful resolution a word some entry points at is a patched
    word: its low half is the address of a defined label which an entry for
    that word names. *)
Lemma resolve_loop_patched (unres : list unresolved_t) (i : nat) :
  forall a a' w',
    resolve_loop a unres = (true, a') ->
    Exists (fun u => Z.to_nat (u_address u) = i) unres ->
    as_code a' !! i = Some w' ->
    exists u l w0,
      u ∈ unres /\ Z.to_nat (u_address u) = i /\
      l ∈ as_labels a /\ l_name l = u_label u /\
      w' = patch_word w0 (l_address l).
Proof.
  induction unres as [| u unres IH]; intros a a' w' H Hex Hw; cbn in H.
  - inversion Hex.
  - destruct (find_label (as_labels a) (u_label u)) as [l |] eqn:Hf; [| discriminate].
    destruct (decide (Exists (fun u => Z.to_nat (u_address u) = i) unres)) as [Hlater | Hnot].
    + destruct (IH _ _ _ H Hlater Hw) as (u' & l' & w0 & Hu' & Hi' & Hl' & Hn' & ->).
      exists u', l', w0. cbn in Hl'. repeat split; auto. right. exact Hu'.
    + inversion Hex as [? ? Hi | ? ? Hi]; subst; [| contradiction].
      apply not_Exists_Forall in Hnot; [| intros x; apply _].
      pose proof (resolve_loop_other _ _ _ _ _ H Hnot) as Hsame.
      rewrite Hw in Hsame. cbn in Hsame.
      destruct (as_code a !! Z.to_nat (u_address u)) as [word |] eqn:Hword.
      * rewrite list_lookup_insert_eq in Hsame
          by (apply lookup_lt_Some in Hword; exact Hword).
        injection Hsame as ->.
        apply find_label_Some in Hf. destruct Hf as [Hl Hn].
        exists u, l, word. repeat split; auto. left.
      * rewrite Hword in Hsame. discriminate.
Qed.

(** [milo_asm_resolve] as a function of the two tables.  It fails, with the
    error [Undefined label: name], exactly when some unresolved entry names
    a label that is not in the label table; when it succeeds, every word an
    entry points at has in its low 32 bits the address of the label an entry
    for that word names. *)
Lemma resolve_entries_sound (a : milo_asm_t) (unres : list unresolved_t)
    (ok : bool) (a' : milo_asm_t) (unres' : list unresolved_t) :
  Forall (fun l => 0 <= l_address l < 2 ^ 32) (as_labels a) ->
  milo_asm_resolve a unres = (ok, a', unres') ->
  (ok = false <->
   Exists (fun u => ~ label_defined (as_labels a) (u_label u)) unres) /\
  (ok = false ->
   exists u, u ∈ unres /\ ~ label_defined (as_labels a) (u_label u) /\
     as_error a' = str_take 255 ("Undefined label: " +++ u_label u) /\
     as_error_line a' = u_line u) /\
  (ok = true ->
   forall u w', u ∈ unres ->
     as_code a' !! Z.to_nat (u_address u) = Some w' ->
     exists l u2, l ∈ as_labels a /\ u2 ∈ unres /\
       Z.to_nat (u_address u2) = Z.to_nat (u_address u) /\
       l_name l = u_label u2 /\ low32 w' = l_address l).
Proof.
  intros Hrange Hres. unfold milo_asm_resolve in Hres.
  destruct (resolve_loop a unres) as [b a1] eqn:Hloop.
  pose proof (resolve_loop_fails unres a) as [Hiff Herr].
  rewrite Hloop in Hiff, Herr. cbn [fst snd] in Hiff, Herr.
  assert (Hok : ok = b /\ a' = a1).
  { destruct b; injection Hres as <- <- _; auto. }
  destruct Hok as [-> ->]. clear Hres.
  split; [exact Hiff |]. split; [exact Herr |].
  intros ->. intros u w' Hu Hw.
  assert (Hex : Exists (fun u0 => Z.to_nat (u_address u0) = Z.to_nat (u_address u)) unres).
  { apply Exists_exists. exists u. split; [exact Hu | reflexivity]. }
  destruct (resolve_loop_patched _ _ _ _ _ Hloop Hex Hw)
    as (u2 & l & w0 & Hu2 & Hi & Hl & Hn & ->).
  exists l, u2. split; [exact Hl |]. split; [exact Hu2 |]. split; [exact Hi |].
  split; [exact Hn |].
  apply patch_word_low32.
  rewrite Forall_forall in Hrange. apply Hrange. exact Hl.
Qed.

(** ** The arrays of the assembler *)

(** [code], [labels] and [unresolved] within their sizes; every label
    address at most the code size; every unresolved entry at a word that
    exists. *)
Definition asm_inv (a : milo_asm_t) (unres : list unresolved_t) : Prop :=
  as_code_size a <= MILO_MAX_CODE_SIZE /\
  as_label_count a <= MILO_MAX_LABELS /\
  Z.of_nat (length unres) <= MILO_MAX_LABELS /\
  Forall (fun l => 0 <= l_address l <= as_code_size a) (as_labels a) /\
  Forall (fun u => 0 <= u_address u < as_code_size a) unres.

Section AssemblerArrays.

Variable L : libc_t.

(** The operand loop only appends entries, all at the word being built. *)
Lemma build_inst_unres (fmt : string) :
  forall j operands cs ln inst unres inst' unres',
    build_inst L fmt j operands cs ln inst unres = (inl inst', unres') ->
    exists extra,
      unres' = (unres ++ extra)%list /\
      Forall (fun u => u_address u = cs) extra /\
      (Z.of_nat (length unres) <= MILO_MAX_LABELS ->
       Z.of_nat (length unres') <= MILO_MAX_LABELS).
Proof.
  induction fmt as [| f fmt IH]; intros j operands cs ln inst unres inst' unres' H.
  - cbn in H. injection H as <- <-. exists []. rewrite app_nil_r. auto.
  - destruct operands as [| arg operands]; cbn in H.
    { injection H as <- <-. exists []. rewrite app_nil_r. auto. }
    destruct (Ascii.eqb f "r").
    { destruct (parse_register arg); [| discriminate]. eapply IH; eauto. }
    destruct (Ascii.eqb f "i").
    { destruct (strchr arg ".").
      - destruct (parse_float L arg); [| discriminate]. eapply IH; eauto.
      - destruct (parse_immediate arg); [| discriminate]. eapply IH; eauto. }
    destruct (Ascii.eqb f "l").
    { destruct (Z.leb_spec MILO_MAX_LABELS (Z.of_nat (length unres))) as [| Hlt];
        [discriminate |].
      apply IH in H. destruct H as (extra & -> & Hall & Hlen).
      eexists (_ :: extra). split; [rewrite <- app_assoc; reflexivity |].
      split; [constructor; [reflexivity | exact Hall] |].
      intros _. apply Hlen. rewrite length_app. cbn. lia. }
    eapply IH; eauto.
Qed.

Lemma asm_instruction_inv (a : milo_asm_t) (unres : list unresolved_t)
    (p : string) (ln : Z) (a' : milo_asm_t) (unres' : list unresolved_t) :
  asm_inv a unres ->
  asm_instruction L a unres p ln = (true, a', unres') ->
  asm_inv a' unres' /\ as_code_size a' = as_code_size a + 1.
Proof.
  unfold asm_instruction. intros (Hc & Hl & Hu & Hla & Hua).
  destruct (scan_mnemonic 31 p) as [mnemonic rest].
  destruct (find_opcode mnemonic) as [op |]; [| discriminate].
  destruct (build_inst L _ _ _ _ _ _ _) as [[inst | msg] unres1] eqn:Hb; [| discriminate].
  destruct (Z.leb_spec MILO_MAX_CODE_SIZE (as_code_size a)) as [| Hroom]; [discriminate |].
  intros [= <- <-].
  apply build_inst_unres in Hb. destruct Hb as (extra & -> & Hex & Hlen).
  unfold asm_inv, as_code_size, as_label_count in *. cbn [as_code as_labels].
  rewrite length_app. cbn [length].
  split; [| lia].
  split; [lia |]. split; [exact Hl |]. split; [exact (Hlen Hu) |].
  split.
  - eapply Forall_impl; [exact Hla |]. cbn. intros l Hl'. lia.
  - apply Forall_app. split.
    + eapply Forall_impl; [exact Hua |]. cbn. intros u Hu'. lia.
    + eapply Forall_impl; [exact Hex |]. cbn. intros u ->. lia.
Qed.

Lemma asm_line_inv (a : milo_asm_t) (unres : list unresolved_t)
    (line : string) (ln : Z) (a' : milo_asm_t) (unres' : list unresolved_t) :
  asm_inv a unres ->
  milo_asm_line L a unres line ln = (true, a', unres') ->
  asm_inv a' unres' /\ as_code_size a <= as_code_size a' <= as_code_size a + 1.
Proof.
  intros Hinv. unfold milo_asm_line.
  destruct (trim _) as [| c p] eqn:Hp; [intros [= <- <-]; split; [exact Hinv | lia] |].
  destruct (strchr (String c p) ":") as [[before after] |].
  - destruct (Z.leb_spec MILO_MAX_LABELS (as_label_count a)) as [| Hroom]; [discriminate |].
    match goal with
    | |- match _ with EmptyString => (true, ?x, _) | _ => _ end = _ -> _ =>
        set (a1 := x)
    end.
    assert (H1 : asm_inv a1 unres /\ as_code_size a1 = as_code_size a).
    { subst a1. destruct Hinv as (Hc & Hl & Hu & Hla & Hua).
      unfold asm_inv, as_code_size, as_label_count in *. cbn [as_code as_labels].
      rewrite length_app. cbn [length].
      split; [| reflexivity].
      split; [lia |]. split; [lia |]. split; [exact Hu |]. split; [| exact Hua].
      apply Forall_app. split; [exact Hla |].
      constructor; [cbn [l_address]; lia | constructor]. }
    destruct H1 as [H1 Hs1]. clearbody a1.
    destruct (trim after) as [| c' p'].
    + intros [= <- <-]. split; [exact H1 | lia].
    + intros H. apply (asm_instruction_inv _ _ _ _ _ _ H1) in H.
      destruct H as [H Hs]. split; [exact H | lia].
  - intros H. apply (asm_instruction_inv _ _ _ _ _ _ Hinv) in H.
    destruct H as [H Hs]. split; [exact H | lia].
Qed.

Lemma asm_lines_inv (lines : list string) :
  forall a unres ln a' unres',
    asm_inv a unres ->
    asm_lines L a unres lines ln = (true, a', unres') ->
    asm_inv a' unres' /\
    as_code_size a <= as_code_size a' <= as_code_size a + Z.of_nat (length lines).
Proof.
  induction lines as [| line lines IH]; intros a unres ln a' unres' Hinv H.
  - cbn in H. injection H as <- <-. split; [exact Hinv | cbn; lia].
  - cbn [asm_lines] in H.
    destruct (milo_asm_line L a unres line ln) as [[[] a1] unres1] eqn:Hl;
      [| discriminate].
    apply (asm_line_inv _ _ _ _ _ _ Hinv) in Hl. destruct Hl as [H1 Hs1].
    apply (IH _ _ _ _ _ H1) in H. destruct H as [H Hs].
    split; [exact H |]. cbn [length]. lia.
Qed.

End AssemblerArrays.

(** ** The labels and label operands of a unit *)

(** What [milo_asm_line] keeps of a line: the text up to 255 characters,
    without comment and without the white space around it. *)
Definition line_text (line : string) : string :=
  trim (cut_at "#" (cut_at ";" (str_take (MILO_MAX_LINE_LEN - 1) line))).

(** The label a line defines: the text before its first colon. *)
Definition line_label (line : string) : option string :=
  match line_text line with
  | EmptyString => None
  | p =>
      match strchr p ":" with
      | Some (before, _) => Some (trim before)
      | None => None
      end
  end.

(** The instruction of a line: what follows the label, if anything. *)
Definition line_inst (line : string) : option string :=
  match line_text line with
  | EmptyString => None
  | p =>
      match strchr p ":" with
      | Some (_, after) =>
          match trim after with
          | EmptyString => None
          | q => Some q
          end
      | None => Some p
      end
  end.

(** The operands standing at the [l] places of a format. *)
Fixpoint label_args (fmt : string) (operands : list string) : list string :=
  match fmt, operands with
  | String f fmt', arg :: operands' =>
      if Ascii.eqb f "l" then arg :: label_args fmt' operands'
      else label_args fmt' operands'
  | _, _ => []
  end.

(** The label operands of an instruction text. *)
Definition inst_label_operands (q : string) : list string :=
  let '(mnemonic, rest) := scan_mnemonic 31 q in
  match find_opcode mnemonic with
  | None => []
  | Some op => label_args (op_format op) (parse_operands (skip_space rest))
  end.

Definition line_label_operands (line : string) : list string :=
  match line_inst line with
  | Some q => inst_label_operands q
  | None => []
  end.

(** A label operand of a unit: the address of its instruction, the operand
    as written, and the number of its line. *)
Record label_ref_t := {
  ref_address : Z;
  ref_name : string;
  ref_line : Z
}.

Definition next_address (addr : Z) (line : string) : Z :=
  match line_inst line with
  | Some _ => addr + 1
  | None => addr
  end.

(** The labels of a unit as written, each with its address: the number of
    instructions on the lines before it.  [addr] is the address of the
    first line. *)
Fixpoint labels_from (lines : list string) (addr : Z) : list (string * Z) :=
  match lines with
  | [] => []
  | line :: lines' =>
      match line_label line with
      | Some n => [(n, addr)]
      | None => []
      end ++ labels_from lines' (next_address addr line)
  end.

(** The label operands of a unit; [ln] is the number of the first line. *)
Fixpoint refs_from (lines : list string) (addr ln : Z) : list label_ref_t :=
  match lines with
  | [] => []
  | line :: lines' =>
      map (fun arg => {| ref_address := addr; ref_name := arg; ref_line := ln |})
          (line_label_operands line)
      ++ refs_from lines' (next_address addr line) (ln + 1)
  end.

Definition unit_labels (lines : list string) : list (string * Z) := labels_from lines 0.
Definition unit_refs (lines : list string) : list label_ref_t := refs_from lines 0 1.

(** [name] is, up to its first 63 characters, a label of the unit. *)
Definition unit_defines (lines : list string) (name : string) : Prop :=
  exists n addr, (n, addr) ∈ unit_labels lines /\ str_take 63 n = str_take 63 name.

(** The table entries the assembler makes of them. *)
Definition label_entry (d : string * Z) : milo_label_t :=
  {| l_name := str_take 63 (fst d); l_address := snd d |}.

Definition ref_entry (r : label_ref_t) : unresolved_t :=
  {| u_address := ref_address r; u_label := str_take 63 (ref_name r);
     u_line := ref_line r |}.

(** No format of the table has more than one [l]. *)
Fixpoint count_l (fmt : string) : nat :=
  match fmt with
  | EmptyString => 0
  | String f fmt' => (if Ascii.eqb f "l" then 1 else 0) + count_l fmt'
  end.

Lemma label_args_length (fmt : string) :
  forall operands, (length (label_args fmt operands) <= count_l fmt)%nat.
Proof.
  induction fmt as [| f fmt IH]; intros [| arg operands]; cbn; try lia.
  specialize (IH operands). destruct (Ascii.eqb f "l"); cbn; lia.
Qed.

Lemma find_in_table_in (table : list opcode_entry_t) (name : string) (op : opcode_entry_t) :
  find_in_table table name = Some op -> In op table.
Proof.
  induction table as [| e table IH]; cbn; [discriminate |].
  destruct (strcaseeq (op_name e) name).
  - intros [= <-]. left. reflexivity.
  - intros H. right. exact (IH H).
Qed.

Lemma opcode_table_one_label :
  forallb (fun op => (count_l (op_format op) <=? 1)%nat) opcode_table = true.
Proof. vm_compute. reflexivity. Qed.

Lemma inst_label_operands_length (q : string) :
  (length (inst_label_operands q) <= 1)%nat.
Proof.
  unfold inst_label_operands. destruct (scan_mnemonic 31 q) as [mnemonic rest].
  destruct (find_opcode mnemonic) as [op |] eqn:Hop; [| cbn; lia].
  apply find_in_table_in in Hop.
  pose proof opcode_table_one_label as Hall.
  rewrite forallb_forall in Hall. apply Hall in Hop. apply Nat.leb_le in Hop.
  pose proof (label_args_length (op_format op) (parse_operands (skip_space rest))).
  lia.
Qed.

Lemma line_label_operands_length (line : string) :
  (length (line_label_operands line) <= 1)%nat.
Proof.
  unfold line_label_operands. destruct (line_inst line); [| cbn; lia].
  apply inst_label_operands_length.
Qed.

Lemma line_label_operands_inst (line : string) (arg : string) :
  arg ∈ line_label_operands line -> exists q, line_inst line = Some q.
Proof.
  unfold line_label_operands. destruct (line_inst line) as [q |]; [eauto |].
  intros H. inversion H.
Qed.

Section UnitLabels.

Variable L : libc_t.

(** The entries the operand loop appends are those of the label operands. *)
Lemma build_inst_refs (fmt : string) :
  forall j operands cs ln inst unres inst' unres',
    build_inst L fmt j operands cs ln inst unres = (inl inst', unres') ->
    unres' =
      (unres ++ map (fun arg => ref_entry {| ref_address := cs; ref_name := arg;
                                             ref_line := ln |})
                    (label_args fmt operands))%list.
Proof.
  induction fmt as [| f fmt IH]; intros j operands cs ln inst unres inst' unres' H.
  - cbn in H. injection H as <- <-. cbn. rewrite app_nil_r. reflexivity.
  - destruct operands as [| arg operands]; cbn [build_inst label_args] in H |- *.
    { injection H as <- <-. cbn. rewrite app_nil_r. reflexivity. }
    destruct (Ascii.eqb f "r") eqn:Hr.
    { assert (Hl : Ascii.eqb f "l" = false).
      { apply Ascii.eqb_eq in Hr. subst f. reflexivity. }
      rewrite Hl. destruct (parse_register arg); [| discriminate]. eapply IH; eauto. }
    destruct (Ascii.eqb f "i") eqn:Hi.
    { assert (Hl : Ascii.eqb f "l" = false).
      { apply Ascii.eqb_eq in Hi. subst f. reflexivity. }
      rewrite Hl. destruct (strchr arg ".").
      - destruct (parse_float L arg); [| discriminate]. eapply IH; eauto.
      - destruct (parse_immediate arg); [| discriminate]. eapply IH; eauto. }
    destruct (Ascii.eqb f "l").
    { destruct (MILO_MAX_LABELS <=? Z.of_nat (length unres)); [discriminate |].
      apply IH in H. rewrite H. rewrite <- app_assoc. reflexivity. }
    eapply IH; eauto.
Qed.

Lemma asm_instruction_refs (a : milo_asm_t) (unres : list unresolved_t)
    (p : string) (ln : Z) (a' : milo_asm_t) (unres' : list unresolved_t) :
  asm_instruction L a unres p ln = (true, a', unres') ->
  as_code_size a' = as_code_size a + 1 /\
  as_labels a' = as_labels a /\
  unres' =
    (unres ++ map (fun arg => ref_entry {| ref_address := as_code_size a;
                                           ref_name := arg; ref_line := ln |})
                  (inst_label_operands p))%list.
Proof.
  unfold asm_instruction, inst_label_operands.
  destruct (scan_mnemonic 31 p) as [mnemonic rest].
  destruct (find_opcode mnemonic) as [op |]; [| discriminate].
  destruct (build_inst L _ _ _ _ _ _ _) as [[inst | msg] unres1] eqn:Hb; [| discriminate].
  destruct (MILO_MAX_CODE_SIZE <=? as_code_size a); [discriminate |].
  intros [= <- <-]. split.
  { unfold as_code_size. cbn [as_code]. rewrite length_app. cbn [length]. lia. }
  split; [reflexivity |].
  exact (build_inst_refs _ _ _ _ _ _ _ _ _ Hb).
Qed.

(** One accepted line adds the label it defines, at the current address, and
    an entry for each of its label operands. *)
Lemma asm_line_unit (a : milo_asm_t) (unres : list unresolved_t)
    (line : string) (ln : Z) (a' : milo_asm_t) (unres' : list unresolved_t) :
  milo_asm_line L a unres line ln = (true, a', unres') ->
  as_code_size a' = next_address (as_code_size a) line /\
  as_labels a' =
    (as_labels a ++ map label_entry
                      match line_label line with
                      | Some n => [(n, as_code_size a)]
                      | None => []
                      end)%list /\
  unres' =
    (unres ++ map (fun arg => ref_entry {| ref_address := as_code_size a;
                                           ref_name := arg; ref_line := ln |})
                  (line_label_operands line))%list.
Proof.
  unfold milo_asm_line, next_address, line_label_operands, line_label, line_inst.
  fold (line_text line).
  destruct (line_text line) as [| c p] eqn:Hp.
  { intros [= <- <-]. cbn. rewrite !app_nil_r. auto. }
  destruct (strchr (String c p) ":") as [[before after] |].
  - destruct (MILO_MAX_LABELS <=? as_label_count a); [discriminate |].
    match goal with
    | |- match _ with EmptyString => (true, ?x, _) | _ => _ end = _ -> _ =>
        set (a1 := x)
    end.
    assert (H1 : as_code_size a1 = as_code_size a /\
                 as_labels a1 =
                   (as_labels a ++ [label_entry (trim before, as_code_size a)])%list).
    { split; reflexivity. }
    destruct H1 as [Hs1 Hl1]. clearbody a1.
    destruct (trim after) as [| c' p'].
    + intros [= <- <-]. cbn [map]. rewrite app_nil_r. auto.
    + intros H. apply asm_instruction_refs in H. destruct H as (Hs & Hl & Hu).
      rewrite Hs, Hl, Hu, Hs1, Hl1. auto.
  - intros H. apply asm_instruction_refs in H. destruct H as (Hs & Hl & Hu).
    rewrite Hs, Hl, Hu. cbn [map]. rewrite app_nil_r. auto.
Qed.

Lemma asm_lines_unit (lines : list string) :
  forall a unres ln a' unres',
    asm_lines L a unres lines ln = (true, a', unres') ->
    as_labels a' =
      (as_labels a ++ map label_entry (labels_from lines (as_code_size a)))%list /\
    unres' = (unres ++ map ref_entry (refs_from lines (as_code_size a) ln))%list.
Proof.
  induction lines as [| line lines IH]; intros a unres ln a' unres' H.
  - cbn in H. injection H as <- <-. cbn. rewrite !app_nil_r. auto.
  - cbn [asm_lines] in H.
    destruct (milo_asm_line L a unres line ln) as [[[] a1] unres1] eqn:Hl;
      [| discriminate].
    apply asm_line_unit in Hl. destruct Hl as (Hs1 & Hl1 & Hu1).
    apply IH in H. destruct H as (Hl2 & Hu2).
    rewrite Hl2, Hu2, Hl1, Hu1, Hs1. cbn [labels_from refs_from].
    rewrite !map_app, <- !app_assoc, map_map. auto.
Qed.


Lemma next_address_ge (addr : Z) (line : string) : addr <= next_address addr line.
Proof. unfold next_address. destruct (line_inst line); lia. Qed.

Lemma refs_from_ge (lines : list string) :
  forall addr ln r, r ∈ refs_from lines addr ln -> addr <= ref_address r.
Proof.
  induction lines as [| line lines IH]; intros addr ln r Hr; cbn [refs_from] in Hr.
  - inversion Hr.
  - apply elem_of_app in Hr. destruct Hr as [Hr | Hr].
    + apply list_elem_of_fmap in Hr. destruct Hr as (arg & -> & _). cbn. lia.
    + apply IH in Hr. pose proof (next_address_ge addr line). lia.
Qed.

(** An instruction has at most one label operand, and the instructions of a
    unit have different addresses. *)
Lemma refs_from_unique (lines : list string) :
  forall addr ln r r',
    r ∈ refs_from lines addr ln -> r' ∈ refs_from lines addr ln ->
    ref_address r = ref_address r' -> r = r'.
Proof.
  induction lines as [| line lines IH]; intros addr ln r r' Hr Hr' Ha;
    cbn [refs_from] in Hr, Hr'.
  - inversion Hr.
  - apply elem_of_app in Hr. apply elem_of_app in Hr'.
    assert (Hhead : forall x, x ∈ map (fun arg => {| ref_address := addr; ref_name := arg;
                                                     ref_line := ln |})
                                  (line_label_operands line) ->
                    line_label_operands line = [ref_name x] /\
                    ref_address x = addr /\ ref_line x = ln /\
                    next_address addr line = addr + 1).
    { intros x Hx. apply list_elem_of_fmap in Hx. destruct Hx as (arg & -> & Harg).
      pose proof (line_label_operands_length line) as Hlen.
      pose proof (line_label_operands_inst line arg Harg) as [q Hq].
      unfold next_address. rewrite Hq. cbn.
      destruct (line_label_operands line) as [| x [| y rest]]; cbn in Hlen; try lia.
      - inversion Harg.
      - apply list_elem_of_singleton in Harg. subst. auto. }
    destruct Hr as [Hr | Hr], Hr' as [Hr' | Hr'].
    + destruct (Hhead _ Hr) as (H1 & H2 & H3 & _).
      destruct (Hhead _ Hr') as (H1' & H2' & H3' & _).
      rewrite H1 in H1'. injection H1' as Hn.
      destruct r, r'. cbn in *. congruence.
    + destruct (Hhead _ Hr) as (_ & H2 & _ & Hn).
      apply refs_from_ge in Hr'. lia.
    + destruct (Hhead _ Hr') as (_ & H2 & _ & Hn).
      apply refs_from_ge in Hr. lia.
    + eapply IH; eauto.
Qed.

Lemma asm_inv_init : asm_inv milo_asm_init [].
Proof.
  unfold asm_inv, as_code_size, as_label_count, MILO_MAX_CODE_SIZE, MILO_MAX_LABELS.
  cbn. repeat split; try lia; constructor.
Qed.

Lemma label_defined_unit (lines : list string) (name : string) :
  label_defined (map label_entry (unit_labels lines)) (str_take 63 name) <->
  unit_defines lines name.
Proof.
  unfold label_defined, unit_defines. split.
  - intros (l & Hl & Hn). apply list_elem_of_fmap in Hl. destruct Hl as ([n addr] & -> & Hd).
    exists n, addr. split; [exact Hd | exact Hn].
  - intros (n & addr & Hd & Hn). exists (label_entry (n, addr)).
    split; [| exact Hn]. apply list_elem_of_fmap. exists (n, addr). auto.
Qed.

(** C6, for names compared on their first 63 characters and an unresolved
    table that is empty when the unit begins, as [milo_asm_source] makes it.
    Let every line of the unit be accepted by [milo_asm_line], starting from
    a fresh assembler.  Then [milo_asm_resolve] fails exactly when some
    label operand of the unit is, in its first 63 characters, no label
    defined in the unit, and the error is [Undefined label:] with the name
    as stored and the line of the operand; when it succeeds, the word of
    every instruction with a label operand has in its low 32 bits the
    address of a label of the unit with the same first 63 characters as the
    operand; [milo_asm_source] on a text with these lines gives this result;
    and [L: bra L] assembles to one word whose low 32 bits are 0. *)
Theorem asm_resolve_sound (lines : list string) (a1 : milo_asm_t)
    (unres1 : list unresolved_t) (ok : bool) (a' : milo_asm_t)
    (unres' : list unresolved_t) :
  asm_lines L milo_asm_init [] lines 1 = (true, a1, unres1) ->
  milo_asm_resolve a1 unres1 = (ok, a', unres') ->
  (forall source unres0,
     extract_lines source [] 0 false = lines ->
     milo_asm_source L milo_asm_init unres0 source = (ok, a', unres')) /\
  (ok = false <->
   exists r, r ∈ unit_refs lines /\ ~ unit_defines lines (ref_name r)) /\
  (ok = false ->
   exists r, r ∈ unit_refs lines /\ ~ unit_defines lines (ref_name r) /\
     as_error a' = str_take 255 ("Undefined label: " +++ str_take 63 (ref_name r)) /\
     as_error_line a' = ref_line r) /\
  (ok = true ->
   forall r, r ∈ unit_refs lines ->
     exists w' n addr,
       as_code a' !! Z.to_nat (ref_address r) = Some w' /\
       (n, addr) ∈ unit_labels lines /\
       str_take 63 n = str_take 63 (ref_name r) /\
       low32 w' = addr) /\
  (exists a2 w,
     milo_asm_source L milo_asm_init [] "L: bra L" = (true, a2, []) /\
     as_code a2 = [w] /\ low32 w = 0).
Proof.
  intros Hlines Hres.
  pose proof (asm_lines_unit _ _ _ _ _ _ Hlines) as (Hlab & Hunres).
  cbn [as_labels milo_asm_init app] in Hlab, Hunres.
  change (as_code_size milo_asm_init) with 0 in Hlab, Hunres.
  fold (unit_labels lines) in Hlab. fold (unit_refs lines) in Hunres.
  pose proof (asm_lines_inv L _ _ _ _ _ _ asm_inv_init Hlines) as [Hinv _].
  destruct Hinv as (Hcs & _ & _ & Hla & Hua).
  assert (Hrange : Forall (fun l => 0 <= l_address l < 2 ^ 32) (as_labels a1)).
  { eapply Forall_impl; [exact Hla |]. cbn. unfold MILO_MAX_CODE_SIZE in Hcs.
    intros l Hl. lia. }
  destruct (resolve_entries_sound a1 unres1 ok a' unres' Hrange Hres)
    as (Hiff & Herr & Hsound).
  assert (Hundef : forall r,
            ~ label_defined (as_labels a1) (u_label (ref_entry r)) <->
            ~ unit_defines lines (ref_name r)).
  { intros r. rewrite Hlab. cbn [u_label ref_entry].
    rewrite label_defined_unit. reflexivity. }
  split; [| split; [| split; [| split]]].
  - intros source unres0 Hsrc. unfold milo_asm_source. rewrite Hsrc, Hlines. exact Hres.
  - rewrite Hiff, Hunres, Exists_exists. split.
    + intros (u & Hu & Hnd). apply list_elem_of_fmap in Hu.
      destruct Hu as (r & -> & Hr). exists r. split; [exact Hr |].
      apply Hundef. exact Hnd.
    + intros (r & Hr & Hnd). exists (ref_entry r). split.
      * apply list_elem_of_fmap. exists r. auto.
      * apply Hundef. exact Hnd.
  - intros Hok. destruct (Herr Hok) as (u & Hu & Hnd & He & Hl).
    rewrite Hunres in Hu. apply list_elem_of_fmap in Hu. destruct Hu as (r & -> & Hr).
    exists r. split; [exact Hr |]. split; [apply Hundef; exact Hnd |].
    split; [exact He | exact Hl].
  - intros Hok r Hr.
    assert (Hu : ref_entry r ∈ unres1).
    { rewrite Hunres. apply list_elem_of_fmap. exists r. auto. }
    assert (Ha : 0 <= ref_address r < as_code_size a').
    { rewrite Forall_forall in Hua. specialize (Hua _ Hu). cbn in Hua.
      unfold milo_asm_resolve in Hres.
      destruct (resolve_loop a1 unres1) as [b a2] eqn:Hloop.
      apply resolve_loop_length in Hloop.
      assert (a' = a2) by (destruct b; injection Hres as _ <- _; reflexivity).
      subst a2. unfold as_code_size in *. rewrite Hloop. exact Hua. }
    assert (Hw : is_Some (as_code a' !! Z.to_nat (ref_address r))).
    { apply lookup_lt_is_Some_2. unfold as_code_size in Ha. lia. }
    destruct Hw as [w' Hw].
    destruct (Hsound Hok (ref_entry r) w' Hu Hw) as (l & u2 & Hl & Hu2 & Ha2 & Hn & Hlow).
    rewrite Hunres in Hu2. apply list_elem_of_fmap in Hu2. destruct Hu2 as (r2 & -> & Hr2).
    cbn [u_address ref_entry] in Ha2.
    assert (Hr2ge : 0 <= ref_address r2) by (apply (refs_from_ge _ _ _ _ Hr2)).
    assert (r2 = r).
    { apply (refs_from_unique lines 0 1); [exact Hr2 | exact Hr | lia]. }
    subst r2. cbn [u_label ref_entry] in Hn.
    rewrite Hlab in Hl. apply list_elem_of_fmap in Hl. destruct Hl as ([n addr] & -> & Hd).
    exists w', n, addr. cbn [l_name l_address label_entry fst snd] in Hn, Hlow.
    split; [exact Hw |]. split; [exact Hd |]. split; [exact Hn | exact Hlow].
  - eexists _, _. split; [vm_compute; reflexivity |]. split; reflexivity.
Qed.

End UnitLabels.

(** [L: bra L]: the operand is the label of the line, at address 0. *)
Lemma asm_resolve_sound_witness :
  unit_labels ["L: bra L"] = [("L", 0)] /\
  unit_refs ["L: bra L"] = [ {| ref_address := 0; ref_name := "L"; ref_line := 1 |} ] /\
  exists w' n addr,
    [0x2200000000000000] !! Z.to_nat 0 = Some w' /\
    (n, addr) ∈ unit_labels ["L: bra L"] /\
    str_take 63 n = str_take 63 "L" /\
    low32 w' = addr.
Proof.
  split; [vm_compute; reflexivity |]. split; [vm_compute; reflexivity |].
  set (a1 := {| as_code := [0x2200000070000000];
                as_labels := [ {| l_name := "L"; l_address := 0 |} ];
                as_error := ""; as_error_line := 0 |}).
  set (a' := {| as_code := [0x2200000000000000];
                as_labels := [ {| l_name := "L"; l_address := 0 |} ];
                as_error := ""; as_error_line := 0 |}).
  set (unres1 := [ {| u_address := 0; u_label := "L"; u_line := 1 |} ]).
  assert (Hlines : asm_lines example_libc milo_asm_init [] ["L: bra L"] 1
                   = (true, a1, unres1)) by (vm_compute; reflexivity).
  assert (Hres : milo_asm_resolve a1 unres1 = (true, a', [])) by (vm_compute; reflexivity).
  destruct (asm_resolve_sound example_libc _ _ _ _ _ _ Hlines Hres)
    as (_ & _ & _ & Hsound & _).
  apply (Hsound eq_refl {| ref_address := 0; ref_name := "L"; ref_line := 1 |}).
  vm_compute. left.
Defined.

(** A name of 63 characters. *)
Definition long_name : string :=
  "AAAAAAAAAAAAAAAAAAAAAAAAAAAAAAAAAAAAAAAAAAAAAAAAAAAAAAAAAAAAAAA".

(** Two units on which the statement about all label operands and labels
    fails.  In the first the only label operand is a name of 64 characters
    which the unit does not define; [milo_asm_source] accepts it and the
    branch goes to the label that has the same first 63 characters.  In the
    second, assembled line by line into a fresh assembler after a unit whose
    resolution failed, the only label operand [L] is defined, and
    [milo_asm_resolve] fails on the entry [X] the earlier unit left in the
    unresolved table. *)
Lemma label_names_cut_and_stale_entries :
  (let src := long_name +++ ": bra " +++ long_name +++ "B" in
   let lines := extract_lines src [] 0 false in
   unit_labels lines = [(long_name, 0)] /\
   unit_refs lines =
     [ {| ref_address := 0; ref_name := long_name +++ "B"; ref_line := 1 |} ] /\
   long_name +++ "B" <> long_name /\
   milo_asm_source example_libc milo_asm_init [] src =
     (true,
      {| as_code := [0x2200000000000000];
         as_labels := [ {| l_name := long_name; l_address := 0 |} ];
         as_error := ""; as_error_line := 0 |},
      [])) /\
  (let stale := [ {| u_address := 0; u_label := "X"; u_line := 1 |} ] in
   let entry := {| u_address := 0; u_label := "L"; u_line := 1 |} in
   unit_labels ["L: bra L"] = [("L", 0)] /\
   unit_refs ["L: bra L"] = [ {| ref_address := 0; ref_name := "L"; ref_line := 1 |} ] /\
   exists a1 a2 a3,
     milo_asm_source example_libc milo_asm_init [] "bra X" = (false, a1, stale) /\
     milo_asm_line example_libc milo_asm_init stale "L: bra L" 1 =
       (true, a2, stale ++ [entry])%list /\
     milo_asm_resolve a2 (stale ++ [entry])%list = (false, a3, (stale ++ [entry])%list) /\
     as_error a3 = "Undefined label: X").
Proof.
  split.
  - cbv zeta. split; [vm_compute; reflexivity |]. split; [vm_compute; reflexivity |].
    split; [vm_compute; discriminate |]. vm_compute. reflexivity.
  - cbv zeta. split; [vm_compute; reflexivity |]. split; [vm_compute; reflexivity |].
    eexists _, _, _. split; [vm_compute; reflexivity |].
    split; [vm_compute; reflexivity |]. split; vm_compute; reflexivity.
Qed.

(** ** The interpreter: what one instruction can change *)

Lemma arr_set_Some {A : Type} (a : list A) (i : Z) (x : A) (a' : list A) :
  arr_set a i x = Some a' ->
  a' = <[Z.to_nat i := x]> a /\ 0 <= i < Z.of_nat (length a).
Proof.
  unfold arr_set.
  destruct ((0 <=? i) && (i <? Z.of_nat (length a))) eqn:H; [| discriminate].
  intros [= <-]. split; [reflexivity | lia].
Qed.

Lemma arr_set_in_range {A : Type} (a : list A) (i : Z) (x : A) :
  0 <= i < Z.of_nat (length a) -> arr_set a i x = Some (<[Z.to_nat i := x]> a).
Proof.
  intros H. unfold arr_set.
  destruct ((0 <=? i) && (i <? Z.of_nat (length a))) eqn:E; [reflexivity | lia].
Qed.

Lemma arr_set_zero (a : list Z) (x : Z) (a' : list Z) :
  arr_set a 0 x = Some a' -> a' !! 0%nat = Some x.
Proof.
  intros H. apply arr_set_Some in H. destruct H as [-> H].
  apply list_lookup_insert_eq. lia.
Qed.

Lemma arr_set_length {A : Type} (a : list A) (i : Z) (x : A) (a' : list A) :
  arr_set a i x = Some a' -> length a' = length a.
Proof. intros H. apply arr_set_Some in H. destruct H as [-> _]. apply length_insert. Qed.

(** The shapes the result of [exec_op] can have: memory changes only in a
    [str] to an address inside the memory. *)
Inductive op_effect (vm : milo_vm_t) (op u1 imm : Z) : option (bool * milo_vm_t) -> Prop :=
| eff_undefined : op_effect vm op u1 imm None
| eff_none : op_effect vm op u1 imm (Some (true, vm))
| eff_regs r : op_effect vm op u1 imm (Some (true, set_regs vm r))
| eff_exit : op_effect vm op u1 imm (Some (false, set_running vm false))
| eff_pc x : op_effect vm op u1 imm (Some (true, set_pc vm x))
| eff_div s sp : op_effect vm op u1 imm (Some (true, set_div vm s sp))
| eff_call s sp x : op_effect vm op u1 imm (Some (true, set_pc (set_ret vm s sp) x))
| eff_mem m :
    op = OP_STR -> u32 (u1 + imm) < VM_MEM_SIZE ->
    op_effect vm op u1 imm (Some (true, set_mem vm m))
| eff_error e : op_effect vm op u1 imm (Some (false, set_error vm e)).

Lemma effect_bind {A : Type} vm op u1 imm (x : option A)
    (f : A -> option (bool * milo_vm_t)) :
  (forall a, op_effect vm op u1 imm (f a)) -> op_effect vm op u1 imm (x ≫= f).
Proof. intros H. destruct x; [apply H | constructor]. Qed.

Lemma effect_if vm op u1 imm (b : bool) (x y : option (bool * milo_vm_t)) :
  (b = true -> op_effect vm op u1 imm x) ->
  (b = false -> op_effect vm op u1 imm y) ->
  op_effect vm op u1 imm (if b then x else y).
Proof. destruct b; auto. Qed.

Lemma wr_effect vm op u1 imm rd v : op_effect vm op u1 imm (wr vm rd v).
Proof. unfold wr. apply effect_bind. intros r. constructor. Qed.

Lemma exec_tex_effect vm op u1 imm rd rs2 f2 :
  op_effect vm op u1 imm (exec_tex vm rd rs2 u1 f2).
Proof.
  unfold exec_tex. apply effect_bind. intros v.
  match goal with
  | |- context [match ?b with Some _ => _ | None => _ end] => destruct b
  end; repeat (apply effect_bind; intros ?); constructor.
Qed.

Ltac effect_branch :=
  repeat match goal with
  | |- op_effect _ _ _ _ (wr _ _ _) => apply wr_effect
  | |- op_effect _ _ _ _ (exec_tex _ _ _ _ _) => apply exec_tex_effect
  | |- op_effect _ _ _ _ (if _ then _ else _) => apply effect_if; intros ?
  | |- op_effect _ _ _ _ (mbind _ _) => apply effect_bind; intros ?
  | |- op_effect _ _ _ _ (Some _) => constructor
  | |- op_effect _ _ _ _ None => constructor
  end.

Section InterpreterFacts.

Variable L : libc_t.

Lemma exec_op_effect vm op rd rs1 rs2 imm rs3 u1 u2 :
  op_effect vm op u1 imm (exec_op L vm op rd rs1 rs2 imm rs3 u1 u2).
Proof.
  unfold exec_op.
  repeat (apply effect_if;
          [ intros Hop;
            solve [ effect_branch;
                    try (apply Z.eqb_eq in Hop; try apply Z.ltb_lt; assumption) ]
          | intros _ ]).
  effect_branch.
Qed.

(** The state [exec_op] runs on: [r0] cleared, [pc] and [cycle_count]
    advanced. *)
Definition step_entry (vm : milo_vm_t) (r : list Z) : milo_vm_t :=
  set_cycle_count (set_pc (set_regs vm r) (u32 (pc vm + 1))) (cycle_count vm + 1).

(** The two ways [vm_step] returns. *)
Lemma vm_step_inv (vm : milo_vm_t) (b : bool) (vm' : milo_vm_t) :
  vm_step L vm = Some (b, vm') ->
  (code_size vm <= pc vm /\ b = false /\
   vm' = set_error vm ("PC out of bounds: " +++ fmt_d (pc vm))) \/
  (pc vm < code_size vm /\
   exists inst r u1 u2 vm2,
     arr_get (code vm) (pc vm) = Some inst /\
     arr_set (regs vm) 0 0 = Some r /\
     arr_get r (inst_rs1 inst) = Some u1 /\
     arr_get r (inst_rs2 inst) = Some u2 /\
     exec_op L (step_entry vm r) (inst_opcode inst) (inst_rd inst) (inst_rs1 inst)
       (inst_rs2 inst) (u32 (inst_imm inst)) (inst_rs3 inst) u1 u2 = Some (b, vm2) /\
     (b = false -> vm' = vm2) /\
     (b = true -> exists r', arr_set (regs vm2) 0 0 = Some r' /\ vm' = set_regs vm2 r')).
Proof.
  unfold vm_step. destruct (Z.leb_spec (code_size vm) (pc vm)) as [Hpc | Hpc].
  - intros H. left. injection H as Hb Hvm. auto.
  - intros H. right. split; [exact Hpc |].
    destruct (arr_get (code vm) (pc vm)) as [inst |] eqn:Hi; [| cbn in H; discriminate H].
    cbn [mbind option_bind regs set_regs] in H.
    destruct (arr_set (regs vm) 0 0) as [r |] eqn:Hr; [| cbn in H; discriminate H].
    cbn [mbind option_bind regs set_regs] in H.
    destruct (arr_get r (inst_rs1 inst)) as [u1 |] eqn:H1; [| cbn in H; discriminate H].
    cbn [mbind option_bind regs set_regs] in H.
    destruct (arr_get r (inst_rs2 inst)) as [u2 |] eqn:H2; [| cbn in H; discriminate H].
    cbn [mbind option_bind regs set_regs] in H.
    change (set_cycle_count (set_pc (set_regs vm r) _) _) with (step_entry vm r) in H.
    destruct (exec_op L (step_entry vm r) (inst_opcode inst) (inst_rd inst)
                (inst_rs1 inst) (inst_rs2 inst) (u32 (inst_imm inst))
                (inst_rs3 inst) u1 u2) as [[b2 vm2] |] eqn:He; [| cbn in H; discriminate H].
    cbn [mbind option_bind regs set_regs] in H.
    exists inst, r, u1, u2, vm2.
    destruct b2.
    + destruct (arr_set (regs vm2) 0 0) as [r' |] eqn:Hr'; [| cbn in H; discriminate H].
      cbn [mbind option_bind regs set_regs] in H. injection H as Hb Hvm. subst b vm'.
      repeat split; auto; [discriminate |].
      intros _. exists r'. auto.
    + injection H as Hb Hvm. subst b vm'. repeat split; auto. discriminate.
Qed.

(** [r0] after a step. *)
Lemma vm_step_r0 (vm : milo_vm_t) (b : bool) (vm' : milo_vm_t) :
  vm_step L vm = Some (b, vm') ->
  pc vm < code_size vm \/ regs vm !! 0%nat = Some 0 ->
  regs vm' !! 0%nat = Some 0.
Proof.
  intros H Hpre. apply vm_step_inv in H.
  destruct H as [(Hpc & -> & ->) | (Hpc & inst & r & u1 & u2 & vm2 & _ & Hr & _ & _ & He & Hf & Ht)].
  - destruct Hpre as [Hlt | H0]; [lia | exact H0].
  - destruct b.
    + destruct (Ht eq_refl) as (r' & Hr' & ->). cbn. eapply arr_set_zero; eauto.
    + rewrite (Hf eq_refl).
      pose proof (exec_op_effect (step_entry vm r) (inst_opcode inst) (inst_rd inst)
                    (inst_rs1 inst) (inst_rs2 inst) (u32 (inst_imm inst))
                    (inst_rs3 inst) u1 u2) as Heff.
      rewrite He in Heff.
      inversion Heff; subst; cbn; eapply arr_set_zero; eauto.
Qed.

(** The instruction at [pc] is a [str] whose address, computed as the step
    computes it, lies inside the memory. *)
Definition str_in_range (vm : milo_vm_t) : bool :=
  (pc vm <? code_size vm) &&
  match arr_get (code vm) (pc vm) with
  | Some inst =>
      (inst_opcode inst =? OP_STR) &&
      match arr_get (<[0%nat := 0]> (regs vm)) (inst_rs1 inst) with
      | Some u1 => u32 (u1 + u32 (inst_imm inst)) <? VM_MEM_SIZE
      | None => false
      end
  | None => false
  end.

(** A step never touches the program, the uniforms, the textures or the
    cycle limit; it changes the memory only as a [str] in range. *)
Lemma vm_step_frame (vm : milo_vm_t) (b : bool) (vm' : milo_vm_t) :
  vm_step L vm = Some (b, vm') ->
  code vm' = code vm /\ code_size vm' = code_size vm /\
  uniforms vm' = uniforms vm /\ uniform_count vm' = uniform_count vm /\
  textures vm' = textures vm /\ max_cycles vm' = max_cycles vm /\
  discarded vm' = discarded vm /\
  (str_in_range vm = false -> mem vm' = mem vm).
Proof.
  intros H. apply vm_step_inv in H.
  destruct H as [(Hpc & -> & ->) | (Hpc & inst & r & u1 & u2 & vm2 & Hi & Hr & H1 & _ & He & Hf & Ht)].
  - cbn. repeat split; reflexivity.
  - pose proof (exec_op_effect (step_entry vm r) (inst_opcode inst) (inst_rd inst)
                  (inst_rs1 inst) (inst_rs2 inst) (u32 (inst_imm inst))
                  (inst_rs3 inst) u1 u2) as Heff.
    rewrite He in Heff.
    assert (Hvm' : code vm' = code vm2 /\ code_size vm' = code_size vm2 /\
                   uniforms vm' = uniforms vm2 /\ uniform_count vm' = uniform_count vm2 /\
                   textures vm' = textures vm2 /\ max_cycles vm' = max_cycles vm2 /\
                   discarded vm' = discarded vm2 /\ mem vm' = mem vm2).
    { destruct b.
      - destruct (Ht eq_refl) as (r' & _ & ->). cbn. repeat split; reflexivity.
      - rewrite (Hf eq_refl). repeat split; reflexivity. }
    destruct Hvm' as (-> & -> & -> & -> & -> & -> & -> & ->).
    inversion Heff; subst; cbn; repeat split; try reflexivity.
    intros Hno. exfalso.
    unfold str_in_range in Hno. rewrite Hi in Hno.
    apply arr_set_Some in Hr. destruct Hr as [-> _]. change (Z.to_nat 0) with 0%nat in H1.
    rewrite H1 in Hno.
    match goal with Hop : inst_opcode inst = OP_STR |- _ => rewrite Hop in Hno end.
    change (OP_STR =? OP_STR) with true in Hno. cbn [andb] in Hno.
    apply andb_false_iff in Hno. destruct Hno as [Hno | Hno]; lia.
Qed.

(** A step that lets the loop go on counts one cycle. *)
Lemma vm_step_cycle (vm : milo_vm_t) (vm' : milo_vm_t) :
  vm_step L vm = Some (true, vm') -> cycle_count vm' = cycle_count vm + 1.
Proof.
  intros H. apply vm_step_inv in H.
  destruct H as [(_ & Hb & _) | (Hpc & inst & r & u1 & u2 & vm2 & _ & _ & _ & _ & He & _ & Ht)];
    [discriminate |].
  destruct (Ht eq_refl) as (r' & _ & ->).
  pose proof (exec_op_effect (step_entry vm r) (inst_opcode inst) (inst_rd inst)
                (inst_rs1 inst) (inst_rs2 inst) (u32 (inst_imm inst))
                (inst_rs3 inst) u1 u2) as Heff.
  rewrite He in Heff. inversion Heff; subst; reflexivity.
Qed.

End InterpreterFacts.

(** ** Register 0 *)

(** The states the interpreter runs through: what a reset leaves, and what a
    step makes of a reachable state. *)
Inductive reachable (L : libc_t) : milo_vm_t -> Prop :=
| reach_fragment vm fin vm0 :
    fragment_reset vm fin = Some vm0 -> reachable L vm0
| reach_vertex vm vin vm0 :
    vertex_reset vm vin = Some vm0 -> reachable L vm0
| reach_step vm b vm' :
    reachable L vm -> vm_step L vm = Some (b, vm') -> reachable L vm'.

Ltac reset_binds H :=
  repeat match type of H with
  | (arr_set ?a ?i ?x ≫= _) = Some _ =>
      let r := fresh "r" in
      let Hr := fresh "Hr" in
      destruct (arr_set a i x) as [r |] eqn:Hr;
      [ apply arr_set_Some in Hr; destruct Hr as [-> Hr];
        cbn [mbind option_bind] in H
      | discriminate H ]
  end.

Lemma fragment_reset_regs (vm : milo_vm_t) (fin : milo_fragment_in_t) (vm0 : milo_vm_t) :
  fragment_reset vm fin = Some vm0 ->
  regs vm0 =
    <[10%nat := f2u (in_a fin)]> (<[9%nat := f2u (in_b fin)]> (<[8%nat := f2u (in_g fin)]>
    (<[7%nat := f2u (in_r fin)]> (<[6%nat := f2u (in_nz fin)]> (<[5%nat := f2u (in_ny fin)]>
    (<[4%nat := f2u (in_nx fin)]> (<[3%nat := f2u (in_v fin)]> (<[2%nat := f2u (in_u fin)]>
      (replicate (length (regs vm)) 0))))))))) /\
  (10 < length (regs vm))%nat.
Proof.
  unfold fragment_reset. cbn [regs set_regs set_pc set_div set_ret set_running
    set_discarded set_cycle_count set_error]. intros H.
  reset_binds H. injection H as <-. cbn [regs set_regs].
  split; [reflexivity |].
  repeat rewrite length_insert in *. rewrite length_replicate in *. lia.
Qed.

Lemma vertex_reset_regs (vm : milo_vm_t) (vin : milo_vertex_in_t) (vm0 : milo_vm_t) :
  vertex_reset vm vin = Some vm0 -> regs vm0 !! 0%nat = Some 0.
Proof.
  unfold vertex_reset. cbn [regs set_regs set_pc set_div set_ret set_running
    set_discarded set_cycle_count set_error]. intros H.
  reset_binds H. injection H as <-. cbn [regs set_regs].
  repeat (rewrite list_lookup_insert_ne by lia).
  apply lookup_replicate_2.
  repeat rewrite length_insert in *. rewrite length_replicate in *. lia.
Qed.

(** C7.  In every state the interpreter reaches register 0 holds zero, and
    after [vm_step], whatever the instruction and whether the step goes on,
    stops at [exit] or [ret], or reports an error, register 0 holds zero. *)
Theorem r0_reads_zero (L : libc_t) (vm : milo_vm_t) :
  reachable L vm ->
  regs vm !! 0%nat = Some 0 /\
  (forall b vm', vm_step L vm = Some (b, vm') -> regs vm' !! 0%nat = Some 0).
Proof.
  intros Hreach.
  assert (H0 : regs vm !! 0%nat = Some 0).
  { induction Hreach as [vm fin vm0 H | vm vin vm0 H | vm b vm' _ IH Hstep].
    - apply fragment_reset_regs in H. destruct H as [-> Hlen].
      repeat (rewrite list_lookup_insert_ne by lia).
      apply lookup_replicate_2. lia.
    - eapply vertex_reset_regs; eauto.
    - eapply vm_step_r0; eauto. }
  split; [exact H0 |].
  intros b vm' Hstep. eapply vm_step_r0; eauto.
Qed.

(** A machine holding [mov r0, r2; exit], reset for a fragment. *)
Definition r0_example_vm : option milo_vm_t :=
  fragment_reset
    (snd (milo_vm_load_binary milo_vm_init [0x0700020070000000; 0xFF00000070000000]))
    {| in_x := f_zero; in_y := f_zero; in_z := f_zero; in_u := f_one; in_v := f_one;
       in_r := f_one; in_g := f_one; in_b := f_one; in_a := f_one;
       in_nx := f_zero; in_ny := f_zero; in_nz := f_one |}.

Lemma r0_reads_zero_witness :
  exists vm0,
    r0_example_vm = Some vm0 /\ reachable example_libc vm0 /\
    regs vm0 !! 0%nat = Some 0 /\
    (forall b vm', vm_step example_libc vm0 = Some (b, vm') ->
                   regs vm' !! 0%nat = Some 0).
Proof.
  eexists. split; [vm_compute; reflexivity |].
  match goal with
  | |- reachable _ ?v /\ _ => assert (Hr : reachable example_libc v)
  end.
  { eapply reach_fragment with
      (vm := snd (milo_vm_load_binary milo_vm_init
                    [0x0700020070000000; 0xFF00000070000000]))
      (fin := {| in_x := f_zero; in_y := f_zero; in_z := f_zero;
                 in_u := f_one; in_v := f_one;
                 in_r := f_one; in_g := f_one; in_b := f_one; in_a := f_one;
                 in_nx := f_zero; in_ny := f_zero; in_nz := f_one |}).
    vm_compute. reflexivity. }
  split; [exact Hr |]. exact (r0_reads_zero example_libc _ Hr).
Defined.


(** ** What a fragment execution leaves alone *)

(** [vm2] holds the program, stack cells, uniforms, textures, memory and
    cycle limit of [vm], in as many registers; the registers' contents, the
    program counter, both stack pointers, the running and discard flags, the
    cycle count and the error text may differ. *)
Definition same_loaded (vm2 vm : milo_vm_t) : Prop :=
  length (regs vm2) = length (regs vm) /\
  code vm2 = code vm /\ code_size vm2 = code_size vm /\
  div_stack vm2 = div_stack vm /\ ret_stack vm2 = ret_stack vm /\
  uniforms vm2 = uniforms vm /\ uniform_count vm2 = uniform_count vm /\
  textures vm2 = textures vm /\ mem vm2 = mem vm /\
  max_cycles vm2 = max_cycles vm.

Lemma fragment_reset_same (vm2 vm : milo_vm_t) (fin : milo_fragment_in_t) :
  same_loaded vm2 vm -> fragment_reset vm2 fin = fragment_reset vm fin.
Proof.
  unfold same_loaded.
  destruct vm as [a1 a2 a3 a4 a5 a6 a7 a8 a9 a10 a11 a12 a13 a14 a15 a16 a17].
  destruct vm2 as [b1 b2 b3 b4 b5 b6 b7 b8 b9 b10 b11 b12 b13 b14 b15 b16 b17].
  cbn [regs code code_size pc div_stack div_sp ret_stack ret_sp uniforms
       uniform_count textures mem running discarded cycle_count max_cycles error].
  intros (Hlen & -> & -> & -> & -> & -> & -> & -> & -> & ->).
  unfold fragment_reset.
  cbn [regs code code_size pc div_stack div_sp ret_stack ret_sp uniforms
       uniform_count textures mem running discarded cycle_count max_cycles error
       set_regs set_pc set_div set_ret set_running set_discarded set_cycle_count
       set_error].
  rewrite Hlen. reflexivity.
Qed.

Section FragmentFrame.

Variable L : libc_t.

(** No state the loop visits stands at a [str] into the memory. *)
Fixpoint no_store_run (fuel : nat) (vm : milo_vm_t) : bool :=
  match fuel with
  | O => true
  | S fuel' =>
      if running vm && (cycle_count vm <? max_cycles vm) then
        negb (str_in_range vm) &&
        match vm_step L vm with
        | Some (true, vm') => no_store_run fuel' vm'
        | _ => true
        end
      else true
  end.

(** The execution of a fragment on [vm] performs a [str] into the memory. *)
Definition fragment_stores (vm : milo_vm_t) (fin : milo_fragment_in_t) : bool :=
  match fragment_reset vm fin with
  | Some vm0 => negb (no_store_run (Z.to_nat (max_cycles vm0 - cycle_count vm0)) vm0)
  | None => false
  end.

Lemma run_loop_frame (fuel : nat) :
  forall vm vm', run_loop L fuel vm = Some vm' ->
    code vm' = code vm /\ code_size vm' = code_size vm /\
    uniforms vm' = uniforms vm /\ textures vm' = textures vm /\
    max_cycles vm' = max_cycles vm /\
    (no_store_run fuel vm = true -> mem vm' = mem vm).
Proof.
  induction fuel as [| fuel IH]; intros vm vm' H; cbn [run_loop no_store_run] in H |- *.
  - injection H as <-. repeat split; reflexivity.
  - destruct (running vm && (cycle_count vm <? max_cycles vm)).
    + destruct (vm_step L vm) as [[[] vm1] |] eqn:Hs; [| | discriminate].
      * apply vm_step_frame in Hs.
        destruct Hs as (Hc & Hcs & Hu & _ & Ht & Hm & _ & Hmem).
        apply IH in H. destruct H as (-> & -> & -> & -> & -> & Hmem').
        repeat split; auto.
        intros Hno. apply andb_true_iff in Hno. destruct Hno as [Hno1 Hno2].
        rewrite Hmem' by exact Hno2. apply Hmem.
        destruct (str_in_range vm); [discriminate | reflexivity].
      * injection H as <-. apply vm_step_frame in Hs.
        destruct Hs as (Hc & Hcs & Hu & _ & Ht & Hm & _ & Hmem).
        repeat split; auto.
        intros Hno. apply andb_true_iff in Hno. destruct Hno as [Hno1 _].
        apply Hmem. destruct (str_in_range vm); [discriminate | reflexivity].
    + injection H as <-. repeat split; reflexivity.
Qed.

Lemma fragment_reset_frame (vm : milo_vm_t) (fin : milo_fragment_in_t) (vm0 : milo_vm_t) :
  fragment_reset vm fin = Some vm0 ->
  pc vm0 = 0 /\ div_sp vm0 = 0 /\ ret_sp vm0 = 0 /\ cycle_count vm0 = 0 /\
  discarded vm0 = false /\ error vm0 = "" /\ running vm0 = true /\
  mem vm0 = mem vm /\ uniforms vm0 = uniforms vm /\ code vm0 = code vm /\
  code_size vm0 = code_size vm /\ textures vm0 = textures vm /\
  max_cycles vm0 = max_cycles vm.
Proof.
  unfold fragment_reset. cbn [regs set_regs set_pc set_div set_ret set_running
    set_discarded set_cycle_count set_error]. intros H.
  reset_binds H. injection H as <-. cbn. repeat split; reflexivity.
Qed.

Lemma fragment_reset_inputs (vm : milo_vm_t) (fin : milo_fragment_in_t) (vm0 : milo_vm_t) :
  fragment_reset vm fin = Some vm0 ->
  (forall i, (i < 2 \/ 10 < i)%nat -> (i < length (regs vm))%nat ->
             regs vm0 !! i = Some 0) /\
  regs vm0 !! 2%nat = Some (f2u (in_u fin)) /\
  regs vm0 !! 3%nat = Some (f2u (in_v fin)) /\
  regs vm0 !! 4%nat = Some (f2u (in_nx fin)) /\
  regs vm0 !! 5%nat = Some (f2u (in_ny fin)) /\
  regs vm0 !! 6%nat = Some (f2u (in_nz fin)) /\
  regs vm0 !! 7%nat = Some (f2u (in_r fin)) /\
  regs vm0 !! 8%nat = Some (f2u (in_g fin)) /\
  regs vm0 !! 9%nat = Some (f2u (in_b fin)) /\
  regs vm0 !! 10%nat = Some (f2u (in_a fin)).
Proof.
  intros Hreset.
  apply fragment_reset_regs in Hreset. destruct Hreset as [Hregs Hlen].
  rewrite Hregs. split.
  { intros i Hi Hlt. repeat (rewrite list_lookup_insert_ne by lia).
    apply lookup_replicate_2. exact Hlt. }
  repeat split;
    repeat (rewrite list_lookup_insert_ne by lia);
    apply list_lookup_insert_eq;
    repeat rewrite length_insert; rewrite length_replicate; lia.
Qed.

Lemma fragment_stores_false vm fin vm0 :
  fragment_reset vm fin = Some vm0 -> fragment_stores vm fin = false ->
  no_store_run (Z.to_nat (max_cycles vm0 - cycle_count vm0)) vm0 = true.
Proof. intros Hr. unfold fragment_stores. rewrite Hr. apply negb_false_iff. Qed.

Lemma run_keeps (vm0 vm1 : milo_vm_t) :
  run L vm0 = Some vm1 ->
  uniforms vm1 = uniforms vm0 /\
  (no_store_run (Z.to_nat (max_cycles vm0 - cycle_count vm0)) vm0 = true ->
   mem vm1 = mem vm0).
Proof.
  unfold run. intros Hrun.
  apply run_loop_frame in Hrun. destruct Hrun as (_ & _ & Hu1 & _ & _ & Hm1).
  split; assumption.
Qed.

Lemma exec_fragment_keeps (vm : milo_vm_t) (fin : milo_fragment_in_t)
    (out : milo_fragment_out_t) (ok : bool) (vm' : milo_vm_t)
    (out' : milo_fragment_out_t) :
  milo_vm_exec_fragment L vm fin out = Some (ok, vm', out') ->
  exists vm0, fragment_reset vm fin = Some vm0 /\
    uniforms vm' = uniforms vm /\
    (fragment_stores vm fin = false -> mem vm' = mem vm).
Proof.
  unfold milo_vm_exec_fragment. intros H.
  apply bind_Some in H. destruct H as (vm0 & Hreset & H).
  apply bind_Some in H. destruct H as (vm1 & Hrun & H).
  exists vm0. split; [exact Hreset |].
  pose proof (fragment_reset_frame _ _ _ Hreset)
    as (_ & _ & _ & _ & _ & _ & _ & Hm0 & Hu0 & _).
  apply run_keeps in Hrun. destruct Hrun as (Hu1 & Hm1).
  assert (Hvm' : uniforms vm' = uniforms vm1 /\ mem vm' = mem vm1).
  { destruct (max_cycles vm1 <=? cycle_count vm1).
    - injection H as _ <- _. split; reflexivity.
    - repeat (apply bind_Some in H; destruct H as (? & _ & H)).
      injection H as _ <- _. split; reflexivity. }
  destruct Hvm' as [Hx Hy]. split; [rewrite Hx, Hu1; exact Hu0 |].
  intros Hno. rewrite Hy, Hm1; [exact Hm0 |].
  exact (fragment_stores_false _ _ _ Hreset Hno).
Qed.

(** C10.  [milo_vm_exec_fragment] is the run from the reset state [vm0]:
    registers zero except the nine input registers r2..r10, [pc], both
    stack pointers and the cycle count 0, not discarded, no error, memory
    and uniforms as they were; whatever the registers, [pc], the stack
    pointers, the flags, the cycle count and the error text held before the
    call has no effect on its result.  When the call returns, the uniforms
    are unchanged, and so is the memory provided the run performed no [str]
    to an address inside the memory; hence the memory is the same after two
    such calls in a row. *)
Theorem exec_fragment_frame (vm : milo_vm_t) (fin : milo_fragment_in_t)
    (out : milo_fragment_out_t) (ok : bool) (vm' : milo_vm_t)
    (out' : milo_fragment_out_t) :
  milo_vm_exec_fragment L vm fin out = Some (ok, vm', out') ->
  (exists vm0 vm1,
     fragment_reset vm fin = Some vm0 /\
     (forall i, (i < 2 \/ 10 < i)%nat -> (i < length (regs vm))%nat ->
                regs vm0 !! i = Some 0) /\
     regs vm0 !! 2%nat = Some (f2u (in_u fin)) /\
     regs vm0 !! 3%nat = Some (f2u (in_v fin)) /\
     regs vm0 !! 4%nat = Some (f2u (in_nx fin)) /\
     regs vm0 !! 5%nat = Some (f2u (in_ny fin)) /\
     regs vm0 !! 6%nat = Some (f2u (in_nz fin)) /\
     regs vm0 !! 7%nat = Some (f2u (in_r fin)) /\
     regs vm0 !! 8%nat = Some (f2u (in_g fin)) /\
     regs vm0 !! 9%nat = Some (f2u (in_b fin)) /\
     regs vm0 !! 10%nat = Some (f2u (in_a fin)) /\
     pc vm0 = 0 /\ div_sp vm0 = 0 /\ ret_sp vm0 = 0 /\ cycle_count vm0 = 0 /\
     discarded vm0 = false /\ error vm0 = "" /\ running vm0 = true /\
     mem vm0 = mem vm /\ uniforms vm0 = uniforms vm /\
     run L vm0 = Some vm1 /\
     (max_cycles vm1 <= cycle_count vm1 ->
      ok = false /\ out' = out /\
      vm' = set_error vm1 ("Exceeded max cycles (" +++ fmt_d (max_cycles vm1) +++ ")")) /\
     (cycle_count vm1 < max_cycles vm1 ->
      vm' = vm1 /\ ok = String.eqb (error vm1) "" /\
      out_discard out' = discarded vm1 /\ out_depth out' = in_z fin /\
      u2f <$> regs vm1 !! 4%nat = Some (out_r out') /\
      u2f <$> regs vm1 !! 5%nat = Some (out_g out') /\
      u2f <$> regs vm1 !! 6%nat = Some (out_b out') /\
      u2f <$> regs vm1 !! 7%nat = Some (out_a out'))) /\
  (forall vm2, same_loaded vm2 vm ->
     milo_vm_exec_fragment L vm2 fin out = Some (ok, vm', out')) /\
  uniforms vm' = uniforms vm /\
  (fragment_stores vm fin = false -> mem vm' = mem vm) /\
  (forall fin2 out2 ok2 vm2 out2',
     milo_vm_exec_fragment L vm' fin2 out2 = Some (ok2, vm2, out2') ->
     fragment_stores vm fin = false -> fragment_stores vm' fin2 = false ->
     mem vm2 = mem vm /\ uniforms vm2 = uniforms vm).
Proof.
  intros H. pose proof (exec_fragment_keeps _ _ _ _ _ _ H) as (vm0 & Hreset & Hu & Hm).
  split; [| split].
  - pose proof H as H'. revert H'. unfold milo_vm_exec_fragment.
    rewrite Hreset. cbn [mbind option_bind]. intros H'.
    apply bind_Some in H'. destruct H' as (vm1 & Hrun & H').
    exists vm0, vm1. split; [reflexivity |].
    pose proof (fragment_reset_frame _ _ _ Hreset)
      as (Hpc & Hd & Hr & Hc & Hdis & He & Hrn & Hm0 & Hu0 & _).
    pose proof (fragment_reset_inputs _ _ _ Hreset)
      as (Hz & H2 & H3 & H4 & H5 & H6 & H7 & H8 & H9 & H10).
    repeat (split; [assumption |]).
    destruct (Z.leb_spec (max_cycles vm1) (cycle_count vm1)) as [Hle | Hlt].
    + injection H' as <- <- <-. split; [| intros Hc'; exfalso; lia].
      intros _. repeat split; reflexivity.
    + split; [intros Hc'; exfalso; lia |]. intros _.
      apply bind_Some in H'. destruct H' as (r4 & Hr4 & H').
      apply bind_Some in H'. destruct H' as (r5 & Hr5 & H').
      apply bind_Some in H'. destruct H' as (r6 & Hr6 & H').
      apply bind_Some in H'. destruct H' as (r7 & Hr7 & H').
      injection H' as <- <- <-.
      change (regs vm1 !! 4%nat = Some r4) in Hr4.
      change (regs vm1 !! 5%nat = Some r5) in Hr5.
      change (regs vm1 !! 6%nat = Some r6) in Hr6.
      change (regs vm1 !! 7%nat = Some r7) in Hr7.
      cbn [out_r out_g out_b out_a out_discard out_depth].
      rewrite Hr4, Hr5, Hr6, Hr7. repeat split; reflexivity.
  - intros vm2 Hsame. revert H. unfold milo_vm_exec_fragment.
    rewrite (fragment_reset_same _ _ fin Hsame). intros H. exact H.
  - split; [exact Hu |]. split; [exact Hm |].
    intros fin2 out2 ok2 vm2 out2' Hexec2 Hno1 Hno2.
    pose proof (exec_fragment_keeps _ _ _ _ _ _ Hexec2) as (_ & _ & Hu2 & Hm2).
    split; [rewrite (Hm2 Hno2); exact (Hm Hno1) | rewrite Hu2; exact Hu].
Qed.

End FragmentFrame.

(** A machine holding [mov r0, r2; exit] and the inputs of one fragment. *)
Definition frame_example_vm : milo_vm_t :=
  snd (milo_vm_load_binary milo_vm_init [0x0700020070000000; 0xFF00000070000000]).

Definition frame_example_in : milo_fragment_in_t :=
  {| in_x := f_zero; in_y := f_zero; in_z := f_zero; in_u := f_half; in_v := f_one;
     in_r := f_one; in_g := f_one; in_b := f_one; in_a := f_one;
     in_nx := f_zero; in_ny := f_zero; in_nz := f_one |}.

Definition frame_example_out : milo_fragment_out_t :=
  {| out_r := f_zero; out_g := f_zero; out_b := f_zero; out_a := f_zero;
     out_depth := f_zero; out_discard := false |}.

(** [frame_example_vm] as an earlier execution could have left it: values in
    the registers, the program counter elsewhere, entries on both stacks,
    stopped, discarded, the cycles used up and an error text. *)
Definition stale_example_vm : milo_vm_t :=
  set_error
    (set_cycle_count
       (set_discarded
          (set_running
             (set_ret
                (set_div
                   (set_pc (set_regs frame_example_vm (replicate 64 0xDEAD)) 77)
                   (div_stack frame_example_vm) 3)
                (ret_stack frame_example_vm) 5)
             false)
          true)
       100000)
    "Exceeded max cycles (100000)".

Lemma exec_fragment_frame_witness :
  exists ok vm' out',
    milo_vm_exec_fragment example_libc stale_example_vm frame_example_in
      frame_example_out = Some (ok, vm', out') /\
    milo_vm_exec_fragment example_libc frame_example_vm frame_example_in
      frame_example_out = Some (ok, vm', out') /\
    ok = true /\ error vm' = "" /\ discarded vm' = false /\ cycle_count vm' = 2 /\
    pc vm' = 2 /\ div_sp vm' = 0 /\ ret_sp vm' = 0 /\
    regs vm' !! 11%nat = Some 0 /\
    uniforms vm' = uniforms stale_example_vm /\
    mem vm' = mem stale_example_vm.
Proof.
  assert (H : exists r, milo_vm_exec_fragment example_libc stale_example_vm
                          frame_example_in frame_example_out = Some r /\
                ( fst (fst r) = true /\ error (snd (fst r)) = "" /\
                  discarded (snd (fst r)) = false /\ cycle_count (snd (fst r)) = 2 /\
                  pc (snd (fst r)) = 2 /\ div_sp (snd (fst r)) = 0 /\
                  ret_sp (snd (fst r)) = 0 /\ regs (snd (fst r)) !! 11%nat = Some 0)).
  { eexists. split; [vm_compute; reflexivity |]. vm_compute. repeat split; reflexivity. }
  destruct H as ([[ok vm'] out'] & H & Hrest). cbn [fst snd] in Hrest.
  exists ok, vm', out'.
  split; [exact H |].
  pose proof (exec_fragment_frame example_libc _ _ _ _ _ _ H) as (_ & Hsame & Hu & Hm & _).
  split.
  { apply Hsame. repeat split; reflexivity. }
  destruct Hrest as (H1 & H2 & H3 & H4 & H5 & H6 & H7 & H8).
  do 8 (split; [assumption |]).
  split; [exact Hu |]. apply Hm. vm_compute. reflexivity.
Defined.
(** ** Zero divisors and addresses outside the memory *)

Section ZeroCases.

Variable L : libc_t.

(** [vm_step] put together from its parts, for an instruction that lets the
    execution go on. *)
Lemma vm_step_continue (vm : milo_vm_t) (inst : Z) (r : list Z) (u1 u2 : Z)
    (vm2 : milo_vm_t) (r' : list Z) :
  pc vm < code_size vm ->
  arr_get (code vm) (pc vm) = Some inst ->
  arr_set (regs vm) 0 0 = Some r ->
  arr_get r (inst_rs1 inst) = Some u1 ->
  arr_get r (inst_rs2 inst) = Some u2 ->
  exec_op L (step_entry vm r) (inst_opcode inst) (inst_rd inst) (inst_rs1 inst)
    (inst_rs2 inst) (u32 (inst_imm inst)) (inst_rs3 inst) u1 u2 = Some (true, vm2) ->
  arr_set (regs vm2) 0 0 = Some r' ->
  vm_step L vm = Some (true, set_regs vm2 r').
Proof.
  unfold vm_step. intros Hpc Hi Hr H1 H2 He Hr'.
  destruct (Z.leb_spec (code_size vm) (pc vm)) as [Hle | _]; [lia |].
  rewrite Hi. cbn [mbind option_bind]. rewrite Hr. cbn [mbind option_bind regs set_regs].
  rewrite H1. cbn [mbind option_bind]. rewrite H2. cbn [mbind option_bind].
  change (set_cycle_count (set_pc (set_regs vm r) _) _) with (step_entry vm r).
  rewrite He. cbn [mbind option_bind]. rewrite Hr'. reflexivity.
Qed.

Lemma exec_op_idiv vm rd rs1 rs2 imm rs3 u1 u2 :
  exec_op L vm OP_IDIV rd rs1 rs2 imm rs3 u1 u2 =
    if s32 u2 =? 0 then wr vm rd 0
    else if (s32 u1 =? - 2 ^ 31) && (s32 u2 =? -1) then None
    else wr vm rd (u32 (Z.quot (s32 u1) (s32 u2))).
Proof. reflexivity. Qed.

Lemma exec_op_irem vm rd rs1 rs2 imm rs3 u1 u2 :
  exec_op L vm OP_IREM rd rs1 rs2 imm rs3 u1 u2 =
    if s32 u2 =? 0 then wr vm rd 0
    else if (s32 u1 =? - 2 ^ 31) && (s32 u2 =? -1) then None
    else wr vm rd (u32 (Z.rem (s32 u1) (s32 u2))).
Proof. reflexivity. Qed.

Lemma exec_op_fdiv vm rd rs1 rs2 imm rs3 u1 u2 :
  exec_op L vm OP_FDIV rd rs1 rs2 imm rs3 u1 u2 =
    wr vm rd (f2u (if negb (SFeqb (u2f u2) f_zero) then f_div (u2f u1) (u2f u2)
                   else f_zero)).
Proof. reflexivity. Qed.

Lemma exec_op_ldr vm rd rs1 rs2 imm rs3 u1 u2 :
  exec_op L vm OP_LDR rd rs1 rs2 imm rs3 u1 u2 =
    if u32 (u1 + imm) <? VM_MEM_SIZE then
      word ← arr_get (mem vm) (u32 (u1 + imm) / 4); wr vm rd word
    else wr vm rd 0.
Proof. reflexivity. Qed.

Lemma exec_op_str vm rd rs1 rs2 imm rs3 u1 u2 :
  exec_op L vm OP_STR rd rs1 rs2 imm rs3 u1 u2 =
    if u32 (u1 + imm) <? VM_MEM_SIZE then
      m ← arr_set (mem vm) (u32 (u1 + imm) / 4) u2; Some (true, set_mem vm m)
    else Some (true, vm).
Proof. reflexivity. Qed.

Lemma inst_rd_nonneg (inst : Z) : 0 <= inst_rd inst.
Proof. unfold inst_rd. apply Z.land_nonneg. right. lia. Qed.

(** A step whose instruction writes 0 to [rd] and changes nothing else. *)
Lemma vm_step_writes_zero (vm : milo_vm_t) (inst u1 u2 : Z) :
  vm_wf vm -> pc vm < code_size vm ->
  arr_get (code vm) (pc vm) = Some inst ->
  inst_rd inst < 64 ->
  arr_get (<[0%nat := 0]> (regs vm)) (inst_rs1 inst) = Some u1 ->
  arr_get (<[0%nat := 0]> (regs vm)) (inst_rs2 inst) = Some u2 ->
  exec_op L (step_entry vm (<[0%nat := 0]> (regs vm))) (inst_opcode inst)
    (inst_rd inst) (inst_rs1 inst) (inst_rs2 inst) (u32 (inst_imm inst))
    (inst_rs3 inst) u1 u2 =
    wr (step_entry vm (<[0%nat := 0]> (regs vm))) (inst_rd inst) 0 ->
  exists vm', vm_step L vm = Some (true, vm') /\
    regs vm' !! Z.to_nat (inst_rd inst) = Some 0 /\
    (forall i, i <> Z.to_nat (inst_rd inst) -> i <> 0%nat ->
               regs vm' !! i = regs vm !! i) /\
    mem vm' = mem vm /\ error vm' = error vm /\ running vm' = running vm.
Proof.
  intros (Hlen & _) Hpc Hi Hrd H1 H2 He.
  pose proof (inst_rd_nonneg inst) as Hrd0.
  set (r := <[0%nat := 0]> (regs vm)) in *.
  assert (Hr : arr_set (regs vm) 0 0 = Some r).
  { apply arr_set_in_range. rewrite Hlen. lia. }
  assert (Hlr : length r = 64%nat).
  { unfold r. rewrite length_insert. exact Hlen. }
  set (r1 := <[Z.to_nat (inst_rd inst) := 0]> r).
  assert (Hw : wr (step_entry vm r) (inst_rd inst) 0 =
               Some (true, set_regs (step_entry vm r) r1)).
  { unfold wr. cbn [regs step_entry set_cycle_count set_pc set_regs].
    rewrite arr_set_in_range by (rewrite Hlr; lia). reflexivity. }
  rewrite Hw in He.
  exists (set_regs (set_regs (step_entry vm r) r1) (<[0%nat := 0]> r1)).
  split.
  { eapply vm_step_continue; eauto.
    cbn [regs set_regs]. apply arr_set_in_range.
    unfold r1. rewrite length_insert, Hlr. lia. }
  cbn [regs set_regs mem error running step_entry set_cycle_count set_pc].
  split.
  { destruct (decide (Z.to_nat (inst_rd inst) = 0%nat)) as [-> | Hne].
    - apply list_lookup_insert_eq. unfold r1. rewrite length_insert, Hlr. lia.
    - rewrite list_lookup_insert_ne by congruence.
      unfold r1. apply list_lookup_insert_eq. rewrite Hlr. lia. }
  split; [| repeat split; reflexivity].
  intros i Hi1 Hi0.
  rewrite list_lookup_insert_ne by congruence.
  unfold r1. rewrite list_lookup_insert_ne by congruence.
  unfold r. rewrite list_lookup_insert_ne by congruence. reflexivity.
Qed.

(** C8.  In a machine of the declared sizes whose next instruction names
    registers below 64: [idiv] and [irem] with divisor 0, [fdiv] with a
    divisor equal to zero (of either sign), and [ldr] from an address at or
    beyond [VM_MEM_SIZE] make [vm_step] return [true], write 0 to [rd] and
    leave every other register but [r0], the memory, the error text and the
    running flag as they were; [str] to such an address makes [vm_step] return
    [true] and leaves the memory, the error text and the running flag as
    they were. *)
Theorem zero_cases_continue (vm : milo_vm_t) (inst u1 u2 : Z) :
  vm_wf vm -> pc vm < code_size vm ->
  arr_get (code vm) (pc vm) = Some inst ->
  inst_rd inst < 64 ->
  arr_get (<[0%nat := 0]> (regs vm)) (inst_rs1 inst) = Some u1 ->
  arr_get (<[0%nat := 0]> (regs vm)) (inst_rs2 inst) = Some u2 ->
  (((inst_opcode inst = OP_IDIV \/ inst_opcode inst = OP_IREM) /\ s32 u2 = 0) \/
   (inst_opcode inst = OP_FDIV /\ SFeqb (u2f u2) f_zero = true) \/
   (inst_opcode inst = OP_LDR /\ VM_MEM_SIZE <= u32 (u1 + u32 (inst_imm inst))) ->
   exists vm', vm_step L vm = Some (true, vm') /\
     regs vm' !! Z.to_nat (inst_rd inst) = Some 0 /\
     (forall i, i <> Z.to_nat (inst_rd inst) -> i <> 0%nat ->
                regs vm' !! i = regs vm !! i) /\
     mem vm' = mem vm /\ error vm' = error vm /\ running vm' = running vm) /\
  (inst_opcode inst = OP_STR /\ VM_MEM_SIZE <= u32 (u1 + u32 (inst_imm inst)) ->
   exists vm', vm_step L vm = Some (true, vm') /\
     (forall i, i <> 0%nat -> regs vm' !! i = regs vm !! i) /\
     mem vm' = mem vm /\ error vm' = error vm /\ running vm' = running vm).
Proof.
  intros Hwf Hpc Hi Hrd H1 H2. split.
  - intros Hcase. apply (vm_step_writes_zero vm inst u1 u2); try assumption.
    destruct Hcase as [[[Hop | Hop] Hz] | [[Hop Hz] | [Hop Hz]]]; rewrite Hop.
    + rewrite exec_op_idiv, Hz. reflexivity.
    + rewrite exec_op_irem, Hz. reflexivity.
    + rewrite exec_op_fdiv, Hz. reflexivity.
    + rewrite exec_op_ldr.
      destruct (Z.ltb_spec (u32 (u1 + u32 (inst_imm inst))) VM_MEM_SIZE); [lia |].
      reflexivity.
  - intros [Hop Hz]. destruct Hwf as (Hlen & _).
    set (r := <[0%nat := 0]> (regs vm)) in *.
    assert (Hr : arr_set (regs vm) 0 0 = Some r).
    { apply arr_set_in_range. rewrite Hlen. lia. }
    exists (set_regs (step_entry vm r) (<[0%nat := 0]> r)). split.
    { eapply vm_step_continue; eauto.
      - rewrite Hop, exec_op_str.
        destruct (Z.ltb_spec (u32 (u1 + u32 (inst_imm inst))) VM_MEM_SIZE); [lia |].
        reflexivity.
      - cbn [regs step_entry set_cycle_count set_pc set_regs].
        apply arr_set_in_range. unfold r. rewrite length_insert, Hlen. lia. }
    cbn [regs set_regs mem error running step_entry set_cycle_count set_pc].
    split; [| repeat split; reflexivity].
    intros i Hi0. rewrite list_lookup_insert_ne by congruence.
    unfold r. rewrite list_lookup_insert_ne by congruence. reflexivity.
Qed.

End ZeroCases.

(** A machine whose program is [idiv r3, r2, r0]. *)
Definition zero_example_vm : milo_vm_t :=
  snd (milo_vm_load_binary milo_vm_init [0x3603020070000000]).

Lemma zero_cases_continue_witness :
  exists vm', vm_step example_libc zero_example_vm = Some (true, vm') /\
    regs vm' !! 3%nat = Some 0 /\ error vm' = "" /\ running vm' = running zero_example_vm.
Proof.
  destruct (zero_cases_continue example_libc zero_example_vm 0x3603020070000000 0 0)
    as [H _].
  - vm_compute. repeat split; reflexivity.
  - vm_compute. reflexivity.
  - vm_compute. reflexivity.
  - vm_compute. reflexivity.
  - vm_compute. reflexivity.
  - vm_compute. reflexivity.
  - destruct H as (vm' & Hs & Hrd & _ & _ & He & Hrun).
    + left. split; [left |]; vm_compute; reflexivity.
    + exists vm'. split; [exact Hs |]. split; [exact Hrd |]. split; [exact He | exact Hrun].
Defined.
(** ** Nearest-neighbour sampling at texel centres *)

(** The [float] value of [(x + 0.5) / dim]. *)
Definition texel_center (x dim : Z) : spec_float :=
  f_div (f_add (f_of_int x) f_half) (f_of_int dim).

(** What [milo_texture_sample] computes along one axis in nearest mode: the
    wrapped coordinate, scaled by [dim - 1], rounded by [+ 0.5f] and the cast
    to [int], then clamped to [dim - 1]. *)
Definition nearest_index (wrap : bool) (dim : Z) (u : spec_float) : option Z :=
  let u := if wrap then f_sub u (floorf u) else fmaxf f_zero (fminf f_one u) in
  x ← f_to_int (f_add (f_mul u (f_of_int (dim - 1))) f_half);
  Some (if dim <=? x then dim - 1 else x).

Lemma sample_nearest (tex : milo_texture_t) (px : Z -> Z) (u v : spec_float) :
  pixels tex = Some px -> filter tex = false ->
  milo_texture_sample (Some tex) u v =
    x ← nearest_index (wrap_s tex) (width tex) u;
    y ← nearest_index (wrap_t tex) (height tex) v;
    read_pixel tex px (y * width tex + x).
Proof.
  unfold milo_texture_sample, nearest_index. intros -> ->.
  destruct (f_to_int (f_add (f_mul _ (f_of_int (width tex - 1))) f_half)) as [x |];
    cbn [mbind option_bind]; [| reflexivity].
  destruct (f_to_int (f_add (f_mul _ (f_of_int (height tex - 1))) f_half)) as [y |];
    cbn [mbind option_bind]; reflexivity.
Qed.

(** *** Rounding to nearest in binary32

    The [float] operations of the sampler are those of [SpecFloat] at
    precision 24.  Their results are described here by integers: a value is
    a fraction [a / b] in units of [2^-200], and [nearest r a b] says that
    [r] is a [float] nearest to it. *)

Lemma digits2_size (p : positive) : digits2_pos p = Pos.size p.
Proof. induction p; cbn; congruence. Qed.

Lemma digits2_bounds (p : positive) :
  2 ^ (Zpos (digits2_pos p) - 1) <= Zpos p < 2 ^ Zpos (digits2_pos p).
Proof.
  rewrite digits2_size. split.
  - pose proof (Pos.size_le p) as H.
    assert (H2 : (2 ^ Pos.size p <= p~0)%positive) by exact H.
    apply Pos2Z.pos_le_pos in H2. rewrite Pos2Z.inj_pow in H2.
    change (Z.pos p~0) with (2 * Z.pos p) in H2.
    replace (Z.pos (Pos.size p)) with (Z.pos (Pos.size p) - 1 + 1) in H2 by lia.
    rewrite Z.pow_add_r in H2 by lia. lia.
  - pose proof (Pos.size_gt p) as H.
    apply Pos2Z.pos_lt_pos in H. rewrite Pos2Z.inj_pow in H. exact H.
Qed.

Lemma pow2_lt_mono (a b : Z) : 0 <= a -> 2 ^ a < 2 ^ b -> a < b.
Proof.
  intros Ha H. destruct (Z.lt_ge_cases a b) as [|Hge]; [assumption|].
  exfalso. assert (0 <= b \/ b < 0) as [Hb|Hb] by lia.
  - pose proof (Z.pow_le_mono_r 2 b a ltac:(lia) Hge). lia.
  - rewrite (Z.pow_neg_r 2 b) in H by lia. pose proof (Z.pow_pos_nonneg 2 a ltac:(lia) Ha). lia.
Qed.

(** The number of digits from bounds. *)
Lemma digits2_unique (p : positive) (d : Z) :
  2 ^ (d - 1) <= Zpos p < 2 ^ d -> 1 <= d -> Zpos (digits2_pos p) = d.
Proof.
  intros [H1 H2] Hd. pose proof (digits2_bounds p) as [H3 H4].
  set (k := Zpos (digits2_pos p)) in *. assert (Hk : 1 <= k) by (unfold k; lia).
  assert (k - 1 < d).
  { apply pow2_lt_mono; [lia|]. lia. }
  assert (d - 1 < k).
  { apply pow2_lt_mono; [lia|]. lia. }
  lia.
Qed.
(** The record describes where [a / B] lies between [shr_m] and
    [shr_m + 1]: the round bit says "not below the middle", the sticky bit
    "neither on the integer nor on the middle". *)
Definition loc_ok (a B : Z) (mrs : shr_record) : Prop :=
  shr_m mrs = a / B /\
  shr_r mrs = (B <=? 2 * (a mod B)) /\
  shr_s mrs = negb (a mod B =? 0) && negb (2 * (a mod B) =? B).

Ltac bool_lia :=
  repeat match goal with
  | |- context [?x <=? ?y] => destruct (Z.leb_spec x y)
  | |- context [?x =? ?y] => destruct (Z.eqb_spec x y)
  | H : context [?x <=? ?y] |- _ => destruct (Z.leb_spec x y)
  | H : context [?x =? ?y] |- _ => destruct (Z.eqb_spec x y)
  end; cbn in *; try reflexivity; try discriminate; try lia.

Lemma shr_1_loc (a B : Z) (mrs : shr_record) :
  0 < B -> 0 <= a -> loc_ok a B mrs -> loc_ok a (2 * B) (shr_1 mrs).
Proof.
  intros HB Ha (Hm & Hr & Hs). destruct mrs as [m r s]. cbn [shr_m shr_r shr_s] in *.
  assert (Hdiv : a / (2 * B) = m / 2).
  { rewrite Hm, Z.div_div by lia. f_equal. lia. }
  assert (Hmod : a mod (2 * B) = a mod B + B * (m mod 2)).
  { rewrite Hm. rewrite (Z.mul_comm 2 B). apply Z.rem_mul_r; lia. }
  pose proof (Z.mod_pos_bound a B HB) as Hrho.
  assert (Hm0 : 0 <= m) by (rewrite Hm; apply Z.div_pos; lia).
  pose proof (Z.div_mod m 2 ltac:(lia)) as Hm2.
  pose proof (Z.mod_pos_bound m 2 ltac:(lia)) as Hbit.
  set (rho := a mod B) in *.
  assert (Hrs : (r || s) = negb (rho =? 0)).
  { rewrite Hr, Hs. bool_lia. }
  unfold loc_ok. rewrite Hdiv, Hmod.
  destruct m as [| p | p]; [| | lia].
  - cbn [shr_1 shr_m shr_r shr_s]. rewrite Hrs.
    change (0 / 2) with 0. change (0 mod 2) with 0.
    split; [reflexivity |]. split; bool_lia.
  - destruct p as [p | p |]; cbn [shr_1 shr_m shr_r shr_s]; rewrite Hrs.
    + assert (Z.pos p~1 / 2 = Z.pos p /\ Z.pos p~1 mod 2 = 1) as [-> ->].
      { change (Z.pos p~1) with (2 * Z.pos p + 1) in *. split; lia. }
      split; [reflexivity |]. split; bool_lia.
    + assert (Z.pos p~0 / 2 = Z.pos p /\ Z.pos p~0 mod 2 = 0) as [-> ->].
      { change (Z.pos p~0) with (2 * Z.pos p) in *. split; lia. }
      split; [reflexivity |]. split; bool_lia.
    + change (1 / 2) with 0. change (1 mod 2) with 1.
      split; [reflexivity |]. split; bool_lia.
Qed.

Lemma iter_pos_loc (p : positive) :
  forall a B mrs, 0 < B -> 0 <= a -> loc_ok a B mrs ->
    loc_ok a (2 ^ Zpos p * B) (SpecFloat.iter_pos shr_1 p mrs).
Proof.
  induction p as [p IH | p IH |]; intros a B mrs HB Ha H; cbn [SpecFloat.iter_pos].
  - pose proof (Z.pow_pos_nonneg 2 (Zpos p) ltac:(lia) ltac:(lia)) as Hpow.
    apply shr_1_loc in H; [| lia | lia].
    apply IH in H; [| lia | lia].
    apply IH in H; [| nia | lia].
    replace (2 ^ Z.pos p~1 * B) with (2 ^ Z.pos p * (2 ^ Z.pos p * (2 * B))); [exact H |].
    replace (Z.pos p~1) with (Z.pos p + Z.pos p + 1) by lia.
    rewrite !Z.pow_add_r by lia. change (2 ^ 1) with 2. ring.
  - pose proof (Z.pow_pos_nonneg 2 (Zpos p) ltac:(lia) ltac:(lia)) as Hpow.
    apply IH in H; [| lia | lia].
    apply IH in H; [| nia | lia].
    replace (2 ^ Z.pos p~0 * B) with (2 ^ Z.pos p * (2 ^ Z.pos p * B)); [exact H |].
    replace (Z.pos p~0) with (Z.pos p + Z.pos p) by lia.
    rewrite !Z.pow_add_r by lia. ring.
  - apply shr_1_loc in H; [| lia | lia]. exact H.
Qed.

(** The location of [a / b] between [a / b] and [a / b + 1]. *)
Definition loc_frac (a b : Z) : location :=
  if a mod b =? 0 then loc_Exact else loc_Inexact (2 * (a mod b) ?= b).

Lemma loc_frac_ok (a b : Z) :
  0 < b -> loc_ok a b (shr_record_of_loc (a / b) (loc_frac a b)).
Proof.
  intros Hb. pose proof (Z.mod_pos_bound a b Hb) as Hrho.
  unfold loc_frac, loc_ok. set (rho := a mod b) in *.
  destruct (Z.eqb_spec rho 0) as [-> | Hne]; cbn [shr_record_of_loc shr_m shr_r shr_s].
  - split; [reflexivity |]. split; bool_lia.
  - destruct (Z.compare_spec (2 * rho) b); cbn [shr_record_of_loc shr_m shr_r shr_s];
      (split; [reflexivity |]; split; bool_lia).
Qed.

(** [new_location], as [SFdiv] computes it from the remainder. *)
Lemma new_location_frac (a b : Z) :
  0 < b -> new_location b (a mod b) = loc_frac a b.
Proof.
  intros Hb. pose proof (Z.mod_pos_bound a b Hb) as Hrho.
  unfold new_location, new_location_even, new_location_odd, loc_frac.
  set (rho := a mod b) in *.
  destruct (Z.even b) eqn:He; [reflexivity |].
  destruct (Z.eqb_spec rho 0); [reflexivity |]. f_equal.
  assert (Hodd : Z.odd b = true) by (rewrite <- Z.negb_even, He; reflexivity).
  apply Z.odd_spec in Hodd. destruct Hodd as [k Hk].
  destruct (Z.compare_spec (2 * rho + 1) b), (Z.compare_spec (2 * rho) b);
    try reflexivity; lia.
Qed.

(** The result of rounding to nearest even. *)
Lemma round_nearest_even_loc (a B : Z) (mrs : shr_record) :
  0 < B -> 0 <= a -> loc_ok a B mrs ->
  let m1 := round_nearest_even (shr_m mrs) (loc_of_shr_record mrs) in
  (m1 = a / B \/ m1 = a / B + 1) /\
  2 * Z.abs (a - m1 * B) <= B /\
  (2 * Z.abs (a - m1 * B) = B -> Z.even m1 = true).
Proof.
  intros HB Ha (Hm & Hr & Hs). destruct mrs as [m r s]. cbn [shr_m shr_r shr_s] in *.
  pose proof (Z.mod_pos_bound a B HB) as Hrho.
  pose proof (Z.div_mod a B ltac:(lia)) as Hdm.
  set (rho := a mod B) in *. rewrite <- Hm in *.
  cbn zeta. unfold loc_of_shr_record, round_nearest_even.
  destruct r, s; symmetry in Hr, Hs.
  - (* above the middle *)
    assert (B < 2 * rho) by bool_lia.
    split; [right; reflexivity |]. split; [lia | intros; lia].
  - assert (2 * rho = B) by bool_lia.
    destruct (Z.even m) eqn:He.
    + split; [left; reflexivity |]. split; [lia | intros; exact He].
    + split; [right; reflexivity |]. split; [lia |]. intros _.
      rewrite Z.even_add, He. reflexivity.
  - assert (0 < 2 * rho < B) by bool_lia.
    split; [left; reflexivity |]. split; [lia | intros; lia].
  - assert (rho = 0) by bool_lia.
    split; [left; reflexivity |]. split; [lia | intros; lia].
Qed.

(** A [float] from a mantissa of 24 bits, or [2^24]. *)
Definition float32 (m1 e : Z) : spec_float :=
  if m1 =? 2 ^ 24 then S754_finite false 8388608 (e + 1)
  else S754_finite false (Z.to_pos m1) e.

Lemma fexp32 (e : Z) : fexp 24 128 e = Z.max (e - 24) (-149).
Proof. reflexivity. Qed.

Lemma shr_loc (a b : Z) (mrs : shr_record) (e n : Z) :
  0 < b -> 0 <= a -> 0 <= n -> loc_ok a b mrs ->
  loc_ok a (2 ^ n * b) (fst (shr mrs e n)) /\ snd (shr mrs e n) = e + n.
Proof.
  intros Hb Ha Hn H. unfold shr. destruct n as [| q | q]; [| | lia].
  - cbn [fst snd]. change (2 ^ 0) with 1. rewrite Z.mul_1_l. split; [exact H | lia].
  - cbn [fst snd]. split; [| reflexivity]. apply iter_pos_loc; assumption.
Qed.

Lemma div_bounds (a b lo hi : Z) :
  0 < b -> lo <= a / b < hi -> lo * b <= a < hi * b.
Proof.
  intros Hb [H1 H2].
  pose proof (Z.div_mod a b ltac:(lia)). pose proof (Z.mod_pos_bound a b Hb). nia.
Qed.

Lemma div_bounds_inv (a b lo hi : Z) :
  0 < b -> lo * b <= a < hi * b -> lo <= a / b < hi.
Proof.
  intros Hb [H1 H2].
  pose proof (Z.div_mod a b ltac:(lia)). pose proof (Z.mod_pos_bound a b Hb). nia.
Qed.

(** [binary_round_aux] on a value of at least 24 bits in the normal range:
    the result is the nearest [float], ties to even. *)
Lemma bra32 (a b ex : Z) :
  0 < b -> 2 ^ 23 * b <= a ->
  let n := Zdigits2 (a / b) - 24 in
  -149 <= ex + n -> ex + n < 104 ->
  exists m1,
    2 ^ 23 <= m1 <= 2 ^ 24 /\
    2 * Z.abs (a - m1 * (2 ^ n * b)) <= 2 ^ n * b /\
    (2 * Z.abs (a - m1 * (2 ^ n * b)) = 2 ^ n * b -> Z.even m1 = true) /\
    0 <= n /\ 2 ^ (n + 23) * b <= a < 2 ^ (n + 24) * b /\
    binary_round_aux 24 128 false (a / b) ex (loc_frac a b) = float32 m1 (ex + n).
Proof.
  intros Hb Ha n Hlo Hhi.
  assert (Hmx : 2 ^ 23 <= a / b).
  { apply (div_bounds_inv a b (2 ^ 23) (a / b + 1)); [exact Hb |].
    split; [exact Ha |].
    pose proof (Z.div_mod a b ltac:(lia)). pose proof (Z.mod_pos_bound a b Hb). nia. }
  destruct (a / b) as [| p | p] eqn:Hp; [lia | | lia].
  pose proof (digits2_bounds p) as [Hd1 Hd2].
  cbn [Zdigits2] in n. set (d := Zpos (digits2_pos p)) in *.
  assert (Hd : 24 <= d).
  { assert (23 < d); [| lia]. apply pow2_lt_mono; lia. }
  assert (Hn : 0 <= n) by (unfold n; lia).
  assert (Ha0 : 0 <= a) by lia.
  assert (Hpn : 0 < 2 ^ n) by (apply Z.pow_pos_nonneg; lia).
  assert (Hmag : 2 ^ (n + 23) * b <= a < 2 ^ (n + 24) * b).
  { replace (n + 23) with (d - 1) by (unfold n; lia).
    replace (n + 24) with d by (unfold n; lia).
    apply div_bounds; [exact Hb |]. rewrite Hp. split; assumption. }
  (* first shift *)
  unfold binary_round_aux, shr_fexp. rewrite fexp32.
  cbn [Zdigits2]. fold d.
  replace (Z.max (d + ex - 24) (-149) - ex) with n by (unfold n; lia).
  pose proof (loc_frac_ok a b Hb) as Hloc0. rewrite Hp in Hloc0.
  pose proof (shr_loc a b _ ex n Hb Ha0 Hn Hloc0) as [Hloc He'].
  destruct (shr (shr_record_of_loc (Z.pos p) (loc_frac a b)) ex n) as [mrs' e'].
  cbn [fst snd] in Hloc, He'. subst e'.
  assert (HB : 0 < 2 ^ n * b) by nia.
  pose proof (round_nearest_even_loc a (2 ^ n * b) mrs' HB Ha0 Hloc) as (Hm1 & Hnear & Htie).
  cbn zeta in Hm1, Hnear, Htie.
  set (m1 := round_nearest_even (shr_m mrs') (loc_of_shr_record mrs')) in *.
  assert (Hm0 : 2 ^ 23 <= a / (2 ^ n * b) < 2 ^ 24).
  { apply div_bounds_inv; [exact HB |].
    rewrite !Z.pow_add_r in Hmag by lia. nia. }
  assert (Hm1r : 2 ^ 23 <= m1 <= 2 ^ 24) by lia.
  exists m1. split; [exact Hm1r |]. split; [exact Hnear |]. split; [exact Htie |].
  split; [exact Hn |]. split; [exact Hmag |].
  (* second shift *)
  unfold float32.
  destruct (Z.eqb_spec m1 (2 ^ 24)) as [-> | Hne].
  - change (Zdigits2 (2 ^ 24)) with 25. rewrite fexp32.
    replace (Z.max (25 + (ex + n) - 24) (-149) - (ex + n)) with 1 by lia.
    cbn [shr shr_record_of_loc SpecFloat.iter_pos shr_1 shr_m].
    change (2 ^ 24) with 16777216. cbn [shr_1 shr_m].
    destruct (Z.leb_spec (ex + n + 1) (128 - 24)); [reflexivity | lia].
  - destruct m1 as [| q | q] eqn:Hq; [lia | | lia].
    assert (Hdq : Zpos (digits2_pos q) = 24).
    { apply digits2_unique; lia. }
    cbn [Zdigits2]. rewrite Hdq, fexp32.
    replace (Z.max (24 + (ex + n) - 24) (-149) - (ex + n)) with 0 by lia.
    cbn [shr shr_record_of_loc shr_m].
    destruct (Z.leb_spec (ex + n) (128 - 24)); [reflexivity | lia].
Qed.

(** *** Values of [float]s *)

(** The value of a positive [float], in units of [2^-200]. *)
Definition fval (f : spec_float) : Z :=
  match f with
  | S754_finite false m e => Zpos m * 2 ^ (e + 200)
  | _ => 0
  end.

(** A positive normal [float] of moderate size. *)
Definition canon (f : spec_float) : Prop :=
  exists m e, f = S754_finite false m e /\ 2 ^ 23 <= Zpos m < 2 ^ 24 /\ -60 <= e <= 30.

(** [r] is a [float] nearest to [a / b], in the same units. *)
Definition nearest (r : spec_float) (a b : Z) : Prop :=
  exists m1 E,
    2 ^ 23 <= m1 <= 2 ^ 24 /\ 0 <= E /\
    r = float32 m1 (E - 200) /\
    2 * Z.abs (a - m1 * (2 ^ E * b)) <= 2 ^ E * b /\
    2 ^ (E + 23) * b <= a < 2 ^ (E + 24) * b.

Lemma fval_float32 (m1 E : Z) :
  2 ^ 23 <= m1 <= 2 ^ 24 -> 0 <= E -> fval (float32 m1 (E - 200)) = m1 * 2 ^ E.
Proof.
  intros Hm HE. unfold float32.
  destruct (Z.eqb_spec m1 (2 ^ 24)) as [-> | Hne]; cbn [fval].
  - replace (E - 200 + 1 + 200) with (E + 1) by lia.
    rewrite Z.pow_add_r by lia. lia.
  - replace (E - 200 + 200) with E by lia. rewrite Z2Pos.id by lia. reflexivity.
Qed.

Lemma canon_float32 (m1 E : Z) :
  2 ^ 23 <= m1 <= 2 ^ 24 -> 140 <= E <= 229 -> canon (float32 m1 (E - 200)).
Proof.
  intros Hm HE. unfold float32, canon.
  destruct (Z.eqb_spec m1 (2 ^ 24)) as [-> | Hne].
  - eexists _, _. split; [reflexivity |]. split; [cbn; lia | lia].
  - eexists _, _. split; [reflexivity |]. rewrite Z2Pos.id by lia. split; lia.
Qed.

Lemma pow2_pos (e : Z) : 0 <= e -> 0 < 2 ^ e.
Proof. intros. apply Z.pow_pos_nonneg; lia. Qed.

Lemma pow2_le (a b : Z) : 0 <= a <= b -> 2 ^ a <= 2 ^ b.
Proof. intros. apply Z.pow_le_mono_r; lia. Qed.

Lemma pow2_split (a b : Z) : 0 <= a <= b -> 2 ^ b = 2 ^ a * 2 ^ (b - a).
Proof. intros. rewrite <- Z.pow_add_r by lia. f_equal. lia. Qed.

(** The relative error is at most [2^-24]. *)
Lemma nearest_rel (r : spec_float) (a b : Z) :
  0 < b -> nearest r a b -> 2 ^ 24 * Z.abs (fval r * b - a) <= a.
Proof.
  intros Hb (m1 & E & Hm & HE & -> & Hnear & Hmag).
  rewrite fval_float32 by assumption.
  rewrite Z.pow_add_r in Hmag by lia.
  pose proof (pow2_pos E HE). 
  replace (m1 * 2 ^ E * b - a) with (- (a - m1 * (2 ^ E * b))) by ring.
  rewrite Z.abs_opp. lia.
Qed.

(** Below [2^(k-200)] the error is at most [2^(k-225)]. *)
Lemma nearest_abs (r : spec_float) (a b k : Z) :
  0 < b -> nearest r a b -> 0 <= k -> a < 2 ^ k * b ->
  2 ^ 25 * Z.abs (fval r * b - a) <= 2 ^ k * b.
Proof.
  intros Hb (m1 & E & Hm & HE & -> & Hnear & Hmag) Hk Hlt.
  rewrite fval_float32 by assumption.
  replace (m1 * 2 ^ E * b - a) with (- (a - m1 * (2 ^ E * b))) by ring.
  rewrite Z.abs_opp.
  assert (HEk : E + 23 < k).
  { apply pow2_lt_mono; [lia |].
    pose proof (pow2_pos k Hk). pose proof (pow2_pos (E + 23) ltac:(lia)). nia. }
  assert (2 ^ (E + 24) <= 2 ^ k) by (apply pow2_le; lia).
  rewrite Z.pow_add_r in H by lia. pose proof (pow2_pos E HE). nia.
Qed.

Lemma nearest_lt (r c : spec_float) (a b : Z) :
  0 < b -> nearest r a b ->
  2 ^ 24 * a < (2 ^ 24 - 1) * (fval c * b) -> fval r < fval c.
Proof.
  intros Hb Hn Hlt. pose proof (nearest_rel r a b Hb Hn) as Hrel.
  assert (Ha : 0 <= a) by lia.
  assert (2 ^ 24 * (fval r * b) <= (2 ^ 24 + 1) * a) by lia.
  assert ((2 ^ 24) * (2 ^ 24) * (fval r * b) < (2 ^ 24) * (2 ^ 24) * (fval c * b)) by nia.
  nia.
Qed.

Lemma fval_canon (c : spec_float) :
  canon c ->
  exists mc Ec, 2 ^ 23 <= mc < 2 ^ 24 /\ 140 <= Ec <= 230 /\ fval c = mc * 2 ^ Ec /\
                c = S754_finite false (Z.to_pos mc) (Ec - 200).
Proof.
  intros (m & e & -> & Hm & He). exists (Zpos m), (e + 200).
  split; [exact Hm |]. split; [lia |]. split; [reflexivity |].
  rewrite Pos2Z.id. f_equal. lia.
Qed.

(** Two facts about integers behind [nearest_ge]. *)
Lemma ge_same_binade (m1 mc X a : Z) :
  m1 <= mc - 1 -> mc < 2 ^ 24 -> 0 < X ->
  2 * Z.abs (a - m1 * X) <= X ->
  (2 ^ 25 - 1) * (mc * X) < 2 ^ 25 * a -> False.
Proof.
  intros Hm Hmc HX Hnear Hlt.
  pose proof (Z.mul_nonneg_nonneg (mc - 1 - m1) X ltac:(lia) ltac:(lia)) as H1.
  pose proof (Z.mul_pos_pos (2 ^ 24 - mc) X ltac:(lia) ltac:(lia)) as H2.
  lia.
Qed.

Lemma ge_binade_below (m1 X a : Z) :
  m1 <= 2 ^ 24 - 1 -> 0 < X ->
  2 * Z.abs (a - m1 * X) <= X ->
  (2 ^ 25 - 1) * (2 ^ 24 * X) < 2 ^ 25 * a -> False.
Proof.
  intros Hm HX Hnear Hlt.
  pose proof (Z.mul_nonneg_nonneg (2 ^ 24 - 1 - m1) X ltac:(lia) ltac:(lia)) as H1.
  lia.
Qed.

Lemma mul_lt_cancel (x y z : Z) : 0 < z -> x * z < y * z -> x < y.
Proof. intros Hz H. apply (Z.mul_lt_mono_pos_r z); assumption. Qed.

Lemma mul_le_cancel (x y z : Z) : 0 < z -> x * z <= y * z -> x <= y.
Proof. intros Hz H. apply (Z.mul_le_mono_pos_r _ _ z); assumption. Qed.

(** Rounding does not go below a [float] that the exact value exceeds, nor
    below one that is less than half a unit in its last place above. *)
Lemma nearest_ge (r c : spec_float) (a b : Z) :
  0 < b -> nearest r a b -> canon c ->
  (2 ^ 25 - 1) * (fval c * b) < 2 ^ 25 * a -> fval c <= fval r.
Proof.
  intros Hb (m1 & E & Hm & HE & -> & Hnear & Hmag) Hc Hlt.
  destruct (fval_canon c Hc) as (mc & Ec & Hmc & HEc & Hfc & _).
  rewrite fval_float32 by assumption. rewrite Hfc in *. clear Hfc Hc.
  destruct (Z.le_gt_cases (mc * 2 ^ Ec) (m1 * 2 ^ E)) as [| Hcontra]; [assumption |].
  exfalso.
  pose proof (pow2_pos E HE) as HP. pose proof (pow2_pos Ec ltac:(lia)) as HQ.
  rewrite !Z.pow_add_r in Hmag by lia.
  set (P := 2 ^ E) in *. set (Q := 2 ^ Ec) in *.
  assert (HX : 0 < P * b) by (apply Z.mul_pos_pos; assumption).
  assert (Hnear' : 2 * Z.abs (a - m1 * (P * b)) <= P * b) by exact Hnear.
  assert (Hhi : a < 2 ^ 24 * (P * b)).
  { replace (2 ^ 24 * (P * b)) with (P * 2 ^ 24 * b) by ring. apply Hmag. }
  destruct (Z.le_gt_cases Ec E) as [Hle | Hgt].
  - (* the same binade *)
    assert (HPQ : P = Q * 2 ^ (E - Ec)) by (apply pow2_split; lia).
    pose proof (pow2_pos (E - Ec) ltac:(lia)) as Hk.
    assert (Hk1 : E - Ec = 0).
    { destruct (Z.eq_dec (E - Ec) 0) as [| Hne]; [assumption |]. exfalso.
      assert (Hk2 : 2 ^ 1 <= 2 ^ (E - Ec)) by (apply pow2_le; lia).
      change (2 ^ 1) with 2 in Hk2. set (K := 2 ^ (E - Ec)) in *.
      rewrite HPQ in Hcontra.
      replace (m1 * (Q * K)) with ((m1 * K) * Q) in Hcontra by ring.
      apply mul_lt_cancel in Hcontra; [| exact HQ].
      pose proof (Z.mul_le_mono_nonneg (2 ^ 23) m1 2 K ltac:(lia) ltac:(lia)
                    ltac:(lia) Hk2) as Hp.
      lia. }
    rewrite Hk1 in HPQ. change (2 ^ 0) with 1 in HPQ. rewrite Z.mul_1_r in HPQ.
    fold P in HPQ. rewrite <- HPQ in *.
    apply mul_lt_cancel in Hcontra; [| exact HP].
    apply (ge_same_binade m1 mc (P * b) a); lia.
  - (* [r] in a binade below *)
    assert (HQP : Q = P * 2 ^ (Ec - E)) by (apply pow2_split; lia).
    assert (Hk2 : 2 <= 2 ^ (Ec - E)).
    { change 2 with (2 ^ 1) at 1. apply pow2_le. lia. }
    set (K := 2 ^ (Ec - E)) in *.
    rewrite HQP in Hlt, Hcontra.
    replace (m1 * P) with (m1 * P) in Hcontra by ring.
    replace (mc * (P * K)) with ((mc * K) * P) in Hcontra by ring.
    apply mul_lt_cancel in Hcontra; [| exact HP].
    replace (mc * (P * K) * b) with ((mc * K) * (P * b)) in Hlt by ring.
    pose proof (Z.mul_le_mono_nonneg (2 ^ 23) mc 2 K ltac:(lia) ltac:(lia)
                  ltac:(lia) Hk2) as Hy1.
    assert (Hy2 : (2 ^ 25 - 1) * (mc * K) < 2 ^ 25 * 2 ^ 24).
    { apply (mul_lt_cancel _ _ (P * b)); [exact HX |].
      replace ((2 ^ 25 - 1) * (mc * K) * (P * b))
        with ((2 ^ 25 - 1) * (mc * K * (P * b))) by ring.
      lia. }
    assert (Hy : mc * K = 2 ^ 24) by lia.
    rewrite Hy in Hlt, Hcontra.
    apply (ge_binade_below m1 (P * b) a); lia.
Qed.

(** A value that is a [float] is its own rounding. *)
Lemma nearest_exact (r c : spec_float) (a b : Z) :
  0 < b -> nearest r a b -> canon c -> a = fval c * b -> r = c.
Proof.
  intros Hb (m1 & E & Hm & HE & -> & Hnear & Hmag) Hc Ha.
  destruct (fval_canon c Hc) as (mc & Ec & Hmc & HEc & Hfc & ->).
  rewrite Hfc in Ha. subst a. clear Hfc Hc.
  pose proof (pow2_pos E HE) as HP. pose proof (pow2_pos Ec ltac:(lia)) as HQ.
  rewrite !Z.pow_add_r in Hmag by lia.
  destruct Hmag as [Hlo Hhi].
  replace (2 ^ E * 2 ^ 23 * b) with (2 ^ 23 * 2 ^ E * b) in Hlo by ring.
  replace (2 ^ E * 2 ^ 24 * b) with (2 ^ 24 * 2 ^ E * b) in Hhi by ring.
  apply mul_le_cancel in Hlo; [| exact Hb]. apply mul_lt_cancel in Hhi; [| exact Hb].
  assert (HEE : E = Ec).
  { assert (E < Ec + 1).
    { apply pow2_lt_mono; [lia |]. rewrite Z.pow_add_r by lia.
      pose proof (Z.mul_lt_mono_pos_r (2 ^ Ec) mc (2 ^ 24) HQ) as [Hx _].
      specialize (Hx ltac:(lia)).
      apply (mul_lt_cancel _ _ (2 ^ 23)); [lia |]. lia. }
    assert (Ec < E + 1).
    { apply pow2_lt_mono; [lia |]. rewrite Z.pow_add_r by lia.
      pose proof (Z.mul_le_mono_nonneg_r (2 ^ 23) mc (2 ^ Ec) ltac:(lia) ltac:(lia)) as Hx.
      apply (mul_lt_cancel _ _ (2 ^ 23)); [lia |]. lia. }
    lia. }
  subst Ec.
  assert (m1 = mc).
  { replace (mc * 2 ^ E * b - m1 * (2 ^ E * b)) with ((mc - m1) * (2 ^ E * b)) in Hnear
      by ring.
    assert (HX : 0 < 2 ^ E * b) by (apply Z.mul_pos_pos; assumption).
    rewrite Z.abs_mul, (Z.abs_eq (2 ^ E * b)) in Hnear by lia.
    destruct (Z.eq_dec m1 mc) as [| Hne]; [assumption |]. exfalso.
    pose proof (Z.mul_le_mono_nonneg_r 1 (Z.abs (mc - m1)) (2 ^ E * b) ltac:(lia)
                  ltac:(lia)) as Hx.
    lia. }
  subst m1. unfold float32.
  destruct (Z.eqb_spec mc (2 ^ 24)); [lia | reflexivity].
Qed.

(** The result is within the moderate range when the value is. *)
Lemma nearest_canon (r : spec_float) (a b : Z) :
  0 < b -> nearest r a b -> 2 ^ 164 * b <= a < 2 ^ 252 * b -> canon r.
Proof.
  intros Hb (m1 & E & Hm & HE & -> & Hnear & Hmag) Hrange.
  apply canon_float32; [exact Hm |].
  destruct Hmag as [Hlo Hhi]. destruct Hrange as [Hlo' Hhi'].
  assert (164 < E + 24).
  { apply pow2_lt_mono; [lia |]. apply (mul_lt_cancel _ _ b); [exact Hb |]. lia. }
  assert (E + 23 < 252).
  { apply pow2_lt_mono; [lia |]. apply (mul_lt_cancel _ _ b); [exact Hb |]. lia. }
  lia.
Qed.

(** *** The operations *)

Lemma abs_scale (u v F : Z) : 0 <= F -> Z.abs (u * F - v * F) = Z.abs (u - v) * F.
Proof.
  intros HF. replace (u * F - v * F) with ((u - v) * F) by ring.
  rewrite Z.abs_mul, (Z.abs_eq F) by lia. reflexivity.
Qed.

(** [binary_round_aux] gives a nearest [float] of the value it is given:
    [a / b * 2^ex], which is [A / B] in units of [2^-200]. *)
Lemma bra_nearest (a b ex A B : Z) :
  0 < b -> 0 < B -> 2 ^ 23 * b <= a ->
  -149 <= ex + (Zdigits2 (a / b) - 24) < 104 ->
  0 <= ex + 200 ->
  A * b = a * 2 ^ (ex + 200) * B ->
  nearest (binary_round_aux 24 128 false (a / b) ex (loc_frac a b)) A B.
Proof.
  intros Hb HB Ha Hrange Hex HAB.
  destruct (bra32 a b ex Hb Ha ltac:(lia) ltac:(lia))
    as (m1 & Hm & Hnear & _ & Hn & Hmag & ->).
  set (n := Zdigits2 (a / b) - 24) in *.
  exists m1, (ex + n + 200).
  split; [exact Hm |]. split; [lia |].
  split; [f_equal; lia |].
  pose proof (pow2_pos (ex + 200) Hex) as HF.
  pose proof (pow2_pos n Hn) as HN.
  replace (ex + n + 200) with (n + (ex + 200)) by lia.
  replace (n + (ex + 200) + 23) with ((n + 23) + (ex + 200)) by lia.
  replace (n + (ex + 200) + 24) with ((n + 24) + (ex + 200)) by lia.
  rewrite !(Z.pow_add_r 2 _ (ex + 200)) by lia.
  set (F := 2 ^ (ex + 200)) in *.
  assert (HFB : 0 < F * B) by (apply Z.mul_pos_pos; assumption).
  split.
  - apply (mul_le_cancel _ _ b); [exact Hb |].
    replace (2 * Z.abs (A - m1 * (2 ^ n * F * B)) * b)
      with (2 * Z.abs (A * b - m1 * (2 ^ n * b) * (F * B))).
    2:{ replace (A * b - m1 * (2 ^ n * b) * (F * B))
          with ((A - m1 * (2 ^ n * F * B)) * b) by ring.
        rewrite Z.abs_mul, (Z.abs_eq b) by lia. ring. }
    rewrite HAB. replace (a * F * B) with (a * (F * B)) by ring.
    rewrite abs_scale by lia.
    replace (2 ^ n * F * B * b) with (2 ^ n * b * (F * B)) by ring.
    replace (2 * (Z.abs (a - m1 * (2 ^ n * b)) * (F * B)))
      with (2 * Z.abs (a - m1 * (2 ^ n * b)) * (F * B)) by ring.
    apply Z.mul_le_mono_nonneg_r; lia.
  - destruct Hmag as [Hlo Hhi]. split.
    + apply (mul_le_cancel _ _ b); [exact Hb |]. rewrite HAB.
      replace (2 ^ (n + 23) * F * B * b) with (2 ^ (n + 23) * b * (F * B)) by ring.
      replace (a * F * B) with (a * (F * B)) by ring.
      apply Z.mul_le_mono_nonneg_r; lia.
    + apply (mul_lt_cancel _ _ b); [exact Hb |]. rewrite HAB.
      replace (2 ^ (n + 24) * F * B * b) with (2 ^ (n + 24) * b * (F * B)) by ring.
      replace (a * F * B) with (a * (F * B)) by ring.
      apply Z.mul_lt_mono_pos_r; lia.
Qed.

Lemma loc_frac_1 (a : Z) : loc_frac a 1 = loc_Exact.
Proof. unfold loc_frac. rewrite Z.mod_1_r. reflexivity. Qed.

Lemma digits_range (p : positive) (lo hi : Z) :
  0 <= lo -> 2 ^ lo <= Zpos p < 2 ^ hi -> lo < Zpos (digits2_pos p) <= hi.
Proof.
  intros Hlo [H1 H2]. pose proof (digits2_bounds p) as [H3 H4].
  assert (Hd : 1 <= Zpos (digits2_pos p)) by lia.
  assert (0 <= hi).
  { destruct (Z.le_gt_cases 0 hi); [assumption |]. rewrite Z.pow_neg_r in H2; lia. }
  split.
  - apply pow2_lt_mono; lia.
  - assert (Zpos (digits2_pos p) - 1 < hi); [| lia]. apply pow2_lt_mono; lia.
Qed.

(** The product of two [float]s. *)
Lemma f_mul_nearest (x y : spec_float) :
  canon x -> canon y -> nearest (f_mul x y) (fval x * fval y) (2 ^ 200).
Proof.
  intros (mx & ex & -> & Hmx & Hex) (my & ey & -> & Hmy & Hey).
  unfold f_mul, SFmul. cbn [xorb fval].
  pose proof (bra_nearest (Zpos (mx * my)) 1 (ex + ey)
                (Zpos mx * 2 ^ (ex + 200) * (Zpos my * 2 ^ (ey + 200))) (2 ^ 200)) as H.
  rewrite Z.div_1_r, loc_frac_1 in H. apply H; clear H; try lia.
  - assert (46 < Zpos (digits2_pos (mx * my)) <= 48).
    { apply digits_range; [lia |]. rewrite Pos2Z.inj_mul.
      change (2 ^ 46) with (2 ^ 23 * 2 ^ 23). change (2 ^ 48) with (2 ^ 24 * 2 ^ 24).
      split; [apply Z.mul_le_mono_nonneg; lia | apply Z.mul_lt_mono_nonneg; lia]. }
    cbn [Zdigits2]. lia.
  - rewrite Pos2Z.inj_mul.
    assert (Hs : 2 ^ (ex + 200) * 2 ^ (ey + 200) = 2 ^ (ex + ey + 200) * 2 ^ 200).
    { rewrite <- !Z.pow_add_r by lia. f_equal. lia. }
    transitivity (Z.pos mx * Z.pos my * (2 ^ (ex + 200) * 2 ^ (ey + 200))); [ring |].
    rewrite Hs. ring.
Qed.

(** The quotient of two [float]s. *)
Lemma f_div_nearest (x y : spec_float) :
  canon x -> canon y -> nearest (f_div x y) (fval x * 2 ^ 200) (fval y).
Proof.
  intros (mx & ex & -> & Hmx & Hex) (my & ey & -> & Hmy & Hey).
  unfold f_div, SFdiv, SFdiv_core_binary. cbn [xorb fval Zdigits2].
  assert (Hdx : Zpos (digits2_pos mx) = 24) by (apply digits2_unique; lia).
  assert (Hdy : Zpos (digits2_pos my) = 24) by (apply digits2_unique; lia).
  rewrite Hdx, Hdy, fexp32.
  replace (Z.min (Z.max (24 + ex - (24 + ey) - 24) (-149)) (ex - ey)) with (ex - ey - 24)
    by lia.
  replace (ex - ey - (ex - ey - 24)) with 24 by lia.
  rewrite Z.shiftl_mul_pow2 by lia.
  set (a := Zpos mx * 2 ^ 24).
  assert (Hde : Z.div_eucl a (Zpos my) = (a / Zpos my, a mod Zpos my)).
  { unfold Z.div, Z.modulo. destruct (Z.div_eucl a (Zpos my)). reflexivity. }
  rewrite Hde, new_location_frac by lia.
  assert (Hq : 2 ^ 23 <= a / Zpos my < 2 ^ 25).
  { apply div_bounds_inv; [lia |]. unfold a. nia. }
  apply bra_nearest; try lia.
  - destruct (a / Zpos my) as [| q | q] eqn:Eq; try lia.
    pose proof (digits_range q 23 25 ltac:(lia) Hq). cbn [Zdigits2]. lia.
  - unfold a.
    assert (Hs : 2 ^ 24 * 2 ^ (ex - ey - 24 + 200) * 2 ^ (ey + 200)
                 = 2 ^ (ex + 200) * 2 ^ 200).
    { rewrite <- !Z.pow_add_r by lia. f_equal. lia. }
    transitivity (Z.pos mx * Z.pos my * (2 ^ (ex + 200) * 2 ^ 200)); [ring |].
    rewrite <- Hs. ring.
Qed.

Lemma iter_xO (m d : positive) : Zpos (Pos.iter xO m d) = Zpos m * 2 ^ Zpos d.
Proof.
  induction d as [| d IH] using Pos.peano_ind.
  - cbn. lia.
  - rewrite Pos.iter_succ, Pos2Z.inj_succ, Z.pow_succ_r by lia.
    change (Z.pos (Pos.iter xO m d)~0) with (2 * Z.pos (Pos.iter xO m d)).
    rewrite IH. ring.
Qed.

Lemma shl_align_down (mx : positive) (ex ez : Z) :
  ez <= ex ->
  Zpos (fst (shl_align mx ex ez)) = Zpos mx * 2 ^ (ex - ez) /\
  snd (shl_align mx ex ez) = ez.
Proof.
  intros H. unfold shl_align. destruct (ez - ex) as [| d | d] eqn:Hd; try lia.
  - replace (ex - ez) with 0 by lia. cbn [fst snd]. split; lia.
  - cbn [fst snd]. rewrite iter_xO. split; [| reflexivity]. f_equal. f_equal. lia.
Qed.

Lemma shl_align_keep (mx : positive) (ex ez : Z) :
  ex <= ez -> shl_align mx ex ez = (mx, ex).
Proof.
  intros H. unfold shl_align. destruct (ez - ex) as [| d | d] eqn:Hd; try lia; reflexivity.
Qed.

(** [binary_round], which [binary_normalize] calls, gives a nearest
    [float] of [M * 2^ez]. *)
Lemma binary_round_nearest (M : positive) (ez : Z) :
  -100 <= ez <= 40 -> Zpos (digits2_pos M) + ez <= 120 ->
  nearest (binary_round 24 128 false M ez) (Zpos M * 2 ^ (ez + 200)) 1.
Proof.
  intros Hez HM. unfold binary_round. rewrite fexp32.
  pose proof (digits2_bounds M) as [Hd1 Hd2].
  set (d := Zpos (digits2_pos M)) in *.
  assert (Hd : 1 <= d) by (unfold d; lia).
  replace (Z.max (d + ez - 24) (-149)) with (d + ez - 24) by lia.
  destruct (Z.le_gt_cases 24 d) as [Hbig | Hsmall].
  - rewrite shl_align_keep by lia.
    pose proof (bra_nearest (Zpos M) 1 ez (Zpos M * 2 ^ (ez + 200)) 1) as H.
    rewrite Z.div_1_r, loc_frac_1 in H. apply H; clear H; try lia.
    + assert (2 ^ 23 <= 2 ^ (d - 1)) by (apply pow2_le; lia). lia.
    + cbn [Zdigits2]. fold d. lia.
  - pose proof (shl_align_down M ez (d + ez - 24) ltac:(lia)) as [Hm He].
    destruct (shl_align M ez (d + ez - 24)) as [mz e0]. cbn [fst snd] in Hm, He. subst e0.
    replace (ez - (d + ez - 24)) with (24 - d) in Hm by lia.
    assert (Hmz : 2 ^ 23 <= Zpos mz < 2 ^ 24).
    { rewrite Hm. pose proof (pow2_pos (24 - d) ltac:(lia)) as Hp.
      replace (2 ^ 23) with (2 ^ (d - 1) * 2 ^ (24 - d))
        by (rewrite <- Z.pow_add_r by lia; f_equal; lia).
      replace (2 ^ 24) with (2 ^ d * 2 ^ (24 - d))
        by (rewrite <- Z.pow_add_r by lia; f_equal; lia).
      split; [apply Z.mul_le_mono_nonneg_r; lia | apply Z.mul_lt_mono_pos_r; lia]. }
    pose proof (bra_nearest (Zpos mz) 1 (d + ez - 24) (Zpos M * 2 ^ (ez + 200)) 1) as H.
    rewrite Z.div_1_r, loc_frac_1 in H. apply H; clear H; try lia.
    + cbn [Zdigits2]. rewrite (digits2_unique mz 24) by lia. lia.
    + rewrite Hm, !Z.mul_1_r.
      replace (2 ^ (ez + 200)) with (2 ^ (24 - d) * 2 ^ (d + ez - 24 + 200))
        by (rewrite <- Z.pow_add_r by lia; f_equal; lia).
      ring.
Qed.

(** The sum of two [float]s. *)
Lemma f_add_nearest (x y : spec_float) :
  canon x -> canon y -> nearest (f_add x y) (fval x + fval y) 1.
Proof.
  intros (mx & ex & -> & Hmx & Hex) (my & ey & -> & Hmy & Hey).
  unfold f_add, SFadd. cbn [cond_Zopp fval].
  set (ez := Z.min ex ey).
  pose proof (shl_align_down mx ex ez ltac:(lia)) as [Hx _].
  pose proof (shl_align_down my ey ez ltac:(lia)) as [Hy _].
  rewrite Hx, Hy.
  pose proof (pow2_pos (ex - ez) ltac:(lia)) as Hpx.
  pose proof (pow2_pos (ey - ez) ltac:(lia)) as Hpy.
  assert (Hpx' : 2 ^ (ex - ez) <= 2 ^ 90) by (apply pow2_le; lia).
  assert (Hpy' : 2 ^ (ey - ez) <= 2 ^ 90) by (apply pow2_le; lia).
  assert (Hsum : fval (S754_finite false mx ex) + fval (S754_finite false my ey)
                 = (Zpos mx * 2 ^ (ex - ez) + Zpos my * 2 ^ (ey - ez)) * 2 ^ (ez + 200)).
  { cbn [fval].
    replace (2 ^ (ex + 200)) with (2 ^ (ex - ez) * 2 ^ (ez + 200))
      by (rewrite <- Z.pow_add_r by lia; f_equal; lia).
    replace (2 ^ (ey + 200)) with (2 ^ (ey - ez) * 2 ^ (ez + 200))
      by (rewrite <- Z.pow_add_r by lia; f_equal; lia).
    ring. }
  cbn [fval] in Hsum. rewrite Hsum.
  destruct (Zpos mx * 2 ^ (ex - ez) + Zpos my * 2 ^ (ey - ez)) as [| M | M] eqn:HM;
    [nia | | nia].
  cbn [binary_normalize]. apply binary_round_nearest; [lia |].
  set (k := Z.max ex ey - ez).
  assert (Hk1 : 2 ^ (ex - ez) <= 2 ^ k) by (apply pow2_le; lia).
  assert (Hk2 : 2 ^ (ey - ez) <= 2 ^ k) by (apply pow2_le; lia).
  pose proof (pow2_pos k ltac:(lia)) as Hk.
  assert (HMlt : Zpos M < 2 ^ (25 + k)).
  { rewrite <- HM, Z.pow_add_r by lia. change (2 ^ 25) with (2 ^ 24 + 2 ^ 24).
    pose proof (Z.mul_le_mono_nonneg_l _ _ (Zpos mx) ltac:(lia) Hk1) as H1.
    pose proof (Z.mul_le_mono_nonneg_l _ _ (Zpos my) ltac:(lia) Hk2) as H2.
    pose proof (Z.mul_lt_mono_pos_r (2 ^ k) (Zpos mx) (2 ^ 24) Hk) as [H3 _].
    pose proof (Z.mul_lt_mono_pos_r (2 ^ k) (Zpos my) (2 ^ 24) Hk) as [H4 _].
    specialize (H3 ltac:(lia)). specialize (H4 ltac:(lia)). lia. }
  assert (Zpos (digits2_pos M) <= 25 + k).
  { apply (digits_range M 0 (25 + k)); [lia |]. split; [cbn; lia | exact HMlt]. }
  lia.
Qed.

(** A value with at most 24 significant bits is a [float]. *)
Lemma nearest_dyadic (r : spec_float) (a k j : Z) :
  nearest r a 1 -> a = k * 2 ^ j -> 0 < k < 2 ^ 24 -> 0 <= j -> fval r = a.
Proof.
  intros (m1 & E & Hm & HE & -> & Hnear & Hmag) Ha Hk Hj.
  rewrite fval_float32 by assumption.
  rewrite !Z.mul_1_r in Hnear, Hmag. destruct Hmag as [Hlo Hhi].
  pose proof (pow2_pos E HE) as HP. pose proof (pow2_pos j Hj) as HJ.
  assert (HEj : E <= j).
  { assert (E + 23 < 24 + j); [| lia]. apply pow2_lt_mono; [lia |].
    rewrite (Z.pow_add_r 2 24 j) by lia.
    pose proof (Z.mul_lt_mono_pos_r (2 ^ j) k (2 ^ 24) HJ) as [Hx _].
    specialize (Hx ltac:(lia)). lia. }
  assert (Hj2 : 2 ^ j = 2 ^ (j - E) * 2 ^ E).
  { rewrite <- Z.pow_add_r by lia. f_equal. lia. }
  pose proof (pow2_pos (j - E) ltac:(lia)) as HD.
  rewrite Ha, Hj2 in Hnear |- *.
  replace (k * (2 ^ (j - E) * 2 ^ E) - m1 * 2 ^ E)
    with ((k * 2 ^ (j - E) - m1) * 2 ^ E) in Hnear by ring.
  rewrite Z.abs_mul, (Z.abs_eq (2 ^ E)) in Hnear by lia.
  destruct (Z.eq_dec (k * 2 ^ (j - E)) m1) as [<- | Hne]; [ring |]. exfalso.
  pose proof (Z.mul_le_mono_nonneg_r 1 (Z.abs (k * 2 ^ (j - E) - m1)) (2 ^ E)
                ltac:(lia) ltac:(lia)) as Hx.
  lia.
Qed.

Lemma f_half_canon : canon f_half /\ fval f_half = 2 ^ 199.
Proof.
  split; [| reflexivity]. exists 8388608%positive, (-24).
  split; [reflexivity |]. split; [cbn; lia | lia].
Qed.

(** [(float) z] is exact below [2^24]. *)
Lemma f_of_int_exact (z : Z) :
  0 < z < 2 ^ 24 -> canon (f_of_int z) /\ fval (f_of_int z) = z * 2 ^ 200.
Proof.
  intros Hz. unfold f_of_int. destruct z as [| p | p]; try lia.
  cbn [binary_normalize].
  assert (Hn : nearest (binary_round 24 128 false p 0) (Zpos p * 2 ^ (0 + 200)) 1).
  { apply binary_round_nearest; [lia |].
    pose proof (digits_range p 0 24 ltac:(lia) ltac:(cbn; lia)). lia. }
  change (0 + 200) with 200 in Hn. split.
  - apply (nearest_canon _ _ 1 ltac:(lia) Hn). lia.
  - apply (nearest_dyadic _ _ (Zpos p) 200 Hn); [reflexivity | lia | lia].
Qed.

(** [x + 0.5f] is exact below [2^22]. *)
Lemma f_add_half_exact (x : Z) :
  0 <= x < 2 ^ 22 ->
  canon (f_add (f_of_int x) f_half) /\
  fval (f_add (f_of_int x) f_half) = (2 * x + 1) * 2 ^ 199.
Proof.
  intros Hx. destruct (Z.eq_dec x 0) as [-> | Hne].
  - change (f_add (f_of_int 0) f_half) with f_half.
    destruct f_half_canon as [Hc Hv]. split; [exact Hc | rewrite Hv; reflexivity].
  - destruct (f_of_int_exact x ltac:(lia)) as [Hcx Hvx].
    destruct f_half_canon as [Hch Hvh].
    pose proof (f_add_nearest _ _ Hcx Hch) as Hn. rewrite Hvx, Hvh in Hn.
    assert (Hv : x * 2 ^ 200 + 2 ^ 199 = (2 * x + 1) * 2 ^ 199).
    { change (2 ^ 200) with (2 * 2 ^ 199). ring. }
    rewrite Hv in Hn. split.
    + apply (nearest_canon _ _ 1 ltac:(lia) Hn). lia.
    + apply (nearest_dyadic _ _ (2 * x + 1) 199 Hn); [reflexivity | lia | lia].
Qed.

(** A [float] in [(0, 1)] is left as it is by both wrap modes. *)
Lemma wrap_unit (wrap : bool) (u : spec_float) :
  canon u -> fval u < 2 ^ 200 ->
  (if wrap then f_sub u (floorf u) else fmaxf f_zero (fminf f_one u)) = u.
Proof.
  intros (m & e & -> & Hm & He) Hv. cbn [fval] in Hv.
  assert (He24 : e <= -24).
  { assert (e + 200 + 23 < 200); [| lia]. apply pow2_lt_mono; [lia |].
    rewrite Z.pow_add_r by lia. pose proof (pow2_pos (e + 200) ltac:(lia)).
    pose proof (Z.mul_le_mono_nonneg_r (2 ^ 23) (Zpos m) (2 ^ (e + 200))
                  ltac:(lia) ltac:(lia)). lia. }
  destruct wrap.
  - unfold floorf. destruct (Z.leb_spec 0 e); [lia |].
    assert (Hq : Zpos m / 2 ^ (- e) = 0).
    { apply Z.div_small. split; [lia |].
      assert (2 ^ 24 <= 2 ^ (- e)) by (apply pow2_le; lia). lia. }
    rewrite Hq. cbn [binary_normalize]. reflexivity.
  - change f_one with (S754_finite false 8388608 (-23)).
    unfold fminf, fmaxf, f_is_nan, f_zero, SFleb, SFcompare.
    destruct (Z.compare_spec (-23) e); try lia. reflexivity.
Qed.

(** The cast to [int] of a positive [float]. *)
Lemma f_to_int_floor (m : positive) (e x : Z) :
  -200 <= e -> 0 <= x < 2 ^ 31 ->
  x * 2 ^ 200 <= Zpos m * 2 ^ (e + 200) < (x + 1) * 2 ^ 200 ->
  f_to_int (S754_finite false m e) = Some x.
Proof.
  intros He Hx [Hlo Hhi]. unfold f_to_int.
  assert (Hmag : (if 0 <=? e then Zpos m * 2 ^ e else Zpos m / 2 ^ (- e)) = x).
  { destruct (Z.leb_spec 0 e).
    - rewrite Z.pow_add_r in Hlo, Hhi by lia.
      replace (Zpos m * (2 ^ e * 2 ^ 200)) with (Zpos m * 2 ^ e * 2 ^ 200) in Hlo, Hhi by ring.
      apply mul_le_cancel in Hlo; [| lia]. apply mul_lt_cancel in Hhi; [| lia]. lia.
    - pose proof (pow2_pos (- e) ltac:(lia)) as Hp.
      assert (Hs : 2 ^ 200 = 2 ^ (e + 200) * 2 ^ (- e)).
      { rewrite <- Z.pow_add_r by lia. f_equal. lia. }
      pose proof (pow2_pos (e + 200) ltac:(lia)) as Hq.
      rewrite Hs in Hlo, Hhi.
      replace (x * (2 ^ (e + 200) * 2 ^ (- e))) with (x * 2 ^ (- e) * 2 ^ (e + 200)) in Hlo
        by ring.
      replace ((x + 1) * (2 ^ (e + 200) * 2 ^ (- e)))
        with ((x + 1) * 2 ^ (- e) * 2 ^ (e + 200)) in Hhi by ring.
      apply mul_le_cancel in Hlo; [| lia]. apply mul_lt_cancel in Hhi; [| lia].
      assert (x <= Zpos m / 2 ^ (- e) < x + 1); [| lia].
      apply div_bounds_inv; [lia |]. lia. }
  rewrite Hmag.
  destruct (Z.leb_spec (- 2 ^ 31) x); [| lia].
  destruct (Z.ltb_spec x (2 ^ 31)); [| lia]. reflexivity.
Qed.

Lemma f_to_int_nearest (s : spec_float) (a b x : Z) :
  nearest s a b -> 0 <= x < 2 ^ 31 ->
  x * 2 ^ 200 <= fval s < (x + 1) * 2 ^ 200 ->
  f_to_int s = Some x.
Proof.
  intros (m1 & E & Hm & HE & -> & _ & _) Hx Hv.
  rewrite fval_float32 in Hv by assumption. unfold float32.
  destruct (Z.eqb_spec m1 (2 ^ 24)) as [-> | Hne].
  - apply f_to_int_floor; [lia | exact Hx |].
    replace (E - 200 + 1 + 200) with (E + 1) by lia.
    rewrite Z.pow_add_r by lia. change (Z.pos 8388608 * (2 ^ E * 2 ^ 1)) with
      (8388608 * (2 ^ E * 2)). lia.
  - apply f_to_int_floor; [lia | exact Hx |].
    replace (E - 200 + 200) with E by lia. rewrite Z2Pos.id by lia. exact Hv.
Qed.

Lemma fval_nonneg (f : spec_float) : 0 <= fval f.
Proof.
  destruct f as [| | | [] m e]; cbn [fval]; lia.
Qed.

(** *** The centre of a cell *)

(** Along one axis of at most [2^22] cells the centre of cell [x] is mapped
    to [x]: with [u] the [float] nearest to [(x + 0.5) / dim], the [float]
    product [u * (dim - 1)] is at least [x - 0.5], and adding [0.5f] gives a
    [float] in [[x, x + 1)]. *)
Lemma nearest_index_center (wrap : bool) (dim x : Z) :
  0 < dim <= 2 ^ 22 -> 0 <= x < dim ->
  nearest_index wrap dim (texel_center x dim) = Some x.
Proof.
  intros Hd Hx. unfold nearest_index, texel_center.
  destruct (f_add_half_exact x ltac:(lia)) as [HcA HvA].
  destruct (f_of_int_exact dim ltac:(lia)) as [HcW HvW].
  pose proof (f_div_nearest _ _ HcA HcW) as Hu. rewrite HvA, HvW in Hu.
  set (u := f_div (f_add (f_of_int x) f_half) (f_of_int dim)) in *.
  assert (Hb : 0 < dim * 2 ^ 200) by lia.
  assert (Hcu : canon u).
  { apply (nearest_canon _ _ _ Hb Hu). lia. }
  pose proof (nearest_abs _ _ _ 200 Hb Hu ltac:(lia) ltac:(lia)) as Habs.
  pose proof (nearest_rel _ _ _ Hb Hu) as Hrel.
  assert (Hu1 : fval u < 2 ^ 200).
  { destruct (f_of_int_exact 1 ltac:(lia)) as [_ Hv1].
    rewrite <- (Z.mul_1_l (2 ^ 200)), <- Hv1.
    apply (nearest_lt _ _ _ _ Hb Hu). rewrite Hv1. lia. }
  rewrite (wrap_unit wrap u Hcu Hu1).
  set (U := fval u) in *.
  assert (HU0 : 0 <= U) by apply fval_nonneg.
  destruct (Z.eq_dec dim 1) as [-> | Hd1].
  { (* one cell *)
    assert (x = 0) by lia. subst x.
    destruct Hcu as (m & e & Hue & _). rewrite Hue. reflexivity. }
  destruct (f_of_int_exact (dim - 1) ltac:(lia)) as [HcW1 HvW1].
  pose proof (f_mul_nearest _ _ Hcu HcW1) as Hp. rewrite HvW1 in Hp. fold U in Hp.
  set (p := f_mul u (f_of_int (dim - 1))) in *.
  assert (HUd : U * dim <= U * 2 ^ 22) by (apply Z.mul_le_mono_nonneg_l; lia).
  assert (HUlo : 2 ^ 176 <= U) by lia.
  assert (HUd1 : U <= U * (dim - 1)).
  { pose proof (Z.mul_le_mono_nonneg_l 1 (dim - 1) U HU0 ltac:(lia)). lia. }
  assert (HUd2 : U * (dim - 1) < 2 ^ 200 * 2 ^ 22).
  { apply Z.mul_lt_mono_nonneg; lia. }
  assert (Hcp : canon p).
  { apply (nearest_canon _ _ (2 ^ 200) ltac:(lia) Hp). lia. }
  pose proof (nearest_rel _ _ (2 ^ 200) ltac:(lia) Hp) as Hprel.
  destruct f_half_canon as [Hch Hvh].
  pose proof (f_add_nearest _ _ Hcp Hch) as Hs. rewrite Hvh in Hs.
  set (s := f_add p f_half) in *. set (P := fval p) in *.
  assert (HP0 : 0 <= P) by apply fval_nonneg.
  assert (Hres : f_to_int s = Some x).
  { apply (f_to_int_nearest s _ _ x Hs); [lia |]. split.
    - (* not below [x] *)
      destruct (Z.eq_dec x 0) as [-> | Hx0]; [apply fval_nonneg |].
      destruct (f_add_half_exact (x - 1) ltac:(lia)) as [Hcc Hvc].
      assert (HPlo : (2 * x - 1) * 2 ^ 199 <= P).
      { replace (2 * x - 1) with (2 * (x - 1) + 1) by lia. rewrite <- Hvc.
        apply (nearest_ge _ _ _ (2 ^ 200) ltac:(lia) Hp Hcc). rewrite Hvc.
        assert (Hpoly : 0 < (2 * dim - 2 * x - 1) * (2 ^ 25 - dim))
          by (apply Z.mul_pos_pos; lia).
        assert (HV : 2 ^ 199 * (2 ^ 25 * (2 * x + 1) - 2 * dim) <= 2 ^ 25 * (U * dim))
          by lia.
        pose proof (Z.mul_le_mono_nonneg_r _ _ (dim - 1) ltac:(lia) HV) as HV1.
        apply (mul_lt_cancel _ _ dim); [lia |]. lia. }
      destruct (f_of_int_exact x ltac:(lia)) as [Hcx Hvx].
      rewrite <- Hvx. apply (nearest_ge _ _ _ 1 ltac:(lia) Hs Hcx). rewrite Hvx. lia.
    - (* below [x + 1] *)
      destruct (f_of_int_exact (x + 1) ltac:(lia)) as [Hcx Hvx].
      rewrite <- Hvx. apply (nearest_lt _ _ _ 1 ltac:(lia) Hs). rewrite Hvx.
      assert (F1 : 2 ^ 24 * P <= (2 ^ 24 + 1) * (U * (dim - 1))) by lia.
      assert (F2 : 2 ^ 24 * (U * dim) <= (2 ^ 24 + 1) * ((2 * x + 1) * 2 ^ 199)) by lia.
      pose proof (Z.mul_le_mono_nonneg_r _ _ dim ltac:(lia) F1) as G1.
      pose proof (Z.mul_le_mono_nonneg_r _ _ (dim - 1) ltac:(lia) F2) as G2.
      assert (Hq1 : 0 <= (2 * x) * ((2 ^ 24 + 1) * (2 ^ 24 + 1) - (3 * 2 ^ 24 + 1) * dim))
        by (apply Z.mul_nonneg_nonneg; lia).
      apply (mul_lt_cancel _ _ (2 ^ 24 * dim)); [lia |]. lia. }
  rewrite Hres. cbn [mbind option_bind].
  destruct (Z.leb_spec dim x); [lia | reflexivity].
Qed.

(** C9, for textures of at most 2^22 cells along each axis whose cells an
    [int] can index.  In nearest mode, with either wrap mode on each axis,
    sampling at the [float] coordinates [((x + 0.5) / width,
    (y + 0.5) / height)] of a cell returns [pixels[y * width + x]]. *)
Theorem nearest_sample_exact (tex : milo_texture_t) (px : Z -> Z) (x y : Z) :
  pixels tex = Some px -> filter tex = false ->
  0 < width tex <= 2 ^ 22 -> 0 < height tex <= 2 ^ 22 ->
  width tex * height tex < 2 ^ 31 ->
  0 <= x < width tex -> 0 <= y < height tex ->
  milo_texture_sample (Some tex)
    (texel_center x (width tex)) (texel_center y (height tex)) =
    Some (px (y * width tex + x)).
Proof.
  intros Hpx Hf Hw Hh Hint Hx Hy.
  rewrite (sample_nearest tex px _ _ Hpx Hf).
  rewrite (nearest_index_center (wrap_s tex) (width tex) x Hw Hx).
  rewrite (nearest_index_center (wrap_t tex) (height tex) y Hh Hy).
  cbn [mbind option_bind]. unfold read_pixel.
  assert (Hin : 0 <= y * width tex + x < width tex * height tex) by nia.
  destruct (Z.leb_spec 0 (y * width tex + x)); [| lia].
  destruct (Z.ltb_spec (y * width tex + x) (width tex * height tex)); [| lia].
  reflexivity.
Qed.

(** The 2 x 2 texture [red, green, blue, white], nearest mode, wrap off. *)
Definition quad_pixels (i : Z) : Z :=
  nth (Z.to_nat i) [0xFF0000FF; 0xFF00FF00; 0xFFFF0000; 0xFFFFFFFF] 0.

Definition quad_texture : milo_texture_t :=
  {| pixels := Some quad_pixels;
     width := 2; height := 2; wrap_s := false; wrap_t := false; filter := false |}.

(** [(0.25, 0.25)] yields red, [(0.75, 0.75)] yields white. *)
Lemma nearest_sample_exact_witness :
  milo_texture_sample (Some quad_texture) (u2f 0x3E800000) (u2f 0x3E800000) =
    Some 0xFF0000FF /\
  milo_texture_sample (Some quad_texture) (u2f 0x3F400000) (u2f 0x3F400000) =
    Some 0xFFFFFFFF.
Proof.
  split.
  - change (milo_texture_sample (Some quad_texture)
              (texel_center 0 (width quad_texture))
              (texel_center 0 (height quad_texture)) =
            Some (quad_pixels (0 * width quad_texture + 0))).
    apply nearest_sample_exact;
      try reflexivity; cbn [width height quad_texture]; lia.
  - change (milo_texture_sample (Some quad_texture)
              (texel_center 1 (width quad_texture))
              (texel_center 1 (height quad_texture)) =
            Some (quad_pixels (1 * width quad_texture + 1))).
    apply nearest_sample_exact;
      try reflexivity; cbn [width height quad_texture]; lia.
Defined.

(** A texture of 7138967 x 1 cells, each cell holding its own index. *)
Definition wide_pixels (i : Z) : Z := i.

Definition wide_texture : milo_texture_t :=
  {| pixels := Some wide_pixels;
     width := 7138967; height := 1; wrap_s := false; wrap_t := false;
     filter := false |}.

(** Without a bound on the size the property fails: in [wide_texture], of
    less than [2^23] cells, the [float] sum [u * (width - 1) + 0.5f] for the
    centre [u] of cell 0 is [1.0f], and the sample is cell 1, not cell 0. *)
Lemma nearest_sample_wide_texture :
  pixels wide_texture = Some wide_pixels /\ filter wide_texture = false /\
  0 < width wide_texture /\ 0 < height wide_texture /\
  width wide_texture * height wide_texture < 2 ^ 31 /\
  0 <= 0 < width wide_texture /\ 0 <= 0 < height wide_texture /\
  f_add (f_mul (texel_center 0 (width wide_texture))
               (f_of_int (width wide_texture - 1))) f_half = f_one /\
  milo_texture_sample (Some wide_texture)
    (texel_center 0 (width wide_texture)) (texel_center 0 (height wide_texture)) =
    Some (wide_pixels 1) /\
  wide_pixels 1 <> wide_pixels (0 * width wide_texture + 0).
Proof.
  split; [reflexivity |]. split; [reflexivity |].
  do 5 (split; [cbn [width height wide_texture]; lia |]).
  split; [vm_compute; reflexivity |].
  split; [vm_compute; reflexivity | vm_compute; discriminate].
Qed.

(** ** Lines that begin with [.data] *)

Lemma strchr_take (n : nat) (c : ascii) :
  forall s, strchr s c = None -> strchr (str_take n s) c = None.
Proof.
  induction n as [| n IH]; intros [| a s] H; cbn in *; try reflexivity.
  destruct (Ascii.eqb a c); [discriminate |].
  destruct (strchr s c) as [[b r] |] eqn:E; [discriminate |].
  rewrite (IH s E). reflexivity.
Qed.

Lemma strchr_before (c d : ascii) :
  forall s b r, strchr s d = Some (b, r) -> strchr s c = None -> strchr b c = None.
Proof.
  induction s as [| a s IH]; intros b r Hd Hc; cbn in *; [discriminate |].
  destruct (Ascii.eqb a c) eqn:Eac; [discriminate |].
  destruct (strchr s c) as [[b1 r1] |] eqn:Ec; [discriminate |].
  destruct (Ascii.eqb a d).
  - injection Hd as <- <-. reflexivity.
  - destruct (strchr s d) as [[b2 r2] |] eqn:Ed; [| discriminate].
    injection Hd as <- <-. cbn. rewrite Eac.
    rewrite (IH b2 r2 eq_refl eq_refl). reflexivity.
Qed.

Lemma strchr_cut_at (c d : ascii) (s : string) :
  strchr s c = None -> strchr (cut_at d s) c = None.
Proof.
  intros H. unfold cut_at. destruct (strchr s d) as [[b r] |] eqn:E; [| exact H].
  eapply strchr_before; eauto.
Qed.

Lemma strchr_drop_trailing_space (c : ascii) :
  forall s, strchr s c = None -> strchr (drop_trailing_space s) c = None.
Proof.
  induction s as [| a s IH]; intros H; cbn in *; [reflexivity |].
  destruct (Ascii.eqb a c) eqn:Eac; [discriminate |].
  destruct (strchr s c) as [[b r] |] eqn:Ec; [discriminate |].
  specialize (IH eq_refl).
  destruct (drop_trailing_space s) as [| a' s'].
  - destruct (isspace a); cbn; [reflexivity |]. rewrite Eac. reflexivity.
  - cbn in *. rewrite Eac. destruct (Ascii.eqb a' c); [discriminate |].
    destruct (strchr s' c) as [[b r] |]; [discriminate | reflexivity].
Qed.

Lemma cut_at_data (c : ascii) (s : string) :
  Ascii.eqb "." c = false -> Ascii.eqb "d" c = false -> Ascii.eqb "a" c = false ->
  Ascii.eqb "t" c = false -> Ascii.eqb " " c = false ->
  cut_at c (".data " +++ s) = ".data " +++ cut_at c s.
Proof.
  intros H1 H2 H3 H4 H5. unfold cut_at. cbn [strchr String.append].
  rewrite H1, H2, H3, H4, H5.
  destruct (strchr s c) as [[b r] |]; reflexivity.
Qed.

(** What is left of a line that begins with [.data ] where the mnemonic is
    looked up: [.data], then nothing or a blank. *)
Lemma trim_data_line (rest : string) :
  exists d,
    trim (cut_at "#" (cut_at ";" (str_take (MILO_MAX_LINE_LEN - 1) (".data " +++ rest))))
    = ".data" +++ d /\
    (d = "" \/ exists r, d = String " " r) /\
    (strchr rest ":" = None -> strchr d ":" = None).
Proof.
  change (str_take (MILO_MAX_LINE_LEN - 1) (".data " +++ rest))
    with (".data " +++ str_take 249 rest).
  rewrite !cut_at_data by reflexivity.
  set (r1 := cut_at "#" (cut_at ";" (str_take 249 rest))).
  assert (Hr1 : strchr rest ":" = None -> strchr (drop_trailing_space r1) ":" = None).
  { intros H. apply strchr_drop_trailing_space. unfold r1.
    apply strchr_cut_at, strchr_cut_at, strchr_take. exact H. }
  unfold trim. cbn [skip_space String.append].
  change (isspace ".") with false. cbn iota.
  cbn [drop_trailing_space].
  destruct (drop_trailing_space r1) as [| a r].
  - exists "". split; [reflexivity |]. split; [left; reflexivity | reflexivity].
  - exists (String " " (String a r)). split; [reflexivity |].
    split; [right; eexists; reflexivity |].
    intros H. specialize (Hr1 H). cbn in Hr1 |- *. rewrite Hr1. reflexivity.
Qed.

Section DataLines.

Variable L : libc_t.

(** [milo_asm_line] has no case for the directive: the mnemonic [.data] is
    looked up in the opcode table and not found. *)
Lemma asm_line_data (a : milo_asm_t) (unres : list unresolved_t) (rest : string)
    (ln : Z) :
  strchr rest ":" = None ->
  milo_asm_line L a unres (".data " +++ rest) ln =
    (false, asm_set_error a "Unknown instruction: .data" ln, unres).
Proof.
  intros Hc. unfold milo_asm_line.
  destruct (trim_data_line rest) as (d & -> & Hd & Hcol).
  specialize (Hcol Hc).
  assert (Hp : strchr (".data" +++ d) ":" = None).
  { cbn [strchr String.append]. change (Ascii.eqb "." ":") with false.
    change (Ascii.eqb "d" ":") with false. change (Ascii.eqb "a" ":") with false.
    change (Ascii.eqb "t" ":") with false. cbn iota. rewrite Hcol. reflexivity. }
  cbn [String.append] in Hp |- *. rewrite Hp.
  unfold asm_instruction.
  assert (Hm : scan_mnemonic 31 (String "." (String "d" (String "a" (String "t"
                 (String "a" d))))) = (".data", d)).
  { destruct Hd as [-> | [r ->]]; reflexivity. }
  rewrite Hm. reflexivity.
Qed.

Lemma asm_lines_rejects (line : string) :
  (forall a unres ln, fst (fst (milo_asm_line L a unres line ln)) = false) ->
  forall lines i a unres ln,
    lines !! i = Some line -> fst (fst (asm_lines L a unres lines ln)) = false.
Proof.
  intros Hline. induction lines as [| l lines IH]; intros i a unres ln Hi;
    [discriminate |].
  cbn [asm_lines].
  destruct (milo_asm_line L a unres l ln) as [[[] a1] u1] eqn:E; [| reflexivity].
  destruct i as [| i].
  - injection Hi as ->. specialize (Hline a unres ln). rewrite E in Hline.
    discriminate Hline.
  - apply (IH i). exact Hi.
Qed.

(** C2.  A text with a line [.data ...] (no colon in it) is never loaded:
    [milo_vm_load_asm] returns [false] and leaves the machine as it was but
    for the error text; the memory and the program are not written. *)
Theorem data_line_rejected (vm : milo_vm_t) (unres : list unresolved_t)
    (asm_text rest : string) (i : nat) :
  extract_lines asm_text [] 0 false !! i = Some (".data " +++ rest) ->
  strchr rest ":" = None ->
  exists msg unres',
    milo_vm_load_asm L vm unres asm_text = (false, set_error vm msg, unres') /\
    mem (set_error vm msg) = mem vm /\
    code (set_error vm msg) = code vm /\
    code_size (set_error vm msg) = code_size vm.
Proof.
  intros Hi Hc.
  assert (Hs : fst (fst (milo_asm_source L milo_asm_init unres asm_text)) = false).
  { unfold milo_asm_source.
    pose proof (asm_lines_rejects (".data " +++ rest)) as Hl.
    specialize (Hl (fun a u ln => f_equal (fun r => fst (fst r))
                                    (asm_line_data a u rest ln Hc))).
    specialize (Hl _ i milo_asm_init [] 1 Hi).
    destruct (asm_lines L milo_asm_init [] _ 1) as [[[] a1] u1]; [discriminate Hl |].
    reflexivity. }
  unfold milo_vm_load_asm.
  destruct (milo_asm_source L milo_asm_init unres asm_text) as [[[] a1] u1];
    [discriminate Hs |].
  eexists _, _. split; [reflexivity |]. repeat split; reflexivity.
Qed.

End DataLines.

(** [exit], then one constant of the pool. *)
Definition data_example_text : string :=
  "exit" +++ NL +++ ".data 0x1000, 0x3F000000" +++ NL.

Lemma data_line_rejected_witness :
  exists msg unres',
    milo_vm_load_asm example_libc milo_vm_init [] data_example_text =
      (false, set_error milo_vm_init msg, unres') /\
    mem (set_error milo_vm_init msg) = mem milo_vm_init.
Proof.
  destruct (data_line_rejected example_libc milo_vm_init [] data_example_text
              "0x1000, 0x3F000000" 1) as (msg & unres' & H & Hm & _).
  - reflexivity.
  - reflexivity.
  - exists msg, unres'. split; [exact H | exact Hm].
Defined.

(** ** The gradient shader, from syntax tree to fragment *)

(** The tree [parse_program] builds for
    [in vec2 v_texcoord; out vec4 fragColor;
     void main() { fragColor = vec4(v_texcoord.x, v_texcoord.y, 0.5, 1.0); }]. *)
Definition gradient_ast : milo_node_t :=
  NODE_PROGRAM
    [ NODE_VAR_DECL "v_texcoord" TYPE_VEC2 false true false (-1) None;
      NODE_VAR_DECL "fragColor" TYPE_VEC4 false false true (-1) None;
      NODE_FUNCTION "main" TYPE_VOID []
        (Some (NODE_BLOCK
          [ NODE_EXPR_STMT (Some
              (NODE_ASSIGN (NODE_IDENT "fragColor")
                 (Some (NODE_CONSTRUCTOR TYPE_VEC4
                    [ NODE_MEMBER (Some (NODE_IDENT "v_texcoord")) "x";
                      NODE_MEMBER (Some (NODE_IDENT "v_texcoord")) "y";
                      NODE_FLOAT_LIT (u2f 0x3F000000);
                      NODE_FLOAT_LIT (u2f 0x3F800000) ]))
                 TOK_ASSIGN)) ])) ].

(** The fragment at [(u, v) = (0.25, 0.75)]. *)
Definition gradient_in : milo_fragment_in_t :=
  {| in_x := f_zero; in_y := f_zero; in_z := f_zero;
     in_u := u2f 0x3E800000; in_v := u2f 0x3F400000;
     in_r := f_zero; in_g := f_zero; in_b := f_zero; in_a := f_zero;
     in_nx := f_zero; in_ny := f_zero; in_nz := f_zero |}.

Definition blank_out : milo_fragment_out_t :=
  {| out_r := f_zero; out_g := f_zero; out_b := f_zero; out_a := f_zero;
     out_depth := f_zero; out_discard := false |}.

(** C1.  The gradient shader compiles, and its two float literals go to the
    constant pool; the assembly text therefore ends with two [.data] lines,
    [milo_vm_load_asm] rejects it at the first of them (line 26) and loads no
    instruction; [milo_vm_exec_fragment] on that machine returns [false] with
    the program counter out of bounds, and the colour it reports is
    [(0, 0, 0, 0)], not [(0.25, 0.75, 0.5, 1.0)]. *)
Theorem gradient_not_loaded (L : libc_t) :
  exists c vm unres vm' out',
    milo_glsl_compile_ast milo_glsl_init gradient_ast = Some (true, c) /\
    c_constants c = [0x3F000000; 0x3F800000] /\
    extract_lines (milo_glsl_get_asm c) [] 0 false !! 25%nat =
      Some ".data 0x1000, 0x3F000000  ; 0.500000" /\
    milo_vm_load_asm L milo_vm_init [] (milo_glsl_get_asm c) = (false, vm, unres) /\
    error vm = "Assembly error: Line 26: Unknown instruction: .data" /\
    code_size vm = 0 /\
    milo_vm_exec_fragment L vm gradient_in blank_out = Some (false, vm', out') /\
    error vm' = "PC out of bounds: 0" /\
    map f2u [out_r out'; out_g out'; out_b out'; out_a out'] = [0; 0; 0; 0].
Proof.
  eexists _, _, _, _, _.
  split; [vm_compute; reflexivity |].
  split; [vm_compute; reflexivity |].
  split; [vm_compute; reflexivity |].
  split; [vm_compute; reflexivity |].
  split; [vm_compute; reflexivity |].
  split; [vm_compute; reflexivity |].
  split; [vm_compute; reflexivity |].
  split; vm_compute; reflexivity.
Qed.

(** ** The branch of an [if] *)

(** The tree of
    [in vec2 v_texcoord; out vec4 fragColor;
     void main() { if (1) { fragColor = vec4(1, 1, 1, 1); }
                   else { fragColor = vec4(2, 2, 2, 2); } }]. *)
Definition branch_ast : milo_node_t :=
  NODE_PROGRAM
    [ NODE_VAR_DECL "v_texcoord" TYPE_VEC2 false true false (-1) None;
      NODE_VAR_DECL "fragColor" TYPE_VEC4 false false true (-1) None;
      NODE_FUNCTION "main" TYPE_VOID []
        (Some (NODE_BLOCK
          [ NODE_IF (Some (NODE_INT_LIT 1))
              (Some (NODE_BLOCK
                 [ NODE_EXPR_STMT (Some
                     (NODE_ASSIGN (NODE_IDENT "fragColor")
                        (Some (NODE_CONSTRUCTOR TYPE_VEC4
                           [ NODE_INT_LIT 1; NODE_INT_LIT 1;
                             NODE_INT_LIT 1; NODE_INT_LIT 1 ]))
                        TOK_ASSIGN)) ]))
              (Some (NODE_BLOCK
                 [ NODE_EXPR_STMT (Some
                     (NODE_ASSIGN (NODE_IDENT "fragColor")
                        (Some (NODE_CONSTRUCTOR TYPE_VEC4
                           [ NODE_INT_LIT 2; NODE_INT_LIT 2;
                             NODE_INT_LIT 2; NODE_INT_LIT 2 ]))
                        TOK_ASSIGN)) ])) ])) ].

Section Branch.

Variable L : libc_t.

Lemma exec_op_beq vm rd rs1 rs2 imm rs3 u1 u2 :
  exec_op L vm OP_BEQ rd rs1 rs2 imm rs3 u1 u2 =
    if s32 u1 =? s32 u2 then Some (true, set_pc vm imm) else Some (true, vm).
Proof. reflexivity. Qed.

(** The operands of [beq a, r0, label] go to [rd], [rs1] and the immediate:
    the condition register is [rd], and [rs2] is not written. *)
Lemma build_inst_beq (cond_arg label : string) (cs ln : Z) (inst : milo_inst_t)
    (unres : list unresolved_t) (rc : Z) :
  parse_register cond_arg = Some rc ->
  Z.of_nat (length unres) < MILO_MAX_LABELS ->
  build_inst L "rrl" 0 [cond_arg; "r0"; label] cs ln inst unres =
    (inl (set_imm_field (set_reg_field (set_reg_field inst 0 rc) 1 0) 0),
     (unres ++ [ {| u_address := cs; u_label := str_take 63 label; u_line := ln |} ])%list).
Proof.
  intros Hrc Hn. cbn [build_inst].
  change (Ascii.eqb "r" "r") with true. cbn iota. rewrite Hrc.
  change (parse_register "r0") with (Some 0). cbn iota.
  change (Ascii.eqb "l" "r") with false. change (Ascii.eqb "l" "i") with false.
  change (Ascii.eqb "l" "l") with true. cbn iota.
  destruct (Z.leb_spec MILO_MAX_LABELS (Z.of_nat (length unres))); [lia |].
  reflexivity.
Qed.

(** A [beq] whose [rs1] and [rs2] are both 0 compares [r0] with [r0]: the
    branch is taken whatever the registers hold. *)
Lemma beq_r0_r0_taken (vm : milo_vm_t) (inst : Z) :
  vm_wf vm -> pc vm < code_size vm ->
  arr_get (code vm) (pc vm) = Some inst ->
  inst_opcode inst = OP_BEQ -> inst_rs1 inst = 0 -> inst_rs2 inst = 0 ->
  exists vm', vm_step L vm = Some (true, vm') /\ pc vm' = u32 (inst_imm inst).
Proof.
  intros (Hlen & _) Hpc Hi Hop H1 H2.
  set (r := <[0%nat := 0]> (regs vm)).
  assert (Hr : arr_set (regs vm) 0 0 = Some r).
  { apply arr_set_in_range. rewrite Hlen. lia. }
  assert (Hr0 : arr_get r 0 = Some 0).
  { unfold arr_get. cbn. apply list_lookup_insert_eq. rewrite Hlen. lia. }
  exists (set_regs (set_pc (step_entry vm r) (u32 (inst_imm inst))) (<[0%nat := 0]> r)).
  split; [| reflexivity].
  eapply (vm_step_continue L vm inst r 0 0).
  - exact Hpc.
  - exact Hi.
  - exact Hr.
  - rewrite H1. exact Hr0.
  - rewrite H2. exact Hr0.
  - rewrite Hop, exec_op_beq. reflexivity.
  - cbn [regs set_pc step_entry set_cycle_count set_regs].
    apply arr_set_in_range. unfold r. rewrite length_insert, Hlen. lia.
Qed.

(** C5.  The assembler puts the first register operand of [beq] into [rd]
    and the second into [rs1]; [rs2] stays 0.  For [beq r<cond>, r0, L] the
    interpreter, which compares [regs[rs1]] with [regs[rs2]], compares [r0]
    with [r0] and always branches.  In the program compiled from
    [branch_ast] the condition register [r8] holds 1, the then-branch is
    skipped (its registers [r9..r12] stay 0) and the else-branch writes the
    colour. *)
Theorem if_branch_always_taken :
  (exists op, find_opcode "beq" = Some op /\ op_opcode op = OP_BEQ /\
     forall cond_arg label cs ln unres rc,
       parse_register cond_arg = Some rc ->
       Z.of_nat (length unres) < MILO_MAX_LABELS ->
       exists inst unres',
         build_inst L (op_format op) 0 [cond_arg; "r0"; label] cs ln
           {| opcode := op_opcode op; rd := 0; rs1 := 0; rs2 := 0; rs3 := 0;
              pred := 0; imm := 0; has_imm := false; has_rs3 := false |} unres
         = (inl inst, unres') /\
         opcode inst = OP_BEQ /\ rd inst = rc /\ rs1 inst = 0 /\ rs2 inst = 0) /\
  (forall vm inst,
     vm_wf vm -> pc vm < code_size vm ->
     arr_get (code vm) (pc vm) = Some inst ->
     inst_opcode inst = OP_BEQ -> inst_rs1 inst = 0 -> inst_rs2 inst = 0 ->
     exists vm', vm_step L vm = Some (true, vm') /\ pc vm' = u32 (inst_imm inst)) /\
  (exists c vm unres vm' out',
     milo_glsl_compile_ast milo_glsl_init branch_ast = Some (true, c) /\
     c_code c !! 10%nat = Some "    beq r8, r0, L0" /\
     milo_vm_load_asm L milo_vm_init [] (milo_glsl_get_asm c) = (true, vm, unres) /\
     map inst_rd (take 1 (drop 2 (code vm))) = [8] /\
     map inst_rs1 (take 1 (drop 2 (code vm))) = [0] /\
     map inst_rs2 (take 1 (drop 2 (code vm))) = [0] /\
     milo_vm_exec_fragment L vm gradient_in blank_out = Some (true, vm', out') /\
     regs vm' !! 8%nat = Some 1 /\
     take 4 (drop 9 (regs vm')) = [0; 0; 0; 0] /\
     map f2u [out_r out'; out_g out'; out_b out'; out_a out'] = [2; 2; 2; 2]).
Proof.
  split; [| split].
  - eexists. split; [vm_compute; reflexivity |]. split; [reflexivity |].
    intros cond_arg label cs ln unres rc Hrc Hn.
    eexists _, _. split; [apply (build_inst_beq _ _ _ _ _ _ _ Hrc Hn) |].
    repeat split; reflexivity.
  - exact beq_r0_r0_taken.
  - eexists _, _, _, _, _.
    split; [vm_compute; reflexivity |].
    split; [vm_compute; reflexivity |].
    split; [vm_compute; reflexivity |].
    split; [vm_compute; reflexivity |].
    split; [vm_compute; reflexivity |].
    split; [vm_compute; reflexivity |].
    split; [vm_compute; reflexivity |].
    split; [vm_compute; reflexivity |].
    split; vm_compute; reflexivity.
Qed.

End Branch.

(** * Further properties of the interpreter *)

(** ** The run loop *)

Section RunLoop.

Variable L : libc_t.

(** A step counts at most one cycle, and leaves the discard flag alone. *)
Lemma vm_step_count (vm : milo_vm_t) (b : bool) (vm' : milo_vm_t) :
  vm_step L vm = Some (b, vm') ->
  cycle_count vm <= cycle_count vm' <= cycle_count vm + 1.
Proof.
  intros H. apply vm_step_inv in H.
  destruct H as [(_ & -> & ->) | (Hpc & inst & r & u1 & u2 & vm2 & _ & _ & _ & _ & He & Hf & Ht)].
  - cbn. lia.
  - pose proof (exec_op_effect L (step_entry vm r) (inst_opcode inst) (inst_rd inst)
                  (inst_rs1 inst) (inst_rs2 inst) (u32 (inst_imm inst))
                  (inst_rs3 inst) u1 u2) as Heff.
    rewrite He in Heff.
    assert (Hc : cycle_count vm' = cycle_count vm2).
    { destruct b.
      - destruct (Ht eq_refl) as (r' & _ & ->). reflexivity.
      - rewrite (Hf eq_refl). reflexivity. }
    rewrite Hc. inversion Heff; subst; cbn; lia.
Qed.

(** Any fuel from [max_cycles - cycle_count] on gives the same run: the
    loop has ended by then. *)
Lemma run_loop_fuel_irrelevant (fuel1 : nat) :
  forall fuel2 vm,
    (Z.to_nat (max_cycles vm - cycle_count vm) <= fuel1)%nat ->
    (Z.to_nat (max_cycles vm - cycle_count vm) <= fuel2)%nat ->
    run_loop L fuel1 vm = run_loop L fuel2 vm.
Proof.
  induction fuel1 as [| fuel1 IH]; intros fuel2 vm H1 H2.
  - destruct fuel2 as [| fuel2]; [reflexivity |]. cbn [run_loop].
    destruct (Z.ltb_spec (cycle_count vm) (max_cycles vm)); [lia |].
    rewrite andb_false_r. reflexivity.
  - destruct fuel2 as [| fuel2]; cbn [run_loop].
    + destruct (Z.ltb_spec (cycle_count vm) (max_cycles vm)); [lia |].
      rewrite andb_false_r. reflexivity.
    + destruct (running vm && (cycle_count vm <? max_cycles vm)) eqn:Hc;
        [| reflexivity].
      apply andb_true_iff in Hc. destruct Hc as [_ Hc]. apply Z.ltb_lt in Hc.
      destruct (vm_step L vm) as [[[] vm1] |] eqn:Hs; try reflexivity.
      pose proof (vm_step_cycle L _ _ Hs) as Hcy.
      pose proof (vm_step_frame L _ _ _ Hs) as (_ & _ & _ & _ & _ & Hm & _).
      apply IH; rewrite Hm, Hcy; lia.
Qed.

(** The loop stops at the cycle limit. *)
Lemma run_loop_count (fuel : nat) :
  forall vm vm', run_loop L fuel vm = Some vm' ->
    max_cycles vm' = max_cycles vm /\ discarded vm' = discarded vm /\
    cycle_count vm <= cycle_count vm' /\
    (cycle_count vm <= max_cycles vm -> cycle_count vm' <= max_cycles vm).
Proof.
  induction fuel as [| fuel IH]; intros vm vm' H; cbn [run_loop] in H.
  - injection H as <-. repeat split; lia.
  - destruct (running vm && (cycle_count vm <? max_cycles vm)) eqn:Hc.
    + apply andb_true_iff in Hc. destruct Hc as [_ Hc]. apply Z.ltb_lt in Hc.
      destruct (vm_step L vm) as [[[] vm1] |] eqn:Hs; [| | discriminate H].
      * pose proof (vm_step_cycle L _ _ Hs) as Hcy.
        pose proof (vm_step_frame L _ _ _ Hs) as (_ & _ & _ & _ & _ & Hm & Hd & _).
        apply IH in H. destruct H as (Hm' & Hd' & Hle & Hmax).
        rewrite Hm', Hm, Hd', Hd. repeat split; lia.
      * injection H as <-.
        pose proof (vm_step_count _ _ _ Hs) as Hcy.
        pose proof (vm_step_frame L _ _ _ Hs) as (_ & _ & _ & _ & _ & Hm & Hd & _).
        rewrite Hm, Hd. repeat split; lia.
    + injection H as <-. repeat split; lia.
Qed.

(** X1.  The fuel of [run] is enough: with more fuel the loop does the same. *)
Theorem run_fuel_enough (vm : milo_vm_t) (fuel : nat) :
  (Z.to_nat (max_cycles vm - cycle_count vm) <= fuel)%nat ->
  run_loop L fuel vm = run L vm.
Proof.
  intros H. unfold run. apply run_loop_fuel_irrelevant; [exact H | lia].
Qed.

(** X2.  A fragment execution never runs past the cycle limit, reports success
    only below it, and when it ends at the limit it fails with the
    [Exceeded max cycles] message and leaves [out] as it was, whether or not
    the program had just finished. *)
Theorem exec_fragment_cycles (vm : milo_vm_t) (fin : milo_fragment_in_t)
    (out : milo_fragment_out_t) (ok : bool) (vm' : milo_vm_t)
    (out' : milo_fragment_out_t) :
  0 <= max_cycles vm ->
  milo_vm_exec_fragment L vm fin out = Some (ok, vm', out') ->
  max_cycles vm' = max_cycles vm /\
  0 <= cycle_count vm' <= max_cycles vm /\
  (ok = true -> cycle_count vm' < max_cycles vm /\ error vm' = "") /\
  (cycle_count vm' = max_cycles vm ->
   ok = false /\ out' = out /\
   error vm' = str_take 255 ("Exceeded max cycles (" +++ fmt_d (max_cycles vm) +++ ")")).
Proof.
  unfold milo_vm_exec_fragment. intros Hmax H.
  apply bind_Some in H. destruct H as (vm0 & Hreset & H).
  apply bind_Some in H. destruct H as (vm1 & Hrun & H).
  pose proof (fragment_reset_frame _ _ _ Hreset)
    as (_ & _ & _ & Hc0 & _ & _ & _ & _ & _ & _ & _ & _ & Hm0).
  apply run_loop_count in Hrun. destruct Hrun as (Hm1 & _ & Hle & Hbound).
  rewrite Hm0 in Hm1, Hbound. rewrite Hc0 in Hle, Hbound. specialize (Hbound Hmax).
  destruct (Z.leb_spec (max_cycles vm1) (cycle_count vm1)) as [Hex | Hin].
  - injection H as <- <- <-. cbn [max_cycles cycle_count error set_error].
    rewrite Hm1 in *. repeat split; try lia; try discriminate; reflexivity.
  - repeat (apply bind_Some in H; destruct H as (? & _ & H)).
    injection H as <- <- <-. rewrite Hm1 in *.
    repeat split; try lia.
    apply String.eqb_eq. assumption.
Qed.

(** X3.  No instruction sets the discard flag: a fragment execution ends with
    the flag clear, and the output it writes never asks for a discard. *)
Theorem exec_fragment_never_discards (vm : milo_vm_t) (fin : milo_fragment_in_t)
    (out : milo_fragment_out_t) (ok : bool) (vm' : milo_vm_t)
    (out' : milo_fragment_out_t) :
  milo_vm_exec_fragment L vm fin out = Some (ok, vm', out') ->
  discarded vm' = false /\ (out' = out \/ out_discard out' = false).
Proof.
  unfold milo_vm_exec_fragment. intros H.
  apply bind_Some in H. destruct H as (vm0 & Hreset & H).
  apply bind_Some in H. destruct H as (vm1 & Hrun & H).
  pose proof (fragment_reset_frame _ _ _ Hreset) as (_ & _ & _ & _ & Hd0 & _).
  apply run_loop_count in Hrun. destruct Hrun as (_ & Hd1 & _).
  rewrite Hd0 in Hd1.
  destruct (max_cycles vm1 <=? cycle_count vm1).
  - injection H as <- <- <-. split; [exact Hd1 | left; reflexivity].
  - repeat (apply bind_Some in H; destruct H as (? & _ & H)).
    injection H as <- <- <-. split; [exact Hd1 | right; exact Hd1].
Qed.

End RunLoop.

(** A machine with a cycle limit of 4 whose program is [exit]. *)
Definition tiny_vm : milo_vm_t :=
  {| regs := replicate 64 0; code := 0xFF00000070000000 :: replicate 4095 0;
     code_size := 1; pc := 0;
     div_stack := replicate 256 0; div_sp := 0;
     ret_stack := replicate 256 0; ret_sp := 0;
     uniforms := replicate 32 (replicate 16 0); uniform_count := 0;
     textures := replicate 8 None; mem := replicate 2048 0;
     running := true; discarded := false; cycle_count := 0;
     max_cycles := 4; error := "" |}.

Lemma run_fuel_enough_witness :
  run_loop example_libc 10 tiny_vm = run example_libc tiny_vm.
Proof. apply run_fuel_enough. cbn. lia. Defined.

Lemma exec_fragment_cycles_witness :
  exists ok vm' out',
    milo_vm_exec_fragment example_libc tiny_vm frame_example_in frame_example_out
      = Some (ok, vm', out') /\
    0 <= cycle_count vm' <= max_cycles tiny_vm.
Proof.
  assert (H : exists r, milo_vm_exec_fragment example_libc tiny_vm
                          frame_example_in frame_example_out = Some r).
  { eexists. vm_compute. reflexivity. }
  destruct H as [[[ok vm'] out'] H]. exists ok, vm', out'.
  split; [exact H |].
  refine (proj1 (proj2 (exec_fragment_cycles example_libc _ _ _ _ _ _ _ H))).
  cbn. lia.
Defined.

Lemma exec_fragment_never_discards_witness :
  exists ok vm' out',
    milo_vm_exec_fragment example_libc tiny_vm frame_example_in frame_example_out
      = Some (ok, vm', out') /\
    discarded vm' = false.
Proof.
  assert (H : exists r, milo_vm_exec_fragment example_libc tiny_vm
                          frame_example_in frame_example_out = Some r).
  { eexists. vm_compute. reflexivity. }
  destruct H as [[[ok vm'] out'] H]. exists ok, vm', out'.
  split; [exact H |].
  exact (proj1 (exec_fragment_never_discards example_libc _ _ _ _ _ _ H)).
Defined.

(** ** Loading a binary *)

(** X4.  [milo_vm_load_binary] accepts exactly the programs of at most
    [VM_MAX_CODE] words; it then copies them to the front of [code], leaves
    the rest of [code] and all other state alone, and sets [code_size].  A
    longer program changes nothing but the error text. *)
Theorem load_binary_spec (vm : milo_vm_t) (words : list Z) :
  length (code vm) = 4096%nat ->
  let '(ok, vm') := milo_vm_load_binary vm words in
  (ok = true <-> (length words <= 4096)%nat) /\
  regs vm' = regs vm /\ mem vm' = mem vm /\ uniforms vm' = uniforms vm /\
  pc vm' = pc vm /\ length (code vm') = 4096%nat /\
  (ok = true ->
   code_size vm' = Z.of_nat (length words) /\
   take (length words) (code vm') = words /\
   drop (length words) (code vm') = drop (length words) (code vm) /\
   error vm' = error vm) /\
  (ok = false ->
   code vm' = code vm /\ code_size vm' = code_size vm /\ error vm' <> "").
Proof.
  intros Hlen. unfold milo_vm_load_binary.
  destruct (Z.ltb_spec VM_MAX_CODE (Z.of_nat (length words))) as [Hbig | Hok];
    unfold VM_MAX_CODE in *.
  - cbn. repeat split; try discriminate; try lia; try assumption.
  - cbn [regs mem uniforms pc code code_size error set_code].
    assert (Hw : (length words <= 4096)%nat) by lia.
    repeat split; try reflexivity; try discriminate; try assumption;
      rewrite ?length_app, ?length_drop, ?take_app_length, ?drop_app_length;
      try reflexivity; lia.
Qed.

Lemma load_binary_spec_witness :
  code_size (snd (milo_vm_load_binary milo_vm_init [0xFF00000070000000])) = 1 /\
  take 1 (code (snd (milo_vm_load_binary milo_vm_init [0xFF00000070000000]))) =
    [0xFF00000070000000].
Proof.
  pose proof (load_binary_spec milo_vm_init [0xFF00000070000000] eq_refl) as H.
  destruct (milo_vm_load_binary milo_vm_init [0xFF00000070000000]) as [ok vm'] eqn:E.
  destruct H as (Hok & _ & _ & _ & _ & _ & Ht & _).
  assert (Hk : ok = true) by (apply Hok; cbn; lia).
  destruct (Ht Hk) as (Hs & Htake & _).
  split; [exact Hs | exact Htake].
Defined.

(** ** Running a vertex *)

Section VertexFrame.

Variable L : libc_t.

Lemma vertex_reset_frame (vm : milo_vm_t) (vin : milo_vertex_in_t) (vm0 : milo_vm_t) :
  vertex_reset vm vin = Some vm0 ->
  pc vm0 = 0 /\ div_sp vm0 = 0 /\ ret_sp vm0 = 0 /\ cycle_count vm0 = 0 /\
  discarded vm0 = discarded vm /\ error vm0 = "" /\ running vm0 = true /\
  mem vm0 = mem vm /\ uniforms vm0 = uniforms vm /\ code vm0 = code vm /\
  code_size vm0 = code_size vm /\ textures vm0 = textures vm /\
  max_cycles vm0 = max_cycles vm.
Proof.
  unfold vertex_reset. cbn [regs set_regs set_pc set_div set_ret set_running
    set_cycle_count set_error]. intros H.
  reset_binds H. injection H as <-. cbn. repeat split; reflexivity.
Qed.

(** X5.  The vertex entry point resets what the fragment entry point resets, but
    for the discard flag, which it keeps; it has no cycle-limit error: its
    result is [true] exactly when no step left an error text; the program,
    the uniforms and the textures are as before, and so is the memory unless
    a [str] inside the memory was run. *)
Theorem exec_vertex_frame (vm : milo_vm_t) (vin : milo_vertex_in_t)
    (ok : bool) (vm' : milo_vm_t) (out' : milo_vertex_out_t) :
  milo_vm_exec_vertex L vm vin = Some (ok, vm', out') ->
  exists vm0,
    vertex_reset vm vin = Some vm0 /\
    code vm' = code vm /\ code_size vm' = code_size vm /\
    uniforms vm' = uniforms vm /\ textures vm' = textures vm /\
    discarded vm' = discarded vm /\
    (ok = true <-> error vm' = "") /\
    (no_store_run L (Z.to_nat (max_cycles vm0 - cycle_count vm0)) vm0 = true ->
     mem vm' = mem vm) /\
    (0 <= max_cycles vm -> cycle_count vm' <= max_cycles vm).
Proof.
  unfold milo_vm_exec_vertex. intros H.
  apply bind_Some in H. destruct H as (vm0 & Hreset & H).
  apply bind_Some in H. destruct H as (vm1 & Hrun & H).
  repeat (apply bind_Some in H; destruct H as (? & _ & H)).
  injection H as <- <- <-.
  exists vm0. split; [exact Hreset |].
  pose proof (vertex_reset_frame _ _ _ Hreset)
    as (_ & _ & _ & Hc0 & Hd0 & _ & _ & Hm0 & Hu0 & Hco0 & Hcs0 & Ht0 & Hmx0).
  pose proof (run_loop_count L _ _ _ Hrun) as (_ & Hd1 & _ & Hb).
  unfold run in Hrun. apply run_loop_frame in Hrun.
  destruct Hrun as (Hco1 & Hcs1 & Hu1 & Ht1 & _ & Hm1).
  rewrite Hco1, Hcs1, Hu1, Ht1, Hd1.
  repeat (split; [assumption |]).
  split; [apply String.eqb_eq |].
  split; [intros Hno; rewrite (Hm1 Hno); exact Hm0 |].
  intros Hmax. rewrite Hmx0, Hc0 in Hb. apply Hb. exact Hmax.
Qed.

End VertexFrame.

Definition vertex_example_in : milo_vertex_in_t :=
  {| vin_x := f_one; vin_y := f_half; vin_z := f_zero;
     vin_u := f_zero; vin_v := f_zero;
     vin_r := f_one; vin_g := f_one; vin_b := f_one; vin_a := f_one;
     vin_nx := f_zero; vin_ny := f_zero; vin_nz := f_one |}.

Lemma exec_vertex_frame_witness :
  exists ok vm' out',
    milo_vm_exec_vertex example_libc tiny_vm vertex_example_in = Some (ok, vm', out') /\
    code vm' = code tiny_vm /\ discarded vm' = discarded tiny_vm.
Proof.
  assert (H : exists r, milo_vm_exec_vertex example_libc tiny_vm vertex_example_in
                        = Some r).
  { eexists. vm_compute. reflexivity. }
  destruct H as [[[ok vm'] out'] H]. exists ok, vm', out'.
  split; [exact H |].
  destruct (exec_vertex_frame example_libc _ _ _ _ _ H)
    as (vm0 & _ & Hc & _ & _ & _ & Hd & _).
  split; [exact Hc | exact Hd].
Defined.

(** ** Uniforms *)

(** The result of an execution, with the uniform array replaced. *)
Definition with_uniforms (u : list (list Z)) (r : option (bool * milo_vm_t))
  : option (bool * milo_vm_t) :=
  match r with
  | Some (b, vm) => Some (b, set_uniforms vm u)
  | None => None
  end.

Lemma with_uniforms_if (u : list (list Z)) (b : bool)
    (x y x' y' : option (bool * milo_vm_t)) :
  x = with_uniforms u x' -> y = with_uniforms u y' ->
  (if b then x else y) = with_uniforms u (if b then x' else y').
Proof. intros -> ->. destruct b; reflexivity. Qed.

Ltac uniforms_branch :=
  unfold wr, exec_tex;
  cbn [regs code code_size pc div_stack div_sp ret_stack ret_sp uniforms
       uniform_count textures mem running discarded cycle_count max_cycles
       error set_uniforms];
  repeat first
    [ reflexivity
    | match goal with
      | |- context [if ?b then _ else _] => destruct b
      | |- context [mbind _ ?x] => destruct x; cbn [mbind option_bind fmap option_fmap option_map]
      | |- context [match ?x with Some _ => _ | None => _ end] => destruct x
      end ].

Section Uniforms.

Variable L : libc_t.

Lemma exec_op_uniforms (u : list (list Z)) vm op rd rs1 rs2 imm rs3 u1 u2 :
  exec_op L (set_uniforms vm u) op rd rs1 rs2 imm rs3 u1 u2 =
    with_uniforms u (exec_op L vm op rd rs1 rs2 imm rs3 u1 u2).
Proof.
  unfold exec_op.
  repeat (apply with_uniforms_if; [solve [uniforms_branch] |]).
  uniforms_branch.
Qed.

Lemma vm_step_uniforms (u : list (list Z)) (vm : milo_vm_t) :
  vm_step L (set_uniforms vm u) = with_uniforms u (vm_step L vm).
Proof.
  unfold vm_step.
  cbn [regs code code_size pc cycle_count set_uniforms].
  destruct (code_size vm <=? pc vm); [reflexivity |].
  destruct (arr_get (code vm) (pc vm)) as [inst |]; [| reflexivity].
  cbn [mbind option_bind].
  destruct (arr_set (regs vm) 0 0) as [r |]; [| reflexivity].
  cbn [mbind option_bind regs set_regs].
  destruct (arr_get r (inst_rs1 inst)) as [u1 |]; [| reflexivity].
  cbn [mbind option_bind].
  destruct (arr_get r (inst_rs2 inst)) as [u2 |]; [| reflexivity].
  cbn [mbind option_bind].
  change (set_cycle_count (set_pc (set_regs (set_uniforms vm u) r) _) _)
    with (set_uniforms (step_entry vm r) u).
  change (set_cycle_count (set_pc (set_regs vm r) _) _) with (step_entry vm r).
  rewrite exec_op_uniforms.
  destruct (exec_op L (step_entry vm r) _ _ _ _ _ _ _ _) as [[[] vm2] |];
    cbn [with_uniforms mbind option_bind regs set_uniforms]; try reflexivity.
  destruct (arr_set (regs vm2) 0 0); reflexivity.
Qed.

Lemma run_loop_uniforms (u : list (list Z)) (fuel : nat) :
  forall vm, run_loop L fuel (set_uniforms vm u) =
             option_map (fun vm' => set_uniforms vm' u) (run_loop L fuel vm).
Proof.
  induction fuel as [| fuel IH]; intros vm; cbn [run_loop]; [reflexivity |].
  cbn [running cycle_count max_cycles set_uniforms].
  destruct (running vm && (cycle_count vm <? max_cycles vm)); [| reflexivity].
  rewrite vm_step_uniforms.
  destruct (vm_step L vm) as [[[] vm1] |]; cbn [with_uniforms]; try reflexivity.
  apply IH.
Qed.

Lemma fragment_reset_uniforms (u : list (list Z)) vm fin :
  fragment_reset (set_uniforms vm u) fin =
    option_map (fun vm' => set_uniforms vm' u) (fragment_reset vm fin).
Proof.
  unfold fragment_reset.
  cbn [regs set_regs set_pc set_div set_ret set_running set_discarded
       set_cycle_count set_error set_uniforms].
  repeat match goal with
  | |- context [mbind _ ?x] =>
      destruct x; cbn [mbind option_bind option_map]; [| reflexivity]
  end.
  reflexivity.
Qed.

(** X6.  No instruction reads the uniform array: a fragment run on a machine
    with other uniforms takes the same steps, writes the same output and
    ends in the same state, uniforms apart. *)
Theorem exec_fragment_ignores_uniforms (u : list (list Z)) (vm : milo_vm_t)
    (fin : milo_fragment_in_t) (out : milo_fragment_out_t) :
  milo_vm_exec_fragment L (set_uniforms vm u) fin out =
    match milo_vm_exec_fragment L vm fin out with
    | Some (ok, vm', out') => Some (ok, set_uniforms vm' u, out')
    | None => None
    end.
Proof.
  unfold milo_vm_exec_fragment. rewrite fragment_reset_uniforms.
  destruct (fragment_reset vm fin) as [vm0 |]; [| reflexivity].
  cbn [option_map mbind option_bind]. unfold run.
  cbn [max_cycles cycle_count set_uniforms]. rewrite run_loop_uniforms.
  destruct (run_loop L _ vm0) as [vm1 |]; [| reflexivity].
  cbn [option_map mbind option_bind max_cycles cycle_count regs discarded error
       set_uniforms].
  destruct (max_cycles vm1 <=? cycle_count vm1); [reflexivity |].
  repeat match goal with
  | |- context [mbind _ ?x] =>
      destruct x; cbn [mbind option_bind]; [| reflexivity]
  end.
  reflexivity.
Qed.

End Uniforms.

(** ** Array sizes and stack pointers *)

(** The sizes of the C arrays, and both stack pointers inside their
    stacks. *)
Definition vm_inv (vm : milo_vm_t) : Prop :=
  vm_wf vm /\ 0 <= div_sp vm <= VM_STACK_SIZE /\ 0 <= ret_sp vm <= VM_STACK_SIZE.

(** Every result of [r] satisfies [vm_inv]. *)
Definition keeps_inv (r : option (bool * milo_vm_t)) : Prop :=
  forall b vm', r = Some (b, vm') -> vm_inv vm'.

Lemma keeps_inv_if (b : bool) (x y : option (bool * milo_vm_t)) :
  (b = true -> keeps_inv x) -> (b = false -> keeps_inv y) ->
  keeps_inv (if b then x else y).
Proof. destruct b; auto. Qed.

Lemma keeps_inv_bind {A : Type} (x : option A) (f : A -> option (bool * milo_vm_t)) :
  (forall a, x = Some a -> keeps_inv (f a)) -> keeps_inv (x ≫= f).
Proof.
  intros H b vm' E. destruct x as [a |]; [| discriminate E]. exact (H a eq_refl b vm' E).
Qed.

Lemma keeps_inv_ret (b : bool) (vm : milo_vm_t) :
  vm_inv vm -> keeps_inv (Some (b, vm)).
Proof. intros H b' vm' [= <- <-]. exact H. Qed.

Lemma keeps_inv_none : keeps_inv None.
Proof. intros b vm' [=]. Qed.

Lemma vm_inv_regs (vm : milo_vm_t) (r : list Z) :
  vm_inv vm -> length r = length (regs vm) -> vm_inv (set_regs vm r).
Proof.
  unfold vm_inv, vm_wf. cbn. intros ((H1 & H2) & H3) Hr. rewrite Hr. auto.
Qed.

Lemma keeps_inv_wr (vm : milo_vm_t) (rd v : Z) :
  vm_inv vm -> keeps_inv (wr vm rd v).
Proof.
  intros H. unfold wr. apply keeps_inv_bind. intros r Hr.
  apply keeps_inv_ret, vm_inv_regs; [exact H |]. eapply arr_set_length; eauto.
Qed.

Lemma keeps_inv_tex (vm : milo_vm_t) (rd rs2 u1 : Z) (f2 : spec_float) :
  vm_inv vm -> keeps_inv (exec_tex vm rd rs2 u1 f2).
Proof.
  intros H. unfold exec_tex.
  apply keeps_inv_bind. intros v _.
  match goal with |- keeps_inv (match ?x with _ => _ end) => destruct x end;
    repeat (apply keeps_inv_bind; intros ? ?);
    apply keeps_inv_ret, vm_inv_regs; try exact H;
    repeat match goal with
    | E : arr_set _ _ _ = Some _ |- _ => apply arr_set_length in E
    end; congruence.
Qed.

Ltac inv_branch H :=
  first
    [ apply keeps_inv_wr; exact H
    | apply keeps_inv_tex; exact H
    | apply keeps_inv_none
    | apply keeps_inv_ret; exact H
    | apply keeps_inv_ret;
      unfold vm_inv, vm_wf, VM_STACK_SIZE in *;
      cbn [regs code code_size pc div_stack div_sp ret_stack ret_sp uniforms
           uniform_count textures mem running discarded cycle_count max_cycles
           error set_regs set_pc set_div set_ret set_mem set_running set_error];
      repeat match goal with
      | E : arr_set _ _ _ = Some _ |- _ => apply arr_set_length in E; rewrite E
      | E : (_ <? _) = true |- _ => apply Z.ltb_lt in E
      end;
      intuition lia
    | apply keeps_inv_bind; intros ? ?; inv_branch H
    | apply keeps_inv_if; intros ?; inv_branch H ].

Section Invariant.

Variable L : libc_t.

Lemma exec_op_inv vm op rd rs1 rs2 imm rs3 u1 u2 :
  vm_inv vm -> keeps_inv (exec_op L vm op rd rs1 rs2 imm rs3 u1 u2).
Proof.
  intros H. unfold exec_op.
  repeat (apply keeps_inv_if; [intros _; solve [inv_branch H] | intros _]).
  inv_branch H.
Qed.

(** [vm_step] keeps the arrays at their sizes and both stack pointers
    between 0 and [VM_STACK_SIZE]: [ssy] and [call] on a full stack push
    nothing, [join] on an empty stack pops nothing. *)
Lemma vm_step_keeps_inv_aux (vm : milo_vm_t) (b : bool) (vm' : milo_vm_t) :
  vm_inv vm -> vm_step L vm = Some (b, vm') -> vm_inv vm'.
Proof.
  intros Hinv H. apply vm_step_inv in H.
  destruct H as [(_ & _ & ->) | (Hpc & inst & r & u1 & u2 & vm2 & _ & Hr & _ & _ & He & Hf & Ht)].
  - exact Hinv.
  - assert (H2 : vm_inv vm2).
    { refine (exec_op_inv _ _ _ _ _ _ _ _ _ _ _ _ He).
      apply arr_set_length in Hr.
      unfold vm_inv, vm_wf in *. cbn. rewrite Hr. exact Hinv. }
    destruct b.
    + destruct (Ht eq_refl) as (r' & Hr' & ->).
      apply vm_inv_regs; [exact H2 |]. eapply arr_set_length; eauto.
    + rewrite (Hf eq_refl). exact H2.
Qed.

(** The loop keeps them too. *)
Lemma run_loop_keeps_inv (fuel : nat) :
  forall vm vm', vm_inv vm -> run_loop L fuel vm = Some vm' -> vm_inv vm'.
Proof.
  induction fuel as [| fuel IH]; intros vm vm' Hinv H; cbn [run_loop] in H.
  - injection H as <-. exact Hinv.
  - destruct (running vm && (cycle_count vm <? max_cycles vm)).
    + destruct (vm_step L vm) as [[[] vm1] |] eqn:Hs; [| | discriminate H].
      * eapply IH; [| exact H]. eapply vm_step_keeps_inv_aux; eauto.
      * injection H as <-. eapply vm_step_keeps_inv_aux; eauto.
    + injection H as <-. exact Hinv.
Qed.

Lemma fragment_reset_inv (vm : milo_vm_t) (fin : milo_fragment_in_t) (vm0 : milo_vm_t) :
  vm_wf vm -> fragment_reset vm fin = Some vm0 -> vm_inv vm0.
Proof.
  unfold fragment_reset. cbn [regs set_regs set_pc set_div set_ret set_running
    set_discarded set_cycle_count set_error]. intros Hwf H.
  reset_binds H. injection H as <-.
  unfold vm_inv, vm_wf, VM_STACK_SIZE in *. cbn.
  rewrite !length_insert, length_replicate. intuition lia.
Qed.

Lemma vertex_reset_inv (vm : milo_vm_t) (vin : milo_vertex_in_t) (vm0 : milo_vm_t) :
  vm_wf vm -> vertex_reset vm vin = Some vm0 -> vm_inv vm0.
Proof.
  unfold vertex_reset. cbn [regs set_regs set_pc set_div set_ret set_running
    set_cycle_count set_error]. intros Hwf H.
  reset_binds H. injection H as <-.
  unfold vm_inv, vm_wf, VM_STACK_SIZE in *. cbn.
  rewrite !length_insert, length_replicate. intuition lia.
Qed.

Lemma exec_op_ssy vm rd rs1 rs2 imm rs3 u1 u2 :
  exec_op L vm OP_SSY rd rs1 rs2 imm rs3 u1 u2 =
    if div_sp vm <? VM_STACK_SIZE then
      s ← arr_set (div_stack vm) (div_sp vm) imm;
      Some (true, set_div vm s (div_sp vm + 1))
    else Some (true, vm).
Proof. reflexivity. Qed.

Lemma exec_op_join vm rd rs1 rs2 imm rs3 u1 u2 :
  exec_op L vm OP_JOIN rd rs1 rs2 imm rs3 u1 u2 =
    if 0 <? div_sp vm then Some (true, set_div vm (div_stack vm) (div_sp vm - 1))
    else Some (true, vm).
Proof. reflexivity. Qed.

Lemma exec_op_call vm rd rs1 rs2 imm rs3 u1 u2 :
  exec_op L vm OP_CALL rd rs1 rs2 imm rs3 u1 u2 =
    if ret_sp vm <? VM_STACK_SIZE then
      s ← arr_set (ret_stack vm) (ret_sp vm) (pc vm);
      Some (true, set_pc (set_ret vm s (ret_sp vm + 1)) imm)
    else Some (true, set_pc vm imm).
Proof. reflexivity. Qed.

Lemma exec_op_ret vm rd rs1 rs2 imm rs3 u1 u2 :
  exec_op L vm OP_RET rd rs1 rs2 imm rs3 u1 u2 =
    if 0 <? ret_sp vm then
      target ← arr_get (ret_stack vm) (ret_sp vm - 1);
      Some (true, set_pc (set_ret vm (ret_stack vm) (ret_sp vm - 1)) target)
    else Some (false, set_running vm false).
Proof. reflexivity. Qed.

(** X7.  On a machine with arrays of the declared sizes and both stack
    pointers inside their stacks no stack access is out of bounds, and the
    four stack instructions do this: [ssy] on a full stack changes nothing
    and otherwise pushes its immediate; [join] on an empty stack changes
    nothing and otherwise drops the top; [call] jumps, and pushes the
    program counter unless the stack is full; [ret] on an empty stack stops
    the machine without an error and otherwise jumps to the top and drops
    it, so that a [ret] after a [call] that pushed comes back behind the
    [call].  A step, and a whole fragment or vertex execution, end with
    arrays of the same sizes and both pointers between 0 and
    [VM_STACK_SIZE]. *)
Theorem vm_inv_preserved (vm : milo_vm_t) :
  vm_wf vm ->
  (0 <= div_sp vm <= VM_STACK_SIZE -> 0 <= ret_sp vm <= VM_STACK_SIZE ->
   (forall b vm', vm_step L vm = Some (b, vm') -> vm_inv vm') /\
   (forall rd rs1 rs2 imm rs3 u1 u2,
      (div_sp vm = VM_STACK_SIZE ->
       exec_op L vm OP_SSY rd rs1 rs2 imm rs3 u1 u2 = Some (true, vm)) /\
      (div_sp vm < VM_STACK_SIZE ->
       exec_op L vm OP_SSY rd rs1 rs2 imm rs3 u1 u2 =
         Some (true, set_div vm (<[Z.to_nat (div_sp vm) := imm]> (div_stack vm))
                             (div_sp vm + 1))) /\
      (div_sp vm = 0 ->
       exec_op L vm OP_JOIN rd rs1 rs2 imm rs3 u1 u2 = Some (true, vm)) /\
      (0 < div_sp vm ->
       exec_op L vm OP_JOIN rd rs1 rs2 imm rs3 u1 u2 =
         Some (true, set_div vm (div_stack vm) (div_sp vm - 1))) /\
      (ret_sp vm = VM_STACK_SIZE ->
       exec_op L vm OP_CALL rd rs1 rs2 imm rs3 u1 u2 = Some (true, set_pc vm imm)) /\
      (ret_sp vm < VM_STACK_SIZE ->
       exec_op L vm OP_CALL rd rs1 rs2 imm rs3 u1 u2 =
         Some (true, set_pc (set_ret vm (<[Z.to_nat (ret_sp vm) := pc vm]> (ret_stack vm))
                                     (ret_sp vm + 1)) imm)) /\
      (ret_sp vm = 0 ->
       exec_op L vm OP_RET rd rs1 rs2 imm rs3 u1 u2 = Some (false, set_running vm false)) /\
      (0 < ret_sp vm ->
       exists target,
         ret_stack vm !! Z.to_nat (ret_sp vm - 1) = Some target /\
         exec_op L vm OP_RET rd rs1 rs2 imm rs3 u1 u2 =
           Some (true, set_pc (set_ret vm (ret_stack vm) (ret_sp vm - 1)) target)) /\
      (ret_sp vm < VM_STACK_SIZE ->
       exists vm1 vm2,
         exec_op L vm OP_CALL rd rs1 rs2 imm rs3 u1 u2 = Some (true, vm1) /\
         exec_op L vm1 OP_RET rd rs1 rs2 imm rs3 u1 u2 = Some (true, vm2) /\
         pc vm2 = pc vm /\ ret_sp vm2 = ret_sp vm /\ div_sp vm2 = div_sp vm /\
         regs vm2 = regs vm /\ mem vm2 = mem vm))) /\
  (forall fin out ok vm' out',
     milo_vm_exec_fragment L vm fin out = Some (ok, vm', out') -> vm_inv vm') /\
  (forall vin ok vm' out',
     milo_vm_exec_vertex L vm vin = Some (ok, vm', out') -> vm_inv vm').
Proof.
  intros Hwf. split; [| split].
  - intros Hd Hr. split.
    { intros b vm' Hs. eapply vm_step_keeps_inv_aux; [| exact Hs].
      split; [exact Hwf | split; assumption]. }
    destruct Hwf as (_ & _ & Hds & Hrs & _).
    unfold VM_STACK_SIZE in *.
    intros rd rs1 rs2 imm rs3 u1 u2.
    rewrite exec_op_ssy, exec_op_join, exec_op_call, exec_op_ret.
    unfold VM_STACK_SIZE.
    assert (Hcall : ret_sp vm < 256 ->
              arr_set (ret_stack vm) (ret_sp vm) (pc vm) =
                Some (<[Z.to_nat (ret_sp vm) := pc vm]> (ret_stack vm))).
    { intros Hlt. apply arr_set_in_range. rewrite Hrs. lia. }
    repeat split.
    + intros ->. reflexivity.
    + intros Hlt. destruct (Z.ltb_spec (div_sp vm) 256); [| lia].
      rewrite arr_set_in_range by (rewrite Hds; lia). reflexivity.
    + intros ->. reflexivity.
    + intros Hlt. destruct (Z.ltb_spec 0 (div_sp vm)); [| lia]. reflexivity.
    + intros ->. reflexivity.
    + intros Hlt. destruct (Z.ltb_spec (ret_sp vm) 256); [| lia].
      rewrite (Hcall Hlt). reflexivity.
    + intros ->. reflexivity.
    + intros Hlt. destruct (Z.ltb_spec 0 (ret_sp vm)); [| lia].
      assert (Hs : is_Some (ret_stack vm !! Z.to_nat (ret_sp vm - 1))).
      { apply lookup_lt_is_Some_2. rewrite Hrs. lia. }
      destruct Hs as [target Ht]. exists target. split; [exact Ht |].
      unfold arr_get. destruct (Z.leb_spec 0 (ret_sp vm - 1)); [| lia].
      rewrite Ht. reflexivity.
    + intros Hlt. destruct (Z.ltb_spec (ret_sp vm) 256); [| lia].
      rewrite (Hcall Hlt). cbn [mbind option_bind].
      eexists _, _. split; [reflexivity |].
      rewrite exec_op_ret. cbn [ret_sp ret_stack set_pc set_ret].
      destruct (Z.ltb_spec 0 (ret_sp vm + 1)); [| lia].
      unfold arr_get. destruct (Z.leb_spec 0 (ret_sp vm + 1 - 1)); [| lia].
      replace (ret_sp vm + 1 - 1) with (ret_sp vm) by lia.
      rewrite list_lookup_insert_eq by (rewrite Hrs; lia).
      cbn [mbind option_bind]. split; [reflexivity |].
      cbn. repeat split; reflexivity.
  - intros fin out ok vm' out'. unfold milo_vm_exec_fragment. intros H.
    apply bind_Some in H. destruct H as (vm0 & Hreset & H).
    apply bind_Some in H. destruct H as (vm1 & Hrun & H).
    apply (fragment_reset_inv _ _ _ Hwf) in Hreset.
    apply (run_loop_keeps_inv _ _ _ Hreset) in Hrun.
    destruct (max_cycles vm1 <=? cycle_count vm1).
    + injection H as _ <- _. exact Hrun.
    + repeat (apply bind_Some in H; destruct H as (? & _ & H)).
      injection H as _ <- _. exact Hrun.
  - intros vin ok vm' out'. unfold milo_vm_exec_vertex. intros H.
    apply bind_Some in H. destruct H as (vm0 & Hreset & H).
    apply bind_Some in H. destruct H as (vm1 & Hrun & H).
    apply (vertex_reset_inv _ _ _ Hwf) in Hreset.
    apply (run_loop_keeps_inv _ _ _ Hreset) in Hrun.
    repeat (apply bind_Some in H; destruct H as (? & _ & H)).
    injection H as _ <- _. exact Hrun.
Qed.

End Invariant.

(** A machine whose two stacks are full, standing behind a [call] to 9. *)
Definition full_stack_vm : milo_vm_t :=
  {| regs := replicate 64 0; code := 0xFF00000070000000 :: replicate 4095 0;
     code_size := 1; pc := 1;
     div_stack := replicate 256 7; div_sp := 256;
     ret_stack := replicate 256 5; ret_sp := 256;
     uniforms := replicate 32 (replicate 16 0); uniform_count := 0;
     textures := replicate 8 None; mem := replicate 2048 0;
     running := true; discarded := false; cycle_count := 1;
     max_cycles := 4; error := "" |}.

(** On full stacks [ssy] changes nothing and [call] only jumps; [ret] then
    goes to the top of the old stack, not behind the [call]. *)
Lemma vm_inv_preserved_witness :
  vm_wf full_stack_vm /\
  exec_op example_libc full_stack_vm OP_SSY 0 0 0 9 0 0 0 = Some (true, full_stack_vm) /\
  exec_op example_libc full_stack_vm OP_CALL 0 0 0 9 0 0 0 =
    Some (true, set_pc full_stack_vm 9) /\
  exists target,
    ret_stack full_stack_vm !! Z.to_nat (ret_sp full_stack_vm - 1) = Some target /\
    exec_op example_libc full_stack_vm OP_RET 0 0 0 9 0 0 0 =
      Some (true, set_pc (set_ret full_stack_vm (ret_stack full_stack_vm)
                                  (ret_sp full_stack_vm - 1)) target).
Proof.
  assert (Hwf : vm_wf full_stack_vm) by (repeat split; reflexivity).
  split; [exact Hwf |].
  destruct (vm_inv_preserved example_libc full_stack_vm Hwf) as (Hs & _).
  assert (Hd : 0 <= div_sp full_stack_vm <= VM_STACK_SIZE)
    by (cbn; unfold VM_STACK_SIZE; lia).
  assert (Hr : 0 <= ret_sp full_stack_vm <= VM_STACK_SIZE)
    by (cbn; unfold VM_STACK_SIZE; lia).
  destruct (Hs Hd Hr) as (_ & Hops).
  destruct (Hops 0 0 0 9 0 0 0) as (Hssy & _ & _ & _ & Hcall & _ & _ & Hret & _).
  split; [apply Hssy; reflexivity |].
  split; [apply Hcall; reflexivity |].
  apply Hret. cbn. lia.
Defined.

(** ** The bit loops of [popc], [clz] and [brev] *)

Lemma land_bit (v i : Z) :
  0 <= i -> (Z.land v (Z.shiftl 1 i) =? 0) = negb (Z.testbit v i).
Proof.
  intros Hi. destruct (Z.testbit v i) eqn:Hb; cbn [negb].
  - apply Z.eqb_neq. intros H0.
    assert (Ht : Z.testbit (Z.land v (Z.shiftl 1 i)) i = true).
    { rewrite Z.land_spec, Hb, Z.shiftl_spec by lia.
      replace (i - i) with 0 by lia. reflexivity. }
    rewrite H0, Z.testbit_0_l in Ht. discriminate Ht.
  - apply Z.eqb_eq. apply Z.bits_inj'. intros j Hj.
    rewrite Z.land_spec, Z.testbit_0_l, Z.shiftl_spec by lia.
    destruct (Z.eq_dec j i) as [-> | Hne]; [rewrite Hb; reflexivity |].
    destruct (Z.lt_ge_cases j i).
    + rewrite (Z.testbit_neg_r 1) by lia. apply andb_false_r.
    + replace (Z.testbit 1 (j - i)) with false; [apply andb_false_r |].
      symmetry. apply (testbit_high 1); lia.
Qed.

Lemma top_bit (v : Z) (i : Z) :
  0 <= i -> 0 <= v < 2 ^ (i + 1) -> Z.testbit v i = (2 ^ i <=? v).
Proof.
  intros Hi Hv. destruct (Z.leb_spec (2 ^ i) v) as [Hge | Hlt].
  - apply Z.testbit_true; [lia |].
    assert (Hq : v / 2 ^ i = 1).
    { symmetry. apply (Z.div_unique v (2 ^ i) 1 (v - 2 ^ i)); [| lia].
      left. rewrite Z.pow_add_r in Hv by lia. lia. }
    rewrite Hq. reflexivity.
  - apply (testbit_high i); lia.
Qed.

(** [clz_loop] counts from bit [n - 1] down. *)
Lemma clz_loop_spec (n : nat) :
  forall v c, 0 <= v < 2 ^ Z.of_nat n ->
    clz_loop n v c =
      c + (if v =? 0 then Z.of_nat n else Z.of_nat n - 1 - Z.log2 v).
Proof.
  induction n as [| i IH]; intros v c Hv.
  - cbn [clz_loop]. assert (v = 0) by (cbn in Hv; lia). subst v. cbn. lia.
  - cbn [clz_loop]. rewrite land_bit by lia.
    rewrite (top_bit v (Z.of_nat i)) by (rewrite ?Nat2Z.inj_succ in *; lia).
    destruct (Z.leb_spec (2 ^ Z.of_nat i) v) as [Hge | Hlt]; cbn [negb].
    + assert (Hpos : 0 < v) by (pose proof (Z.pow_pos_nonneg 2 (Z.of_nat i)); lia).
      destruct (Z.eqb_spec v 0); [lia |].
      assert (Hl : Z.log2 v = Z.of_nat i).
      { apply Z.log2_unique; [lia |]. rewrite Nat2Z.inj_succ in Hv.
        unfold Z.succ in Hv. split; [exact Hge | apply Hv]. }
      rewrite Hl. lia.
    + rewrite IH by lia. destruct (Z.eqb_spec v 0); lia.
Qed.

(** The number of set bits among bits [0 .. n - 1]. *)
Definition bit_count (n : nat) (v : Z) : Z :=
  fold_right Z.add 0 (map (fun i => Z.b2z (Z.testbit v (Z.of_nat i))) (seq 0 n)).

Lemma bit_count_zero (n : nat) : bit_count n 0 = 0.
Proof.
  unfold bit_count. induction (seq 0 n) as [| i l IH]; cbn; [reflexivity |].
  fold (Z.testbit 0 (Z.of_nat i)). rewrite Z.testbit_0_l. cbn. exact IH.
Qed.

Lemma bit_count_succ (n : nat) (v : Z) :
  bit_count (S n) v = Z.b2z (Z.testbit v 0) + bit_count n (Z.shiftr v 1).
Proof.
  unfold bit_count. rewrite <- cons_seq, <- seq_shift.
  cbn [map fold_right]. rewrite map_map. f_equal. f_equal. apply map_ext. intros i.
  rewrite Z.shiftr_spec by lia. f_equal. f_equal. lia.
Qed.

Lemma popc_loop_spec (n : nat) :
  forall v c, 0 <= v < 2 ^ Z.of_nat n -> popc_loop n v c = c + bit_count n v.
Proof.
  induction n as [| n IH]; intros v c Hv.
  - cbn [popc_loop]. unfold bit_count. cbn. lia.
  - cbn [popc_loop]. destruct (Z.eqb_spec v 0) as [-> | Hne].
    + rewrite bit_count_zero. lia.
    + rewrite bit_count_succ.
      assert (Hb : Z.land v 1 = Z.b2z (Z.testbit v 0)).
      { change 1 with (Z.ones 1). rewrite Z.land_ones by lia.
        rewrite Z.bit0_mod. reflexivity. }
      rewrite IH.
      * rewrite Hb. lia.
      * rewrite Z.shiftr_div_pow2 by lia. rewrite Nat2Z.inj_succ in Hv.
        unfold Z.succ in Hv. rewrite Z.pow_add_r in Hv by lia.
        change (2 ^ 1) with 2 in *. split.
        -- apply Z.div_pos; lia.
        -- apply Z.div_lt_upper_bound; lia.
Qed.

(** After the rounds [i .. i + n - 1], bit [j] of the result is bit [j] of
    [r] or, for [31 - j] among the rounds, bit [31 - j] of [v]. *)
Lemma brev_loop_bits (n : nat) :
  forall i v r j, 0 <= i -> i + Z.of_nat n <= 32 -> 0 <= j ->
    Z.testbit (brev_loop n i v r) j =
      Z.testbit r j || ((i <=? 31 - j) && (31 - j <? i + Z.of_nat n) && Z.testbit v (31 - j)).
Proof.
  induction n as [| n IH]; intros i v r j Hi Hn Hj.
  - cbn [brev_loop].
    destruct (Z.leb_spec i (31 - j)); destruct (Z.ltb_spec (31 - j) (i + Z.of_nat 0%nat));
      cbn [andb]; rewrite ?orb_false_r; try reflexivity; lia.
  - cbn [brev_loop]. rewrite IH by lia.
    rewrite Z.lor_spec, Z.shiftl_spec by lia.
    destruct (Z.eq_dec j (31 - i)) as [-> | Hne].
    + replace (31 - i - (31 - i)) with 0 by lia.
      replace (31 - (31 - i)) with i by lia.
      rewrite Z.land_spec, Z.shiftr_spec by lia. cbn [Z.add].
      change (Z.testbit 1 0) with true. rewrite andb_true_r.
      replace (0 + i) with i by lia.
      destruct (Z.leb_spec (i + 1) i); [lia |].
      destruct (Z.leb_spec i i); [| lia].
      destruct (Z.ltb_spec i (i + Z.of_nat (S n))); [| lia].
      cbn [andb]. rewrite orb_false_r. reflexivity.
    + assert (Hx : Z.testbit (Z.land (Z.shiftr v i) 1) (j - (31 - i)) = false).
      { destruct (Z.lt_ge_cases (j - (31 - i)) 0).
        - apply Z.testbit_neg_r. lia.
        - rewrite Z.land_spec.
          replace (Z.testbit 1 (j - (31 - i))) with false; [apply andb_false_r |].
          symmetry. apply (testbit_high 1); lia. }
      rewrite Hx, orb_false_r. f_equal.
      destruct (Z.leb_spec (i + 1) (31 - j)); destruct (Z.leb_spec i (31 - j));
        destruct (Z.ltb_spec (31 - j) (i + 1 + Z.of_nat n));
        destruct (Z.ltb_spec (31 - j) (i + Z.of_nat (S n)));
        cbn [andb]; try reflexivity; lia.
Qed.

(** X8.  [popc] counts the set bits, [clz] is 32 for 0 and [31 - log2] otherwise,
    and [brev] mirrors the 32 bits, so that it is its own inverse. *)
Theorem bit_loops_spec (v : Z) :
  0 <= v < 2 ^ 32 ->
  popc_loop 32 v 0 = bit_count 32 v /\
  clz_loop 32 v 0 = (if v =? 0 then 32 else 31 - Z.log2 v) /\
  (forall j, 0 <= j < 32 ->
     Z.testbit (brev_loop 32 0 v 0) j = Z.testbit v (31 - j)) /\
  0 <= brev_loop 32 0 v 0 < 2 ^ 32 /\
  brev_loop 32 0 (brev_loop 32 0 v 0) 0 = v.
Proof.
  intros Hv.
  assert (Hbits : forall w j, 0 <= j ->
            Z.testbit (brev_loop 32 0 w 0) j =
              (j <? 32) && Z.testbit w (31 - j)).
  { intros w j Hj. rewrite brev_loop_bits by (cbn; lia).
    rewrite Z.testbit_0_l. cbn [orb].
    change (0 + Z.of_nat 32) with 32.
    destruct (Z.leb_spec 0 (31 - j)); destruct (Z.ltb_spec (31 - j) 32);
      destruct (Z.ltb_spec j 32); cbn [andb]; try reflexivity; lia. }
  assert (Hrange : forall w, 0 <= brev_loop 32 0 w 0 < 2 ^ 32).
  { intros w.
    assert (Hnn : 0 <= brev_loop 32 0 w 0).
    { apply Z.bits_iff_nonneg_ex. exists 32. intros m Hm.
      rewrite Hbits by lia. destruct (Z.ltb_spec m 32); [lia | reflexivity]. }
    split; [exact Hnn |].
    destruct (Z.eq_dec (brev_loop 32 0 w 0) 0) as [-> | Hne]; [lia |].
    apply Z.log2_lt_pow2; [lia |].
    destruct (Z.lt_ge_cases (Z.log2 (brev_loop 32 0 w 0)) 32) as [Hl | Hl];
      [exact Hl |].
    assert (Hb : Z.testbit (brev_loop 32 0 w 0) (Z.log2 (brev_loop 32 0 w 0)) = true)
      by (apply Z.bit_log2; lia).
    rewrite Hbits in Hb by lia.
    destruct (Z.ltb_spec (Z.log2 (brev_loop 32 0 w 0)) 32); [lia | discriminate Hb]. }
  split; [rewrite popc_loop_spec by (cbn; lia); lia |].
  split; [rewrite clz_loop_spec by (cbn; lia); destruct (v =? 0); cbn; lia |].
  split.
  { intros j Hj. rewrite Hbits by lia.
    destruct (Z.ltb_spec j 32); [reflexivity | lia]. }
  split; [apply Hrange |].
  apply Z.bits_inj'. intros j Hj. rewrite Hbits by lia.
  destruct (Z.ltb_spec j 32) as [Hlt | Hge]; cbn [andb].
  - rewrite Hbits by lia. destruct (Z.ltb_spec (31 - j) 32); [| lia].
    cbn [andb]. f_equal. lia.
  - symmetry. apply (testbit_high 32); lia.
Qed.

Lemma bit_loops_spec_witness :
  popc_loop 32 0xF0 0 = 4 /\ clz_loop 32 0xF0 0 = 24 /\
  brev_loop 32 0 0xF0 0 = 0x0F000000.
Proof.
  destruct (bit_loops_spec 0xF0) as (Hp & Hc & _ & _ & _); [lia |].
  split; [rewrite Hp; reflexivity |].
  split; [rewrite Hc; reflexivity | reflexivity].
Defined.

(** ** What the interpreter reads from an assembled word *)

Ltac field_bits inst :=
  repeat match goal with
  | |- context [Z.testbit (opcode inst) ?k] =>
      rewrite (testbit_high 8 (opcode inst) k) by lia
  | |- context [Z.testbit (rd inst) ?k] =>
      rewrite (testbit_high 8 (rd inst) k) by lia
  | |- context [Z.testbit (rs1 inst) ?k] =>
      rewrite (testbit_high 8 (rs1 inst) k) by lia
  | |- context [Z.testbit (rs2 inst) ?k] =>
      rewrite (testbit_high 8 (rs2 inst) k) by lia
  | |- context [Z.testbit (rs3 inst) ?k] =>
      rewrite (testbit_high 8 (rs3 inst) k) by lia
  end.

(** The four byte fields of an encoded instruction, as [vm_step] extracts
    them. *)
Lemma encode_byte_fields (inst : milo_inst_t) :
  inst_in_range inst ->
  inst_opcode (milo_encode_inst inst) = opcode inst /\
  inst_rd (milo_encode_inst inst) = rd inst /\
  inst_rs1 (milo_encode_inst inst) = rs1 inst /\
  inst_rs2 (milo_encode_inst inst) = rs2 inst.
Proof.
  intros (Hop & Hrd & H1 & H2 & H3 & _ & _).
  unfold milo_encode_inst, inst_opcode, inst_rd, inst_rs1, inst_rs2.
  set (p := if pred inst =? 0 then 7 else pred inst).
  change 255 with (Z.ones 8). change 15 with (Z.ones 4).
  change 1048575 with (Z.ones 20).
  destruct (has_rs3 inst); repeat split.
  all: bits_by_range i (fun i => i < 8 \/ 8 <= i).
  all: field_bits inst; bit_bool; try reflexivity.
Qed.

(** The low 20 bits of an encoded instruction are those of the immediate. *)
Lemma encode_low20 (inst : milo_inst_t) :
  inst_in_range inst ->
  Z.land (milo_encode_inst inst) 0xFFFFF = Z.land (imm inst) 0xFFFFF.
Proof.
  intros (Hop & Hrd & H1 & H2 & H3 & _ & _).
  unfold milo_encode_inst.
  set (p := if pred inst =? 0 then 7 else pred inst).
  change 15 with (Z.ones 4). change 1048575 with (Z.ones 20).
  destruct (has_rs3 inst).
  all: bits_by_range i (fun i => i < 20 \/ 20 <= i).
Qed.

(** Sign extension of a 20-bit field, read back as [uint32_t]. *)
Lemma inst_imm_signed (w v : Z) :
  - 2 ^ 19 <= v < 2 ^ 19 ->
  Z.land w 0xFFFFF = Z.land (u32 v) 0xFFFFF ->
  inst_imm w = v.
Proof.
  intros Hv Hw. unfold inst_imm. cbv zeta. rewrite Hw.
  change 1048575 with (Z.ones 20). rewrite Z.land_ones by lia.
  unfold u32.
  assert (Hm : (v mod 2 ^ 32) mod 2 ^ 20 = v mod 2 ^ 20).
  { apply Z.mod_mod_divide. exists (2 ^ 12). reflexivity. }
  rewrite Hm.
  change 524288 with (Z.shiftl 1 19). rewrite land_bit by lia.
  assert (Hr : 0 <= v mod 2 ^ 20 < 2 ^ 20) by (apply Z.mod_pos_bound; lia).
  rewrite (top_bit _ 19) by (change (19 + 1) with 20; lia).
  destruct (Z.leb_spec (2 ^ 19) (v mod 2 ^ 20)) as [Hhi | Hlo]; cbn [negb].
  - assert (Hneg : v < 0).
    { destruct (Z.lt_ge_cases v 0); [assumption |].
      rewrite Z.mod_small in Hhi by lia. lia. }
    assert (Hmod : v mod 2 ^ 20 = v + 2 ^ 20).
    { symmetry. apply (Z.mod_unique v (2 ^ 20) (-1)); [lia | lia]. }
    rewrite Hmod.
    assert (Hor : Z.lor (v + 2 ^ 20) 0xFFF00000 = v + 2 ^ 32).
    { assert (Hland : Z.land (v + 2 ^ 20) 0xFFF00000 = 0).
      { apply Z.bits_inj'. intros i Hi. rewrite Z.land_spec, Z.testbit_0_l.
        change 4293918720 with (Z.shiftl (Z.ones 12) 20).
        destruct (Z.lt_ge_cases i 20).
        - rewrite (Z.shiftl_spec_low (Z.ones 12)) by lia. apply andb_false_r.
        - rewrite (testbit_high 20 (v + 2 ^ 20)) by lia. reflexivity. }
      pose proof (Z.add_lor_land (v + 2 ^ 20) 0xFFF00000) as Ha.
      rewrite Hland in Ha. lia. }
    rewrite Hor. unfold s32.
    replace (v + 2 ^ 32 + 2 ^ 31) with (v + 2 ^ 31 + 1 * 2 ^ 32) by lia.
    rewrite Z.mod_add by lia. rewrite Z.mod_small by lia. lia.
  - assert (Hpos : 0 <= v).
    { destruct (Z.lt_ge_cases v 0) as [Hn |]; [| assumption].
      assert (Hmod : v mod 2 ^ 20 = v + 2 ^ 20).
      { symmetry. apply (Z.mod_unique v (2 ^ 20) (-1)); [lia | lia]. }
      lia. }
    apply Z.mod_small. lia.
Qed.

(** X9.  An instruction goes through [milo_encode_inst] to the interpreter's
    field extractors unchanged in opcode, [rd], [rs1] and [rs2]; an
    immediate that is the 32-bit pattern of a signed 20-bit value [v] is
    read back as [v] by [inst_imm]; the guard nibble is [pred], or 0x7 for
    [pred = 0]. *)
Theorem encode_read_back (inst : milo_inst_t) (v : Z) :
  inst_in_range inst -> - 2 ^ 19 <= v < 2 ^ 19 -> imm inst = u32 v ->
  inst_opcode (milo_encode_inst inst) = opcode inst /\
  inst_rd (milo_encode_inst inst) = rd inst /\
  inst_rs1 (milo_encode_inst inst) = rs1 inst /\
  inst_rs2 (milo_encode_inst inst) = rs2 inst /\
  inst_imm (milo_encode_inst inst) = v /\
  u32 (inst_imm (milo_encode_inst inst)) = imm inst.
Proof.
  intros Hr Hv Hi.
  destruct (encode_byte_fields inst Hr) as (H1 & H2 & H3 & H4).
  assert (H5 : inst_imm (milo_encode_inst inst) = v).
  { apply inst_imm_signed; [exact Hv |]. rewrite <- Hi. apply encode_low20. exact Hr. }
  rewrite H5. repeat split; try assumption. symmetry. exact Hi.
Qed.

Lemma encode_read_back_witness :
  inst_imm (milo_encode_inst
    {| opcode := OP_ADD; rd := 8; rs1 := 0; rs2 := 0; rs3 := 0; pred := 0;
       imm := u32 (-5); has_imm := true; has_rs3 := false |}) = -5.
Proof.
  refine (proj1 (proj2 (proj2 (proj2 (proj2 (encode_read_back _ (-5) _ _ _)))))).
  - unfold inst_in_range.
    repeat split; first [apply Z.leb_le; reflexivity | apply Z.ltb_lt; reflexivity].
  - lia.
  - reflexivity.
Defined.

(** Patching keeps the opcode and the register fields, and the interpreter
    reads the label address back as the immediate. *)
Lemma patch_word_fields (w addr : Z) :
  0 <= addr < 2 ^ 19 ->
  inst_opcode (patch_word w addr) = inst_opcode w /\
  inst_rd (patch_word w addr) = inst_rd w /\
  inst_rs1 (patch_word w addr) = inst_rs1 w /\
  inst_rs2 (patch_word w addr) = inst_rs2 w /\
  inst_imm (patch_word w addr) = addr.
Proof.
  intros Ha.
  assert (Hhi : forall i, 19 <= i -> Z.testbit addr i = false).
  { intros i Hi. apply (testbit_high 19); lia. }
  unfold patch_word, inst_opcode, inst_rd, inst_rs1, inst_rs2.
  change 0xFFFFFFFF00000000 with (Z.shiftl (Z.ones 32) 32).
  change 255 with (Z.ones 8).
  repeat split.
  1-4: bits_by_range i (fun i => i < 8 \/ 8 <= i); rewrite Hhi by lia; bit_bool;
       reflexivity.
  apply inst_imm_signed; [lia |].
  unfold u32. rewrite (Z.mod_small addr) by lia.
  change 1048575 with (Z.ones 20).
  bits_by_range i (fun i => i < 20 \/ 20 <= i).
Qed.

Definition same_fields (w w' : Z) : Prop :=
  inst_opcode w' = inst_opcode w /\ inst_rd w' = inst_rd w /\
  inst_rs1 w' = inst_rs1 w /\ inst_rs2 w' = inst_rs2 w.

Lemma resolve_loop_fields (unres : list unresolved_t) (i : nat) :
  forall a b a' w,
    Forall (fun l => 0 <= l_address l < 2 ^ 19) (as_labels a) ->
    resolve_loop a unres = (b, a') ->
    as_code a !! i = Some w ->
    exists w', as_code a' !! i = Some w' /\ same_fields w w'.
Proof.
  induction unres as [| u unres IH]; intros a b a' w Hl H Hw; cbn in H.
  - injection H as <- <-. exists w. split; [exact Hw |]. repeat split.
  - destruct (find_label (as_labels a) (u_label u)) as [l |] eqn:Hf.
    + apply find_label_Some in Hf. destruct Hf as [Hin _].
      pose proof (proj1 (Forall_forall _ _) Hl _ Hin) as Hr. cbn beta in Hr.
      destruct (as_code a !! Z.to_nat (u_address u)) as [word |] eqn:Hword.
      * destruct (decide (Z.to_nat (u_address u) = i)) as [Heq | Hne].
        -- subst i. rewrite Hword in Hw. injection Hw as ->.
           eapply IH in H; [| exact Hl |].
           2:{ cbn [as_code]. apply list_lookup_insert_eq.
               apply lookup_lt_Some in Hword. exact Hword. }
           destruct H as (w' & Hw' & Hs). exists w'. split; [exact Hw' |].
           destruct (patch_word_fields w (l_address l) Hr) as (P1 & P2 & P3 & P4 & _).
           destruct Hs as (S1 & S2 & S3 & S4).
           unfold same_fields. rewrite S1, S2, S3, S4. auto.
        -- eapply IH in H; [exact H | exact Hl |].
           cbn [as_code]. rewrite list_lookup_insert_ne by exact Hne. exact Hw.
      * eapply IH in H; [exact H | exact Hl | exact Hw].
    + injection H as <- <-. exists w. split; [exact Hw |]. repeat split.
Qed.

Section AssembledProgram.

Variable L : libc_t.

(** X10.  A text that assembles gives a program within the arrays of the
    assembler, with every label inside the program and nothing left
    unresolved; [milo_asm_resolve] changes no opcode and no register field,
    and the immediate the interpreter reads from each instruction with a
    label operand is the address of a label of the unit. *)
Theorem asm_source_targets (unres0 : list unresolved_t) (source : string)
    (a : milo_asm_t) (unres : list unresolved_t) :
  milo_asm_source L milo_asm_init unres0 source = (true, a, unres) ->
  unres = [] /\
  as_code_size a <= MILO_MAX_CODE_SIZE /\
  as_label_count a <= MILO_MAX_LABELS /\
  Forall (fun l => 0 <= l_address l <= as_code_size a) (as_labels a) /\
  exists a1 unres1,
    asm_lines L milo_asm_init [] (extract_lines source [] 0 false) 1 =
      (true, a1, unres1) /\
    as_labels a = as_labels a1 /\
    length (as_code a) = length (as_code a1) /\
    (forall i w, as_code a1 !! i = Some w ->
       exists w', as_code a !! i = Some w' /\ same_fields w w') /\
    (forall u, u ∈ unres1 ->
       exists w' l, as_code a !! Z.to_nat (u_address u) = Some w' /\
         l ∈ as_labels a /\ inst_imm w' = l_address l).
Proof.
  unfold milo_asm_source.
  destruct (asm_lines L milo_asm_init [] _ 1) as [[[] a1] unres1] eqn:Hlines;
    [| discriminate].
  unfold milo_asm_resolve.
  destruct (resolve_loop a1 unres1) as [[] a2] eqn:Hres; [| discriminate].
  intros [= <- <-].
  assert (Hinit : asm_inv milo_asm_init []).
  { unfold asm_inv, as_code_size, as_label_count, MILO_MAX_CODE_SIZE, MILO_MAX_LABELS.
    cbn. repeat split; try lia; constructor. }
  destruct (asm_lines_inv L _ _ _ _ _ _ Hinit Hlines) as [(Hc & Hl & Hu & Hla & Hua) _].
  pose proof (resolve_loop_labels _ _ _ _ Hres) as Hlab.
  pose proof (resolve_loop_length _ _ _ _ Hres) as Hlen.
  assert (Hsize : as_code_size a2 = as_code_size a1).
  { unfold as_code_size. rewrite Hlen. reflexivity. }
  assert (Hl19 : Forall (fun l => 0 <= l_address l < 2 ^ 19) (as_labels a1)).
  { eapply Forall_impl; [exact Hla |]. cbn. intros l Hr.
    unfold MILO_MAX_CODE_SIZE in Hc. lia. }
  split; [reflexivity |].
  split; [rewrite Hsize; exact Hc |].
  split; [unfold as_label_count in *; rewrite Hlab; exact Hl |].
  split; [rewrite Hlab, Hsize; exact Hla |].
  exists a1, unres1. split; [reflexivity |]. split; [exact Hlab |].
  split; [exact Hlen |]. split.
  - intros i w Hw. eapply resolve_loop_fields; eauto.
  - intros u Hu'.
    pose proof (proj1 (Forall_forall _ _) Hua _ Hu') as Hr. cbn beta in Hr.
    assert (Hlt : (Z.to_nat (u_address u) < length (as_code a2))%nat).
    { rewrite Hlen. unfold as_code_size in Hr. lia. }
    apply lookup_lt_is_Some_2 in Hlt. destruct Hlt as [w' Hw'].
    assert (Hex : Exists (fun u' => Z.to_nat (u_address u') = Z.to_nat (u_address u)) unres1).
    { apply Exists_exists. exists u. split; [exact Hu' | reflexivity]. }
    destruct (resolve_loop_patched _ _ _ _ _ Hres Hex Hw')
      as (u1 & l & w0 & _ & _ & Hin & _ & ->).
    exists (patch_word w0 (l_address l)), l. split; [exact Hw' |].
    split; [rewrite Hlab; exact Hin |].
    apply patch_word_fields. exact (proj1 (Forall_forall _ _) Hl19 _ Hin).
Qed.

End AssembledProgram.

Lemma asm_source_targets_witness :
  let a := {| as_code := [0x2200000000000000];
              as_labels := [ {| l_name := "L"; l_address := 0 |} ];
              as_error := ""; as_error_line := 0 |} in
  milo_asm_source example_libc milo_asm_init [] "L: bra L" = (true, a, []) /\
  as_code_size a <= MILO_MAX_CODE_SIZE /\
  map inst_imm (as_code a) = [0].
Proof.
  intros a.
  assert (H : milo_asm_source example_libc milo_asm_init [] "L: bra L" = (true, a, [])).
  { vm_compute. reflexivity. }
  split; [exact H |].
  split; [exact (proj1 (proj2 (asm_source_targets example_libc _ _ _ _ H))) |].
  reflexivity.
Defined.

(** ** Decimal text from [%d] back through [strtol] *)

(** The value of a digit sequence read from the left, starting from [acc]. *)
Fixpoint uint_value (d : Decimal.uint) (acc : Z) : Z :=
  match d with
  | Decimal.Nil => acc
  | Decimal.D0 d => uint_value d (acc * 10 + 0)
  | Decimal.D1 d => uint_value d (acc * 10 + 1)
  | Decimal.D2 d => uint_value d (acc * 10 + 2)
  | Decimal.D3 d => uint_value d (acc * 10 + 3)
  | Decimal.D4 d => uint_value d (acc * 10 + 4)
  | Decimal.D5 d => uint_value d (acc * 10 + 5)
  | Decimal.D6 d => uint_value d (acc * 10 + 6)
  | Decimal.D7 d => uint_value d (acc * 10 + 7)
  | Decimal.D8 d => uint_value d (acc * 10 + 8)
  | Decimal.D9 d => uint_value d (acc * 10 + 9)
  end.

Lemma of_uint_acc_value (d : Decimal.uint) :
  forall acc, Zpos (Pos.of_uint_acc d acc) = uint_value d (Zpos acc).
Proof.
  induction d; intros acc; cbn [Pos.of_uint_acc uint_value];
    try reflexivity; rewrite IHd; f_equal; lia.
Qed.

Lemma of_uint_value (d : Decimal.uint) :
  Z.of_N (Pos.of_uint d) = uint_value d 0.
Proof.
  induction d; cbn [Pos.of_uint uint_value Z.of_N]; try reflexivity;
    try exact IHd; apply of_uint_acc_value.
Qed.

Lemma to_uint_value (p : positive) : uint_value (Pos.to_uint p) 0 = Zpos p.
Proof. rewrite <- of_uint_value, DecimalPos.Unsigned.of_to. reflexivity. Qed.

(** [scan_digits] reads the whole of a printed digit sequence. *)
Lemma scan_digits_uint (d : Decimal.uint) :
  forall acc any,
    scan_digits 10 (NilEmpty.string_of_uint d) acc any =
      (uint_value d acc,
       match d with Decimal.Nil => any | _ => true end, "").
Proof.
  induction d; intros acc any; cbn [NilEmpty.string_of_uint uint_value];
    try reflexivity;
    cbn [scan_digits]; 
    match goal with
    | |- context [digit_val ?c] =>
        let v := eval vm_compute in (digit_val c) in
        change (digit_val c) with v
    end;
    cbn iota; 
    match goal with
    | |- context [?a <? 10] => change (a <? 10) with true
    end;
    cbn iota; rewrite IHd; destruct d; reflexivity.
Qed.

(** A printed digit sequence begins with a digit. *)
Lemma string_of_uint_head (d : Decimal.uint) :
  d <> Decimal.Nil ->
  exists c s, NilEmpty.string_of_uint d = String c s /\
    isspace c = false /\ Ascii.eqb c "-" = false /\ Ascii.eqb c "+" = false.
Proof.
  intros Hd. destruct d; [congruence | ..];
    eexists _, _; (split; [reflexivity |]); repeat split; reflexivity.
Qed.

Lemma strtol_uint (d : Decimal.uint) :
  d <> Decimal.Nil ->
  strtol (NilEmpty.string_of_uint d) 10 =
    (Z.max LONG_MIN (Z.min LONG_MAX (uint_value d 0)), "").
Proof.
  intros Hd. destruct (string_of_uint_head d Hd) as (c & s & Hs & Hsp & Hm & Hp).
  unfold strtol. rewrite Hs. cbn [skip_space]. rewrite Hsp.
  assert (Hsign :
    match String c s with
    | String "-"%char s' => (true, s')
    | String "+"%char s' => (false, s')
    | _ => (false, String c s)
    end = (false, String c s)).
  { destruct c as [[] [] [] [] [] [] [] []]; try reflexivity; discriminate. }
  rewrite Hsign. change (10 =? 16) with false. cbn iota.
  rewrite <- Hs, scan_digits_uint. destruct d; [congruence | ..]; reflexivity.
Qed.

Lemma strtol_neg_uint (d : Decimal.uint) :
  d <> Decimal.Nil ->
  strtol (String "-" (NilEmpty.string_of_uint d)) 10 =
    (Z.max LONG_MIN (Z.min LONG_MAX (- uint_value d 0)), "").
Proof.
  intros Hd. unfold strtol. cbn [skip_space].
  change (isspace "-") with false. cbn iota.
  change (10 =? 16) with false. cbn iota.
  rewrite scan_digits_uint. destruct d; [congruence | ..]; reflexivity.
Qed.

(** [strtol] reads back what [%d] printed. *)
Lemma strtol_fmt_d (z : Z) :
  LONG_MIN <= z <= LONG_MAX -> strtol (fmt_d z) 10 = (z, "").
Proof.
  intros Hz. unfold fmt_d. destruct z as [| p | p]; cbn [Z.to_int NilZero.string_of_int].
  - reflexivity.
  - pose proof (Unsigned.to_uint_nonnil p) as Hn.
    replace (NilZero.string_of_uint (Pos.to_uint p))
      with (NilEmpty.string_of_uint (Pos.to_uint p))
      by (unfold NilZero.string_of_uint; destruct (Pos.to_uint p); congruence).
    rewrite strtol_uint by exact Hn. rewrite to_uint_value. f_equal. lia.
  - pose proof (Unsigned.to_uint_nonnil p) as Hn.
    replace (NilZero.string_of_uint (Pos.to_uint p))
      with (NilEmpty.string_of_uint (Pos.to_uint p))
      by (unfold NilZero.string_of_uint; destruct (Pos.to_uint p); congruence).
    rewrite strtol_neg_uint by exact Hn. rewrite to_uint_value. f_equal. lia.
Qed.

Lemma string_of_uint_nilzero (p : positive) :
  NilZero.string_of_uint (Pos.to_uint p) = NilEmpty.string_of_uint (Pos.to_uint p).
Proof.
  pose proof (Unsigned.to_uint_nonnil p) as Hn.
  unfold NilZero.string_of_uint. destruct (Pos.to_uint p); congruence.
Qed.

(** No [0x] in front of printed digits: [parse_immediate] takes base 10. *)
Lemma parse_immediate_base10 (d : Decimal.uint) :
  parse_immediate (NilEmpty.string_of_uint d) =
    let '(val, endp) := strtol (NilEmpty.string_of_uint d) 10 in
    if negb (String.eqb endp "") then None else Some (u32 val).
Proof.
  unfold parse_immediate.
  destruct d as [| d | d | d | d | d | d | d | d | d | d]; try reflexivity.
  destruct d; reflexivity.
Qed.

(** The assembler reads an immediate operand printed with [%d] as that
    number, and a register operand printed as [r%d] as that register. *)
Lemma parse_immediate_fmt_d (v : Z) :
  LONG_MIN <= v <= LONG_MAX -> parse_immediate (fmt_d v) = Some (u32 v).
Proof.
  intros Hv. pose proof (strtol_fmt_d v Hv) as Hs. unfold fmt_d in *.
  destruct v as [| p | p]; cbn [Z.to_int NilZero.string_of_int] in *.
  - reflexivity.
  - rewrite string_of_uint_nilzero in *. rewrite parse_immediate_base10, Hs.
    reflexivity.
  - unfold parse_immediate. rewrite Hs. reflexivity.
Qed.

Lemma parse_register_r (n : Z) :
  0 <= n <= 63 -> parse_register (r_ n) = Some n.
Proof.
  intros Hn. unfold r_, parse_register. cbn [String.append].
  change (Ascii.eqb "r" "r" || Ascii.eqb "r" "R") with true. cbn iota.
  rewrite strtol_fmt_d by (unfold LONG_MIN, LONG_MAX; lia).
  change (negb (String.eqb "" "")) with false. cbn [orb].
  destruct (Z.ltb_spec n 0); [lia |]. destruct (Z.ltb_spec 63 n); [lia |].
  cbn [orb]. unfold u8. rewrite Z.mod_small by lia. reflexivity.
Qed.

Lemma s32_u32 (v : Z) : - 2 ^ 31 <= v < 2 ^ 31 -> s32 (u32 v) = v.
Proof.
  intros Hv. unfold s32, u32.
  rewrite Zplus_mod_idemp_l. rewrite Z.mod_small by lia. lia.
Qed.

Section IntLiteral.

Variable L : libc_t.

Lemma exec_op_add vm rd rs1 rs2 imm rs3 u1 u2 :
  exec_op L vm OP_ADD rd rs1 rs2 imm rs3 u1 u2 =
    if negb (imm =? 0) then wr vm rd (u32 (s32 u1 + s32 imm))
    else wr vm rd (u32 (s32 u1 + s32 u2)).
Proof. reflexivity. Qed.

(** The operands of [addi r<n>, r0, <v>], as the compiler prints them. *)
Lemma build_inst_addi (n v cs ln : Z) (inst : milo_inst_t) (unres : list unresolved_t) :
  0 <= n <= 63 -> LONG_MIN <= v <= LONG_MAX ->
  build_inst L "rri" 0 [r_ n; "r0"; fmt_d v] cs ln inst unres =
    (inl (set_imm_field (set_reg_field (set_reg_field inst 0 n) 1 0) (u32 v)), unres).
Proof.
  intros Hn Hv. cbn [build_inst].
  change (Ascii.eqb "r" "r") with true. cbn iota.
  rewrite parse_register_r by exact Hn.
  change (parse_register "r0") with (Some 0). cbn iota.
  change (Ascii.eqb "i" "r") with false. change (Ascii.eqb "i" "i") with true.
  cbn iota.
  assert (Hdot : strchr (fmt_d v) "." = None).
  { unfold fmt_d. destruct v as [| p | p]; cbn [Z.to_int NilZero.string_of_int].
    - reflexivity.
    - rewrite string_of_uint_nilzero.
      induction (Pos.to_uint p); cbn; try reflexivity; rewrite IHu; reflexivity.
    - rewrite string_of_uint_nilzero. cbn [strchr].
      change (Ascii.eqb "-" ".") with false. cbn iota.
      assert (H : strchr (NilEmpty.string_of_uint (Pos.to_uint p)) "." = None).
      { induction (Pos.to_uint p); cbn; try reflexivity; rewrite IHu; reflexivity. }
      rewrite H. reflexivity. }
  rewrite Hdot, parse_immediate_fmt_d by exact Hv. reflexivity.
Qed.

(** X12.  An integer literal in the 20-bit range: the operands the compiler prints
    for [addi r<n>, r0, <v>] are read by the assembler as register [n],
    register 0 and the immediate [v]; the interpreter, given the encoded
    word, writes the 32-bit pattern of [v] to register [n]. *)
Theorem int_literal_loads (n v cs ln : Z) (unres : list unresolved_t)
    (vm : milo_vm_t) :
  1 <= n <= 63 -> - 2 ^ 19 <= v < 2 ^ 19 ->
  vm_wf vm -> pc vm < code_size vm ->
  exists op inst unres',
    find_opcode "addi" = Some op /\
    build_inst L (op_format op) 0 [r_ n; "r0"; fmt_d v] cs ln
      {| opcode := op_opcode op; rd := 0; rs1 := 0; rs2 := 0; rs3 := 0;
         pred := 0; imm := 0; has_imm := false; has_rs3 := false |} unres
    = (inl inst, unres') /\
    unres' = unres /\
    inst_rd (milo_encode_inst inst) = n /\
    inst_imm (milo_encode_inst inst) = v /\
    (arr_get (code vm) (pc vm) = Some (milo_encode_inst inst) ->
     exists vm', vm_step L vm = Some (true, vm') /\
       regs vm' !! Z.to_nat n = Some (u32 v) /\ pc vm' = u32 (pc vm + 1)).
Proof.
  intros Hn Hv Hwf Hpc.
  eexists _, _, _. split; [vm_compute; reflexivity |].
  cbn [op_format op_opcode].
  split; [apply build_inst_addi; unfold LONG_MIN, LONG_MAX; lia |].
  split; [reflexivity |].
  match goal with |- context [milo_encode_inst ?i] => set (inst := i) end.
  assert (Hr : inst_in_range inst).
  { unfold inst_in_range, inst. cbn. unfold OP_ADD, u32.
    pose proof (Z.mod_pos_bound v (2 ^ 32)). lia. }
  destruct (encode_byte_fields inst Hr) as (Hop & Hrd & H1 & H2).
  assert (Himm : inst_imm (milo_encode_inst inst) = v).
  { apply inst_imm_signed; [exact Hv |]. apply (encode_low20 inst Hr). }
  change (opcode inst) with OP_ADD in Hop. change (rd inst) with n in Hrd.
  change (rs1 inst) with 0 in H1. change (rs2 inst) with 0 in H2.
  split; [exact Hrd |]. split; [exact Himm |].
  intros Hi. destruct Hwf as (Hlen & Hwf').
  set (r := <[0%nat := 0]> (regs vm)).
  assert (Hset : arr_set (regs vm) 0 0 = Some r).
  { apply arr_set_in_range. rewrite Hlen. lia. }
  assert (Hr0 : arr_get r 0 = Some 0).
  { unfold arr_get. cbn. apply list_lookup_insert_eq. rewrite Hlen. lia. }
  assert (Hlr : length r = 64%nat) by (unfold r; rewrite length_insert; exact Hlen).
  set (r1 := <[Z.to_nat n := u32 v]> r).
  exists (set_regs (set_regs (step_entry vm r) r1) (<[0%nat := 0]> r1)).
  split.
  - eapply (vm_step_continue L vm _ r 0 0); try eassumption.
    + rewrite H1. exact Hr0.
    + rewrite H2. exact Hr0.
    + rewrite Hop, Hrd, Himm. rewrite exec_op_add.
      assert (Hval : (if negb (u32 v =? 0) then wr (step_entry vm r) n (u32 (s32 0 + s32 (u32 v)))
                      else wr (step_entry vm r) n (u32 (s32 0 + s32 0)))
                     = wr (step_entry vm r) n (u32 v)).
      { destruct (Z.eqb_spec (u32 v) 0) as [Hz | Hnz]; cbn [negb].
        - rewrite Hz. reflexivity.
        - rewrite s32_u32 by lia. reflexivity. }
      rewrite Hval. unfold wr. cbn [regs step_entry set_cycle_count set_pc set_regs].
      rewrite arr_set_in_range by (rewrite Hlr; lia). reflexivity.
    + cbn [regs set_regs]. apply arr_set_in_range.
      unfold r1. rewrite length_insert, Hlr. lia.
  - cbn [regs set_regs pc step_entry set_cycle_count set_pc].
    split; [| reflexivity].
    rewrite list_lookup_insert_ne by lia.
    unfold r1. apply list_lookup_insert_eq. rewrite Hlr. lia.
Qed.

End IntLiteral.

Lemma int_literal_loads_witness :
  exists op inst,
    find_opcode "addi" = Some op /\
    inst_rd (milo_encode_inst inst) = 8 /\
    inst_imm (milo_encode_inst inst) = -5.
Proof.
  destruct (int_literal_loads example_libc 8 (-5) 0 1 []
              (snd (milo_vm_load_binary milo_vm_init [0x07080000700FFFFB])))
    as (op & inst & unres' & Hop & _ & _ & Hrd & Himm & _).
  - lia.
  - lia.
  - vm_compute. repeat split; reflexivity.
  - vm_compute. reflexivity.
  - exists op, inst. split; [exact Hop |]. split; [exact Hrd | exact Himm].
Defined.

(** X11.  What the compiler prints with [%d] and [r%d] the assembler reads back:
    [strtol] returns the number and stops at the end of the text,
    [parse_immediate] gives its 32-bit pattern, and [parse_register] accepts
    [r<n>] exactly for [n] from 0 to 63, so that a register number the
    compiler allocates beyond 63 is rejected. *)
Theorem decimal_operands_read_back (v : Z) :
  LONG_MIN <= v <= LONG_MAX ->
  strtol (fmt_d v) 10 = (v, "") /\
  parse_immediate (fmt_d v) = Some (u32 v) /\
  parse_register (r_ v) = (if (0 <=? v) && (v <=? 63) then Some v else None).
Proof.
  intros Hv. split; [apply strtol_fmt_d; exact Hv |].
  split; [apply parse_immediate_fmt_d; exact Hv |].
  destruct (Z.leb_spec 0 v) as [H0 | H0]; destruct (Z.leb_spec v 63) as [H63 | H63];
    cbn [andb]; try (apply parse_register_r; lia); try (exfalso; lia).
  - unfold r_, parse_register. cbn [String.append].
    change (Ascii.eqb "r" "r" || Ascii.eqb "r" "R") with true. cbn iota.
    rewrite strtol_fmt_d by exact Hv.
    destruct (Z.ltb_spec 63 v); [| lia]. rewrite orb_true_r. reflexivity.
  - unfold r_, parse_register. cbn [String.append].
    change (Ascii.eqb "r" "r" || Ascii.eqb "r" "R") with true. cbn iota.
    rewrite strtol_fmt_d by exact Hv.
    destruct (Z.ltb_spec v 0); [| lia]. rewrite orb_true_r. reflexivity.
Qed.

Lemma decimal_operands_read_back_witness :
  parse_immediate (fmt_d (-524288)) = Some (u32 (-524288)) /\
  parse_register (r_ 64) = None.
Proof.
  destruct (decimal_operands_read_back (-524288)) as (_ & Hi & _);
    [unfold LONG_MIN, LONG_MAX; lia |].
  destruct (decimal_operands_read_back 64) as (_ & _ & Hr);
    [unfold LONG_MIN, LONG_MAX; lia |].
  split; [exact Hi | exact Hr].
Defined.

(** ** Hexadecimal text from [%X] back through the [.data] scanner *)

(** The number of digits [hex_digits] prints. *)
Fixpoint hex_len (fuel : nat) (z : Z) : Z :=
  match fuel with
  | O => 0
  | S fuel' => if z / 16 =? 0 then 1 else 1 + hex_len fuel' (z / 16)
  end.

Lemma hex_len_nonneg (fuel : nat) : forall z, 0 <= hex_len fuel z.
Proof.
  induction fuel as [| fuel IH]; intros z; cbn [hex_len]; [lia |].
  destruct (z / 16 =? 0); [lia |]. specialize (IH (z / 16)). lia.
Qed.

Lemma scan_hex32_digit (d : Z) (t : string) (acc : Z) :
  0 <= d < 16 ->
  scan_hex32 (String (hex_digit d) t) acc = scan_hex32 t (u32 (u32 (acc * 16) + d)).
Proof.
  intros Hd.
  assert (H : d = 0 \/ d = 1 \/ d = 2 \/ d = 3 \/ d = 4 \/ d = 5 \/ d = 6 \/ d = 7 \/
              d = 8 \/ d = 9 \/ d = 10 \/ d = 11 \/ d = 12 \/ d = 13 \/ d = 14 \/ d = 15)
    by lia.
  repeat (destruct H as [-> | H]); try subst d; reflexivity.
Qed.

Lemma scan_hex32_digits (fuel : nat) :
  forall z t rest acc,
    0 <= z < 16 ^ Z.of_nat fuel -> 0 <= acc ->
    acc * 16 ^ hex_len fuel z + z < 2 ^ 32 ->
    scan_hex32 (hex_digits fuel z t +++ rest) acc =
      scan_hex32 (t +++ rest) (acc * 16 ^ hex_len fuel z + z).
Proof.
  induction fuel as [| fuel IH]; intros z t rest acc Hz Ha Hb.
  - cbn [hex_digits hex_len] in *. f_equal. cbn in Hz. lia.
  - cbn [hex_digits hex_len] in *.
    assert (Hz0 : 0 <= z) by lia.
    pose proof (Z.mod_pos_bound z 16 ltac:(lia)) as Hm.
    pose proof (Z.div_mod z 16 ltac:(lia)) as Hdm.
    destruct (Z.eqb_spec (z / 16) 0) as [Hq | Hq].
    + cbn [String.append]. rewrite scan_hex32_digit by exact Hm.
      rewrite Hq in Hdm. f_equal. unfold u32.
      rewrite (Z.mod_small (acc * 16)) by lia.
      rewrite Z.mod_small by lia. lia.
    + assert (Hq0 : 0 <= z / 16) by (apply Z.div_pos; lia).
      pose proof (hex_len_nonneg fuel (z / 16)) as Hl.
      assert (Hpow : 16 ^ (1 + hex_len fuel (z / 16)) = 16 * 16 ^ hex_len fuel (z / 16)).
      { rewrite Z.pow_add_r by lia. reflexivity. }
      rewrite Hpow in Hb |- *.
      assert (Hp : 0 < 16 ^ hex_len fuel (z / 16)) by (apply Z.pow_pos_nonneg; lia).
      rewrite IH.
      * cbn [String.append]. rewrite scan_hex32_digit by exact Hm.
        f_equal. unfold u32.
        rewrite (Z.mod_small (_ * 16)) by nia.
        rewrite Z.mod_small by nia. nia.
      * split; [exact Hq0 |]. rewrite Nat2Z.inj_succ in Hz. unfold Z.succ in Hz.
        rewrite Z.pow_add_r in Hz by lia. change (16 ^ 1) with 16 in Hz.
        apply Z.div_lt_upper_bound; lia.
      * exact Ha.
      * nia.
Qed.

Lemma scan_hex32_pad (n : nat) (s : string) :
  scan_hex32 (pad_zero n s) 0 = scan_hex32 s 0.
Proof. induction n as [| n IH]; cbn [pad_zero]; [reflexivity |]. exact IH. Qed.

Lemma pad_zero_append (n : nat) (s rest : string) :
  pad_zero n s +++ rest = pad_zero n (s +++ rest).
Proof. induction n as [| n IH]; cbn; [reflexivity |]. rewrite IH. reflexivity. Qed.

(** The text does not go on with a hexadecimal digit. *)
Definition stops_hex (rest : string) : bool :=
  match rest with
  | String c _ =>
      let n := char_code c in
      negb ((48 <=? n) && (n <=? 57)) && negb ((97 <=? n) && (n <=? 102))
      && negb ((65 <=? n) && (n <=? 70))
  | EmptyString => true
  end.

Lemma scan_hex32_stop (rest : string) (acc : Z) :
  stops_hex rest = true -> scan_hex32 rest acc = (acc, rest).
Proof.
  destruct rest as [| c r]; [reflexivity |]. cbn [stops_hex scan_hex32]. cbv zeta.
  destruct ((48 <=? char_code c) && (char_code c <=? 57)); [discriminate |].
  destruct ((97 <=? char_code c) && (char_code c <=? 102)); [discriminate |].
  destruct ((65 <=? char_code c) && (char_code c <=? 70)); [discriminate |].
  reflexivity.
Qed.

(** [%0wX] of a 32-bit value, read back by [parse_hex32] behind [0x]. *)
Lemma parse_hex32_fmt_X (w : nat) (v : Z) (rest : string) :
  0 <= v < 2 ^ 32 -> stops_hex rest = true ->
  parse_hex32 ("0x" +++ fmt_X w v +++ rest) = (v, rest).
Proof.
  intros Hv Hr. cbn [String.append parse_hex32].
  change (Ascii.eqb "x" "x" || Ascii.eqb "x" "X") with true. cbn iota.
  unfold fmt_X. rewrite pad_zero_append, scan_hex32_pad.
  rewrite scan_hex32_digits.
  - cbn [String.append]. rewrite Z.mul_0_l, Z.add_0_l. apply scan_hex32_stop. exact Hr.
  - change (16 ^ Z.of_nat 16) with (2 ^ 64). lia.
  - lia.
  - lia.
Qed.

(** X13.  One line of the constant pool, as [milo_glsl_get_asm] prints it, read by
    one round of the [.data] loop of [milo_vm_load_asm]: the word at
    [addr / 4] becomes [value] when [addr] is inside the memory, and the
    scan goes on behind the value. *)
Theorem data_line_scanned (fuel : nat) (addr value : Z) (tail : string) (m : list Z) :
  0 <= addr < 2 ^ 32 -> 0 <= value < 2 ^ 32 ->
  data_scan (S fuel)
    (".data 0x" +++ fmt_X 4 addr +++ ", 0x" +++ fmt_X 8 value +++ "  ; " +++ tail) m =
  data_scan fuel ("  ; " +++ tail)
    (if addr <? VM_MEM_SIZE then <[Z.to_nat (addr / 4) := value]> m else m).
Proof.
  intros Ha Hv. cbn [data_scan].
  change (".data 0x" +++ fmt_X 4 addr +++ ", 0x" +++ fmt_X 8 value +++ "  ; " +++ tail)
    with (".data " +++ ("0x" +++ fmt_X 4 addr +++ ", 0x" +++ fmt_X 8 value +++ "  ; " +++ tail)).
  assert (Hs : forall s, strstr_skip (".data " +++ s) ".data " = Some s).
  { intros s. destruct s; reflexivity. }
  rewrite Hs.
  assert (Hb : forall s, skip_chars is_blank ("0x" +++ s) = "0x" +++ s) by reflexivity.
  rewrite Hb.
  rewrite (parse_hex32_fmt_X 4 addr) by (try reflexivity; exact Ha).
  change (skip_chars is_comma_blank (", 0x" +++ fmt_X 8 value +++ "  ; " +++ tail))
    with ("0x" +++ fmt_X 8 value +++ "  ; " +++ tail).
  rewrite (parse_hex32_fmt_X 8 value) by (try reflexivity; exact Hv).
  reflexivity.
Qed.

Lemma data_line_scanned_witness :
  data_scan 1 (".data 0x1000, 0x3F000000  ; 0.500000" +++ NL) (replicate 2048 0)
    !! 1024%nat = Some 0x3F000000.
Proof.
  change (".data 0x1000, 0x3F000000  ; 0.500000" +++ NL)
    with (".data 0x" +++ fmt_X 4 0x1000 +++ ", 0x" +++ fmt_X 8 0x3F000000 +++ "  ; "
          +++ ("0.500000" +++ NL)).
  rewrite data_line_scanned by lia.
  reflexivity.
Defined.

(** * Further properties of the code generator *)

(** ** The constant pool *)

Lemma find_constant_Some (cs : list Z) (value : Z) :
  forall i k, find_constant cs value i = Some k ->
    i <= k < i + Z.of_nat (length cs) /\ cs !! Z.to_nat (k - i) = Some value /\
    forall j, (j < Z.to_nat (k - i))%nat -> cs !! j <> Some value.
Proof.
  induction cs as [| x cs IH]; intros i k H; cbn [find_constant] in H; [discriminate |].
  destruct (Z.eqb_spec x value) as [-> | Hne].
  - injection H as <-. replace (i - i) with 0 by lia. cbn [length].
    split; [lia |]. split; [reflexivity |]. intros j Hj. cbn in Hj. lia.
  - apply IH in H. destruct H as (Hr & Hk & Hfirst). cbn [length].
    split; [lia |].
    replace (Z.to_nat (k - i)) with (S (Z.to_nat (k - (i + 1)))) by lia.
    split; [exact Hk |].
    intros [| j] Hj; cbn.
    + congruence.
    + apply Hfirst. lia.
Qed.

Lemma find_constant_None (cs : list Z) (value : Z) :
  forall i, find_constant cs value i = None <-> value ∉ cs.
Proof.
  induction cs as [| x cs IH]; intros i; cbn [find_constant].
  - split; [intros _; apply not_elem_of_nil | reflexivity].
  - destruct (Z.eqb_spec x value) as [-> | Hne].
    + split; [discriminate |]. intros H. exfalso. apply H. left.
    + rewrite IH. rewrite not_elem_of_cons. split; [auto | tauto].
Qed.

Lemma find_constant_app (cs : list Z) (value : Z) :
  forall i, value ∉ cs ->
    find_constant (cs ++ [value]) value i = Some (i + Z.of_nat (length cs)).
Proof.
  induction cs as [| x cs IH]; intros i Hn; cbn [find_constant app length].
  - rewrite Z.eqb_refl. f_equal. lia.
  - apply not_elem_of_cons in Hn. destruct Hn as [Hne Hn].
    destruct (Z.eqb_spec x value); [congruence |].
    rewrite IH by exact Hn. f_equal. lia.
Qed.

(** X14.  [add_constant] interns: a value already in the pool gets the address of
    its first entry and the pool stays as it is; a new value is appended
    while there is room.  The address returned is that of an entry holding
    the value, word aligned and inside the interpreter's memory; asking
    again gives the same address; entries never move; a pool without
    repetitions stays so. *)
Theorem add_constant_spec (value : Z) (c : milo_compiler_t) :
  Z.of_nat (length (c_constants c)) <= MILO_MAX_CONSTANTS ->
  value ∈ c_constants c \/ Z.of_nat (length (c_constants c)) < MILO_MAX_CONSTANTS ->
  exists addr c',
    add_constant value c = Some (addr, c') /\
    c_constants c' !! Z.to_nat ((addr - MILO_CONST_BASE_ADDR) / 4) = Some value /\
    MILO_CONST_BASE_ADDR <= addr < VM_MEM_SIZE /\ addr mod 4 = 0 /\
    (exists extra, c_constants c' = (c_constants c ++ extra)%list) /\
    Z.of_nat (length (c_constants c')) <= MILO_MAX_CONSTANTS /\
    c_errors c' = c_errors c /\ c_code c' = c_code c /\
    add_constant value c' = Some (addr, c') /\
    (NoDup (c_constants c) -> NoDup (c_constants c')).
Proof.
  intros Hlen Hroom. unfold add_constant.
  unfold MILO_MAX_CONSTANTS, MILO_CONST_BASE_ADDR, VM_MEM_SIZE in *.
  destruct (find_constant (c_constants c) value 0) as [k |] eqn:Hf.
  - pose proof (find_constant_Some _ _ _ _ Hf) as (Hr & Hk & _).
    rewrite Z.sub_0_r in Hk.
    exists (4096 + k * 4), c. split; [reflexivity |].
    replace ((4096 + k * 4 - 4096) / 4) with k
      by (rewrite Z.add_simpl_l, Z.div_mul; lia).
    split; [exact Hk |]. split; [lia |].
    split; [rewrite Z.mod_add by lia; reflexivity |].
    split; [exists []; rewrite app_nil_r; reflexivity |].
    split; [exact Hlen |]. split; [reflexivity |]. split; [reflexivity |].
    split; [rewrite Hf; reflexivity | auto].
  - apply find_constant_None in Hf.
    destruct Hroom as [Hin | Hlt]; [contradiction |].
    destruct (Z.leb_spec 256 (Z.of_nat (length (c_constants c)))); [lia |].
    eexists _, _. split; [reflexivity |]. cbn [c_constants c_errors c_code].
    replace ((4096 + Z.of_nat (length (c_constants c)) * 4 - 4096) / 4)
      with (Z.of_nat (length (c_constants c)))
      by (rewrite Z.add_simpl_l, Z.div_mul; lia).
    rewrite Nat2Z.id.
    split; [apply list_lookup_middle; reflexivity |].
    split; [lia |].
    split; [rewrite Z.mod_add by lia; reflexivity |].
    split; [eexists; reflexivity |].
    split; [rewrite length_app; cbn [length]; lia |].
    split; [reflexivity |]. split; [reflexivity |].
    split.
    + rewrite find_constant_app by exact Hf. rewrite Z.add_0_l. reflexivity.
    + intros Hnd. apply NoDup_app. split; [exact Hnd |].
      split; [| apply NoDup_singleton].
      intros x Hx Hx'. apply list_elem_of_singleton in Hx'. subst x. contradiction.
Qed.

Lemma add_constant_spec_witness :
  exists c',
    add_constant 0x3F000000 milo_glsl_init = Some (0x1000, c') /\
    add_constant 0x3F000000 c' = Some (0x1000, c').
Proof.
  destruct (add_constant_spec 0x3F000000 milo_glsl_init)
    as (addr & c' & Ha & _ & _ & _ & _ & _ & _ & _ & Hagain & _).
  - cbn. unfold MILO_MAX_CONSTANTS. lia.
  - right. cbn. unfold MILO_MAX_CONSTANTS. lia.
  - assert (He : add_constant 0x3F000000 milo_glsl_init
                 = Some (0x1000, snd (0x1000,
                     {| c_line := 1; c_symtab := []; c_code := []; c_next_reg := 2;
                        c_next_label := 0; c_constants := [0x3F000000];
                        c_errors := [] |}))) by reflexivity.
    rewrite He in Ha. injection Ha as <- <-.
    eexists. split; [exact He | exact Hagain].
Defined.

(** ** The symbol table *)

(** X15.  A lookup finds the first symbol of a name: declaring a name again does
    not change what its uses refer to, and a declaration made when the table
    is full is lost without an error: the compiler state is then returned
    as it was.  Adding a symbol never reports an error, emits no code and
    allocates neither a register, a label nor a constant. *)
Theorem add_symbol_first_wins (s : milo_symbol_t) (name : string) (c : milo_compiler_t) :
  exists c',
    add_symbol s c = Some (tt, c') /\
    c_errors c' = c_errors c /\
    c_code c' = c_code c /\ c_next_reg c' = c_next_reg c /\
    c_next_label c' = c_next_label c /\ c_constants c' = c_constants c /\
    c_line c' = c_line c /\
    (MILO_MAX_SYMBOLS <= Z.of_nat (length (c_symtab c)) -> c' = c) /\
    (Z.of_nat (length (c_symtab c)) < MILO_MAX_SYMBOLS ->
     c_symtab c' = (c_symtab c ++ [s])%list) /\
    find_symbol (c_symtab c') name =
      match find_symbol (c_symtab c) name with
      | Some s0 => Some s0
      | None =>
          if (Z.of_nat (length (c_symtab c)) <? MILO_MAX_SYMBOLS)
             && String.eqb (sym_name s) name
          then Some s else None
      end.
Proof.
  unfold add_symbol.
  destruct (Z.ltb_spec (Z.of_nat (length (c_symtab c))) MILO_MAX_SYMBOLS) as [Hlt | Hge].
  - eexists. split; [reflexivity |].
    cbn [c_code c_next_reg c_symtab c_errors c_next_label c_constants c_line].
    do 6 (split; [reflexivity |]).
    split; [intros Hfull; exfalso; lia |]. split; [reflexivity |].
    clear Hlt. induction (c_symtab c) as [| s0 syms IH]; cbn [find_symbol app andb].
    + destruct (String.eqb (sym_name s) name); reflexivity.
    + destruct (String.eqb (sym_name s0) name); [reflexivity | exact IH].
  - exists c. split; [reflexivity |]. do 6 (split; [reflexivity |]).
    split; [reflexivity |]. split; [intros Hlt; exfalso; lia |].
    cbn [andb]. destruct (find_symbol (c_symtab c) name); reflexivity.
Qed.

(** ** The address operand of [ldr] *)

Section LoadOperand.

Variable L : libc_t.

(** X16.  [ldr] and [str] have the operand format [rr]: of [ldr rd, rs1, addr] the
    assembler reads two registers and never looks at [addr]; the immediate
    of the word is 0.  The interpreter then loads from [regs[rs1] + 0]; with
    [rs1 = r0], as the compiler emits it for every constant of the pool, that
    is the word at address 0 whatever [addr] was. *)
Theorem ldr_operand_dropped :
  (exists op, find_opcode "ldr" = Some op /\ op_opcode op = OP_LDR /\
     forall rd_arg rs1_arg addr_arg cs ln unres rd_reg rs1_reg,
       parse_register rd_arg = Some rd_reg ->
       parse_register rs1_arg = Some rs1_reg ->
       exists inst,
         build_inst L (op_format op) 0 [rd_arg; rs1_arg; addr_arg] cs ln
           {| opcode := op_opcode op; rd := 0; rs1 := 0; rs2 := 0; rs3 := 0;
              pred := 0; imm := 0; has_imm := false; has_rs3 := false |} unres
         = (inl inst, unres) /\
         rd inst = rd_reg /\ rs1 inst = rs1_reg /\ imm inst = 0 /\
         has_imm inst = false /\
         Z.land (milo_encode_inst inst) 0xFFFFF = 0) /\
  (forall vm inst word,
     vm_wf vm -> pc vm < code_size vm ->
     arr_get (code vm) (pc vm) = Some inst ->
     inst_opcode inst = OP_LDR -> inst_rs1 inst = 0 -> inst_imm inst = 0 ->
     1 <= inst_rd inst <= 63 -> inst_rs2 inst <= 63 ->
     mem vm !! 0%nat = Some word ->
     exists vm', vm_step L vm = Some (true, vm') /\
       regs vm' !! Z.to_nat (inst_rd inst) = Some word).
Proof.
  split.
  - eexists. split; [vm_compute; reflexivity |]. split; [reflexivity |].
    intros rd_arg rs1_arg addr_arg cs ln unres rd_reg rs1_reg Hrd Hrs1.
    cbn [op_format op_opcode build_inst].
    change (Ascii.eqb "r" "r") with true. cbn iota. rewrite Hrd, Hrs1.
    eexists. split; [reflexivity |].
    cbn [rd rs1 imm has_imm set_reg_field].
    repeat (split; [reflexivity |]).
    unfold milo_encode_inst. cbn [opcode rd rs1 rs2 rs3 pred imm has_rs3 has_imm].
    change (0 =? 0) with true. cbn iota. change (Z.land 7 15) with (Z.ones 3).
    change (Z.land 0 1048575) with 0. change 1048575 with (Z.ones 20).
    bits_by_range i (fun i => i < 20 \/ 20 <= i).
  - intros vm inst word (Hlen & Hwf) Hpc Hi Hop H1 Himm Hrd Hrs2 Hmem.
    destruct Hwf as (_ & _ & _ & _ & Hmlen).
    set (r := <[0%nat := 0]> (regs vm)).
    assert (Hset : arr_set (regs vm) 0 0 = Some r).
    { apply arr_set_in_range. rewrite Hlen. lia. }
    assert (Hlr : length r = 64%nat) by (unfold r; rewrite length_insert; exact Hlen).
    assert (Hr0 : arr_get r 0 = Some 0).
    { unfold arr_get. cbn. apply list_lookup_insert_eq. rewrite Hlen. lia. }
    assert (Hrs2nn : 0 <= inst_rs2 inst).
    { unfold inst_rs2. apply Z.land_nonneg. right. lia. }
    assert (Hu2 : exists u2, arr_get r (inst_rs2 inst) = Some u2).
    { unfold arr_get. destruct (Z.leb_spec 0 (inst_rs2 inst)); [| lia].
      apply lookup_lt_is_Some_2. rewrite Hlr. lia. }
    destruct Hu2 as [u2 Hu2].
    set (r1 := <[Z.to_nat (inst_rd inst) := word]> r).
    exists (set_regs (set_regs (step_entry vm r) r1) (<[0%nat := 0]> r1)).
    split.
    + eapply (vm_step_continue L vm inst r 0 u2); try eassumption.
      * rewrite H1. exact Hr0.
      * rewrite Hop, Himm. rewrite exec_op_ldr.
        change (u32 (0 + u32 0) <? VM_MEM_SIZE) with true. cbn iota.
        change (u32 (0 + u32 0) / 4) with 0.
        cbn [mem step_entry set_cycle_count set_pc set_regs].
        change (arr_get (mem vm) 0) with (mem vm !! 0%nat). rewrite Hmem.
        cbn [mbind option_bind]. unfold wr.
        cbn [regs step_entry set_cycle_count set_pc set_regs].
        rewrite arr_set_in_range by (rewrite Hlr; lia). reflexivity.
      * cbn [regs set_regs]. apply arr_set_in_range.
        unfold r1. rewrite length_insert, Hlr. lia.
    + cbn [regs set_regs]. rewrite list_lookup_insert_ne by lia.
      unfold r1. apply list_lookup_insert_eq. rewrite Hlr. lia.
Qed.

End LoadOperand.

(** ** Which instructions read the immediate *)

(** The opcodes whose case in [vm_step] mentions [imm]. *)
Definition reads_imm (op : Z) : bool :=
  (op =? OP_ADD) || (op =? OP_BRA) || (op =? OP_BEQ) || (op =? OP_BNE)
  || (op =? OP_SSY) || (op =? OP_CALL) || (op =? OP_LDR) || (op =? OP_STR).

Lemma same_if {A : Type} (b : bool) (x y x' y' : A) :
  (b = true -> x = x') -> (b = false -> y = y') ->
  (if b then x else y) = (if b then x' else y').
Proof. destruct b; auto. Qed.

Section Immediates.

Variable L : libc_t.

(** X17.  Only [add], the branches, [ssy], [call], [ldr] and [str] look at
    the immediate of their word: for every other opcode the result of the
    instruction is the same whatever the immediate is.  So the immediate of
    [xori rd, rs, 1], which the compiler emits for [!] and [!=], and of
    [subi], [muli], [andi], [ori], [shli], [shri], [shai] has no effect. *)
Theorem immediate_ignored (vm : milo_vm_t) (op rd rs1 rs2 imm imm' rs3 u1 u2 : Z) :
  reads_imm op = false ->
  exec_op L vm op rd rs1 rs2 imm rs3 u1 u2 =
  exec_op L vm op rd rs1 rs2 imm' rs3 u1 u2.
Proof.
  intros Hr. unfold reads_imm in Hr.
  repeat (apply orb_false_elim in Hr; destruct Hr as [Hr ?]).
  unfold exec_op.
  repeat (apply same_if; [intros Hop; first [reflexivity | congruence] | intros _]).
  reflexivity.
Qed.

End Immediates.

Lemma immediate_ignored_witness :
  exec_op example_libc tiny_vm OP_XOR 8 8 0 1 0 5 0 =
  exec_op example_libc tiny_vm OP_XOR 8 8 0 0 0 5 0.
Proof. apply immediate_ignored. reflexivity. Defined.

(** ** Opcodes without a case *)

(** The opcodes with a case in the [switch] of [vm_step]. *)
Definition vm_opcodes : list Z :=
  [ OP_NOP; OP_EXIT; OP_MOV; OP_ADD; OP_SUB; OP_MUL; OP_NEG; OP_IDIV; OP_IREM;
    OP_IABS; OP_IMIN; OP_IMAX; OP_IMAD; OP_SLT; OP_SLE; OP_SEQ;
    OP_AND; OP_OR; OP_XOR; OP_NOT; OP_SHL; OP_SHR; OP_SHA;
    OP_FADD; OP_FSUB; OP_FMUL; OP_FDIV; OP_FFMA; OP_FNEG; OP_FABS; OP_FMIN; OP_FMAX;
    OP_FTOI; OP_ITOF; 0x72; 0x73; 0x74;
    OP_SFU_SIN; OP_SFU_COS; OP_SFU_EX2; OP_SFU_LG2; OP_SFU_RCP; OP_SFU_RSQ;
    OP_SFU_SQRT; OP_SFU_TANH;
    OP_POPC; OP_CLZ; OP_BREV; OP_CNOT; OP_SELP;
    OP_BRA; OP_BEQ; OP_BNE; OP_SSY; OP_JOIN; OP_CALL; OP_RET; OP_TID; OP_BAR;
    OP_TEX; OP_LDR; OP_STR; OP_LDS; OP_STS ].

Definition has_case (op : Z) : bool := existsb (Z.eqb op) vm_opcodes.

(** The error text is as before. *)
Definition keeps_error (vm : milo_vm_t) (r : option (bool * milo_vm_t)) : Prop :=
  forall b vm', r = Some (b, vm') -> error vm' = error vm.

Lemma keeps_error_if (vm : milo_vm_t) (b : bool) (x y : option (bool * milo_vm_t)) :
  (b = true -> keeps_error vm x) -> (b = false -> keeps_error vm y) ->
  keeps_error vm (if b then x else y).
Proof. destruct b; auto. Qed.

Lemma keeps_error_bind {A : Type} (vm : milo_vm_t) (x : option A)
    (f : A -> option (bool * milo_vm_t)) :
  (forall a, keeps_error vm (f a)) -> keeps_error vm (x ≫= f).
Proof. intros H b vm' E. destruct x as [a |]; [exact (H a b vm' E) | discriminate E]. Qed.

Lemma keeps_error_ret (vm : milo_vm_t) (b : bool) (vm1 : milo_vm_t) :
  error vm1 = error vm -> keeps_error vm (Some (b, vm1)).
Proof. intros H b' vm' [= <- <-]. exact H. Qed.

Lemma keeps_error_none (vm : milo_vm_t) : keeps_error vm None.
Proof. intros b vm' E. discriminate E. Qed.

Lemma keeps_error_wr (vm : milo_vm_t) (rd v : Z) : keeps_error vm (wr vm rd v).
Proof.
  unfold wr. apply keeps_error_bind. intros r. apply keeps_error_ret. reflexivity.
Qed.

Lemma keeps_error_tex (vm : milo_vm_t) (rd rs2 u1 : Z) (f2 : spec_float) :
  keeps_error vm (exec_tex vm rd rs2 u1 f2).
Proof.
  unfold exec_tex. apply keeps_error_bind. intros v.
  match goal with |- keeps_error _ (match ?x with _ => _ end) => destruct x end;
    repeat (apply keeps_error_bind; intros ?); apply keeps_error_ret; reflexivity.
Qed.

Ltac error_branch :=
  first
    [ apply keeps_error_wr
    | apply keeps_error_tex
    | apply keeps_error_ret; reflexivity
    | apply keeps_error_none
    | apply keeps_error_bind; intros ?; error_branch
    | apply keeps_error_if; intros _; error_branch ].

Section OpcodeCases.

Variable L : libc_t.

Lemma exec_op_known vm op rd rs1 rs2 imm rs3 u1 u2 :
  has_case op = true ->
  keeps_error vm (exec_op L vm op rd rs1 rs2 imm rs3 u1 u2).
Proof.
  intros Hk. unfold exec_op.
  repeat (apply keeps_error_if; [intros _; solve [error_branch] | intros ?]).
  exfalso. unfold has_case, vm_opcodes in Hk. cbn [existsb] in Hk.
  repeat match goal with
  | H : (_ || _) = false |- _ => apply orb_false_elim in H; destruct H
  end.
  repeat match goal with
  | H : (op =? _) = false |- _ => rewrite H in Hk; clear H
  end.
  cbn [orb] in Hk. discriminate Hk.
Qed.

Lemma exec_op_unknown vm op rd rs1 rs2 imm rs3 u1 u2 :
  has_case op = false ->
  exec_op L vm op rd rs1 rs2 imm rs3 u1 u2 =
    Some (false, set_error vm ("Unknown opcode: 0x" +++ fmt_X 2 op +++ " at PC "
                               +++ fmt_d (u32 (pc vm - 1)))).
Proof.
  intros Hk. unfold has_case, vm_opcodes in Hk. cbn [existsb] in Hk.
  repeat (apply orb_false_elim in Hk; destruct Hk as [? Hk]).
  unfold exec_op.
  repeat match goal with
  | H : (op =? ?c) = false |- context [op =? ?c] => rewrite H; clear H
  end.
  reflexivity.
Qed.

Lemma exec_op_stops vm op rd rs1 rs2 imm rs3 u1 u2 :
  has_case op = false ->
  exists vm1, exec_op L vm op rd rs1 rs2 imm rs3 u1 u2 = Some (false, vm1).
Proof. intros Hk. rewrite exec_op_unknown by exact Hk. eexists. reflexivity. Qed.

(** X18.  A step changes the error text only when it stops: either the
    program counter is outside the loaded code, or the opcode of the word at
    the program counter has no case in the [switch]. *)
Theorem step_error_cases (vm : milo_vm_t) (b : bool) (vm' : milo_vm_t) :
  vm_step L vm = Some (b, vm') ->
  error vm' <> error vm ->
  b = false /\
  (code_size vm <= pc vm \/
   exists inst, arr_get (code vm) (pc vm) = Some inst /\
                has_case (inst_opcode inst) = false).
Proof.
  unfold vm_step. intros H Hne.
  destruct (code_size vm <=? pc vm) eqn:Hpc.
  { injection H as <- <-. split; [reflexivity |]. left. apply Z.leb_le. exact Hpc. }
  apply bind_Some in H. destruct H as (inst & Hinst & H).
  apply bind_Some in H. destruct H as (r & Hr & H).
  apply bind_Some in H. destruct H as (u1 & Hu1 & H).
  apply bind_Some in H. destruct H as (u2 & Hu2 & H).
  apply bind_Some in H. destruct H as ([b1 vm1] & Hop & H).
  destruct (has_case (inst_opcode inst)) eqn:Hk.
  - exfalso. apply Hne.
    apply exec_op_known in Hop; [| exact Hk].
    destruct b1.
    + apply bind_Some in H. destruct H as (r' & _ & H).
      injection H as <- <-. exact Hop.
    + injection H as <- <-. exact Hop.
  - match type of Hop with
    | exec_op _ ?v _ ?a1 ?a2 ?a3 ?a4 ?a5 _ _ = _ =>
        destruct (exec_op_stops v _ a1 a2 a3 a4 a5 u1 u2 Hk) as (vm2 & E)
    end.
    rewrite E in Hop. clear E.
    injection Hop as <- <-. injection H as <- <-.
    split; [reflexivity |]. right. exists inst. split; [exact Hinst | exact Hk].
Qed.

(** X19.  An opcode without a case stops the machine with the "Unknown
    opcode" text, and the assembler's table holds four mnemonics with such
    an opcode: [isetp], [fsetp], [txl] and [txb] assemble, but do not run. *)
Theorem unimplemented_mnemonics :
  map op_name (List.filter (fun e => negb (has_case (op_opcode e))) opcode_table)
    = ["isetp"; "fsetp"; "txl"; "txb"]%string /\
  forall (vm : milo_vm_t) (op rd rs1 rs2 imm rs3 u1 u2 : Z),
    has_case op = false ->
    exec_op L vm op rd rs1 rs2 imm rs3 u1 u2 =
      Some (false, set_error vm ("Unknown opcode: 0x" +++ fmt_X 2 op +++ " at PC "
                                 +++ fmt_d (u32 (pc vm - 1)))).
Proof.
  split; [vm_compute; reflexivity |].
  intros vm op rd rs1 rs2 imm rs3 u1 u2. apply exec_op_unknown.
Qed.

End OpcodeCases.

(** A machine whose program is the word the assembler gives for
    [isetp r1, r2, r3]. *)
Definition isetp_vm : milo_vm_t :=
  {| regs := replicate 64 0; code := 0x8001020370000000 :: replicate 4095 0;
     code_size := 1; pc := 0;
     div_stack := replicate 256 0; div_sp := 0;
     ret_stack := replicate 256 0; ret_sp := 0;
     uniforms := replicate 32 (replicate 16 0); uniform_count := 0;
     textures := replicate 8 None; mem := replicate 2048 0;
     running := true; discarded := false; cycle_count := 0;
     max_cycles := 4; error := "" |}.

Lemma step_error_cases_witness :
  false = false /\
  (code_size isetp_vm <= pc isetp_vm \/
   exists inst, arr_get (code isetp_vm) (pc isetp_vm) = Some inst /\
                has_case (inst_opcode inst) = false).
Proof.
  apply (step_error_cases example_libc isetp_vm false
           (set_error
              (set_cycle_count (set_pc isetp_vm 1) 1)
              "Unknown opcode: 0x80 at PC 0")).
  - vm_compute. reflexivity.
  - vm_compute. discriminate.
Defined.
